(** * SA-IS suffix-array construction (bzip2/sais.c): model and properties

    The C file is embedded function by function.  Integers ([int]) are [Z].
    The sums and differences that involve the workspace size [n + fs] (lines
    369, 379 and 489-497) are written with the wrap-around of a 32-bit
    [int], since [n + fs] may exceed [INT_MAX].  The remaining arithmetic is
    on positions, counts and bucket indices bounded by the length of the
    text, or is guarded by the program itself ([k * 2] by [2 <= n / k] at
    line 398, [j + n] in the two-pass sort by [n <= SAIS_LMSSORT2_LIMIT]);
    it stays within the width of [int].  Memory is a list of blocks
    (the caller's [SA] array, the text [T], and [malloc]ed buffers); a pointer
    is a block and an offset counted in elements, so that the aliasing the
    program relies on ([B == C], buckets inside the tail of [SA], the reduced
    string [RA] inside [SA]) is the aliasing of the model.  Every access
    outside a live block, every read of a cell never written and every failed
    [assert] stops the run with an error. *)

From stdpp Require Import base tactics option list numbers list_numbers gmap.
From Stdlib Require Import ZArith Lia.

Local Open Scope Z_scope.

(** ** Memory *)

Record ptr := Ptr { pblock : nat; poff : Z }.

Global Instance ptr_eq_dec : EqDecision ptr.
Proof. solve_decision. Defined.

Definition padd (p : ptr) (d : Z) : ptr := Ptr (pblock p) (poff p + d).
Infix "+ₚ" := padd (at level 50, left associativity).

(** A cell is [None] until it is first written. A block is [None] once freed. *)
Abbreviation cell := (option Z).
Abbreviation memory := (list (option (list (option Z)))).

(** Ghost events: the calls to [malloc] and [free], and every entry into
    [computeSA] with its arguments. *)
Inductive event :=
  | EvMalloc (num : Z) (res : option nat)
  | EvFree (b : nat)
  | EvEnter (T SA : ptr) (fs n k cs : Z).

Inductive error :=
  | OutOfBounds (p : ptr)
  | Uninitialised (p : ptr)
  | DeadBlock (p : ptr)
  | AssertFailed (line : Z)
  | OutOfFuel.

(** [oracle]: the results of the coming calls of [malloc] ([false]: NULL);
    past its end every call succeeds.  [log]: newest event first. *)
Record state := State { mem : memory; oracle : list bool; log : list event }.

(** A run ends normally ([Ret]), by a [return] statement of the enclosing
    C function ([Exit]) or in an error ([Abort]). *)
Inductive outcome (A : Type) :=
  | Ret (a : A)
  | Exit (status : Z)
  | Abort (e : error).
Arguments Ret {A} a.
Arguments Exit {A} status.
Arguments Abort {A} e.

Definition M (A : Type) : Type := state → outcome A * state.

Global Instance M_ret : MRet M := λ A a s, (Ret a, s).
Global Instance M_bind : MBind M := λ A B f c s,
  match c s with
  | (Ret a, s') => f a s'
  | (Exit z, s') => (Exit z, s')
  | (Abort e, s') => (Abort e, s')
  end.

Definition abort {A} (e : error) : M A := λ s, (Abort e, s).
Definition exit_ {A} (status : Z) : M A := λ s, (Exit status, s).

(** The body of a C function: a [return] inside ends the call. *)
Definition function (body : M Z) : M Z := λ s,
  match body s with
  | (Exit z, s') => (Ret z, s')
  | r => r
  end.

Definition assert_ (line : Z) (b : bool) : M unit :=
  if b then mret tt else abort (AssertFailed line).

Definition when_ (b : bool) (c : M unit) : M unit := if b then c else mret tt.

Definition trace (e : event) : M unit := λ s,
  (Ret tt, State (mem s) (oracle s) (e :: log s)).

Definition cells_at (m : memory) (b : nat) : option (list cell) :=
  match m !! b with Some (Some cs) => Some cs | _ => None end.

Definition load (p : ptr) : M Z := λ s,
  match cells_at (mem s) (pblock p) with
  | None => (Abort (DeadBlock p), s)
  | Some cs =>
      if poff p <? 0 then (Abort (OutOfBounds p), s)
      else match cs !! Z.to_nat (poff p) with
           | None => (Abort (OutOfBounds p), s)
           | Some None => (Abort (Uninitialised p), s)
           | Some (Some v) => (Ret v, s)
           end
  end.

Definition store (p : ptr) (v : Z) : M unit := λ s,
  match cells_at (mem s) (pblock p) with
  | None => (Abort (DeadBlock p), s)
  | Some cs =>
      if (poff p <? 0) || (Z.of_nat (length cs) <=? poff p)
      then (Abort (OutOfBounds p), s)
      else (Ret tt,
            State (<[pblock p := Some (<[Z.to_nat (poff p) := Some v]> cs)]> (mem s))
                  (oracle s) (log s))
  end.

(** [SAIS_MYMALLOC(num, int)]: a fresh block of [num] unwritten cells, or NULL
    when the oracle says so. *)
Definition malloc (num : Z) : M (option ptr) := λ s,
  let ok := match oracle s with [] => true | b :: _ => b end in
  let rest := tail (oracle s) in
  if ok then
    let b := length (mem s) in
    (Ret (Some (Ptr b 0)),
     State (mem s ++ [Some (replicate (Z.to_nat num) None)]) rest
           (EvMalloc num (Some b) :: log s))
  else (Ret None, State (mem s) rest (EvMalloc num None :: log s)).

(** [SAIS_MYFREE(ptr, num, int)]: the pointer must be the start of a live block. *)
Definition free (p : ptr) : M unit := λ s,
  match cells_at (mem s) (pblock p) with
  | None => (Abort (DeadBlock p), s)
  | Some _ =>
      if poff p =? 0
      then (Ret tt, State (<[pblock p := None]> (mem s)) (oracle s)
                          (EvFree (pblock p) :: log s))
      else (Abort (OutOfBounds p), s)
  end.

(** ** Loops *)

(** [for (i = i0; ...; ++i)] over [cnt] iterations, the loop's locals in [a]. *)
Fixpoint for_up {A} (cnt : nat) (i : Z) (body : Z → A → M A) (a : A) : M A :=
  match cnt with
  | O => mret a
  | S cnt => a' ← body i a; for_up cnt (i + 1) body a'
  end.

Fixpoint for_down {A} (cnt : nat) (i : Z) (body : Z → A → M A) (a : A) : M A :=
  match cnt with
  | O => mret a
  | S cnt => a' ← body i a; for_down cnt (i - 1) body a'
  end.

(** A loop whose number of iterations is not read off its header: the body
    returns [inl] to go round again and [inr] to leave. *)
Fixpoint loop {L R} (fuel : nat) (body : L → M (L + R)) (l : L) : M R :=
  match fuel with
  | O => abort OutOfFuel
  | S fuel =>
      x ← body l;
      match x with
      | inl l' => loop fuel body l'
      | inr r => mret r
      end
  end.

(** ** The program *)

(** [int] has 32 bits.  [wrap z] is the [int] that two's-complement
    arithmetic gives where the exact result is [z]. *)
Definition INT_MIN : Z := -2147483648.
Definition INT_MAX : Z := 2147483647.
Definition wrap (z : Z) : Z := (z - INT_MIN) mod 4294967296 + INT_MIN.

Definition MINBUCKETSIZE : Z := 256.
Definition SAIS_LMSSORT2_LIMIT : Z := 1073741823. (* 0x3fffffff *)
Definition sizeof_int : Z := 4.

(** [chr(a)]: element [a] of the text, whose elements are [cs] bytes wide. *)
Definition chr (T : ptr) (cs : Z) (a : Z) : M Z := load (T +ₚ a).

(** [flags & bits] is non-zero. *)
Definition has (flags bits : Z) : bool := negb (Z.land flags bits =? 0).

Definition getCounts (T C : ptr) (n k cs : Z) : M unit :=
  for_up (Z.to_nat k) 0 (λ i _, store (C +ₚ i) 0) tt;;
  for_up (Z.to_nat n) 0
    (λ i _, c ← chr T cs i; v ← load (C +ₚ c); store (C +ₚ c) (v + 1)) tt.

Definition getBuckets (C B : ptr) (k : Z) (end_ : bool) : M unit :=
  if end_ then
    for_up (Z.to_nat k) 0
      (λ i sum, ci ← load (C +ₚ i);
                let sum := sum + ci in
                store (B +ₚ i) sum;; mret sum) 0;;
    mret tt
  else
    for_up (Z.to_nat k) 0
      (λ i sum, ci ← load (C +ₚ i);
                let sum := sum + ci in
                ci' ← load (C +ₚ i);
                store (B +ₚ i) (sum - ci');; mret sum) 0;;
    mret tt.

(** [do { c1 = c0; } while ((0 <= --i) && ((c0 = chr(i)) >= c1));] when [ge],
    and the same with [<=] otherwise.  Gives the final [(i, c0, c1)]. *)
Definition scan_run (ge : bool) (T : ptr) (cs n : Z) (i c0 : Z) : M (Z * Z * Z) :=
  loop (S (Z.to_nat n))
    (λ '(i, c0),
       let c1 := c0 in
       let i := i - 1 in
       if 0 <=? i then
         c0 ← chr T cs i;
         if (if ge then c1 <=? c0 else c0 <=? c1)
         then mret (inl (i, c0))
         else mret (inr (i, c0, c1))
       else mret (inr (i, c0, c1)))
    (i, c0).

(** [if ((c0 = chr(j)) != c1) { B[c1] = b - SA; b = SA + B[c1 = c0]; }] with
    [b] kept as the index [b - SA].  Gives the new [(b, c1)]. *)
Definition switch_bucket (B : ptr) (c0 c1 b : Z) : M (Z * Z) :=
  if negb (c0 =? c1) then
    store (B +ₚ c1) b;;
    b' ← load (B +ₚ c0);
    mret (b', c0)
  else mret (b, c1).

Definition sortLMS1 (T SA C B : ptr) (n k cs : Z) : M unit :=
  (* Compute SAl. *)
  when_ (bool_decide (C = B)) (getCounts T C n k cs);;
  getBuckets C B k false;;
  let j := n - 1 in
  c1 ← chr T cs j;
  b ← load (B +ₚ c1);
  let j := j - 1 in
  cj ← chr T cs j;
  store (SA +ₚ b) (if cj <? c1 then Z.lnot j else j);;
  let b := b + 1 in
  for_up (Z.to_nat n) 0
    (λ i '(b, c1),
       j ← load (SA +ₚ i);
       if 0 <? j then
         x ← chr T cs j; y ← chr T cs (j + 1);
         assert_ 81 (y <=? x);;
         c0 ← chr T cs j;
         '(b, c1) ← switch_bucket B c0 c1 b;
         assert_ 86 (i <? b);;
         let j := j - 1 in
         cj ← chr T cs j;
         store (SA +ₚ b) (if cj <? c1 then Z.lnot j else j);;
         store (SA +ₚ i) 0;;
         mret (b + 1, c1)
       else if j <? 0 then
         store (SA +ₚ i) (Z.lnot j);; mret (b, c1)
       else mret (b, c1))
    (b, c1);;
  (* Compute SAs. *)
  when_ (bool_decide (C = B)) (getCounts T C n k cs);;
  getBuckets C B k true;;
  b ← load (B +ₚ 0);
  for_down (Z.to_nat n) (n - 1)
    (λ i '(b, c1),
       j ← load (SA +ₚ i);
       if 0 <? j then
         x ← chr T cs j; y ← chr T cs (j + 1);
         assert_ 102 (x <=? y);;
         c0 ← chr T cs j;
         '(b, c1) ← switch_bucket B c0 c1 b;
         assert_ 107 (b <=? i);;
         let j := j - 1 in
         cj ← chr T cs j;
         let b := b - 1 in
         store (SA +ₚ b) (if c1 <? cj then Z.lnot (j + 1) else j);;
         store (SA +ₚ i) 0;;
         mret (b, c1)
       else mret (b, c1))
    (b, 0);;
  mret tt.

Definition postProcLMS1 (T SA : ptr) (n m cs : Z) : M Z :=
  (* Compact all the sorted substrings into the first m items of SA. *)
  assert_ 122 (0 <? n);;
  i ← loop (S (Z.to_nat n))
        (λ i, p ← load (SA +ₚ i);
              if p <? 0 then
                store (SA +ₚ i) (Z.lnot p);;
                assert_ 125 (i + 1 <? n);;
                mret (inl (i + 1))
              else mret (inr i))
        0;
  when_ (i <? m)
    (loop (S (Z.to_nat n))
       (λ '(i, j),
          assert_ 129 (i <? n);;
          p ← load (SA +ₚ i);
          if p <? 0 then
            store (SA +ₚ j) (Z.lnot p);;
            let j := j + 1 in
            store (SA +ₚ i) 0;;
            if j =? m then mret (inr tt) else mret (inl (i + 1, j))
          else mret (inl (i + 1, j)))
       (i + 1, i));;
  (* Store the length of all substrings. *)
  c0 ← chr T cs (n - 1);
  '(i, c0, c1) ← scan_run true T cs n (n - 1) c0;
  loop (S (Z.to_nat n))
    (λ '(i, j, c0),
       if 0 <=? i then
         '(i, c0, c1) ← scan_run false T cs n i c0;
         if 0 <=? i then
           store (SA +ₚ (m + Z.shiftr (i + 1) 1)) (j - i);;
           let j := i + 1 in
           '(i, c0, c1) ← scan_run true T cs n i c0;
           mret (inl (i, j, c0))
         else mret (inl (i, j, c0))
       else mret (inr tt))
    (i, n - 1, c0);;
  (* Find the lexicographic names of all substrings. *)
  '(name, q, qlen) ←
    for_up (Z.to_nat m) 0
      (λ i '(name, q, qlen),
         p ← load (SA +ₚ i);
         plen ← load (SA +ₚ (m + Z.shiftr p 1));
         diff ←
           (if (plen =? qlen) && (q + plen <? n) then
              j ← loop (S (Z.to_nat plen))
                    (λ j, if j <? plen then
                            x ← chr T cs (p + j); y ← chr T cs (q + j);
                            if x =? y then mret (inl (j + 1)) else mret (inr j)
                          else mret (inr j))
                    0;
              mret (negb (j =? plen))
            else mret true);
         let '(name, q, qlen) :=
           if diff : bool then (name + 1, p, plen) else (name, q, qlen) in
         store (SA +ₚ (m + Z.shiftr p 1)) name;;
         mret (name, q, qlen))
      (0, n, 0);
  mret name.

Definition LMSsort2 (T SA C B D : ptr) (n k cs : Z) : M unit :=
  assert_ 184 (negb (bool_decide (C = B)));;
  (* Compute SAl. *)
  getBuckets C B k false;;
  let j := n - 1 in
  c1 ← chr T cs j;
  b ← load (B +ₚ c1);
  let j := j - 1 in
  cj ← chr T cs j;
  let t := if cj <? c1 then 1 else 0 in
  let j := j + n in
  store (SA +ₚ b) (if Z.testbit t 0 then Z.lnot j else j);;
  let b := b + 1 in
  '(b, c1, d) ←
    for_up (Z.to_nat n) 0
      (λ i '(b, c1, d),
         j ← load (SA +ₚ i);
         if 0 <? j then
           let '(d, j) := if n <=? j then (d + 1, j - n) else (d, j) in
           x ← chr T cs j; y ← chr T cs (j + 1);
           assert_ 200 (y <=? x);;
           c0 ← chr T cs j;
           '(b, c1) ← switch_bucket B c0 c1 b;
           assert_ 205 (i <? b);;
           let j := j - 1 in
           let t := c0 in
           cj ← chr T cs j;
           let t := Z.lor (Z.shiftl t 1) (if cj <? c1 then 1 else 0) in
           dt ← load (D +ₚ t);
           j ← (if negb (dt =? d) then store (D +ₚ t) d;; mret (j + n)
                else mret j);
           store (SA +ₚ b) (if Z.testbit t 0 then Z.lnot j else j);;
           store (SA +ₚ i) 0;;
           mret (b + 1, c1, d)
         else if j <? 0 then
           store (SA +ₚ i) (Z.lnot j);; mret (b, c1, d)
         else mret (b, c1, d))
      (b, c1, 0);
  loop (S (Z.to_nat n))
    (λ i,
       if 0 <=? i then
         x ← load (SA +ₚ i);
         if 0 <? x then
           x ← load (SA +ₚ i);
           if x <? n then
             x ← load (SA +ₚ i);
             store (SA +ₚ i) (x + n);;
             j ← loop (S (Z.to_nat n))
                   (λ j, y ← load (SA +ₚ j);
                         if y <? n then mret (inl (j - 1)) else mret (inr j))
                   (i - 1);
             y ← load (SA +ₚ j);
             store (SA +ₚ j) (y - n);;
             mret (inl (j - 1))
           else mret (inl (i - 1))
         else mret (inl (i - 1))
       else mret (inr tt))
    (n - 1);;
  (* Compute SAs. *)
  getBuckets C B k true;;
  let d := d + 1 in
  b ← load (B +ₚ 0);
  for_down (Z.to_nat n) (n - 1)
    (λ i '(b, c1, d),
       j ← load (SA +ₚ i);
       if 0 <? j then
         let '(d, j) := if n <=? j then (d + 1, j - n) else (d, j) in
         x ← chr T cs j; y ← chr T cs (j + 1);
         assert_ 238 (x <=? y);;
         c0 ← chr T cs j;
         '(b, c1) ← switch_bucket B c0 c1 b;
         assert_ 243 (b <=? i);;
         let j := j - 1 in
         let t := c0 in
         cj ← chr T cs j;
         let t := Z.lor (Z.shiftl t 1) (if c1 <? cj then 1 else 0) in
         dt ← load (D +ₚ t);
         j ← (if negb (dt =? d) then store (D +ₚ t) d;; mret (j + n)
              else mret j);
         let b := b - 1 in
         store (SA +ₚ b) (if Z.testbit t 0 then Z.lnot (j + 1) else j);;
         store (SA +ₚ i) 0;;
         mret (b, c1, d)
       else mret (b, c1, d))
    (b, 0, d);;
  mret tt.

Definition postProcLMS2 (SA : ptr) (n m : Z) : M Z :=
  (* Compact all the sorted LMS substrings into the first m items of SA. *)
  assert_ 261 (0 <? n);;
  '(i, name) ←
    loop (S (Z.to_nat n))
      (λ '(i, name),
         j ← load (SA +ₚ i);
         if j <? 0 then
           let j := Z.lnot j in
           let name := if n <=? j then name + 1 else name in
           store (SA +ₚ i) j;;
           assert_ 268 (i + 1 <? n);;
           mret (inl (i + 1, name))
         else mret (inr (i, name)))
      (0, 0);
  name ←
    (if i <? m then
       loop (S (Z.to_nat n))
         (λ '(i, d, name),
            assert_ 272 (i <? n);;
            j ← load (SA +ₚ i);
            if j <? 0 then
              let j := Z.lnot j in
              let name := if n <=? j then name + 1 else name in
              store (SA +ₚ d) j;;
              let d := d + 1 in
              store (SA +ₚ i) 0;;
              if d =? m then mret (inr name) else mret (inl (i + 1, d, name))
            else mret (inl (i + 1, d, name)))
         (i + 1, i, name)
     else mret name);
  (if name <? m then
     (* Store the lexicographic names. *)
     for_down (Z.to_nat m) (m - 1)
       (λ i d,
          j ← load (SA +ₚ i);
          let '(j, d) := if n <=? j then (j - n, d - 1) else (j, d) in
          store (SA +ₚ (m + Z.shiftr j 1)) d;;
          mret d)
       (name + 1);;
     mret tt
   else
     (* Unset flags. *)
     for_up (Z.to_nat m) 0
       (λ i _, j ← load (SA +ₚ i);
               if n <=? j then store (SA +ₚ i) (j - n) else mret tt)
       tt);;
  mret name.

Definition induceSA (T SA C B : ptr) (n k cs : Z) : M unit :=
  (* Compute SAl. *)
  when_ (bool_decide (C = B)) (getCounts T C n k cs);;
  getBuckets C B k false;;
  let j := n - 1 in
  c1 ← chr T cs j;
  b ← load (B +ₚ c1);
  f ← (if 0 <? j then cj ← chr T cs (j - 1); mret (cj <? c1) else mret false);
  store (SA +ₚ b) (if f : bool then Z.lnot j else j);;
  let b := b + 1 in
  for_up (Z.to_nat n) 0
    (λ i '(b, c1),
       j ← load (SA +ₚ i);
       store (SA +ₚ i) (Z.lnot j);;
       if 0 <? j then
         let j := j - 1 in
         x ← chr T cs j; y ← chr T cs (j + 1);
         assert_ 324 (y <=? x);;
         c0 ← chr T cs j;
         '(b, c1) ← switch_bucket B c0 c1 b;
         assert_ 329 (i <? b);;
         f ← (if 0 <? j then cj ← chr T cs (j - 1); mret (cj <? c1)
              else mret false);
         store (SA +ₚ b) (if f : bool then Z.lnot j else j);;
         mret (b + 1, c1)
       else mret (b, c1))
    (b, c1);;
  (* Compute SAs. *)
  when_ (bool_decide (C = B)) (getCounts T C n k cs);;
  getBuckets C B k true;;
  b ← load (B +ₚ 0);
  for_down (Z.to_nat n) (n - 1)
    (λ i '(b, c1),
       j ← load (SA +ₚ i);
       if 0 <? j then
         let j := j - 1 in
         x ← chr T cs j; y ← chr T cs (j + 1);
         assert_ 342 (x <=? y);;
         c0 ← chr T cs j;
         '(b, c1) ← switch_bucket B c0 c1 b;
         assert_ 347 (b <=? i);;
         f ← (if j =? 0 then mret true
              else cj ← chr T cs (j - 1); mret (c1 <? cj));
         let b := b - 1 in
         store (SA +ₚ b) (if f : bool then Z.lnot j else j);;
         mret (b, c1)
       else
         store (SA +ₚ i) (Z.lnot j);; mret (b, c1))
    (b, 0);;
  mret tt.

(** Lines 364-397 of [computeSA]: where [C] and [B] live, and the regime
    [flags].  A failed allocation leaves through [return -2].  The offset
    [n + fs - k] is computed in [int]. *)
Definition alloc_workspace (SA : ptr) (fs n k : Z) : M (ptr * ptr * Z) :=
  if k <=? MINBUCKETSIZE then
    C ← malloc k;
    match C with
    | None => exit_ (-2)
    | Some C =>
        if k <=? fs then mret (C, SA +ₚ wrap (wrap (n + fs) - k), 1)
        else
          B ← malloc k;
          match B with
          | None => free C;; exit_ (-2)
          | Some B => mret (C, B, 3)
          end
    end
  else if k <=? fs then
    let C := SA +ₚ wrap (wrap (n + fs) - k) in
    if k <=? fs - k then mret (C, C +ₚ (- k), 0)
    else if k <=? MINBUCKETSIZE * 4 then
      B ← malloc k;
      match B with
      | None => exit_ (-2)
      | Some B => mret (C, B, 2)
      end
    else mret (C, C, 8)
  else
    C ← malloc k;
    match C with
    | None => exit_ (-2)
    | Some C => mret (C, C, Z.lor 4 8)
    end.

(** Lines 398-404: the two-pass sort is chosen by setting flag 16 ([D] on the
    heap) or 32 ([D] in the tail of [SA]). *)
Definition sort2_flags (flags fs n k : Z) : Z :=
  if (n <=? SAIS_LMSSORT2_LIMIT) && (2 <=? Z.quot n k) then
    if has flags 1 then Z.lor flags (if k * 2 <=? fs - k then 32 else 16)
    else if (flags =? 0) && (k * 2 <=? fs - k * 2) then Z.lor flags 32
    else flags
  else flags.

(** [*b = v] where [b] is [&t] ([None]) or [SA + b]. *)
Definition store_b (SA : ptr) (b : option Z) (v : Z) : M unit :=
  match b with
  | None => mret tt
  | Some b => store (SA +ₚ b) v
  end.

(** Lines 413-437: the right-to-left scan that finds the LMS positions.
    Gives the final [(m, j, b)]. *)
Definition discoverLMS (T SA B : ptr) (n cs : Z) : M (Z * Z * option Z) :=
  c0 ← chr T cs (n - 1);
  '(i, c0, c1) ← scan_run true T cs n (n - 1) c0;
  loop (S (Z.to_nat n))
    (λ '(i, c0, j, m, b),
       if 0 <=? i then
         '(i, c0, c1) ← scan_run false T cs n i c0;
         if 0 <=? i then
           store_b SA b j;;
           v ← load (B +ₚ c1);
           store (B +ₚ c1) (v - 1);;
           let b := Some (v - 1) in
           let j := i in
           let m := m + 1 in
           '(i, c0, c1) ← scan_run true T cs n i c0;
           mret (inl (i, c0, j, m, b))
         else mret (inl (i, c0, j, m, b))
       else mret (inr (m, j, b)))
    (i, c0, n, 0, None).

(** Lines 442-453: the buffer [D] of the two-pass sort. *)
Definition alloc_D (C B : ptr) (flags k : Z) : M ptr :=
  if has flags 16 then
    D ← malloc (k * 2);
    match D with
    | None =>
        when_ (has flags (Z.lor 1 4)) (free C);;
        when_ (has flags 2) (free B);;
        exit_ (-2)
    | Some D => mret D
    end
  else mret (B +ₚ (- (k * 2))).

(** Lines 454-463: prepare [B], [SA] and [D] for [LMSsort2]. *)
Definition prepare_sort2 (T SA C B D : ptr) (n k cs j : Z) : M unit :=
  assert_ 454 (j + 1 <? n);;
  c ← chr T cs (j + 1);
  v ← load (B +ₚ c);
  store (B +ₚ c) (v + 1);;
  for_up (Z.to_nat k) 0
    (λ i j,
       ci ← load (C +ₚ i);
       let j := j + ci in
       bi ← load (B +ₚ i);
       when_ (negb (bi =? j))
         (x ← load (SA +ₚ bi);
          assert_ 459 (negb (x =? 0));;
          store (SA +ₚ bi) (x + n));;
       store (D +ₚ (i + k)) 0;;
       store (D +ₚ i) 0;;
       mret j)
    0;;
  mret tt.

(** Lines 489-498: the slack [newfs] handed to the recursive call, the
    updated [flags], and the index in [SA] where the reduced string starts
    ([RA = SA + m + newfs] is pointer arithmetic; [newfs] is computed in
    [int]). *)
Definition reduced_workspace (flags fs n k m name : Z) : Z * Z * Z :=
  let newfs := wrap (wrap (n + fs) - wrap (m * 2)) in
  let '(newfs, flags) :=
    if Z.land flags (Z.lor 1 (Z.lor 4 8)) =? 0 then
      if wrap (k + name) <=? newfs then (wrap (newfs - k), flags)
      else (newfs, Z.lor flags 8)
    else (newfs, flags) in
  (newfs, flags, m + newfs).

(** [while (q < j) { SA[--j] = 0; }], giving the final [j]. *)
Definition zero_down (SA : ptr) (q j : Z) : M Z :=
  for_down (Z.to_nat (j - q)) (j - 1) (λ i _, store (SA +ₚ i) 0;; mret i) j.

(** Lines 554-573: put the sorted LMS suffixes at the ends of their buckets. *)
Definition place_LMS (T SA C B : ptr) (n k m cs : Z) : M unit :=
  getBuckets C B k true;;
  p ← load (SA +ₚ (m - 1));
  c1 ← chr T cs p;
  j ← loop (S (Z.to_nat m))
        (λ '(i, j, p, c1),
           let c0 := c1 in
           q ← load (B +ₚ c0);
           j ← zero_down SA q j;
           '(i, j, p, c1) ←
             loop (S (Z.to_nat m))
               (λ '(i, j, p),
                  let j := j - 1 in
                  store (SA +ₚ j) p;;
                  let i := i - 1 in
                  if i <? 0 then mret (inr (i, j, p, c0))
                  else
                    p ← load (SA +ₚ i);
                    c1 ← chr T cs p;
                    if c1 =? c0 then mret (inl (i, j, p))
                    else mret (inr (i, j, p, c1)))
               (i, j, p);
           if 0 <=? i then mret (inl (i, j, p, c1)) else mret (inr j))
        (m - 1, n, p, c1);
  zero_down SA 0 j;;
  mret tt.

(** Lines 408-437: counts, bucket ends, an empty [SA], and the scan. *)
Definition stage1_discover (T SA C B : ptr) (n k cs : Z) : M (Z * Z * option Z) :=
  getCounts T C n k cs;;
  getBuckets C B k true;;
  for_up (Z.to_nat n) 0 (λ i _, store (SA +ₚ i) 0) tt;;
  discoverLMS T SA B n cs.

(** Lines 439-478: sort the LMS substrings and name them.  Gives [name]. *)
Definition sort_LMS (T SA C B : ptr) (flags n k cs m j : Z) (b : option Z) : M Z :=
  if 1 <? m then
    if has flags (Z.lor 16 32) then
      D ← alloc_D C B flags k;
      prepare_sort2 T SA C B D n k cs j;;
      LMSsort2 T SA C B D n k cs;;
      name ← postProcLMS2 SA n m;
      when_ (has flags 16) (free D);;
      mret name
    else
      sortLMS1 T SA C B n k cs;;
      postProcLMS1 T SA n m cs
  else if m =? 1 then
    store_b SA b (j + 1);; mret 1
  else mret 0.

(** Lines 511-533: the LMS positions in text order into [RA], then
    [SA[i] = RA[SA[i]]]. *)
Definition unrank_LMS (T SA RA : ptr) (n m cs : Z) : M unit :=
  c0 ← chr T cs (n - 1);
  '(i, c0, c1) ← scan_run true T cs n (n - 1) c0;
  loop (S (Z.to_nat n))
    (λ '(i, c0, j),
       if 0 <=? i then
         '(i, c0, c1) ← scan_run false T cs n i c0;
         if 0 <=? i then
           store (RA +ₚ j) (i + 1);;
           let j := j - 1 in
           '(i, c0, c1) ← scan_run true T cs n i c0;
           mret (inl (i, c0, j))
         else mret (inl (i, c0, j))
       else mret (inr tt))
    (i, c0, m - 1);;
  for_up (Z.to_nat m) 0
    (λ i _, r ← load (SA +ₚ i);
            v ← load (RA +ₚ r);
            store (SA +ₚ i) v)
    tt.

(** Lines 482-547: stage 2, with the recursive call as [rec].  Gives the
    [(C, B, flags)] that stage 3 works with. *)
Definition stage2 (rec : ptr → ptr → Z → Z → Z → Z → M Z)
    (T SA C B : ptr) (flags fs n k cs m name : Z) : M (ptr * ptr * Z) :=
  if name <? m then
    when_ (has flags 4) (free C);;
    when_ (has flags 2) (free B);;
    let '(newfs, flags, ra) := reduced_workspace flags fs n k m name in
    assert_ 497 (Z.shiftr n 1 <=? wrap (newfs + m));;
    let RA := SA +ₚ ra in
    for_down (Z.to_nat (Z.shiftr n 1)) (m + Z.shiftr n 1 - 1)
      (λ i j,
         x ← load (SA +ₚ i);
         if negb (x =? 0) then store (RA +ₚ j) (x - 1);; mret (j - 1)
         else mret j)
      (m - 1);;
    r ← rec RA SA newfs m name sizeof_int;
    (if negb (r =? 0) then
       when_ (has flags 1) (free C);;
       exit_ (-2)
     else mret tt);;
    unrank_LMS T SA RA n m cs;;
    '(C, B) ←
      (if has flags 4 then
         p ← malloc k;
         match p with
         | None => exit_ (-2)
         | Some p => mret (p, p)
         end
       else mret (C, B));
    B ←
      (if has flags 2 then
         p ← malloc k;
         match p with
         | None => when_ (has flags 1) (free C);; exit_ (-2)
         | Some p => mret p
         end
       else mret B);
    mret (C, B, flags)
  else mret (C, B, flags).

(** Lines 549-581: stage 3. *)
Definition stage3 (T SA C B : ptr) (flags n k cs m : Z) : M Z :=
  when_ (has flags 8) (getCounts T C n k cs);;
  when_ (1 <? m) (place_LMS T SA C B n k m cs);;
  induceSA T SA C B n k cs;;
  when_ (has flags (Z.lor 1 4)) (free C);;
  when_ (has flags 2) (free B);;
  mret 0.

(** [computeSA].  [depth] bounds the nesting of the recursive calls. *)
Fixpoint computeSA (depth : nat) (T SA : ptr) (fs n k cs : Z) : M Z :=
  match depth with
  | O => abort OutOfFuel
  | S depth =>
    function (
      trace (EvEnter T SA fs n k cs);;
      assert_ 362 ((0 <=? fs) && (0 <? n) && (1 <=? k));;
      '(C, B, flags) ← alloc_workspace SA fs n k;
      let flags := sort2_flags flags fs n k in
      (* Stage 1: Reduce the problem by at least 1/2. *)
      '(m, j, b) ← stage1_discover T SA C B n k cs;
      name ← sort_LMS T SA C B flags n k cs m j b;
      (* Stage 2: Solve the reduced problem. *)
      '(C, B, flags) ← stage2 (computeSA depth) T SA C B flags fs n k cs m name;
      (* Stage 3: Induce the result for the original problem. *)
      stage3 T SA C B flags n k cs m)
  end.

(** ** Running the program on a text *)

(** The caller's memory: block 0 is [SA] ([n + fs] cells, never written),
    block 1 is the text. *)
Definition initial (Tl : list Z) (fs : Z) (oracle : list bool) : state :=
  State [Some (replicate (length Tl + Z.to_nat fs) None); Some (Some <$> Tl)]
        oracle [].

Definition SA0 : ptr := Ptr 0 0.
Definition T0 : ptr := Ptr 1 0.

Definition run (Tl : list Z) (fs k cs : Z) (oracle : list bool) : outcome Z * state :=
  computeSA (S (length Tl)) T0 SA0 fs (Z.of_nat (length Tl)) k cs
            (initial Tl fs oracle).

(** The first [n] cells of block [b]. *)
Definition block_prefix (s : state) (b : nat) (n : nat) : option (list cell) :=
  take n <$> cells_at (mem s) b.

Definition sa_of (Tl : list Z) (fs k cs : Z) (oracle : list bool)
  : outcome Z * option (list cell) :=
  let r := run Tl fs k cs oracle in
  (r.1, block_prefix r.2 0 (length Tl)).

(** ** Reasoning about runs *)

(** [sat c s Q]: the run of [c] from [s] ends in an outcome and a state that
    satisfy [Q]. *)
Definition sat {A} (c : M A) (s : state) (Q : outcome A → state → Prop) : Prop :=
  Q (c s).1 (c s).2.

(** The size of every live block. *)
Definition shape (s : state) : list (option nat) :=
  (λ b : option (list cell), length <$> b) <$> mem s.

(** [quiet_step s s']: between [s] and [s'] only the contents of cells changed. *)
Definition quiet_step (s s' : state) : Prop :=
  oracle s' = oracle s ∧ log s' = log s ∧ shape s' = shape s.

(** A computation that only reads and writes cells: no [malloc], no [free],
    no [return], and no failure of the assertion of line 184. *)
Definition quiet {A} (c : M A) : Prop :=
  ∀ s, quiet_step s (c s).2 ∧ (∀ z, (c s).1 ≠ Exit z) ∧
       (c s).1 ≠ Abort (AssertFailed 184).


(** ** Ownership of heap blocks during one call of [computeSA] *)


(** The size of block [b], when it is live. *)
Definition live_size (s : state) (b : nat) : option nat :=
  length <$> cells_at (mem s) b.

(** No call of [malloc] among the events returned NULL. *)
Definition nofail (new : list event) : Prop :=
  ∀ num, EvMalloc num None ∉ new.

(** [inv ok s0 own s]: since [s0], the call has allocated and still holds
    exactly the blocks [own]; every other block is as live, and as large, as
    it was in [s0].  [ok]: no allocation has failed since [s0]. *)
Record inv (ok : bool) (s0 : state) (own : gset nat) (s : state) : Prop := Inv {
  inv_len : (length (mem s0) ≤ length (mem s))%nat;
  inv_other : ∀ b, b ∉ own → live_size s b = live_size s0 b;
  inv_own : ∀ b, b ∈ own → (length (mem s0) ≤ b)%nat ∧ is_Some (live_size s b);
  inv_log : ∃ new, log s = new ++ log s0 ∧
                   (if ok then nofail new else ¬ nofail new);
}.

(** A run that stops in an error: the error is not the assertion of line
    184, and no allocation has failed since [s0]. *)
Definition stopped (s0 : state) (e : error) (s : state) : Prop :=
  e ≠ AssertFailed 184 ∧ ∃ new, log s = new ++ log s0 ∧ nofail new.

(** What a step inside [computeSA] may end in: a value and a state satisfying
    [R]; a [return -2] after a failed allocation, every block given back; or
    an error other than the assertion of line 184, no allocation having
    failed. *)
Definition post {A} (s0 : state) (R : A → state → Prop)
    (r : outcome A) (s : state) : Prop :=
  match r with
  | Ret a => R a s
  | Exit z => z = -2 ∧ inv false s0 ∅ s
  | Abort e => stopped s0 e s
  end.

(** The workspace regimes of [computeSA]: where [C] and [B] point, which
    blocks the call owns, and which of the bits 1, 2 and 4 of [flags] are set
    in each. [lim] is the number of blocks at the entry of the call. *)
Inductive regime (lim : nat) (SA : ptr) (k : Z) : Z → ptr → ptr → gset nat → Prop :=
  | regime_heapC_tailB flags b off :
      has flags 1 = true → has flags 2 = false → has flags 4 = false →
      (lim ≤ b)%nat →
      regime lim SA k flags (Ptr b 0) (SA +ₚ off) {[b]}
  | regime_heapC_heapB flags b b' :
      has flags 1 = true → has flags 2 = true → has flags 4 = false →
      (lim ≤ b)%nat → (lim ≤ b')%nat → b ≠ b' →
      regime lim SA k flags (Ptr b 0) (Ptr b' 0) {[b; b']}
  | regime_tailC_tailB flags off :
      has flags 1 = false → has flags 2 = false → has flags 4 = false →
      regime lim SA k flags (SA +ₚ off) (SA +ₚ off +ₚ (- k)) ∅
  | regime_tailC_heapB flags b off :
      has flags 1 = false → has flags 2 = true → has flags 4 = false →
      (lim ≤ b)%nat →
      regime lim SA k flags (SA +ₚ off) (Ptr b 0) {[b]}
  | regime_tail_alias off :
      regime lim SA k 8 (SA +ₚ off) (SA +ₚ off) ∅
  | regime_heap_alias b :
      (lim ≤ b)%nat →
      regime lim SA k 12 (Ptr b 0) (Ptr b 0) {[b]}.

(** What a call of [computeSA] from [s] ends in. *)
Definition call_post (s : state) (r : outcome Z) (s' : state) : Prop :=
  match r with
  | Ret z => (z = 0 ∧ inv true s ∅ s') ∨ (z = -2 ∧ inv false s ∅ s')
  | Exit _ => False
  | Abort e => stopped s e s'
  end.

(** ** Buffers *)

(** [p] points at [len] cells inside a live block. *)
Definition valid_buf (s : state) (p : ptr) (len : Z) : Prop :=
  ∃ cs, cells_at (mem s) (pblock p) = Some cs ∧
        0 ≤ poff p ∧ poff p + len ≤ Z.of_nat (length cs).

(** The cells [p[0..lp)] and [q[0..lq)] do not overlap. *)
Definition disjoint (p : ptr) (lp : Z) (q : ptr) (lq : Z) : Prop :=
  pblock p ≠ pblock q ∨ poff p + lp ≤ poff q ∨ poff q + lq ≤ poff p.

Global Instance error_eq_dec : EqDecision error.
Proof. solve_decision. Defined.

Global Instance outcome_eq_dec `{EqDecision A} : EqDecision (outcome A).
Proof. solve_decision. Defined.

Global Instance event_eq_dec : EqDecision event.
Proof. solve_decision. Defined.

(** A computation that only adds events to the log. *)
Definition logmono {A} (c : M A) : Prop :=
  ∀ s, ∃ new, log (c s).2 = new ++ log s.

(** ** Reading the memory *)

(** The value of the cell at [p], when it is live and was written. *)
Definition rd (s : state) (p : ptr) : option Z :=
  match cells_at (mem s) (pblock p) with
  | Some cs => if poff p <? 0 then None else mjoin (cs !! Z.to_nat (poff p))
  | None => None
  end.

(** The state after a store. *)
Definition wr (s : state) (p : ptr) (v : Z) : state := (store p v s).2.

(** The cells [p[0..length l)] hold the list [l]. *)
Definition arr (s : state) (p : ptr) (l : list Z) : Prop :=
  ∀ (i : nat) v, l !! i = Some v → rd s (p +ₚ Z.of_nat i) = Some v.

(** The contents of [p[0..n)], when all these cells hold values. *)
Definition view (s : state) (p : ptr) (n : nat) : option (list Z) :=
  mapM (λ i : nat, rd s (p +ₚ Z.of_nat i)) (seq 0 n).

(** A run that ends normally, in a value and a state satisfying [Q]. *)
Definition ok {A} (Q : A → state → Prop) (r : outcome A) (s : state) : Prop :=
  match r with
  | Ret a => Q a s
  | _ => False
  end.

(** ** L and S types, LMS positions, buckets *)

(** Element [i] of the text (0 outside it). *)
Definition at_ (Tl : list Z) (i : Z) : Z :=
  if i <? 0 then 0 else default 0 (Tl !! Z.to_nat i).

(** The types of the positions of a text, [true] for S-type: position [i]
    is S-type if [T[i] < T[i+1]], or [T[i] = T[i+1]] and [i+1] is S-type;
    [last] is the type given to the last position. *)
Fixpoint stypes (last : bool) (l : list Z) : list bool :=
  match l with
  | [] => []
  | x :: r =>
      match r with
      | [] => [last]
      | y :: _ =>
          let ts := stypes last r in
          ((x <? y) || ((x =? y) && default false (head ts))) :: ts
      end
  end.

Definition is_S (last : bool) (Tl : list Z) (i : Z) : bool :=
  if i <? 0 then false else default false (stypes last Tl !! Z.to_nat i).

(** Position [i > 0] is LMS when it is S-type and [i - 1] is L-type. *)
Definition is_LMS (last : bool) (Tl : list Z) (i : Z) : bool :=
  (0 <? i) && is_S last Tl i && negb (is_S last Tl (i - 1)).

(** The LMS positions among [0..i], the rightmost first. *)
Fixpoint lms_upto (last : bool) (Tl : list Z) (i : nat) : list Z :=
  match i with
  | O => []
  | S i' =>
      if is_LMS last Tl (Z.of_nat i) then Z.of_nat i :: lms_upto last Tl i'
      else lms_upto last Tl i'
  end.

(** The LMS positions of a text, the rightmost first. *)
Definition lms_positions (last : bool) (Tl : list Z) : list Z :=
  lms_upto last Tl (length Tl - 1).

Definition count_lms (last : bool) (Tl : list Z) : Z :=
  Z.of_nat (length (lms_positions last Tl)).

(** The number of elements of [l] that satisfy [f]. *)
Fixpoint count_if (f : Z → bool) (l : list Z) : Z :=
  match l with
  | [] => 0
  | x :: r => (if f x then 1 else 0) + count_if f r
  end.

(** [C[c]]: the number of occurrences of [c]. *)
Definition counts (Tl : list Z) (k : Z) : list Z :=
  (λ c, count_if (Z.eqb c) Tl) <$> seqZ 0 k.

(** Bucket ends: [B[c]] is the sum of [C[c']] over [c' <= c]. *)
Definition bucket_ends (Tl : list Z) (k : Z) : list Z :=
  (λ c, count_if (λ x, x <=? c) Tl) <$> seqZ 0 k.

(** Bucket starts: [B[c]] is the sum of [C[c']] over [c' < c]. *)
Definition bucket_starts (Tl : list Z) (k : Z) : list Z :=
  (λ c, count_if (λ x, x <? c) Tl) <$> seqZ 0 k.

(** ** The provisional placement of stage 1 *)

(** The scan's bookkeeping: the contents of [SA[0..n)] and of [B], and its
    variables [b] (the slot reserved for the position found last, [None] for
    [&t]) and [j]. *)
Definition placing : Type := list Z * list Z * option Z * Z.

(** What the scan does when it finds the LMS position [p]: it writes the
    pending [j] into the pending slot, takes the slot [--B[T[p]]] for [p] and
    keeps [j = p - 1] pending. *)
Definition place (Tl : list Z) (st : placing) (p : Z) : placing :=
  let '(SAl, Bl, b, j) := st in
  let SAl := match b with
             | Some b => <[Z.to_nat b := j]> SAl
             | None => SAl
             end in
  let c := at_ Tl p in
  let v := at_ Bl c - 1 in
  (SAl, <[Z.to_nat c := v]> Bl, Some v, p - 1).

(** The placement after the scan of the whole text. *)
Definition placement (Tl : list Z) (k : Z) : placing :=
  foldl (place Tl)
        (replicate (length Tl) 0, bucket_ends Tl k, None, Z.of_nat (length Tl))
        (lms_positions false Tl).

(** The placement as the claim words it: each LMS position [j] itself is
    written at [SA[--B[T[j+1]]]]. *)
Definition place_claimed (Tl : list Z) (st : list Z * list Z) (j : Z)
  : list Z * list Z :=
  let '(SAl, Bl) := st in
  let c := at_ Tl (j + 1) in
  let v := at_ Bl c - 1 in
  (<[Z.to_nat v := j]> SAl, <[Z.to_nat c := v]> Bl).

Definition placement_claimed (last : bool) (Tl : list Z) (k : Z) : list Z :=
  (foldl (place_claimed Tl) (replicate (length Tl) 0, bucket_ends Tl k)
         (lms_positions last Tl)).1.

(** ** Valid inputs *)

(** The state at the entry of [computeSA]: the text [Tl] is readable at
    [T], [SA] points at [n + fs] cells that do not overlap the text, and
    the size [n + fs] of the workspace is an [int]. *)
Record valid_input (s : state) (T SA : ptr) (Tl : list Z) (fs n k : Z) : Prop := {
  vi_n : n = Z.of_nat (length Tl);
  vi_pos : 0 < n;
  vi_k : 1 ≤ k;
  vi_fs : 0 ≤ fs;
  vi_range : Forall (λ c, 0 ≤ c < k) Tl;
  vi_T : arr s T Tl;
  vi_SA : valid_buf s SA (n + fs);
  vi_disj : disjoint T n SA (n + fs);
  vi_int : n + fs ≤ INT_MAX;
}.

(** The cells [p[0..n)] hold the values [f 0 .. f (n-1)]. *)
Definition holds (s : state) (p : ptr) (n : Z) (f : Z → Z) : Prop :=
  ∀ i, 0 ≤ i < n → rd s (p +ₚ i) = Some (f i).

(** Between [s] and [s'] only cells of [p[0..len)] changed. *)
Definition frame (s s' : state) (p : ptr) (len : Z) : Prop :=
  quiet_step s s' ∧
  ∀ q, (∀ i, 0 ≤ i < len → q ≠ p +ₚ i) → rd s' q = rd s q.

(** ** The runs of the right-to-left scan *)

(** The test that keeps [scan_run] going, on [c0 = T[i]] and [c1 = T[i+1]]. *)
Definition run_cmp (ge : bool) (c0 c1 : Z) : bool :=
  if ge then c1 <=? c0 else c0 <=? c1.

(** Where the run that starts at [i] and goes left ends: the first index
    below [i] at which the test fails, or -1. *)
Fixpoint run_end (ge : bool) (Tl : list Z) (i : nat) : Z :=
  match i with
  | O => -1
  | S i' =>
      if run_cmp ge (at_ Tl (Z.of_nat i')) (at_ Tl (Z.of_nat i))
      then run_end ge Tl i'
      else Z.of_nat i'
  end.

(** ** The memory during the scan *)

(** [placed Tl k T SA B s0 s st]: in [s], [SA[0..n)] and [B[0..k)] hold the
    lists of the bookkeeping [st], the text is still at [T], the pending slot
    lies in [SA[0..n)], and nothing else has changed since [s0]. *)
Definition placed (Tl : list Z) (k : Z) (T SA B : ptr) (s0 s : state)
    (st : placing) : Prop :=
  let '(SAl, Bl, b, j) := st in
  let n := Z.of_nat (length Tl) in
  length SAl = length Tl ∧ Z.of_nat (length Bl) = k ∧
  holds s SA n (at_ SAl) ∧ holds s B k (at_ Bl) ∧ holds s T n (at_ Tl) ∧
  quiet_step s0 s ∧
  (∀ q, (∀ i, 0 ≤ i < n → q ≠ SA +ₚ i) → (∀ c, 0 ≤ c < k → q ≠ B +ₚ c) →
        rd s q = rd s0 q) ∧
  match b with
  | Some b0 => 0 ≤ b0 < n
  | None => True
  end.

(** The buffers of stage 1: [SA[0..n)], [B[0..k)] and the text [T[0..n)] are
    valid and pairwise disjoint. *)
Record scan_buffers (s : state) (T SA B : ptr) (n k : Z) : Prop := {
  sb_SA : valid_buf s SA n;
  sb_B : valid_buf s B k;
  sb_T_SA : disjoint T n SA n;
  sb_T_B : disjoint T n B k;
  sb_SA_B : disjoint SA n B k;
}.

(** The state in which stage 1 starts: the text is readable at [T], and
    [C], [B] and [SA[0..n)] are buffers that do not overlap it; [B] is [C]
    itself or does not overlap [C], and does not overlap [SA[0..n)]. *)
Record stage1_pre (s : state) (T SA C B : ptr) (Tl : list Z) (n k : Z) : Prop := {
  sp_n : n = Z.of_nat (length Tl);
  sp_pos : 0 < n;
  sp_range : Forall (λ c, 0 ≤ c < k) Tl;
  sp_T : holds s T n (at_ Tl);
  sp_SA : valid_buf s SA n;
  sp_C : valid_buf s C k;
  sp_B : valid_buf s B k;
  sp_T_SA : disjoint T n SA n;
  sp_T_C : disjoint T n C k;
  sp_T_B : disjoint T n B k;
  sp_SA_B : disjoint SA n B k;
  sp_C_B : C = B ∨ disjoint C k B k;
}.

(** ** The slots of the provisional placement *)

(** The number of LMS positions at [p] or right of it that carry the symbol
    of [p] (position [n - 1] taken as L-type). *)
Definition lms_rank (Tl : list Z) (p : Z) : Z :=
  count_if (λ q, (p <=? q) && (at_ Tl q =? at_ Tl p)) (lms_positions false Tl).

(** The slot of the LMS position [p]: the slots of the LMS positions that
    carry the symbol [c] are taken from the end of the bucket of [c]
    downwards, the rightmost position first. *)
Definition slot (Tl : list Z) (p : Z) : Z :=
  count_if (λ x, x <=? at_ Tl p) Tl - lms_rank Tl p.

(** ** Suffix arrays *)

(** The lexicographic order on texts; a proper prefix comes first. *)
Fixpoint lex_lt (a b : list Z) : bool :=
  match a, b with
  | [], [] => false
  | [], _ :: _ => true
  | _ :: _, [] => false
  | x :: a, y :: b => (x <? y) || ((x =? y) && lex_lt a b)
  end.

Definition suffix (Tl : list Z) (i : Z) : list Z := drop (Z.to_nat i) Tl.

(** The suffixes at the positions of [l] are in strictly ascending order. *)
Fixpoint ascending (Tl : list Z) (l : list Z) : bool :=
  match l with
  | [] => true
  | i :: r =>
      match r with
      | [] => true
      | j :: _ => lex_lt (suffix Tl i) (suffix Tl j) && ascending Tl r
      end
  end.

(** [SAl] is the suffix array of [Tl]: every position of the text occurs in
    it once, and the suffixes are in strictly ascending order. *)
Definition is_suffix_array (Tl SAl : list Z) : bool :=
  (length SAl =? length Tl)%nat &&
  forallb (λ p, count_if (Z.eqb p) SAl =? 1) (seqZ 0 (Z.of_nat (length Tl))) &&
  ascending Tl SAl.

(** All texts of length [n] over the alphabet [0..k). *)
Fixpoint texts (k : Z) (n : nat) : list (list Z) :=
  match n with
  | O => [[]]
  | S n => x ← seqZ 0 k; (λ l, x :: l) <$> texts k n
  end.

(** The run of [computeSA] on [Tl] with slack [fs], every allocation
    succeeding, returns 0 and leaves the suffix array of [Tl] in [SA[0..n)]. *)
Definition sorts (Tl : list Z) (k cs fs : Z) : bool :=
  match sa_of Tl fs k cs [] with
  | (Ret 0, Some cells) =>
      match mapM id cells with
      | Some SAl => is_suffix_array Tl SAl
      | None => false
      end
  | _ => false
  end.

(** The same, for every text of length [n] over [0..k) and for the slacks
    0, [n] and [2n]. *)
Definition sorts_all (k : Z) (n : nat) : bool :=
  forallb (λ Tl, forallb (sorts Tl k 1) [0; Z.of_nat n; 2 * Z.of_nat n])
          (texts k n).

(** Alphabet sizes and slacks that make [alloc_workspace] choose each of its
    layouts with [k > 256]: [C] and [B] one heap buffer; [C] in the tail and
    [B] on the heap; both in the tail; one buffer in the tail. *)
Definition large_alphabets : list (Z * Z) :=
  [(257, 0); (257, 300); (257, 600); (1100, 1200)].

Definition sorts_large : bool :=
  forallb (λ Tl, forallb (λ '(k, fs), sorts Tl k sizeof_int fs) large_alphabets)
          [[1; 0; 2; 0; 2; 0]; [2; 1; 2; 1; 2; 1; 2]; [1; 0; 3; 3; 0; 3; 3; 0; 2; 2; 0]].

(** ** Runs that end *)

(** The assertions that hold whatever the memory contains: [0 < n] at the
    entry of [postProcLMS1] and [postProcLMS2] (lines 122 and 261), and
    [(j + 1) < n] before the two-pass sort (line 454). *)
Definition checked (line : Z) : bool :=
  (line =? 122) || (line =? 261) || (line =? 454).

(** The errors that no run ends in: a lack of fuel, and the failure of a
    [checked] assertion. *)
Definition excluded (e : error) : Prop :=
  match e with
  | OutOfFuel => True
  | AssertFailed line => checked line = true
  | _ => False
  end.

(** [bounded c Q]: no run of [c] runs out of fuel or fails a [checked]
    assertion, and the value of a run that ends normally satisfies [Q]. *)
Definition bounded {A} (c : M A) (Q : A → Prop) : Prop :=
  ∀ s, match (c s).1 with
       | Ret a => Q a
       | Exit _ => True
       | Abort e => ¬ excluded e
       end.

(** [never line c]: no run of [c] stops at the assertion of line [line]. *)
Definition never {A} (line : Z) (c : M A) : Prop :=
  ∀ s, (c s).1 ≠ Abort (AssertFailed line).

(** ** One call of [computeSA] *)

(** The body of [computeSA], with the recursive call as [rec]. *)
Definition level (rec : ptr → ptr → Z → Z → Z → Z → M Z)
    (T SA : ptr) (fs n k cs : Z) : M Z :=
  function (
    trace (EvEnter T SA fs n k cs);;
    assert_ 362 ((0 <=? fs) && (0 <? n) && (1 <=? k));;
    '(C, B, flags) ← alloc_workspace SA fs n k;
    let flags := sort2_flags flags fs n k in
    '(m, j, b) ← stage1_discover T SA C B n k cs;
    name ← sort_LMS T SA C B flags n k cs m j b;
    '(C, B, flags) ← stage2 rec T SA C B flags fs n k cs m name;
    stage3 T SA C B flags n k cs m).

(** ** What a call may write *)

(** A pointer into the block of [SA], or into a block that did not exist
    when the call began ([lim] is the number of blocks then). *)
Definition allowed (lim bSA : nat) (p : ptr) : Prop :=
  pblock p = bSA ∨ (lim ≤ pblock p)%nat.

(** [keeps lim bSA c Q]: every run of [c] leaves the blocks below [lim],
    the block [bSA] apart, as they were, and the value of a run that ends
    normally satisfies [Q]. *)
Definition keeps {A} (lim bSA : nat) (c : M A) (Q : A → Prop) : Prop :=
  ∀ s, (lim ≤ length (mem s))%nat →
       (lim ≤ length (mem (c s).2))%nat ∧
       (∀ b, (b < lim)%nat → b ≠ bSA → mem (c s).2 !! b = mem s !! b) ∧
       (∀ a, (c s).1 = Ret a → Q a).

(** ** Prefix sums *)

Fixpoint psum_nat (cnt : Z → Z) (c : nat) : Z :=
  match c with
  | O => 0
  | S c => psum_nat cnt c + cnt (Z.of_nat c)
  end.

(** [cnt 0 + ... + cnt (c - 1)]. *)
Definition psum (cnt : Z → Z) (c : Z) : Z := psum_nat cnt (Z.to_nat c).

(** ** The reduced string *)

(** Lines 499-503: [for (i = m + (n >> 1) - 1, j = m - 1; m <= i; --i)
    if (SA[i] != 0) RA[j--] = SA[i] - 1;] with [h] for [n >> 1].  Gives the
    final [j]. *)
Definition build_RA (SA RA : ptr) (h m : Z) : M Z :=
  for_down (Z.to_nat h) (m + h - 1)
    (λ i j,
       x ← load (SA +ₚ i);
       if negb (x =? 0) then store (RA +ₚ j) (x - 1);; mret (j - 1)
       else mret j)
    (m - 1).

Definition nz (x : Z) : bool := negb (x =? 0).

(** The names of a names region [vs], in order: its non-zero entries, each
    less one. *)
Definition names_of (vs : list Z) : list Z :=
  (λ x, x - 1) <$> filter (λ x, x ≠ 0) vs.

(** ** Placing the sorted LMS suffixes *)

(** Where stage 3 puts the suffix [L[i]] of a list [L] of positions ordered
    by first symbol: in the bucket of its symbol, counted back from the end
    of the bucket by the suffixes of [L] that follow it with the same
    symbol. *)
Definition end_slot (Tl L : list Z) (i : Z) : Z :=
  let c := at_ Tl (at_ L i) in
  count_if (λ x, x <=? c) Tl
  - count_if (λ p, at_ Tl p =? c) (drop (Z.to_nat i) L).

(** The state of [SA[0..n)] while lines 555-573 run: the suffixes after
    index [i] are at their slots, the other cells from [j] on are 0, and
    [SA[0..i]] still holds the list. *)
Definition placed_from (s : state) (SA : ptr) (Tl L : list Z) (i j : Z) : Prop :=
  (∀ i', i < i' < Z.of_nat (length L) →
         rd s (SA +ₚ end_slot Tl L i') = Some (at_ L i')) ∧
  (∀ x, j ≤ x < Z.of_nat (length Tl) →
        (∀ i', i < i' < Z.of_nat (length L) → end_slot Tl L i' ≠ x) →
        rd s (SA +ₚ x) = Some 0) ∧
  (∀ i', i < i' < Z.of_nat (length L) → j ≤ end_slot Tl L i') ∧
  (∀ x, 0 ≤ x ≤ i → rd s (SA +ₚ x) = Some (at_ L x)).

Definition place_inv (s : state) (T SA B : ptr) (Tl L : list Z) (k i j : Z) : Prop :=
  -1 ≤ i ∧ i < j ∧ j ≤ Z.of_nat (length Tl) ∧
  valid_buf s SA (Z.of_nat (length Tl)) ∧
  holds s T (Z.of_nat (length Tl)) (at_ Tl) ∧
  holds s B k (λ c, count_if (λ x, x <=? c) Tl) ∧
  placed_from s SA Tl L i j.

(** ** Induced sorting *)

(** The suffix at [p] comes before the suffix at [q]. *)
Definition sfx_lt (Tl : list Z) (p q : Z) : bool :=
  lex_lt (suffix Tl p) (suffix Tl q).

(** What the first pass of [induceSA] stores for the suffix [j]: the
    complement of [j] when [T[j-1] < T[j]], so that the pass skips it. *)
Definition markL (Tl : list Z) (j : Z) : Z :=
  if (0 <? j) && (at_ Tl (j - 1) <? at_ Tl j) then Z.lnot j else j.

(** What the second pass stores for the suffix [j]: the complement of [j]
    when [j = 0] or [T[j-1] > T[j]]. *)
Definition markS (Tl : list Z) (j : Z) : Z :=
  if (j =? 0) || (at_ Tl j <? at_ Tl (j - 1)) then Z.lnot j else j.

(** The suffix that the first pass meets in the cell [y]: the L-type suffix
    whose cell it is, or the LMS suffix put there before the call. *)
Definition scan_val (Tl sa : list Z) (seed : Z → Z) (y : Z) : option Z :=
  if is_S false Tl (at_ sa y) then
    if seed y =? 0 then None else Some (seed y)
  else Some (at_ sa y).

(** The cell [x] of an L-type suffix has been written when the first pass
    has done the cells below [i]. *)
Definition WL (Tl sa : list Z) (seed : Z → Z) (i x : Z) : Prop :=
  at_ sa x = Z.of_nat (length Tl) - 1 ∨
  ∃ y, 0 ≤ y < i ∧ scan_val Tl sa seed y = Some (at_ sa x + 1).

(** The cell [x] of an S-type suffix has been written when the second pass
    has done the cells above [i]. *)
Definition WS (Tl sa : list Z) (i x : Z) : Prop :=
  ∃ y, i < y < Z.of_nat (length Tl) ∧ at_ sa y = at_ sa x + 1.

(** [SA[0..n)] when the first pass has done the cells below [i]. *)
Definition Lcells (s : state) (SA : ptr) (Tl sa : list Z) (seed : Z → Z) (i : Z) : Prop :=
  ∀ x, 0 ≤ x < Z.of_nat (length Tl) →
    ∃ v, rd s (SA +ₚ x) = Some v ∧
      if is_S false Tl (at_ sa x) then
        v = (if x <? i then Z.lnot (seed x) else seed x)
      else
        (x < i → v = Z.lnot (markL Tl (at_ sa x))) ∧
        (i ≤ x → WL Tl sa seed i x → v = markL Tl (at_ sa x)) ∧
        (i ≤ x → ¬ WL Tl sa seed i x → v = 0).

(** The bucket pointers of the first pass: [b] for the current symbol [c1],
    [B[c]] for the others; the written cells of L-type suffixes are those
    below the pointer of their bucket. *)
Definition Lbuckets (s : state) (B : ptr) (Tl sa : list Z) (seed : Z → Z)
    (k i b c1 : Z) : Prop :=
  0 ≤ c1 < k ∧
  ∃ bp : Z → Z,
    bp c1 = b ∧
    (∀ c, 0 ≤ c < k → c ≠ c1 → rd s (B +ₚ c) = Some (bp c)) ∧
    (∀ c, count_if (λ a, a <? c) Tl ≤ bp c) ∧
    (∀ x, 0 ≤ x < Z.of_nat (length Tl) →
          (is_S false Tl (at_ sa x) = false ∧ WL Tl sa seed i x)
          ↔ x < bp (at_ Tl (at_ sa x))).

(** [SA[0..n)] when the second pass has done the cells above [i]. *)
Definition Scells (s : state) (SA : ptr) (Tl sa : list Z) (seed : Z → Z) (i : Z) : Prop :=
  ∀ x, 0 ≤ x < Z.of_nat (length Tl) →
    ∃ v, rd s (SA +ₚ x) = Some v ∧
      (i < x → v = at_ sa x) ∧
      (x ≤ i →
         if is_S false Tl (at_ sa x) then
           (WS Tl sa i x → v = markS Tl (at_ sa x)) ∧
           (¬ WS Tl sa i x → v = Z.lnot (seed x))
         else v = Z.lnot (markL Tl (at_ sa x))).

(** The bucket pointers of the second pass: the written cells of S-type
    suffixes are those from the pointer of their bucket on. *)
Definition Sbuckets (s : state) (B : ptr) (Tl sa : list Z) (k i b c1 : Z) : Prop :=
  0 ≤ c1 < k ∧
  ∃ bp : Z → Z,
    bp c1 = b ∧
    (∀ c, 0 ≤ c < k → c ≠ c1 → rd s (B +ₚ c) = Some (bp c)) ∧
    (∀ c, bp c ≤ count_if (λ a, a <=? c) Tl) ∧
    (∀ x, 0 ≤ x < Z.of_nat (length Tl) →
          (is_S false Tl (at_ sa x) = true ∧ WS Tl sa i x)
          ↔ bp (at_ Tl (at_ sa x)) ≤ x).

(** The cells put into [SA[0..n)] before [induceSA]: each holds 0 or an
    LMS position, in a cell that the suffix array gives to an S-type
    suffix of the same first symbol; every LMS position is in some cell,
    and the suffixes at the positions ascend with the cells. *)
Definition seeded (Tl sa : list Z) (seed : Z → Z) : Prop :=
  (∀ x, 0 ≤ x < Z.of_nat (length Tl) → seed x ≠ 0 →
        is_LMS false Tl (seed x) = true ∧
        is_S false Tl (at_ sa x) = true ∧
        at_ Tl (at_ sa x) = at_ Tl (seed x)) ∧
  (∀ p, is_LMS false Tl p = true →
        ∃ x, 0 ≤ x < Z.of_nat (length Tl) ∧ seed x = p) ∧
  (∀ x y, 0 ≤ x → x < y → y < Z.of_nat (length Tl) →
          seed x ≠ 0 → seed y ≠ 0 → sfx_lt Tl (seed x) (seed y) = true).

(** Between [s] and [s'] only cells of [p[0..lp)] and [q[0..lq)] changed. *)
Definition frame2 (s s' : state) (p : ptr) (lp : Z) (q : ptr) (lq : Z) : Prop :=
  quiet_step s s' ∧
  ∀ r, (∀ i, 0 ≤ i < lp → r ≠ p +ₚ i) → (∀ i, 0 ≤ i < lq → r ≠ q +ₚ i) →
       rd s' r = rd s r.

(** * Properties *)

Section combinators.
Context {A B : Type}.

Lemma sat_bind (c : M A) (f : A → M B) s Q :
  sat c s (λ r s', match r with
                   | Ret a => sat (f a) s' Q
                   | Exit z => Q (Exit z) s'
                   | Abort e => Q (Abort e) s'
                   end) →
  sat (c ≫= f) s Q.
Proof.
  unfold sat, mbind, M_bind. destruct (c s) as [[a|z|e] s']; simpl; auto.
Qed.

Lemma sat_mono (c : M A) s (Q Q' : outcome A → state → Prop) :
  sat c s Q → (∀ r s', Q r s' → Q' r s') → sat c s Q'.
Proof. unfold sat; auto. Qed.

Lemma bind_ret_eq (c : M A) (f : A → M B) s a s' :
  c s = (Ret a, s') → (c ≫= f) s = f a s'.
Proof. unfold mbind, M_bind. by intros ->. Qed.

Lemma bind_exit_eq (c : M A) (f : A → M B) s z s' :
  c s = (Exit z, s') → (c ≫= f) s = (Exit z, s').
Proof. unfold mbind, M_bind. by intros ->. Qed.

Lemma bind_abort_eq (c : M A) (f : A → M B) s e s' :
  c s = (Abort e, s') → (c ≫= f) s = (Abort e, s').
Proof. unfold mbind, M_bind. by intros ->. Qed.
End combinators.

Lemma quiet_step_refl s : quiet_step s s.
Proof. by unfold quiet_step. Qed.

Lemma quiet_step_trans s1 s2 s3 :
  quiet_step s1 s2 → quiet_step s2 s3 → quiet_step s1 s3.
Proof. unfold quiet_step. intros (-> & -> & ->) (-> & -> & ->). done. Qed.

Lemma quiet_ret {A} (a : A) : quiet (mret a).
Proof. intros s. simpl. split; [apply quiet_step_refl|]. split; [intros z|]; discriminate. Qed.

Lemma quiet_abort {A} (e : error) : e ≠ AssertFailed 184 → quiet (abort (A:=A) e).
Proof.
  intros He s. simpl. split; [apply quiet_step_refl|].
  split; [intros z; discriminate|]. intros [= ?]. done.
Qed.

Lemma quiet_bind {A B} (c : M A) (f : A → M B) :
  quiet c → (∀ a, quiet (f a)) → quiet (c ≫= f).
Proof.
  intros Hc Hf s. specialize (Hc s). unfold mbind, M_bind.
  destruct (c s) as [[a|z|e] s']; simpl in *.
  - destruct Hc as (H1 & _ & _). destruct (Hf a s') as (H2 & H3 & H4).
    split; [by eapply quiet_step_trans|]. auto.
  - destruct Hc as (_ & H & _). by destruct (H z).
  - destruct Hc as (H1 & _ & H3). split; [done|].
    split; [intros z; discriminate|]. intros [= ->]. done.
Qed.

Lemma quiet_load p : quiet (load p).
Proof.
  intros s. unfold load.
  destruct (cells_at (mem s) (pblock p)) as [cs|]; simpl;
    [|by split; [apply quiet_step_refl|]].
  destruct (poff p <? 0); simpl; [by split; [apply quiet_step_refl|]|].
  destruct (cs !! Z.to_nat (poff p)) as [[v|]|]; simpl;
    by split; [apply quiet_step_refl|].
Qed.

Lemma cells_at_Some m b cs : cells_at m b = Some cs ↔ m !! b = Some (Some cs).
Proof.
  unfold cells_at. destruct (m !! b) as [[?|]|]; split; intros; simplify_eq; done.
Qed.

Lemma shape_store s b cs i v :
  cells_at (mem s) b = Some cs →
  shape (State (<[b := Some (<[i := Some v]> cs)]> (mem s)) (oracle s) (log s)) = shape s.
Proof.
  intros H%cells_at_Some. unfold shape; cbn [mem].
  rewrite list_fmap_insert. apply list_insert_id.
  rewrite list_lookup_fmap, H. simpl. by rewrite length_insert.
Qed.

Lemma quiet_store p v : quiet (store p v).
Proof.
  intros s. unfold store.
  destruct (cells_at (mem s) (pblock p)) as [cs|] eqn:E; simpl;
    [|by split; [apply quiet_step_refl|]].
  destruct (_ || _); simpl; [by split; [apply quiet_step_refl|]|].
  split; [|done]. split_and!; simpl; try done. by apply shape_store.
Qed.

Lemma quiet_chr T cs a : quiet (chr T cs a).
Proof. apply quiet_load. Qed.

Lemma quiet_assert line b : line ≠ 184 → quiet (assert_ line b).
Proof.
  intros. unfold assert_. destruct b; [apply quiet_ret|].
  apply quiet_abort. congruence.
Qed.

Lemma quiet_when b c : quiet c → quiet (when_ b c).
Proof. intros. unfold when_. destruct b; [done|apply quiet_ret]. Qed.

Lemma quiet_for_up {A} cnt i (body : Z → A → M A) a :
  (∀ i a, quiet (body i a)) → quiet (for_up cnt i body a).
Proof.
  intros Hb. revert i a. induction cnt as [|cnt IH]; intros i a; simpl.
  - apply quiet_ret.
  - apply quiet_bind; auto.
Qed.

Lemma quiet_for_down {A} cnt i (body : Z → A → M A) a :
  (∀ i a, quiet (body i a)) → quiet (for_down cnt i body a).
Proof.
  intros Hb. revert i a. induction cnt as [|cnt IH]; intros i a; simpl.
  - apply quiet_ret.
  - apply quiet_bind; auto.
Qed.

Lemma quiet_loop {L R} fuel (body : L → M (L + R)) l :
  (∀ l, quiet (body l)) → quiet (loop fuel body l).
Proof.
  intros Hb. revert l. induction fuel as [|fuel IH]; intros l; simpl.
  - by apply quiet_abort.
  - apply quiet_bind; [done|]. intros [l'|r]; [apply IH|apply quiet_ret].
Qed.

(** Lemmas about the program's own functions are added to [quiet_known] as
    they are proved. *)
Ltac quiet_known := fail.

Ltac quiet_tac :=
  repeat first
    [ quiet_known
    | apply quiet_ret
    | apply quiet_load
    | apply quiet_chr
    | apply quiet_store
    | apply quiet_assert; discriminate
    | apply quiet_bind; [|intros]
    | apply quiet_when
    | apply quiet_for_up; intros
    | apply quiet_for_down; intros
    | apply quiet_loop; intros
    | progress cbv zeta
    | match goal with
      | |- quiet (match ?x with _ => _ end) => destruct x
      | |- quiet (let (_, _) := ?x in _) => destruct x
      end ].

Lemma quiet_getCounts T C n k cs : quiet (getCounts T C n k cs).
Proof. unfold getCounts. quiet_tac. Qed.

Lemma quiet_getBuckets C B k e : quiet (getBuckets C B k e).
Proof. unfold getBuckets. quiet_tac. Qed.

Lemma quiet_scan_run ge T cs n i c0 : quiet (scan_run ge T cs n i c0).
Proof. unfold scan_run. quiet_tac. Qed.

Lemma quiet_switch_bucket B c0 c1 b : quiet (switch_bucket B c0 c1 b).
Proof. unfold switch_bucket. quiet_tac. Qed.

Lemma quiet_store_b SA b v : quiet (store_b SA b v).
Proof. unfold store_b. quiet_tac. Qed.

Lemma quiet_zero_down SA q j : quiet (zero_down SA q j).
Proof. unfold zero_down. quiet_tac. Qed.

Ltac quiet_known ::=
  first [ apply quiet_getCounts | apply quiet_getBuckets | apply quiet_scan_run
        | apply quiet_switch_bucket | apply quiet_store_b | apply quiet_zero_down ].

Lemma quiet_sortLMS1 T SA C B n k cs : quiet (sortLMS1 T SA C B n k cs).
Proof. unfold sortLMS1. quiet_tac. Qed.

Lemma quiet_postProcLMS1 T SA n m cs : quiet (postProcLMS1 T SA n m cs).
Proof. unfold postProcLMS1. quiet_tac. Qed.

Lemma quiet_LMSsort2 T SA C B D n k cs :
  C ≠ B → quiet (LMSsort2 T SA C B D n k cs).
Proof.
  intros H. unfold LMSsort2. apply quiet_bind.
  - rewrite bool_decide_eq_false_2 by done. apply quiet_ret.
  - intros _. quiet_tac.
Qed.

Lemma quiet_postProcLMS2 SA n m : quiet (postProcLMS2 SA n m).
Proof. unfold postProcLMS2. quiet_tac. Qed.

Lemma quiet_induceSA T SA C B n k cs : quiet (induceSA T SA C B n k cs).
Proof. unfold induceSA. quiet_tac. Qed.

Lemma quiet_discoverLMS T SA B n cs : quiet (discoverLMS T SA B n cs).
Proof. unfold discoverLMS. quiet_tac. Qed.

Lemma quiet_stage1_discover T SA C B n k cs :
  quiet (stage1_discover T SA C B n k cs).
Proof. unfold stage1_discover. quiet_tac. Qed.

Lemma quiet_prepare_sort2 T SA C B D n k cs j :
  quiet (prepare_sort2 T SA C B D n k cs j).
Proof. unfold prepare_sort2. quiet_tac. Qed.

Lemma quiet_place_LMS T SA C B n k m cs : quiet (place_LMS T SA C B n k m cs).
Proof. unfold place_LMS. quiet_tac. Qed.

Lemma quiet_unrank_LMS T SA RA n m cs : quiet (unrank_LMS T SA RA n m cs).
Proof. unfold unrank_LMS. quiet_tac. Qed.

(** ** Blocks owned by a call *)

Lemma live_size_shape s b : live_size s b = mjoin (shape s !! b).
Proof.
  unfold live_size, shape, cells_at. rewrite list_lookup_fmap.
  by destruct (mem s !! b) as [[?|]|].
Qed.

Lemma length_shape s : length (shape s) = length (mem s).
Proof. unfold shape. by rewrite length_fmap. Qed.

Lemma live_size_lt s b : is_Some (live_size s b) → (b < length (mem s))%nat.
Proof.
  unfold live_size, cells_at. intros [x H].
  destruct (mem s !! b) as [o|] eqn:E; [|done].
  by apply lookup_lt_Some in E.
Qed.

Lemma nofail_nil : nofail [].
Proof. intros num H. by apply elem_of_nil in H. Qed.

Lemma nofail_app new1 new2 : nofail (new1 ++ new2) ↔ nofail new1 ∧ nofail new2.
Proof.
  unfold nofail. split.
  - intros H. split; intros num Hin; apply (H num), elem_of_app; auto.
  - intros [H1 H2] num [Hin|Hin]%elem_of_app; [by apply (H1 num)|by apply (H2 num)].
Qed.

Lemma nofail_cons e new :
  nofail (e :: new) ↔ (∀ num, e ≠ EvMalloc num None) ∧ nofail new.
Proof.
  unfold nofail. split.
  - intros H. split; intros num.
    + intros E. subst e. apply (H num). left.
    + intros Hin. apply (H num). by right.
  - intros [H1 H2] num [E|Hin]%elem_of_cons; [by apply (H1 num)|by apply (H2 num)].
Qed.

Lemma inv_refl s : inv true s ∅ s.
Proof.
  split; [lia|done|set_solver|]. exists []. split; [done|apply nofail_nil].
Qed.

Lemma inv_quiet_step ok s0 own s s' :
  inv ok s0 own s → quiet_step s s' → inv ok s0 own s'.
Proof.
  intros [H1 H2 H3 H4] (Ho & Hl & Hs).
  assert (Hls : ∀ b, live_size s' b = live_size s b).
  { intros b. by rewrite !live_size_shape, Hs. }
  split.
  - by rewrite <- (length_shape s'), Hs, length_shape.
  - intros b Hb. rewrite Hls. auto.
  - intros b Hb. rewrite Hls. auto.
  - by rewrite Hl.
Qed.

Lemma inv_own_eq ok s0 own own' s : own = own' → inv ok s0 own s → inv ok s0 own' s.
Proof. by intros ->. Qed.

Lemma inv_compose ok s0 own s s' :
  inv true s0 own s → inv ok s ∅ s' → inv ok s0 own s'.
Proof.
  intros [H1 H2 H3 (new & Hl & Hn)] [G1 G2 G3 (new' & Gl & Gn)]. split.
  - lia.
  - intros b Hb. rewrite G2 by set_solver. auto.
  - intros b Hb. rewrite G2 by set_solver. auto.
  - exists (new' ++ new). split; [by rewrite Gl, Hl, app_assoc|].
    destruct ok; rewrite nofail_app; tauto.
Qed.

Lemma sat_post_bind {A B} (c : M A) (f : A → M B) s s0 R1 R2 :
  sat c s (post s0 R1) →
  (∀ a s', R1 a s' → sat (f a) s' (post s0 R2)) →
  sat (c ≫= f) s (post s0 R2).
Proof.
  intros Hc Hf. apply sat_bind. unfold sat in *.
  destruct (c s) as [[a|z|e] s']; simpl in *; auto.
Qed.

Lemma sat_post_quiet {A} (c : M A) s0 own s :
  quiet c → inv true s0 own s →
  sat c s (post s0 (λ _ s', inv true s0 own s')).
Proof.
  intros Hq Hi. destruct (Hq s) as (H1 & H2 & H3). unfold sat.
  destruct (c s) as [[a|z|e] s']; simpl in *.
  - by eapply inv_quiet_step.
  - by destruct (H2 z).
  - split; [congruence|]. by destruct (inv_quiet_step _ _ _ _ _ Hi H1).
Qed.

Lemma sat_post_ret {A} (a : A) s s0 (R : A → state → Prop) :
  R a s → sat (mret a) s (post s0 R).
Proof. done. Qed.

Lemma sat_post_exit {A} s s0 (R : A → state → Prop) :
  inv false s0 ∅ s → sat (exit_ (-2)) s (post s0 R).
Proof. done. Qed.

Lemma sat_post_mono {A} (c : M A) s s0 (R R' : A → state → Prop) :
  sat c s (post s0 R) → (∀ a s', R a s' → R' a s') → sat c s (post s0 R').
Proof.
  unfold sat. destruct (c s) as [[a|z|e] s']; simpl; auto.
Qed.

Lemma live_size_app_old (m : memory) o b (orc1 orc2 : list bool) (l1 l2 : list event) :
  (b < length m)%nat →
  live_size (State (m ++ [o]) orc1 l1) b = live_size (State m orc2 l2) b.
Proof.
  intros Hb. unfold live_size, cells_at; simpl. by rewrite lookup_app_l.
Qed.

Lemma live_size_ge s b : (length (mem s) ≤ b)%nat → live_size s b = None.
Proof.
  intros Hb. unfold live_size, cells_at. by rewrite lookup_ge_None_2.
Qed.

Lemma sat_post_malloc num s0 own s :
  inv true s0 own s →
  sat (malloc num) s
    (post s0 (λ r s',
       match r with
       | Some p => p = Ptr (length (mem s)) 0 ∧
                   inv true s0 ({[length (mem s)]} ∪ own) s'
       | None => inv false s0 own s'
       end)).
Proof.
  intros [H1 H2 H3 (new & Hl & Hn)]. unfold sat, malloc.
  destruct (match oracle s with [] => true | b :: _ => b end); simpl.
  - split; [done|]. split; simpl.
    + rewrite length_app. lia.
    + intros b Hb. destruct (decide (b < length (mem s))%nat) as [Hlt|Hge].
      * rewrite (live_size_app_old _ _ _ _ (oracle s) _ (log s)) by done.
        apply H2. set_solver.
      * assert (b ≠ length (mem s)) by set_solver.
        rewrite live_size_ge by (simpl; rewrite length_app; simpl; lia).
        symmetry. apply live_size_ge. lia.
    + intros b [Hb|Hb]%elem_of_union.
      * apply elem_of_singleton in Hb as ->. split; [lia|].
        unfold live_size, cells_at; simpl.
        rewrite lookup_app_r, Nat.sub_diag by lia. simpl. eauto.
      * destruct (H3 b Hb) as [G1 G2]. split; [done|].
        rewrite (live_size_app_old _ _ _ _ (oracle s) _ (log s));
          [done|by apply live_size_lt].
    + exists (EvMalloc num (Some (length (mem s))) :: new). split.
      * by rewrite Hl.
      * apply nofail_cons. split; [intros ?; congruence|done].
  - split; simpl; try done.
    exists (EvMalloc num None :: new). split; [by rewrite Hl|].
    intros Hnf. apply (Hnf num). left.
Qed.

Lemma live_size_free_other s b b' (orc : list bool) (l : list event) :
  b ≠ b' →
  live_size (State (<[b' := None]> (mem s)) orc l) b = live_size s b.
Proof.
  intros. unfold live_size, cells_at; simpl.
  by rewrite list_lookup_insert_ne.
Qed.

Lemma live_size_free_same s b (orc : list bool) (l : list event) :
  live_size (State (<[b := None]> (mem s)) orc l) b = None.
Proof.
  unfold live_size, cells_at; simpl.
  destruct (decide (b < length (mem s))%nat).
  - by rewrite list_lookup_insert_eq.
  - by rewrite lookup_ge_None_2 by (rewrite length_insert; lia).
Qed.

Lemma sat_post_free p ok s0 own s :
  inv ok s0 own s → pblock p ∈ own → poff p = 0 →
  sat (free p) s (post s0 (λ _ s', inv ok s0 (own ∖ {[pblock p]}) s')).
Proof.
  intros [H1 H2 H3 (new & Hl & Hn)] Hin Hoff. unfold sat, free.
  destruct (H3 _ Hin) as [Hfresh [sz Hsz]].
  unfold live_size in Hsz.
  destruct (cells_at (mem s) (pblock p)) as [cs|] eqn:E; [|done].
  rewrite Hoff. simpl. split; simpl.
  - by rewrite length_insert.
  - intros b Hb. destruct (decide (b = pblock p)) as [->|Hne].
    + rewrite live_size_free_same. symmetry. by apply live_size_ge.
    + rewrite live_size_free_other by done. apply H2. set_solver.
  - intros b [Hb Hne]%elem_of_difference.
    rewrite live_size_free_other by set_solver. auto.
  - exists (EvFree (pblock p) :: new). split; [by rewrite Hl|].
    destruct ok.
    + apply nofail_cons. split; [intros ?; congruence|done].
    + rewrite nofail_cons. tauto.
Qed.

Lemma stopped_compose s0 own s e s' :
  inv true s0 own s → stopped s e s' → stopped s0 e s'.
Proof.
  intros [_ _ _ (new & Hl & Hn)] [He (new' & Hl' & Hn')]. split; [done|].
  exists (new' ++ new). split; [by rewrite Hl', Hl, app_assoc|].
  by apply nofail_app.
Qed.

(** ** The stages of [computeSA] and the blocks they own *)

Ltac quiet_known ::=
  first [ apply quiet_getCounts | apply quiet_getBuckets | apply quiet_scan_run
        | apply quiet_switch_bucket | apply quiet_store_b | apply quiet_zero_down
        | apply quiet_sortLMS1 | apply quiet_postProcLMS1
        | apply quiet_postProcLMS2 | apply quiet_induceSA
        | apply quiet_stage1_discover | apply quiet_prepare_sort2
        | apply quiet_place_LMS | apply quiet_unrank_LMS ].

Lemma has_lor_r f a b : has f (Z.lor a b) = has f a || has f b.
Proof.
  unfold has. rewrite Z.land_lor_distr_r.
  pose proof (Z.lor_eq_0_iff (Z.land f a) (Z.land f b)).
  destruct (Z.eqb_spec (Z.land f a) 0), (Z.eqb_spec (Z.land f b) 0),
    (Z.eqb_spec (Z.lor (Z.land f a) (Z.land f b)) 0); simpl; tauto.
Qed.

Lemma has_lor_l f g b : has (Z.lor f g) b = has f b || has g b.
Proof.
  unfold has. rewrite Z.land_lor_distr_l.
  pose proof (Z.lor_eq_0_iff (Z.land f b) (Z.land g b)).
  destruct (Z.eqb_spec (Z.land f b) 0), (Z.eqb_spec (Z.land g b) 0),
    (Z.eqb_spec (Z.lor (Z.land f b) (Z.land g b)) 0); simpl; tauto.
Qed.

Lemma has_land_eqb f b : (Z.land f b =? 0) = negb (has f b).
Proof. unfold has. by rewrite negb_involutive. Qed.

(** Evaluate the tests [has flags bits]: split the masks, use the known bits
    of [flags], compute on numbers. *)
Ltac has_simpl :=
  rewrite ?has_land_eqb, ?has_lor_r, ?has_lor_l;
  repeat match goal with
  | H : has ?f ?b = _ |- context [has ?f ?b] => rewrite H
  | |- context [has ?f ?b] =>
      let v := eval vm_compute in (has f b) in
      match v with
      | true => change (has f b) with true
      | false => change (has f b) with false
      end
  end;
  cbn [orb andb negb].

(** Use the known bits of [flags] in the hypotheses. *)
Ltac has_hyps :=
  repeat match goal with
  | H : has ?f ?b = _, G : context [has ?f ?b] |- _ => rewrite H in G
  end.

Ltac regime_tac :=
  first [ by apply regime_heapC_tailB; has_simpl
        | by apply regime_heapC_heapB; has_simpl
        | by apply regime_tailC_tailB; has_simpl
        | by apply regime_tailC_heapB; has_simpl
        | by apply regime_tail_alias
        | by apply regime_heap_alias ].

Lemma alloc_workspace_post s0 s SA fs n k :
  inv true s0 ∅ s →
  sat (alloc_workspace SA fs n k) s
    (post s0 (λ '(C, B, flags) s',
       ∃ own, regime (length (mem s0)) SA k flags C B own ∧ inv true s0 own s')).
Proof.
  intros Hi. pose proof (inv_len _ _ _ _ Hi) as Hlen. unfold alloc_workspace.
  destruct (k <=? MINBUCKETSIZE).
  - eapply sat_post_bind; [by apply sat_post_malloc|].
    intros [C|] s1; [intros [-> H1]|intros H1].
    + pose proof (inv_len _ _ _ _ H1) as Hlen1.
      rewrite union_empty_r_L in H1. destruct (k <=? fs).
      * apply sat_post_ret. eexists. split; [|done].
        by apply regime_heapC_tailB; [..|lia].
      * eapply sat_post_bind; [by apply sat_post_malloc|].
        intros [B|] s2; [intros [-> H2]|intros H2].
        -- apply sat_post_ret. eexists. split.
           ++ apply (regime_heapC_heapB _ _ _ 3 (length (mem s)) (length (mem s1)));
                [done|done|done|lia|lia|].
              destruct (inv_own _ _ _ _ H1 (length (mem s))) as [_ G]; [set_solver|].
              apply live_size_lt in G. lia.
           ++ eapply inv_own_eq; [|done]. set_solver.
        -- eapply sat_post_bind.
           { eapply (sat_post_free (Ptr (length (mem s)) 0)); [done|set_solver|done]. }
           intros [] s3 H3. apply sat_post_exit.
           eapply inv_own_eq; [|done]. set_solver.
    + by apply sat_post_exit.
  - destruct (k <=? fs).
    + destruct (k <=? fs - k).
      * apply sat_post_ret. eexists. split; [|done].
        by apply regime_tailC_tailB.
      * destruct (k <=? MINBUCKETSIZE * 4).
        -- eapply sat_post_bind; [by apply sat_post_malloc|].
           intros [B|] s1; [intros [-> H1]|intros H1].
           ++ rewrite union_empty_r_L in H1.
              apply sat_post_ret. eexists. split; [|done].
              by apply regime_tailC_heapB; [..|lia].
           ++ by apply sat_post_exit.
        -- apply sat_post_ret. eexists. split; [|done]. apply regime_tail_alias.
    + eapply sat_post_bind; [by apply sat_post_malloc|].
      intros [C|] s1; [intros [-> H1]|intros H1].
      * rewrite union_empty_r_L in H1.
        apply sat_post_ret. eexists. split; [|done].
        apply regime_heap_alias. lia.
      * by apply sat_post_exit.
Qed.

Lemma regime_sort2_flags lim SA k flags C B own fs n :
  regime lim SA k flags C B own →
  regime lim SA k (sort2_flags flags fs n k) C B own.
Proof.
  intros Hr. unfold sort2_flags.
  destruct (_ && _); [|done].
  destruct Hr; has_simpl; try done;
    try change (8 =? 0) with false; try change (12 =? 0) with false;
    cbn [andb];
    repeat match goal with |- context [if ?c then _ else _] => destruct c end;
    try done; regime_tac.
Qed.

Lemma sat_ret_bind {A B} (a : A) (f : A → M B) s Q :
  sat (f a) s Q → sat (mret a ≫= f) s Q.
Proof. done. Qed.

(** One step of a [post] proof: a quiet computation keeps the invariant. *)
Tactic Notation "quiet_bind_step" "as" ident(s) ident(H) :=
  eapply sat_post_bind;
  [ eapply sat_post_quiet; [quiet_tac|eassumption]
  | cbv beta; intros ? s H ].

Lemma regime_C_ne_B lim SA k flags C B own :
  regime lim SA k flags C B own → (pblock SA < lim)%nat → 1 ≤ k →
  has flags (Z.lor 16 32) = true → C ≠ B.
Proof.
  intros Hr HSA Hk H48. destruct Hr; try done.
  - intros [= Hb _]. lia.
  - intros [= Hb]. done.
  - intros [= Ho]. lia.
  - intros [= Hb _]. lia.
Qed.

Lemma regime_own lim SA k flags C B own :
  regime lim SA k flags C B own →
  own = (if has flags (Z.lor 1 4) then {[pblock C]} else ∅) ∪
        (if has flags 2 then {[pblock B]} else ∅) ∧
  (has flags (Z.lor 1 4) = true → poff C = 0) ∧
  (has flags 2 = true → poff B = 0) ∧
  (has flags (Z.lor 1 4) = true → has flags 2 = true → pblock C ≠ pblock B).
Proof.
  intros Hr. destruct Hr; has_simpl; simpl; split_and!; try done; set_solver.
Qed.

(** [if (flags & (1 | 4)) free(C); if (flags & 2) free(B);] gives back every
    block the call owns. *)
Lemma free_all_post {A} lim SA k flags C B own ok s0 s (c : M A) R :
  regime lim SA k flags C B own → inv ok s0 own s →
  (∀ s', inv ok s0 ∅ s' → sat c s' (post s0 R)) →
  sat (when_ (has flags (Z.lor 1 4)) (free C);; when_ (has flags 2) (free B);; c) s
      (post s0 R).
Proof.
  intros Hr Hi Hc. destruct (regime_own _ _ _ _ _ _ _ Hr) as (-> & HC & HB & Hne).
  destruct (has flags (Z.lor 1 4)), (has flags 2); simpl.
  - eapply sat_post_bind; [eapply sat_post_free; [done|set_solver|auto]|].
    intros [] s1 H1. eapply sat_post_bind.
    + eapply sat_post_free; [done| |auto].
      specialize (Hne eq_refl eq_refl). set_solver.
    + intros [] s2 H2. apply Hc. eapply inv_own_eq; [|done]. set_solver.
  - eapply sat_post_bind; [eapply sat_post_free; [done|set_solver|auto]|].
    intros [] s1 H1. apply sat_ret_bind, Hc. eapply inv_own_eq; [|done]. set_solver.
  - apply sat_ret_bind. eapply sat_post_bind.
    + eapply sat_post_free; [done|set_solver|auto].
    + intros [] s2 H2. apply Hc. eapply inv_own_eq; [|done]. set_solver.
  - apply sat_ret_bind, sat_ret_bind, Hc. eapply inv_own_eq; [|done]. set_solver.
Qed.

Lemma alloc_D_post lim SA k flags C B own s0 s :
  regime lim SA k flags C B own → inv true s0 own s →
  sat (alloc_D C B flags k) s
    (post s0 (λ D s',
       if has flags 16
       then poff D = 0 ∧ pblock D ∉ own ∧ inv true s0 ({[pblock D]} ∪ own) s'
       else inv true s0 own s')).
Proof.
  intros Hr Hi. unfold alloc_D. destruct (has flags 16).
  - eapply sat_post_bind; [by apply sat_post_malloc|].
    intros [D|] s1; [intros [-> H1]|intros H1].
    + apply sat_post_ret. split; [done|]. split; [|done]. simpl.
      intros Hin. destruct (inv_own _ _ _ _ Hi _ Hin) as [_ G].
      apply live_size_lt in G. lia.
    + eapply free_all_post; [done..|]. intros s2 H2. by apply sat_post_exit.
  - by apply sat_post_ret.
Qed.

Lemma sort_LMS_post s0 s T SA C B flags n k cs m j b own :
  regime (length (mem s0)) SA k flags C B own →
  (pblock SA < length (mem s0))%nat → 1 ≤ k →
  inv true s0 own s →
  sat (sort_LMS T SA C B flags n k cs m j b) s
      (post s0 (λ _ s', inv true s0 own s')).
Proof.
  intros Hr HSA Hk Hi. unfold sort_LMS. destruct (1 <? m).
  - destruct (has flags (Z.lor 16 32)) eqn:E48.
    + assert (C ≠ B) as Hne by eauto using regime_C_ne_B.
      eapply sat_post_bind; [by eapply alloc_D_post|].
      intros D s1 H1. cbv beta in H1.
      assert (∃ own', inv true s0 own' s1 ∧
                (if has flags 16
                 then poff D = 0 ∧ pblock D ∈ own' ∧ own' ∖ {[pblock D]} = own
                 else own' = own)) as (own' & H1' & Hown).
      { destruct (has flags 16).
        - destruct H1 as (? & ? & ?). eexists. split; [done|].
          split; [done|]. set_solver.
        - by exists own. }
      clear H1.
      eapply sat_post_bind.
      { eapply sat_post_quiet; [apply quiet_prepare_sort2|done]. }
      intros [] s2 H2. cbv beta in H2.
      eapply sat_post_bind.
      { eapply sat_post_quiet; [by apply quiet_LMSsort2|done]. }
      intros [] s3 H3. cbv beta in H3.
      eapply sat_post_bind.
      { eapply sat_post_quiet; [apply quiet_postProcLMS2|done]. }
      intros name s4 H4. cbv beta in H4.
      destruct (has flags 16); simpl.
      * destruct Hown as (HD & Hin & <-).
        eapply sat_post_bind; [by eapply sat_post_free|].
        intros [] s5 H5. by apply sat_post_ret.
      * subst own'. apply sat_ret_bind. by apply sat_post_ret.
    + eapply sat_post_quiet; [quiet_tac|done].
  - eapply sat_post_quiet; [|done]. destruct (m =? 1); quiet_tac.
Qed.

Lemma stage3_post s0 s T SA C B flags n k cs m own :
  regime (length (mem s0)) SA k flags C B own →
  inv true s0 own s →
  sat (stage3 T SA C B flags n k cs m) s
      (post s0 (λ z s', z = 0 ∧ inv true s0 ∅ s')).
Proof.
  intros Hr Hi. unfold stage3.
  quiet_bind_step as s1 H1. quiet_bind_step as s2 H2. quiet_bind_step as s3 H3.
  eapply free_all_post; [done..|]. intros s4 H4. by apply sat_post_ret.
Qed.

Lemma regime_lim lim SA k flags C B own ok s0 s :
  regime lim SA k flags C B own → inv ok s0 own s →
  ∀ b, b ∈ own → (b < length (mem s))%nat.
Proof.
  intros _ Hi b Hb. destruct (inv_own _ _ _ _ Hi b Hb) as [_ G].
  by apply live_size_lt.
Qed.

Lemma stage2_post rec s0 s T SA C B flags fs n k cs m name own :
  regime (length (mem s0)) SA k flags C B own →
  (pblock SA < length (mem s0))%nat →
  inv true s0 own s →
  (∀ T' SA' fs' n' k' cs' s1,
     (pblock SA' < length (mem s1))%nat →
     sat (rec T' SA' fs' n' k' cs') s1 (call_post s1)) →
  sat (stage2 rec T SA C B flags fs n k cs m name) s
      (post s0 (λ '(C', B', flags') s',
         ∃ own', regime (length (mem s0)) SA k flags' C' B' own' ∧
                 inv true s0 own' s')).
Proof.
  intros Hr HSA Hi Hrec. unfold stage2.
  destruct (name <? m); [|apply sat_post_ret; eauto].
  (* the blocks still held across the recursive call *)
  assert (∃ own1,
    own1 = (if has flags 1 then {[pblock C]} else ∅) ∧
    ∀ {A} (c : M A) R,
      (∀ s', inv true s0 own1 s' → sat c s' (post s0 R)) →
      sat (when_ (has flags 4) (free C);; when_ (has flags 2) (free B);; c) s
          (post s0 R)) as (own1 & Hown1 & Hfree).
  { eexists. split; [done|]. intros A c R Hc.
    destruct Hr; has_simpl; simpl.
    - apply Hc. has_simpl. done.
    - apply sat_ret_bind.
      eapply sat_post_bind; [eapply (sat_post_free (Ptr b' 0)); [done|set_solver|done]|].
      intros [] t1 G1. apply Hc. has_simpl.
      eapply inv_own_eq; [|done]. simpl. set_solver.
    - apply Hc. has_simpl. done.
    - apply sat_ret_bind.
      eapply sat_post_bind; [eapply (sat_post_free (Ptr b 0)); [done|set_solver|done]|].
      intros [] t1 G1. apply Hc. has_simpl.
      eapply inv_own_eq; [|done]. simpl. set_solver.
    - apply Hc. has_simpl. done.
    - eapply sat_post_bind; [eapply (sat_post_free (Ptr b 0)); [done|set_solver|done]|].
      intros [] t1 G1. apply sat_ret_bind. apply Hc. has_simpl.
      eapply inv_own_eq; [|done]. simpl. set_solver. }
  apply Hfree. clear Hfree. intros s1 H1.
  destruct (reduced_workspace flags fs n k m name) as [[newfs flags'] ra] eqn:Erw.
  assert (flags' = flags ∨
          (flags' = Z.lor flags 8 ∧ has flags 1 = false ∧ has flags 4 = false))
    as Hflags'.
  { unfold reduced_workspace in Erw. rewrite has_land_eqb, !has_lor_r in Erw.
    destruct (has flags 1), (has flags 4), (has flags 8); simpl in Erw;
      try (left; congruence);
      destruct (wrap (k + name) <=? _); simplify_eq; auto. }
  quiet_bind_step as sa Ha. quiet_bind_step as sb Hb.
  eapply sat_post_bind.
  { instantiate (1 := λ r s', (r = 0 ∧ inv true s0 own1 s') ∨
                              (r = -2 ∧ inv false s0 own1 s')).
    unfold sat. specialize (Hrec (SA +ₚ ra) SA newfs m name sizeof_int sb).
    unfold sat, call_post in Hrec.
    pose proof (inv_len _ _ _ _ Hb) as Hlen.
    destruct (rec _ _ _ _ _ _ sb) as [[z|z|e] s2]; simpl in *.
    - destruct Hrec as [[-> G]|[-> G]]; [lia|left|right];
        (split; [done|by eapply inv_compose]).
    - destruct Hrec; lia.
    - eapply stopped_compose; [exact Hb|]. apply Hrec. lia. }
  intros r s2 [[-> H2]|[-> H2]]; simpl.
  2:{ (* the recursive call failed *)
      assert (has flags' 1 = has flags 1) as ->.
      { destruct Hflags' as [->|(-> & Hf1 & Hf4)]; [done|].
        rewrite has_lor_l. change (has 8 1) with false. by rewrite orb_false_r. }
      subst own1.
      destruct (has flags 1) eqn:Ef1; simpl.
      - eapply (sat_post_bind _ _ _ _ (λ _ _, False)).
        + eapply sat_post_bind; [eapply sat_post_free; [done|set_solver|]|].
          * destruct Hr; try done; try congruence; by vm_compute in Ef1.
          * intros [] s3 H3. apply sat_post_exit.
            eapply inv_own_eq; [|done]. set_solver.
        + intros [] s3 [].
      - by unfold sat. }
  apply sat_ret_bind.
  eapply sat_post_bind.
  { eapply sat_post_quiet; [apply quiet_unrank_LMS|done]. }
  intros [] s3 H3. cbv beta in H3.
  assert (has flags' 1 = has flags 1 ∧ has flags' 2 = has flags 2 ∧
          has flags' 4 = has flags 4) as (E1 & E2 & E4).
  { destruct Hflags' as [->|(-> & _ & _)]; [done|].
    rewrite !has_lor_l. change (has 8 1) with false. change (has 8 2) with false.
    change (has 8 4) with false. by rewrite !orb_false_r. }
  rewrite E2, E4.
  subst own1. destruct Hr; has_simpl; has_hyps; simpl in *.
  - (* C on the heap, B in the tail *)
    do 2 apply sat_ret_bind. apply sat_post_ret. eexists. split; [|done].
    apply regime_heapC_tailB; try done; congruence.
  - (* C and B on the heap: B is allocated again *)
    apply sat_ret_bind.
    eapply (sat_post_bind _ _ _ _
              (λ B' s', B' = Ptr (length (mem s3)) 0 ∧
                        inv true s0 ({[length (mem s3)]} ∪ {[b]}) s')).
    { eapply sat_post_bind; [by apply sat_post_malloc|].
      intros [p|] s4; [intros [-> G4]|intros G4].
      - by apply sat_post_ret.
      - try rewrite E1; simpl.
        eapply sat_post_bind; [eapply (sat_post_free (Ptr b 0)); [done|set_solver|done]|].
        intros [] s5 G5. apply sat_post_exit.
        eapply inv_own_eq; [|done]. simpl. set_solver. }
    intros B' s4 [-> G4]. apply sat_post_ret.
    pose proof (inv_len _ _ _ _ H3).
    destruct (inv_own _ _ _ _ H3 b) as [_ Gb%live_size_lt]; [set_solver|].
    exists {[b; length (mem s3)]}. split.
    + apply regime_heapC_heapB; try done; try congruence; lia.
    + eapply inv_own_eq; [|done]. set_solver.
  - (* C and B in the tail *)
    do 2 apply sat_ret_bind. apply sat_post_ret. eexists. split; [|done].
    apply regime_tailC_tailB; congruence.
  - (* C in the tail, B on the heap: B is allocated again *)
    apply sat_ret_bind.
    eapply (sat_post_bind _ _ _ _
              (λ B' s', B' = Ptr (length (mem s3)) 0 ∧
                        inv true s0 ({[length (mem s3)]} ∪ ∅) s')).
    { eapply sat_post_bind; [by apply sat_post_malloc|].
      intros [p|] s4; [intros [-> G4]|intros G4].
      - by apply sat_post_ret.
      - try rewrite E1; simpl. apply sat_ret_bind. by apply sat_post_exit. }
    intros B' s4 [-> G4]. apply sat_post_ret.
    pose proof (inv_len _ _ _ _ H3).
    exists {[length (mem s3)]}. split.
    + apply regime_tailC_heapB; try done; try congruence; lia.
    + eapply inv_own_eq; [|done]. set_solver.
  - (* B aliases C in the tail *)
    assert (flags' = 8) as -> by (by destruct Hflags' as [->|(-> & _ & _)]).
    do 2 apply sat_ret_bind. apply sat_post_ret. eexists. split; [|done].
    apply regime_tail_alias.
  - (* B aliases C on the heap: the block is allocated again *)
    assert (flags' = 12) as -> by (by destruct Hflags' as [->|(-> & _ & ?)]).
    eapply (sat_post_bind _ _ _ _
              (λ '(C', B') s', C' = Ptr (length (mem s3)) 0 ∧ B' = C' ∧
                               inv true s0 ({[length (mem s3)]} ∪ ∅) s')).
    { eapply sat_post_bind; [by apply sat_post_malloc|].
      intros [p|] s4; [intros [-> G4]|intros G4].
      - by apply sat_post_ret.
      - by apply sat_post_exit. }
    intros [C' B'] s4 (-> & -> & G4). apply sat_ret_bind. apply sat_post_ret.
    pose proof (inv_len _ _ _ _ H3).
    exists {[length (mem s3)]}. split.
    + apply regime_heap_alias. lia.
    + eapply inv_own_eq; [|done]. set_solver.
Qed.

Lemma sat_post_trace ev ok s0 own s :
  (∀ num, ev ≠ EvMalloc num None) → inv ok s0 own s →
  sat (trace ev) s (post s0 (λ _ s', inv ok s0 own s')).
Proof.
  intros Hev [G1 G2 G3 (new & Gl & Gn)]. unfold sat, trace; simpl.
  split; try done; simpl. exists (ev :: new). split; [by rewrite Gl|].
  destruct ok; rewrite nofail_cons; tauto.
Qed.

Lemma sat_function body s :
  sat body s (post s (λ z s', z = 0 ∧ inv true s ∅ s')) →
  sat (function body) s (call_post s).
Proof.
  unfold sat, function. destruct (body s) as [[z|z|e] s']; simpl; tauto.
Qed.

(** Every call of [computeSA], at any depth of recursion and whatever the
    allocator answers: it returns 0 having seen no failed allocation or -2
    having seen one, with every block it took given back; or it stops in an
    error that is not the assertion of line 184. *)
Lemma computeSA_call depth T SA fs n k cs s :
  (pblock SA < length (mem s))%nat →
  sat (computeSA depth T SA fs n k cs) s (call_post s).
Proof.
  revert T SA fs n k cs s.
  induction depth as [|depth IH]; intros T SA fs n k cs s HSA.
  { split; [done|]. exists []. split; [done|apply nofail_nil]. }
  cbn [computeSA]. apply sat_function.
  eapply sat_post_bind; [by apply sat_post_trace, inv_refl|].
  intros [] s1 H1. cbv beta in H1.
  destruct ((0 <=? fs) && (0 <? n) && (1 <=? k)) eqn:Eargs.
  2:{ split; [done|]. by destruct H1. }
  apply sat_ret_bind.
  assert (1 ≤ k) as Hk by lia.
  eapply sat_post_bind; [by apply alloc_workspace_post|].
  intros [[C B] flags] s2 (own & Hr & H2).
  apply (regime_sort2_flags _ _ _ _ _ _ _ fs n) in Hr.
  eapply sat_post_bind.
  { eapply sat_post_quiet; [apply quiet_stage1_discover|done]. }
  intros [[m j] b] s3 H3. cbv beta in H3.
  eapply sat_post_bind; [by eapply sort_LMS_post|].
  intros name s4 H4. cbv beta in H4.
  eapply sat_post_bind; [by eapply stage2_post|].
  intros [[C' B'] flags'] s5 (own' & Hr' & H5).
  by eapply stage3_post.
Qed.

(** ** Allocation failures and the status of [computeSA] *)

Lemma not_nofail new : ¬ nofail new → ∃ num, EvMalloc num None ∈ new.
Proof.
  induction new as [|e new IH]; intros Hn.
  - destruct Hn. apply nofail_nil.
  - assert ((∃ num, e = EvMalloc num None) ∨ ∀ num, e ≠ EvMalloc num None)
      as [[num ->]|He].
    { destruct e as [num [b|]| |]; try (right; intros ?; congruence). eauto. }
    + exists num. left.
    + destruct IH as [num Hin].
      * intros Hnf. by apply Hn, nofail_cons.
      * exists num. by right.
Qed.

(** A failed allocation ends the call.  Take any call of [computeSA], at
    any depth of recursion and whatever the allocator answers: if some call of
    [malloc] made during the call (the recursive calls included) returned
    NULL, then the call returns, it returns -2, and at its end every block
    that was live before the call is live with its size and every block
    allocated during the call has been freed. *)
Theorem allocation_failure_returns depth T SA fs n k cs s :
  (pblock SA < length (mem s))%nat →
  let r := computeSA depth T SA fs n k cs s in
  ∃ new, log r.2 = new ++ log s ∧
    ((∃ num, EvMalloc num None ∈ new) →
     r.1 = Ret (-2) ∧ ∀ b, live_size r.2 b = live_size s b).
Proof.
  intros HSA r. pose proof (computeSA_call depth T SA fs n k cs s HSA) as H.
  unfold sat in H. fold r in H. destruct r as [[z|z|e] s']; simpl in *.
  - destruct H as [[-> [_ Ho _ (new & Hl & Hn)]]|[-> [_ Ho _ (new & Hl & Hn)]]];
      exists new; (split; [done|]).
    + intros [num Hin]. by destruct (Hn num).
    + intros _. split; [done|]. intros b. by apply Ho.
  - done.
  - destruct H as [_ (new & Hl & Hn)]. exists new. split; [done|].
    intros [num Hin]. by destruct (Hn num).
Qed.

Lemma allocation_failure_returns_witness :
  let s := initial [1; 0; 2; 0; 2; 0] 0 [true; false] in
  let r := computeSA 7 T0 SA0 0 6 3 1 s in
  ∃ new, log r.2 = new ++ log s ∧
    ((∃ num, EvMalloc num None ∈ new) →
     r.1 = Ret (-2) ∧ ∀ b, live_size r.2 b = live_size s b).
Proof.
  intros s.
  apply (allocation_failure_returns 7 T0 SA0 0 6 3 1 s). simpl; lia.
Defined.

(** No block is leaked.  Whenever a call of [computeSA] returns, at any
    depth of recursion and whatever the allocator answers, its status is 0 or
    -2; it is -2 exactly when some call of [malloc] made during the call
    returned NULL; and every block that was live before the call is live
    with its size, every block allocated during the call having been
    freed. *)
Theorem returns_without_leak depth T SA fs n k cs s z s' :
  (pblock SA < length (mem s))%nat →
  computeSA depth T SA fs n k cs s = (Ret z, s') →
  ∃ new, log s' = new ++ log s ∧
    (z = 0 ∨ z = -2) ∧
    (z = -2 ↔ ∃ num, EvMalloc num None ∈ new) ∧
    (z = 0 ↔ ∀ num, EvMalloc num None ∉ new) ∧
    (∀ b, live_size s' b = live_size s b).
Proof.
  intros HSA Hrun. pose proof (computeSA_call depth T SA fs n k cs s HSA) as H.
  unfold sat in H. rewrite Hrun in H. simpl in H.
  destruct H as [[-> [_ Ho _ (new & Hl & Hn)]]|[-> [_ Ho _ (new & Hl & Hn)]]];
    exists new; (split; [done|]).
  - split; [by left|]. split_and!; [|done|by intros b; apply Ho].
    split; [done|]. intros [num Hin]. by destruct (Hn num).
  - split; [by right|]. split_and!; [| |by intros b; apply Ho].
    + split; [|done]. intros _. by apply not_nofail.
    + split; [done|]. intros Hnf. by destruct Hn.
Qed.

Lemma returns_without_leak_witness :
  let s := initial [1; 0; 2; 0; 2; 0] 0 [] in
  let s' := (computeSA 7 T0 SA0 0 6 3 1 s).2 in
  ∃ new, log s' = new ++ log s ∧
    (0 = 0 ∨ 0 = -2) ∧
    (0 = -2 ↔ ∃ num, EvMalloc num None ∈ new) ∧
    (0 = 0 ↔ ∀ num, EvMalloc num None ∉ new) ∧
    (∀ b, live_size s' b = live_size s b).
Proof.
  intros s s'.
  apply (returns_without_leak 7 T0 SA0 0 6 3 1 s 0 s');
    [simpl; lia | vm_compute; reflexivity].
Defined.

(** ** The buffers handed to [LMSsort2] *)

Lemma quiet_run {A} (c : M A) s r s' :
  quiet c → c s = (r, s') → quiet_step s s'.
Proof. intros Hq Hc. destruct (Hq s) as [H _]. by rewrite Hc in H. Qed.

Lemma live_size_quiet_step s s' b :
  quiet_step s s' → live_size s' b = live_size s b.
Proof. intros (_ & _ & Hs). by rewrite !live_size_shape, Hs. Qed.

Lemma valid_buf_live_size s p len :
  valid_buf s p len ↔
  ∃ sz, live_size s (pblock p) = Some sz ∧ 0 ≤ poff p ∧ poff p + len ≤ Z.of_nat sz.
Proof.
  unfold valid_buf, live_size. split.
  - intros (cs & -> & ? & ?). by exists (length cs).
  - intros (sz & H & ? & ?).
    destruct (cells_at (mem s) (pblock p)) as [cs|]; [|done].
    exists cs. by simplify_eq/=.
Qed.

Lemma valid_buf_quiet_step s s' p len :
  quiet_step s s' → valid_buf s p len → valid_buf s' p len.
Proof.
  intros Hq. rewrite !valid_buf_live_size.
  by rewrite (live_size_quiet_step _ _ _ Hq).
Qed.

Lemma malloc_ok num s p s' :
  malloc num s = (Ret (Some p), s') →
  p = Ptr (length (mem s)) 0 ∧
  mem s' = mem s ++ [Some (replicate (Z.to_nat num) None)].
Proof.
  unfold malloc. destruct (match oracle s with [] => true | b :: _ => b end);
    intros [= <- <-]; done.
Qed.

Lemma valid_buf_app s p len m' orc l :
  valid_buf s p len → valid_buf (State (mem s ++ m') orc l) p len.
Proof.
  intros (cs & Hc & ? & ?). exists cs. split; [|done].
  apply cells_at_Some in Hc. apply cells_at_Some. simpl.
  by apply lookup_app_l_Some.
Qed.

Lemma valid_buf_mem s s' p len :
  mem s' = mem s → valid_buf s p len → valid_buf s' p len.
Proof. unfold valid_buf. by intros ->. Qed.

Lemma valid_buf_malloc num s p s' q len :
  malloc num s = (Ret (Some p), s') → valid_buf s q len → valid_buf s' q len.
Proof.
  intros [_ Hm]%malloc_ok Hv. destruct s' as [m' o' l']; simpl in *; subst.
  by apply valid_buf_app.
Qed.

Lemma valid_buf_fresh num s p s' :
  0 ≤ num → malloc num s = (Ret (Some p), s') → valid_buf s' p num.
Proof.
  intros Hnum [-> Hm]%malloc_ok. unfold valid_buf, cells_at. rewrite Hm. simpl.
  rewrite lookup_app_r, Nat.sub_diag by lia. simpl.
  eexists. split; [done|]. rewrite length_replicate. lia.
Qed.

Lemma valid_buf_lt s p len : valid_buf s p len → (pblock p < length (mem s))%nat.
Proof.
  intros (cs & Hc%cells_at_Some & _). by apply lookup_lt_Some in Hc.
Qed.

Lemma valid_buf_sub s p len off len' :
  valid_buf s p len → 0 ≤ off → off + len' ≤ len → valid_buf s (p +ₚ off) len'.
Proof.
  intros (cs & Hc & ? & ?) ??. exists cs. simpl. split; [done|]. lia.
Qed.

(** An exact result within the width of [int] is not changed by [wrap]. *)
Lemma wrap_id z : INT_MIN ≤ z ≤ INT_MAX → wrap z = z.
Proof.
  unfold wrap, INT_MIN, INT_MAX. intros H.
  rewrite Z.mod_small by lia. lia.
Qed.

Lemma wrap_range z : INT_MIN ≤ wrap z ≤ INT_MAX.
Proof.
  unfold wrap, INT_MIN, INT_MAX.
  pose proof (Z.mod_pos_bound (z - -2147483648) 4294967296 ltac:(lia)). lia.
Qed.

(** [n + fs - k], as line 369 and line 379 compute it, when [n + fs] is an
    [int]. *)
Lemma tail_offset fs n k :
  0 ≤ fs → 0 < n → 1 ≤ k → k ≤ fs → n + fs ≤ INT_MAX →
  wrap (wrap (n + fs) - k) = n + fs - k.
Proof.
  intros. rewrite (wrap_id (n + fs)) by (unfold INT_MIN, INT_MAX in *; lia).
  apply wrap_id. unfold INT_MIN, INT_MAX in *. lia.
Qed.

(** The workspace policy: what a successful [alloc_workspace] returns, when
    the size [n + fs] of the workspace is an [int]. *)
Lemma alloc_workspace_ret SA fs n k s C B flags s1 :
  0 ≤ fs → 0 < n → 1 ≤ k → n + fs ≤ INT_MAX →
  alloc_workspace SA fs n k s = (Ret (C, B, flags), s1) →
  (k ≤ 256 ∧ k ≤ fs ∧ flags = 1 ∧
     malloc k s = (Ret (Some C), s1) ∧ B = SA +ₚ (n + fs - k)) ∨
  (k ≤ 256 ∧ fs < k ∧ flags = 3 ∧
     ∃ sC, malloc k s = (Ret (Some C), sC) ∧ malloc k sC = (Ret (Some B), s1)) ∨
  (256 < k ∧ k ≤ fs - k ∧ flags = 0 ∧
     s1 = s ∧ C = SA +ₚ (n + fs - k) ∧ B = C +ₚ (- k)) ∨
  (256 < k ∧ k ≤ fs ∧ fs - k < k ∧ k ≤ 1024 ∧ flags = 2 ∧
     C = SA +ₚ (n + fs - k) ∧ malloc k s = (Ret (Some B), s1)) ∨
  (256 < k ∧ k ≤ fs ∧ fs - k < k ∧ 1024 < k ∧ flags = 8 ∧
     s1 = s ∧ C = SA +ₚ (n + fs - k) ∧ B = C) ∨
  (256 < k ∧ fs < k ∧ flags = 12 ∧
     B = C ∧ malloc k s = (Ret (Some C), s1)).
Proof.
  unfold alloc_workspace, MINBUCKETSIZE. intros Hfs Hn Hk Hint H.
  unfold mbind, M_bind, mret, M_ret in H.
  destruct (Z.leb_spec k 256).
  - unfold mbind, M_bind in H.
    destruct (malloc k s) as [[[pC|]| |] sC] eqn:EC; try done.
    destruct (Z.leb_spec k fs).
    + left. rewrite tail_offset in H by done. by simplify_eq/=.
    + right; left.
      destruct (malloc k sC) as [[[pB|]| |] sB] eqn:EB; try done.
      * simplify_eq/=. eauto 10.
      * by destruct (free pC sB) as [[?|?|?] ?].
  - destruct (Z.leb_spec k fs).
    + rewrite !tail_offset in H by done.
      destruct (Z.leb_spec k (fs - k)).
      * do 2 right; left. by simplify_eq/=.
      * destruct (Z.leb_spec k (256 * 4)).
        -- do 3 right; left. unfold mbind, M_bind in H.
           destruct (malloc k s) as [[[pB|]| |] sB] eqn:EB; try done.
           simplify_eq/=. split_and!; try done; lia.
        -- do 4 right; left. simplify_eq/=. split_and!; try done; lia.
    + do 5 right. unfold mbind, M_bind in H.
      destruct (malloc k s) as [[[pC|]| |] sC] eqn:EC; try done.
      by simplify_eq/=.
Qed.

Lemma padd_padd p a b : p +ₚ a +ₚ b = p +ₚ (a + b).
Proof. unfold padd; simpl. f_equal. lia. Qed.

Lemma alloc_D_ret C B flags k s D s' :
  alloc_D C B flags k s = (Ret D, s') →
  (has flags 16 = true ∧ malloc (k * 2) s = (Ret (Some D), s')) ∨
  (has flags 16 = false ∧ D = B +ₚ (- (k * 2)) ∧ s' = s).
Proof.
  unfold alloc_D. intros H. destruct (has flags 16).
  - left. split; [done|]. unfold mbind, M_bind, mret, M_ret in H.
    destruct (malloc (k * 2) s) as [[[pD|]| |] sD] eqn:ED; try done.
    + by simplify_eq/=.
    + destruct (when_ _ _ sD) as [[?|?|?] ?]; [|done..].
      by destruct (when_ _ _ _) as [[?|?|?] ?].
  - right. unfold mret, M_ret in H. by simplify_eq/=.
Qed.

Lemma length_mem_quiet_step s s' :
  quiet_step s s' → length (mem s') = length (mem s).
Proof. intros (_ & _ & Hs). by rewrite <- !length_shape, Hs. Qed.

Lemma LMSsort2_layout T SA fs n k cs s0 C B flags0 s1 m j b s2 D s3 s4 :
  valid_buf s0 SA (n + fs) → 0 ≤ fs → 0 < n → 1 ≤ k → n + fs ≤ INT_MAX →
  alloc_workspace SA fs n k s0 = (Ret (C, B, flags0), s1) →
  stage1_discover T SA C B n k cs s1 = (Ret (m, j, b), s2) →
  has (sort2_flags flags0 fs n k) (Z.lor 16 32) = true →
  alloc_D C B (sort2_flags flags0 fs n k) k s2 = (Ret D, s3) →
  prepare_sort2 T SA C B D n k cs j s3 = (Ret tt, s4) →
  C ≠ B ∧
  valid_buf s4 D (k * 2) ∧ valid_buf s4 C k ∧ valid_buf s4 B k ∧
  disjoint D (k * 2) C k ∧ disjoint D (k * 2) B k ∧
  disjoint D (k * 2) SA n ∧ disjoint C k B k.
Proof.
  intros HSA Hfs Hn Hk Hint Hws Hs1 Hflags HD Hprep.
  pose proof (valid_buf_lt _ _ _ HSA) as HSAlt.
  apply (quiet_run _ _ _ _ (quiet_stage1_discover _ _ _ _ _ _ _)) in Hs1.
  apply (quiet_run _ _ _ _ (quiet_prepare_sort2 _ _ _ _ _ _ _ _ _)) in Hprep.
  pose proof (length_mem_quiet_step _ _ Hs1) as Hlen12.
  apply alloc_D_ret in HD.
  unfold sort2_flags in Hflags, HD.
  apply (alloc_workspace_ret _ _ _ _ _ _ _ _ _ Hfs Hn Hk Hint) in Hws as
    [(? & ? & -> & EC & ->)|[(? & ? & -> & sC & EC & EB)|
    [(? & ? & -> & -> & -> & ->)|[(? & ? & ? & ? & -> & -> & EB)|
    [(? & ? & ? & ? & -> & -> & -> & ->)|(? & ? & -> & -> & EC)]]]]];
    destruct ((n <=? SAIS_LMSSORT2_LIMIT) && (2 <=? n `quot` k));
    try (by vm_compute in Hflags).
  - (* C on the heap, B in the tail *)
    pose proof (valid_buf_fresh k _ _ _ ltac:(lia) EC) as HCv.
    pose proof (valid_buf_malloc _ _ _ _ _ _ EC HSA) as HSAC.
    destruct (malloc_ok _ _ _ _ EC) as [-> HmC].
    assert (HB : valid_buf s1 (SA +ₚ (n + fs - k)) k)
      by (eapply valid_buf_sub; [done|lia..]).
    change (has 1 1) with true in *. cbv iota in *.
    rewrite has_lor_l in HD. change (has 1 16) with false in HD.
    destruct (Z.leb_spec (k * 2) (fs - k)).
    + (* D in the tail *)
      change (has 32 16) with false in HD.
      destruct HD as [[? _]|(_ & -> & ->)]; [done|].
      assert (HDv : valid_buf s1 (SA +ₚ (n + fs - k) +ₚ - (k * 2)) (k * 2)).
      { rewrite padd_padd. eapply valid_buf_sub; [exact HSAC|lia..]. }
      split; [intros [= ? ?]; lia|].
      split_and!; try (by eauto using valid_buf_quiet_step);
        unfold disjoint; simpl; lia.
    + (* D on the heap *)
      change (has 16 16) with true in HD.
      destruct HD as [[_ ED]|(? & _)]; [|done].
      pose proof (valid_buf_fresh (k * 2) _ _ _ ltac:(lia) ED) as HDv.
      destruct (malloc_ok _ _ _ _ ED) as [-> HmD].
      split; [intros [= ? ?]; lia|].
      split_and!; eauto using valid_buf_quiet_step, valid_buf_malloc;
        unfold disjoint; simpl; rewrite ?Hlen12, ?HmC, ?length_app; simpl; lia.
  - (* C and B on the heap *)
    pose proof (valid_buf_fresh k _ _ _ ltac:(lia) EC) as HCv.
    pose proof (valid_buf_fresh k _ _ _ ltac:(lia) EB) as HBv.
    pose proof (valid_buf_malloc _ _ _ _ _ _ EB HCv) as HCv'.
    destruct (malloc_ok _ _ _ _ EC) as [-> HmC].
    destruct (malloc_ok _ _ _ _ EB) as [-> HmB].
    change (has 3 1) with true in *. cbv iota in *.
    destruct (Z.leb_spec (k * 2) (fs - k)); [lia|].
    change (has (Z.lor 3 16) 16) with true in HD.
    destruct HD as [[_ ED]|(? & _)]; [|done].
    pose proof (valid_buf_fresh (k * 2) _ _ _ ltac:(lia) ED) as HDv.
    destruct (malloc_ok _ _ _ _ ED) as [-> HmD].
    split; [intros [= ?]; rewrite HmC, length_app in *; simpl in *; lia|].
    split_and!; eauto using valid_buf_quiet_step, valid_buf_malloc;
      unfold disjoint; simpl; rewrite ?Hlen12, ?HmB, ?HmC, ?length_app; simpl; lia.
  - (* C and B in the tail *)
    change (has 0 1) with false in *. cbv iota in *.
    change (0 =? 0) with true in *. cbn [andb] in *.
    destruct (Z.leb_spec (k * 2) (fs - k * 2)); [|by vm_compute in Hflags].
    change (has (Z.lor 0 32) 16) with false in HD.
    destruct HD as [[? _]|(_ & -> & ->)]; [done|].
    assert (HC : valid_buf s0 (SA +ₚ (n + fs - k)) k)
      by (eapply valid_buf_sub; [done|lia..]).
    assert (HB : valid_buf s0 (SA +ₚ (n + fs - k) +ₚ - k) k).
    { rewrite padd_padd. eapply valid_buf_sub; [exact HSA|lia..]. }
    assert (HDv : valid_buf s0 (SA +ₚ (n + fs - k) +ₚ - k +ₚ - (k * 2)) (k * 2)).
    { rewrite !padd_padd. eapply valid_buf_sub; [exact HSA|lia..]. }
    split; [intros [= ?]; lia|].
    split_and!; try (by eauto using valid_buf_quiet_step);
      unfold disjoint; simpl; lia.
Qed.

(** C10. Whenever [computeSA], called with [SA] pointing at [n + fs] cells
    ([0 <= fs], [0 < n], [1 <= k], and [n + fs] an [int]), reaches the call
    of [LMSsort2] (the two-pass flags 16 or 32 being set), [C] and [B] are
    different pointers to disjoint buffers of [k] cells, and [D] is a buffer
    of [2k] cells disjoint from [C], from [B] and from [SA[0..n)]; and in no
    run of [computeSA], at any depth of recursion and whatever its
    arguments, does the assertion [C != B] of line 184 fail. *)
Theorem LMSsort2_buffers :
  (∀ T SA fs n k cs s0 C B flags0 s1 m j b s2 D s3 s4,
     valid_buf s0 SA (n + fs) → 0 ≤ fs → 0 < n → 1 ≤ k → n + fs ≤ INT_MAX →
     alloc_workspace SA fs n k s0 = (Ret (C, B, flags0), s1) →
     stage1_discover T SA C B n k cs s1 = (Ret (m, j, b), s2) →
     has (sort2_flags flags0 fs n k) (Z.lor 16 32) = true →
     alloc_D C B (sort2_flags flags0 fs n k) k s2 = (Ret D, s3) →
     prepare_sort2 T SA C B D n k cs j s3 = (Ret tt, s4) →
     C ≠ B ∧
     valid_buf s4 D (k * 2) ∧ valid_buf s4 C k ∧ valid_buf s4 B k ∧
     disjoint D (k * 2) C k ∧ disjoint D (k * 2) B k ∧
     disjoint D (k * 2) SA n ∧ disjoint C k B k) ∧
  (∀ depth T SA fs n k cs s,
     (pblock SA < length (mem s))%nat →
     (computeSA depth T SA fs n k cs s).1 ≠ Abort (AssertFailed 184)).
Proof.
  split.
  - intros. by eapply LMSsort2_layout.
  - intros depth T SA fs n k cs s HSA.
    pose proof (computeSA_call depth T SA fs n k cs s HSA) as H.
    unfold sat, call_post in H.
    destruct (computeSA depth T SA fs n k cs s) as [[z|z|e] s']; simpl; try done.
    destruct H as [H _]. congruence.
Qed.

Lemma LMSsort2_buffers_witness :
  let s0 := initial [1; 0; 2; 0; 2; 0] 12 [] in
  let C := Ptr 2 0 in
  let B := SA0 +ₚ 15 in
  let D := B +ₚ (- (3 * 2)) in
  let s1 := (alloc_workspace SA0 12 6 3 s0).2 in
  let s2 := (stage1_discover T0 SA0 C B 6 3 1 s1).2 in
  let s4 := (prepare_sort2 T0 SA0 C B D 6 3 1 0 s2).2 in
  C ≠ B ∧
  valid_buf s4 D (3 * 2) ∧ valid_buf s4 C 3 ∧ valid_buf s4 B 3 ∧
  disjoint D (3 * 2) C 3 ∧ disjoint D (3 * 2) B 3 ∧
  disjoint D (3 * 2) SA0 6 ∧ disjoint C 3 B 3.
Proof.
  intros s0 C B D s1 s2 s4.
  apply (proj1 LMSsort2_buffers T0 SA0 12 6 3 1 s0 C B 1 s1 2 0 (Some 1) s2 D s2 s4).
  - eexists. split; [reflexivity|]. simpl. lia.
  - lia.
  - lia.
  - lia.
  - unfold INT_MAX. lia.
  - vm_compute. reflexivity.
  - vm_compute. reflexivity.
  - vm_compute. reflexivity.
  - vm_compute. reflexivity.
  - vm_compute. reflexivity.
Defined.

(** ** The log only grows *)

Lemma logmono_ret {A} (a : A) : logmono (mret a).
Proof. intros s. by exists []. Qed.

Lemma logmono_exit {A} z : logmono (exit_ (A:=A) z).
Proof. intros s. by exists []. Qed.

Lemma logmono_quiet {A} (c : M A) : quiet c → logmono c.
Proof. intros Hq s. exists []. by destruct (Hq s) as [(_ & -> & _) _]. Qed.

Lemma logmono_bind {A B} (c : M A) (f : A → M B) :
  logmono c → (∀ a, logmono (f a)) → logmono (c ≫= f).
Proof.
  intros Hc Hf s. destruct (Hc s) as [new Hn]. unfold mbind, M_bind.
  destruct (c s) as [[a|z|e] s']; simpl in *; eauto.
  destruct (Hf a s') as [new' Hn']. exists (new' ++ new).
  by rewrite Hn', Hn, app_assoc.
Qed.

Lemma logmono_assert line b : logmono (assert_ line b).
Proof. intros s. exists []. by destruct b. Qed.

Lemma logmono_trace ev : logmono (trace ev).
Proof. intros s. by exists [ev]. Qed.

Lemma logmono_malloc num : logmono (malloc num).
Proof.
  intros s. unfold malloc.
  destruct (match oracle s with [] => true | b :: _ => b end); simpl;
    by eexists [_].
Qed.

Lemma logmono_free p : logmono (free p).
Proof.
  intros s. unfold free.
  destruct (cells_at (mem s) (pblock p)); [|by exists []].
  destruct (poff p =? 0); [by eexists [_]|by exists []].
Qed.

Lemma logmono_when b c : logmono c → logmono (when_ b c).
Proof. intros. destruct b; [done|apply logmono_ret]. Qed.

Lemma logmono_function body : logmono body → logmono (function body).
Proof.
  intros Hb s. destruct (Hb s) as [new Hn]. unfold function.
  destruct (body s) as [[z|z|e] s']; simpl in *; eauto.
Qed.

Ltac logmono_tac :=
  repeat first
    [ apply logmono_ret
    | apply logmono_exit
    | apply logmono_malloc
    | apply logmono_free
    | apply logmono_trace
    | apply logmono_quiet; solve [quiet_tac]
    | apply logmono_when
    | apply logmono_bind; [|intros]
    | progress cbv zeta
    | match goal with
      | |- logmono (match ?x with _ => _ end) => destruct x
      | |- logmono (let (_, _) := ?x in _) => destruct x
      end ].

Lemma logmono_alloc_workspace SA fs n k : logmono (alloc_workspace SA fs n k).
Proof. unfold alloc_workspace. logmono_tac. Qed.

Lemma logmono_sort_LMS T SA C B flags n k cs m j b :
  logmono (sort_LMS T SA C B flags n k cs m j b).
Proof.
  unfold sort_LMS, alloc_D.
  destruct (1 <? m); [|apply logmono_quiet; destruct (m =? 1); quiet_tac].
  destruct (has flags (Z.lor 16 32)); [|apply logmono_quiet; quiet_tac].
  apply logmono_bind; [logmono_tac|]. intros D.
  apply logmono_bind; [apply logmono_quiet, quiet_prepare_sort2|]. intros _.
  apply logmono_bind.
  - unfold LMSsort2. apply logmono_bind; [apply logmono_assert|].
    intros _. apply logmono_quiet. quiet_tac.
  - intros _. logmono_tac.
Qed.

Lemma logmono_stage2 rec T SA C B flags fs n k cs m name :
  (∀ T' SA' fs' n' k' cs', logmono (rec T' SA' fs' n' k' cs')) →
  logmono (stage2 rec T SA C B flags fs n k cs m name).
Proof.
  intros Hrec. unfold stage2. destruct (name <? m); [|apply logmono_ret].
  destruct (reduced_workspace _ _ _ _ _ _) as [[newfs flags'] ra].
  repeat (apply logmono_bind; [first [apply Hrec|logmono_tac]|intros]).
  logmono_tac.
Qed.

Lemma logmono_stage3 T SA C B flags n k cs m :
  logmono (stage3 T SA C B flags n k cs m).
Proof. unfold stage3. logmono_tac. Qed.

Lemma logmono_computeSA depth T SA fs n k cs :
  logmono (computeSA depth T SA fs n k cs).
Proof.
  revert T SA fs n k cs. induction depth as [|depth IH]; intros.
  - intros s. by exists [].
  - cbn [computeSA]. apply logmono_function.
    apply logmono_bind; [apply logmono_trace|]. intros _.
    apply logmono_bind; [apply logmono_quiet; quiet_tac|]. intros _.
    apply logmono_bind; [apply logmono_alloc_workspace|]. intros [[C B] flags].
    apply logmono_bind; [apply logmono_quiet, quiet_stage1_discover|].
    intros [[m j] b].
    apply logmono_bind; [apply logmono_sort_LMS|]. intros name.
    apply logmono_bind; [by apply logmono_stage2|]. intros [[C' B'] flags'].
    apply logmono_stage3.
Qed.

(** ** Heap allocations with a small alphabet *)

Lemma logmono_from {A B} (c : M A) (f : A → M B) s base :
  (∃ new, log (c s).2 = new ++ base) → (∀ a, logmono (f a)) →
  ∃ new, log ((c ≫= f) s).2 = new ++ base.
Proof.
  intros [new Hn] Hf. unfold mbind, M_bind.
  destruct (c s) as [[a|z|e] s']; simpl in *; eauto.
  destruct (Hf a s') as [new' Hn']. exists (new' ++ new).
  by rewrite Hn', Hn, app_assoc.
Qed.

Lemma log_function body s : log (function body s).2 = log (body s).2.
Proof. unfold function. by destruct (body s) as [[z|z|e] s']. Qed.

Lemma log_after_malloc k s : ∃ r, log (malloc k s).2 = EvMalloc k r :: log s.
Proof.
  unfold malloc. destruct (match oracle s with [] => true | b :: _ => b end);
    simpl; eauto.
Qed.

(** With a small alphabet [alloc_workspace] takes [C] from the heap, and
    [B] too unless the slack has room for it. *)
Lemma alloc_workspace_small SA fs n k s C B flags0 s1 :
  k ≤ MINBUCKETSIZE →
  alloc_workspace SA fs n k s = (Ret (C, B, flags0), s1) →
  (k ≤ fs ∧ flags0 = 1 ∧ malloc k s = (Ret (Some C), s1) ∧
   B = SA +ₚ wrap (wrap (n + fs) - k)) ∨
  (fs < k ∧ flags0 = 3).
Proof.
  unfold alloc_workspace. intros Hk H.
  replace (k <=? MINBUCKETSIZE) with true in H by lia.
  unfold mbind, M_bind, mret, M_ret in H.
  destruct (malloc k s) as [[[pC|]| |] sC] eqn:EC; try done.
  destruct (Z.leb_spec k fs).
  - left. by simplify_eq/=.
  - right. unfold mbind, M_bind in H.
    destruct (malloc k sC) as [[[pB|]| |] sB] eqn:EB; try done.
    + by simplify_eq/=.
    + by destruct (free pC sB) as [[?|?|?] ?].
Qed.

(** C8, as amended. With [k <= 256], whatever the slack ([fs = 2n]
    included), every call of [computeSA] performs a heap allocation: the
    first thing it does after its entry is to request the [k] cells of [C]
    from [malloc].  What a slack [fs >= k] saves is the allocation of [B],
    placed at [SA + (n + fs - k)] when [n + fs] is an [int]; and with
    [fs = 2n] the two-pass sort never takes [D] from the heap: flag 16 stays
    clear, and [D] is [B - 2k]. *)
Theorem small_alphabet_allocates depth T SA fs n k cs s :
  0 ≤ fs → 0 < n → 1 ≤ k → k ≤ MINBUCKETSIZE →
  (∃ r new, log (computeSA (S depth) T SA fs n k cs s).2 =
            new ++ EvMalloc k r :: EvEnter T SA fs n k cs :: log s) ∧
  (∀ C B flags0 s1,
     alloc_workspace SA fs n k s = (Ret (C, B, flags0), s1) →
     (k ≤ fs → n + fs ≤ INT_MAX →
      malloc k s = (Ret (Some C), s1) ∧ B = SA +ₚ (n + fs - k) ∧ flags0 = 1) ∧
     (fs = 2 * n →
      has (sort2_flags flags0 fs n k) 16 = false ∧
      ∀ st, alloc_D C B (sort2_flags flags0 fs n k) k st =
            (Ret (B +ₚ (- (k * 2))), st))).
Proof.
  intros Hfs Hn Hk Hk256. split.
  - cbn [computeSA]. rewrite log_function.
    set (s1 := State (mem s) (oracle s) (EvEnter T SA fs n k cs :: log s)).
    rewrite (bind_ret_eq _ _ s tt s1) by done.
    rewrite (bind_ret_eq _ _ s1 tt s1)
      by (by replace ((0 <=? fs) && (0 <? n) && (1 <=? k)) with true by lia).
    destruct (log_after_malloc k s1) as [r Hr]. exists r.
    change (EvEnter T SA fs n k cs :: log s) with (log s1).
    apply logmono_from.
    + unfold alloc_workspace. replace (k <=? MINBUCKETSIZE) with true by lia.
      apply logmono_from; [by exists []|].
      intros [C|]; [|apply logmono_exit]. destruct (k <=? fs); logmono_tac.
    + intros [[C B] flags]. cbv zeta.
      apply logmono_bind; [apply logmono_quiet, quiet_stage1_discover|].
      intros [[m j] b].
      apply logmono_bind; [apply logmono_sort_LMS|]. intros name.
      apply logmono_bind; [apply logmono_stage2; intros; apply logmono_computeSA|].
      intros [[C' B'] flags']. apply logmono_stage3.
  - intros C B flags0 s1 Hws.
    apply alloc_workspace_small in Hws as [(Hkfs & -> & EC & ->)|[Hkfs ->]];
      [| |done].
    + split.
      * intros _ Hint. by rewrite tail_offset.
      * intros ->.
        assert (has (sort2_flags 1 (2 * n) n k) 16 = false) as H16.
        { unfold sort2_flags.
          destruct (Z.leb_spec n SAIS_LMSSORT2_LIMIT); [|done].
          destruct (Z.leb_spec 2 (n `quot` k)); [|done]. simpl.
          change (has 1 1) with true. cbv iota.
          assert (k * 2 <= n).
          { pose proof (Z.mul_quot_le n k ltac:(lia) ltac:(lia)). nia. }
          destruct (Z.leb_spec (k * 2) (2 * n - k)); [done|lia]. }
        split; [done|]. intros st. unfold alloc_D. by rewrite H16.
    + split; [lia|]. intros ->.
      assert (has (sort2_flags 3 (2 * n) n k) 16 = false) as H16.
      { unfold sort2_flags.
        destruct (Z.leb_spec n SAIS_LMSSORT2_LIMIT); [|done].
        destruct (Z.leb_spec 2 (n `quot` k)); [|done].
        pose proof (Z.mul_quot_le n k ltac:(lia) ltac:(lia)). nia. }
      split; [done|]. intros st. unfold alloc_D. by rewrite H16.
Qed.

Lemma small_alphabet_allocates_witness :
  let s := initial [1; 0; 2; 0; 2; 0] 12 [] in
  (∃ r new, log (computeSA 7 T0 SA0 12 6 3 1 s).2 =
            new ++ EvMalloc 3 r :: EvEnter T0 SA0 12 6 3 1 :: log s) ∧
  (∀ C B flags0 s1,
     alloc_workspace SA0 12 6 3 s = (Ret (C, B, flags0), s1) →
     (3 ≤ 12 → 6 + 12 ≤ INT_MAX →
      malloc 3 s = (Ret (Some C), s1) ∧ B = SA0 +ₚ (6 + 12 - 3) ∧ flags0 = 1) ∧
     (12 = 2 * 6 →
      has (sort2_flags flags0 12 6 3) 16 = false ∧
      ∀ st, alloc_D C B (sort2_flags flags0 12 6 3) 3 st =
            (Ret (B +ₚ (- (3 * 2))), st))).
Proof.
  intros s.
  apply (small_alphabet_allocates 6 T0 SA0 12 6 3 1 s);
    [lia | lia | lia | unfold MINBUCKETSIZE; lia].
Defined.

(** C8, as stated, fails: on "banana" with [k = 3] and [fs = 2n = 12] the
    call succeeds and its log shows a call of [malloc]. *)
Lemma no_allocation_claim_fails :
  ¬ (∀ (Tl : list Z) (k cs : Z),
       Tl ≠ [] → Forall (λ c, 0 ≤ c < k) Tl → 1 ≤ k ≤ 256 →
       let r := run Tl (2 * Z.of_nat (length Tl)) k cs [] in
       r.1 = Ret 0 → ∀ num res, EvMalloc num res ∉ log r.2).
Proof.
  intros H.
  apply (H [1; 0; 2; 0; 2; 0] 3 1 ltac:(done)
           ltac:(repeat constructor; lia) ltac:(lia) ltac:(by vm_compute)
           3 (Some 2%nat)).
  vm_compute. apply list_elem_of_lookup. by exists 1%nat.
Qed.

(** ** The slack of the recursive call *)

(** Lines 489-498 without overflow: when the size [n + fs] of the workspace
    is an [int] and the reduced text is at most half as long as the text,
    every sum and difference that [reduced_workspace] computes is exact. *)
Lemma reduced_workspace_exact flags fs n k m name :
  0 ≤ fs → 0 < n → 1 ≤ k → n + fs ≤ INT_MAX →
  0 ≤ m → 2 * m ≤ n → 0 ≤ name → name < m →
  (has flags (Z.lor 1 (Z.lor 4 8)) = false → k ≤ fs) →
  reduced_workspace flags fs n k m name =
  (let newfs := n + fs - m * 2 in
   let '(newfs, flags) :=
     if has flags (Z.lor 1 (Z.lor 4 8)) then (newfs, flags)
     else if k + name <=? newfs then (newfs - k, flags)
          else (newfs, Z.lor flags 8) in
   (newfs, flags, m + newfs)).
Proof.
  intros Hfs Hn Hk Hint Hm0 Hm Hname0 Hname Hkfs.
  unfold reduced_workspace. rewrite has_land_eqb.
  rewrite (wrap_id (n + fs)), (wrap_id (m * 2)), (wrap_id (n + fs - m * 2))
    by (unfold INT_MIN, INT_MAX in *; lia).
  destruct (has flags _); [done|]. cbn [negb]. specialize (Hkfs eq_refl).
  rewrite (wrap_id (k + name)) by (unfold INT_MIN, INT_MAX in *; lia).
  cbv zeta.
  destruct (Z.leb_spec (k + name) (n + fs - m * 2)); [|done].
  by rewrite wrap_id by (unfold INT_MIN, INT_MAX in *; lia).
Qed.

(** C7, as amended. Take a call with [0 <= fs], [0 < n], [1 <= k] and
    [n + fs] an [int], whose scan found [m] LMS positions ([2m <= n]) and
    whose names collide ([0 <= name < m]).  The slack handed to the recursive
    call is [n + fs - 2m], with the reduced string in the last [m] cells of
    the workspace, [SA[n + fs - m .. n + fs)], except in the regimes that
    keep [C] in the tail of [SA] with [B] apart ([256 < k <= fs] and
    [2k <= fs] or [k <= 1024]) when [k + name <= n + fs - 2m]: there the [k]
    cells of [C] are kept out of the callee's workspace, the slack is
    [n + fs - 2m - k] and the reduced string lies just below [C], in
    [SA[n + fs - k - m .. n + fs - k)].  In both cases the reduced string
    starts at [SA + m + newfs], and these are the arguments [stage2] passes
    to the recursive call. *)
Theorem reduced_workspace_slack SA fs n k s C B flags0 s1 m name newfs flags' ra :
  0 ≤ fs → 0 < n → 1 ≤ k → n + fs ≤ INT_MAX →
  0 ≤ m → 2 * m ≤ n → 0 ≤ name → name < m →
  alloc_workspace SA fs n k s = (Ret (C, B, flags0), s1) →
  reduced_workspace (sort2_flags flags0 fs n k) fs n k m name = (newfs, flags', ra) →
  ra = m + newfs ∧
  (if decide (MINBUCKETSIZE < k ∧ k ≤ fs ∧
              (k ≤ fs - k ∨ k ≤ MINBUCKETSIZE * 4) ∧
              k + name ≤ n + fs - 2 * m)
   then newfs = n + fs - 2 * m - k ∧ ra + m = n + fs - k
   else newfs = n + fs - 2 * m ∧ ra + m = n + fs) ∧
  (∀ rec1 rec2 T cs st,
     rec1 (SA +ₚ ra) SA newfs m name sizeof_int =
     rec2 (SA +ₚ ra) SA newfs m name sizeof_int →
     stage2 rec1 T SA C B (sort2_flags flags0 fs n k) fs n k cs m name st =
     stage2 rec2 T SA C B (sort2_flags flags0 fs n k) fs n k cs m name st).
Proof.
  intros Hfs Hn Hk Hint Hm0 Hm Hname0 Hname Hws Hrw. split_and!.
  - unfold reduced_workspace in Hrw. repeat case_match; by simplify_eq.
  - unfold MINBUCKETSIZE.
    assert (Hbits : ∀ f, has (sort2_flags f fs n k) (Z.lor 1 (Z.lor 4 8)) =
                         has f (Z.lor 1 (Z.lor 4 8))).
    { intros f. unfold sort2_flags. repeat case_match; try done;
        rewrite has_lor_l; by rewrite orb_false_r. }
    apply (alloc_workspace_ret _ _ _ _ _ _ _ _ _ Hfs Hn Hk Hint) in Hws as
      [(? & ? & -> & EC & ->)|[(? & ? & -> & sC & EC & EB)|
      [(? & ? & -> & -> & -> & ->)|[(? & ? & ? & ? & -> & -> & EB)|
      [(? & ? & ? & ? & -> & -> & -> & ->)|(? & ? & -> & -> & EC)]]]]];
      (rewrite reduced_workspace_exact in Hrw;
         [|done..|rewrite Hbits; vm_compute (has _ _); intros; first [done|lia]]);
      rewrite Hbits in Hrw;
      vm_compute (has _ _) in Hrw; cbv zeta iota in Hrw;
      try destruct (Z.leb_spec (k + name) (n + fs - m * 2));
      simplify_eq; case_decide; lia.
  - intros rec1 rec2 T cs st Hrec. unfold stage2. rewrite Hrw.
    destruct (name <? m); [|done]. by rewrite Hrec.
Qed.

Lemma reduced_workspace_slack_witness :
  let s := initial [2; 1; 2; 1; 2; 1; 2] 600 [] in
  let C := SA0 +ₚ 350 in
  let B := C +ₚ (- 257) in
  347 = 3 + 344 ∧
  (if decide (MINBUCKETSIZE < 257 ∧ 257 ≤ 600 ∧
              (257 ≤ 600 - 257 ∨ 257 ≤ MINBUCKETSIZE * 4) ∧
              257 + 2 ≤ 7 + 600 - 2 * 3)
   then 344 = 7 + 600 - 2 * 3 - 257 ∧ 347 + 3 = 7 + 600 - 257
   else 344 = 7 + 600 - 2 * 3 ∧ 347 + 3 = 7 + 600) ∧
  (∀ rec1 rec2 T cs st,
     rec1 (SA0 +ₚ 347) SA0 344 3 2 sizeof_int =
     rec2 (SA0 +ₚ 347) SA0 344 3 2 sizeof_int →
     stage2 rec1 T SA0 C B (sort2_flags 0 600 7 257) 600 7 257 cs 3 2 st =
     stage2 rec2 T SA0 C B (sort2_flags 0 600 7 257) 600 7 257 cs 3 2 st).
Proof.
  intros s C B.
  apply (reduced_workspace_slack SA0 600 7 257 s C B 0 s 3 2 344 0 347);
    [lia | lia | lia | unfold INT_MAX; lia | lia | lia | lia | lia
    | vm_compute; reflexivity | vm_compute; reflexivity].
Defined.

(** C7, as stated, fails: on [T = 2 1 2 1 2 1 2] with [k = 257] and
    [fs = 600] the call succeeds, finds [m = 3] LMS positions with
    [name = 2 < m], and recurses (third event from the end of the run) with
    the slack 344 and the reduced string at [SA + 347], not with
    [n + fs - 2m = 601] and [SA + 604]. *)
Lemma slack_claim_fails :
  let r := run [2; 1; 2; 1; 2; 1; 2] 600 257 sizeof_int [] in
  r.1 = Ret 0 ∧
  log r.2 !! 2%nat = Some (EvEnter (SA0 +ₚ 347) SA0 344 3 2 sizeof_int) ∧
  344 ≠ 7 + 600 - 2 * 3 ∧
  SA0 +ₚ 347 ≠ SA0 +ₚ (3 + (7 + 600 - 2 * 3)).
Proof. vm_compute. split_and!; done. Qed.

(** ** The scenarios of the specification *)

(** C3. On "banana" = [1,0,2,0,2,0] ([k = 3]), on [0,0,0,0,0] ([k = 1]) and
    on [0,1,...,7] ([k = 8]), with byte-wide elements, every allocation
    succeeding and any slack [fs] from 0 to 40, [computeSA] returns 0 and
    leaves in [SA[0..n)] the arrays [5,3,1,0,4,2], [4,3,2,1,0] and
    [0,1,...,7]. *)
Theorem scenarios :
  Forall (λ fs, sa_of [1; 0; 2; 0; 2; 0] fs 3 1 [] =
                (Ret 0, Some (Some <$> [5; 3; 1; 0; 4; 2]))) (seqZ 0 41) ∧
  Forall (λ fs, sa_of [0; 0; 0; 0; 0] fs 1 1 [] =
                (Ret 0, Some (Some <$> [4; 3; 2; 1; 0]))) (seqZ 0 41) ∧
  Forall (λ fs, sa_of [0; 1; 2; 3; 4; 5; 6; 7] fs 8 1 [] =
                (Ret 0, Some (Some <$> [0; 1; 2; 3; 4; 5; 6; 7]))) (seqZ 0 41).
Proof.
  split_and!; apply (bool_decide_unpack _); vm_compute; exact I.
Qed.

(** ** Loads and stores *)

Lemma load_rd s p v : rd s p = Some v → load p s = (Ret v, s).
Proof.
  unfold rd, load. destruct (cells_at (mem s) (pblock p)) as [cs|]; [|done].
  destruct (poff p <? 0); [done|].
  destruct (cs !! Z.to_nat (poff p)) as [[x|]|]; simpl; congruence.
Qed.

Lemma store_wr s p v : valid_buf s p 1 → store p v s = (Ret tt, wr s p v).
Proof.
  intros (cs & Hc & H0 & H1). unfold wr, store. rewrite Hc.
  replace ((poff p <? 0) || (Z.of_nat (length cs) <=? poff p)) with false by lia.
  done.
Qed.

Lemma quiet_step_wr s p v : quiet_step s (wr s p v).
Proof. unfold wr. by destruct (quiet_store p v s) as [H _]. Qed.

Lemma rd_wr_eq s p v : valid_buf s p 1 → rd (wr s p v) p = Some v.
Proof.
  intros (cs & Hc & H0 & H1). unfold wr, store. rewrite Hc.
  replace ((poff p <? 0) || (Z.of_nat (length cs) <=? poff p)) with false by lia.
  simpl. unfold rd, cells_at; simpl.
  apply cells_at_Some in Hc. apply lookup_lt_Some in Hc as Hlt.
  rewrite list_lookup_insert_eq by done.
  replace (poff p <? 0) with false by lia.
  rewrite list_lookup_insert_eq by lia. done.
Qed.

Lemma rd_wr_ne s p q v : q ≠ p → rd (wr s p v) q = rd s q.
Proof.
  intros Hne. unfold wr, store.
  destruct (cells_at (mem s) (pblock p)) as [cs|] eqn:Hc; [|done].
  destruct (_ || _) eqn:Hb; [done|]. simpl. unfold rd, cells_at; simpl.
  apply cells_at_Some in Hc.
  destruct (decide (pblock q = pblock p)) as [Hbq|Hbq].
  - rewrite Hbq, list_lookup_insert_eq by (by eapply lookup_lt_Some).
    rewrite Hc. destruct (poff q <? 0) eqn:Hq; [done|].
    rewrite list_lookup_insert_ne; [done|].
    intros Heq. apply Hne. destruct p, q; simpl in *. f_equal; [done|lia].
  - by rewrite list_lookup_insert_ne.
Qed.

Lemma valid_buf_wr s p v q len : valid_buf s q len → valid_buf (wr s p v) q len.
Proof. apply valid_buf_quiet_step, quiet_step_wr. Qed.

Lemma padd_0 p : p +ₚ 0 = p.
Proof. destruct p. unfold padd; simpl. f_equal. lia. Qed.

Lemma padd_inj p a b : p +ₚ a = p +ₚ b → a = b.
Proof. unfold padd. intros [= ?]. lia. Qed.

Lemma disjoint_ne p lp q lq i j :
  disjoint p lp q lq → 0 ≤ i < lp → 0 ≤ j < lq → p +ₚ i ≠ q +ₚ j.
Proof. unfold disjoint, padd. intros Hd ?? [= ??]. lia. Qed.

Lemma disjoint_sym p lp q lq : disjoint p lp q lq → disjoint q lq p lp.
Proof. unfold disjoint. intuition. Qed.

Lemma valid_buf_cell s p len i :
  valid_buf s p len → 0 ≤ i < len → valid_buf s (p +ₚ i) 1.
Proof. intros. eapply valid_buf_sub; [done|lia..]. Qed.

Lemma holds_wr_other s p v q n f :
  holds s q n f → (∀ i, 0 ≤ i < n → q +ₚ i ≠ p) → holds (wr s p v) q n f.
Proof. intros H Hne i Hi. rewrite rd_wr_ne by auto. by apply H. Qed.

Lemma holds_wr_same s p n f i v :
  holds s p n f → valid_buf s p n → 0 ≤ i < n →
  holds (wr s (p +ₚ i) v) p n (λ x, if x =? i then v else f x).
Proof.
  intros H Hv Hi x Hx. destruct (Z.eqb_spec x i) as [->|Hne].
  - apply rd_wr_eq. by eapply valid_buf_cell.
  - rewrite rd_wr_ne; [by apply H|]. intros E%padd_inj. done.
Qed.

Lemma holds_ext s p n f g :
  holds s p n f → (∀ i, 0 ≤ i < n → f i = g i) → holds s p n g.
Proof. intros H E i Hi. rewrite <- E by done. by apply H. Qed.

Lemma holds_quiet_frame s s' p n f :
  holds s p n f → (∀ i, 0 ≤ i < n → rd s' (p +ₚ i) = rd s (p +ₚ i)) →
  holds s' p n f.
Proof. intros H E i Hi. rewrite E by done. by apply H. Qed.

(** ** Runs that end normally *)

Lemma sat_ok_bind {A B} (c : M A) (f : A → M B) s R Q :
  sat c s (ok R) → (∀ a s', R a s' → sat (f a) s' (ok Q)) →
  sat (c ≫= f) s (ok Q).
Proof.
  intros Hc Hf. apply sat_bind. unfold sat in *.
  destruct (c s) as [[a|z|e] s']; simpl in *; auto.
Qed.

Lemma sat_ok_ret {A} (a : A) s (Q : A → state → Prop) :
  Q a s → sat (mret a) s (ok Q).
Proof. done. Qed.

Lemma sat_ok_mono {A} (c : M A) s (Q Q' : A → state → Prop) :
  sat c s (ok Q) → (∀ a s', Q a s' → Q' a s') → sat c s (ok Q').
Proof. unfold sat. destruct (c s) as [[a|z|e] s']; simpl; auto. Qed.

Lemma sat_ok_load p s v (Q : Z → state → Prop) :
  rd s p = Some v → Q v s → sat (load p) s (ok Q).
Proof. intros H HQ. unfold sat. by rewrite (load_rd _ _ _ H). Qed.

Lemma sat_ok_store p v s (Q : unit → state → Prop) :
  valid_buf s p 1 → Q tt (wr s p v) → sat (store p v) s (ok Q).
Proof. intros H HQ. unfold sat. by rewrite (store_wr _ _ _ H). Qed.

Lemma sat_ok_run {A} (c : M A) s (Q : A → state → Prop) :
  sat c s (ok Q) → ∃ a s', c s = (Ret a, s') ∧ Q a s'.
Proof.
  unfold sat. destruct (c s) as [[a|z|e] s']; simpl; [eauto|done..].
Qed.

(** A [for] loop with an invariant [I j a s] on the number [j] of iterations
    done. *)
Lemma for_up_ok {A} (I : nat → A → state → Prop) cnt i0 (body : Z → A → M A) a s :
  I O a s →
  (∀ (j : nat) a s, (j < cnt)%nat → I j a s →
     sat (body (i0 + Z.of_nat j) a) s (ok (I (S j)))) →
  sat (for_up cnt i0 body a) s (ok (I cnt)).
Proof.
  revert I i0 a s. induction cnt as [|cnt IH]; intros I i0 a s H0 Hstep; [done|].
  simpl. eapply sat_ok_bind.
  - specialize (Hstep O a s ltac:(lia) H0). by rewrite Z.add_0_r in Hstep.
  - intros a' s' H1. apply (IH (λ j, I (S j))); [done|].
    intros j a2 s2 Hj H2.
    replace (i0 + 1 + Z.of_nat j) with (i0 + Z.of_nat (S j)) by lia.
    apply Hstep; [lia|done].
Qed.

Lemma for_down_ok {A} (I : nat → A → state → Prop) cnt i0 (body : Z → A → M A) a s :
  I O a s →
  (∀ (j : nat) a s, (j < cnt)%nat → I j a s →
     sat (body (i0 - Z.of_nat j) a) s (ok (I (S j)))) →
  sat (for_down cnt i0 body a) s (ok (I cnt)).
Proof.
  revert I i0 a s. induction cnt as [|cnt IH]; intros I i0 a s H0 Hstep; [done|].
  simpl. eapply sat_ok_bind.
  - specialize (Hstep O a s ltac:(lia) H0). by rewrite Z.sub_0_r in Hstep.
  - intros a' s' H1. apply (IH (λ j, I (S j))); [done|].
    intros j a2 s2 Hj H2.
    replace (i0 - 1 - Z.of_nat j) with (i0 - Z.of_nat (S j)) by lia.
    apply Hstep; [lia|done].
Qed.

(** A loop with an invariant [I] and a measure [mu] that each round
    decreases: enough fuel lets it end. *)
Lemma loop_ok {L R} (I : L → state → Prop) (mu : L → nat) (Q : R → state → Prop)
    fuel (body : L → M (L + R)) l s :
  I l s → (mu l < fuel)%nat →
  (∀ l s, I l s →
     sat (body l) s
       (ok (λ x s', match x with
                    | inl l' => I l' s' ∧ (mu l' < mu l)%nat
                    | inr r => Q r s'
                    end))) →
  sat (loop fuel body l) s (ok Q).
Proof.
  intros HI Hmu Hbody. revert l s HI Hmu.
  induction fuel as [|fuel IH]; intros l s HI Hmu; [lia|].
  simpl. eapply sat_ok_bind; [by apply Hbody|].
  intros [l'|r] s' H; simpl in H.
  - destruct H as [HI' Hlt]. apply IH; [done|lia].
  - by apply sat_ok_ret.
Qed.

Lemma sat_ok_load_eq p s v :
  rd s p = Some v → sat (load p) s (ok (λ x s', x = v ∧ s' = s)).
Proof. intros H. by apply (sat_ok_load _ _ v). Qed.

Lemma sat_ok_chr_eq T cs a s v :
  rd s (T +ₚ a) = Some v → sat (chr T cs a) s (ok (λ x s', x = v ∧ s' = s)).
Proof. apply sat_ok_load_eq. Qed.

(** [x ← load p; ...] when the cell holds [v]. *)
Lemma sat_load_bind {A} p s v (f : Z → M A) Q :
  rd s p = Some v → sat (f v) s Q → sat (load p ≫= f) s Q.
Proof.
  intros H Hf. unfold sat, mbind, M_bind. by rewrite (load_rd _ _ _ H).
Qed.

Lemma sat_chr_bind {A} T cs a s v (f : Z → M A) Q :
  rd s (T +ₚ a) = Some v → sat (f v) s Q → sat (chr T cs a ≫= f) s Q.
Proof. apply sat_load_bind. Qed.

(** [store p v;; ...] into a valid cell. *)
Lemma sat_store_bind {A} p v s (f : unit → M A) Q :
  valid_buf s p 1 → sat (f tt) (wr s p v) Q → sat (store p v ≫= f) s Q.
Proof.
  intros H Hf. unfold sat, mbind, M_bind. by rewrite (store_wr _ _ _ H).
Qed.

(** ** Counting *)

Lemma at_lookup Tl (i : nat) x : Tl !! i = Some x → at_ Tl (Z.of_nat i) = x.
Proof.
  intros H. unfold at_. destruct (Z.ltb_spec (Z.of_nat i) 0); [lia|].
  by rewrite Nat2Z.id, H.
Qed.

Lemma at_lookup_Z Tl i :
  0 ≤ i < Z.of_nat (length Tl) → Tl !! Z.to_nat i = Some (at_ Tl i).
Proof.
  intros Hi. unfold at_. destruct (Z.ltb_spec i 0); [lia|].
  destruct (lookup_lt_is_Some_2 Tl (Z.to_nat i) ltac:(lia)) as [x Hx].
  by rewrite Hx.
Qed.

Lemma at_range Tl k i :
  Forall (λ c, 0 ≤ c < k) Tl → 0 ≤ i < Z.of_nat (length Tl) → 0 ≤ at_ Tl i < k.
Proof.
  intros HF Hi. pose proof (at_lookup_Z Tl i Hi) as H.
  by apply (Forall_lookup_1 _ _ _ _ HF) in H.
Qed.

Lemma count_if_app f l1 l2 : count_if f (l1 ++ l2) = count_if f l1 + count_if f l2.
Proof. induction l1 as [|x l1 IH]; simpl; lia. Qed.

Lemma count_if_take_S f Tl (j : nat) :
  (j < length Tl)%nat →
  count_if f (take (S j) Tl) =
  count_if f (take j Tl) + (if f (at_ Tl (Z.of_nat j)) then 1 else 0).
Proof.
  intros Hj. destruct (lookup_lt_is_Some_2 Tl j Hj) as [x Hx].
  rewrite (take_S_r _ _ _ Hx), count_if_app, (at_lookup _ _ _ Hx). simpl. lia.
Qed.

Lemma count_if_nonneg f l : 0 ≤ count_if f l.
Proof. induction l as [|x l IH]; simpl; [lia|]. destruct (f x); lia. Qed.

Lemma count_if_le_length f l : count_if f l ≤ Z.of_nat (length l).
Proof. induction l as [|x l IH]; simpl; [lia|]. destruct (f x); lia. Qed.

Lemma count_if_ext f g l :
  Forall (λ x, f x = g x) l → count_if f l = count_if g l.
Proof. induction 1 as [|x l Hx _ IH]; simpl; [done|]. by rewrite Hx, IH. Qed.

Lemma count_if_mono f g l :
  (∀ x, f x = true → g x = true) → count_if f l ≤ count_if g l.
Proof.
  intros H. induction l as [|x l IH]; simpl; [lia|].
  destruct (f x) eqn:E; [rewrite (H _ E)|destruct (g x)]; lia.
Qed.

Lemma count_le_step Tl c :
  count_if (λ x, x <=? c) Tl =
  count_if (λ x, x <=? c - 1) Tl + count_if (Z.eqb c) Tl.
Proof.
  induction Tl as [|x l IH]; simpl; [done|]. rewrite IH.
  destruct (Z.leb_spec x c), (Z.leb_spec x (c - 1)), (Z.eqb_spec c x); lia.
Qed.

Lemma count_le_neg Tl k c :
  Forall (λ x, 0 ≤ x < k) Tl → c < 0 → count_if (λ x, x <=? c) Tl = 0.
Proof.
  intros HF Hc. induction HF as [|x l Hx _ IH]; simpl; [done|].
  rewrite IH. destruct (Z.leb_spec x c); lia.
Qed.

Lemma count_le_all Tl k c :
  Forall (λ x, 0 ≤ x < k) Tl → k - 1 ≤ c →
  count_if (λ x, x <=? c) Tl = Z.of_nat (length Tl).
Proof.
  intros HF Hc. induction HF as [|x l Hx _ IH]; simpl; [done|].
  rewrite IH. destruct (Z.leb_spec x c); lia.
Qed.

Lemma count_le_mono Tl c c' :
  c ≤ c' → count_if (λ x, x <=? c) Tl ≤ count_if (λ x, x <=? c') Tl.
Proof. intros. apply count_if_mono. intros x. lia. Qed.

(** ** Frames *)

Lemma frame_refl s p len : frame s s p len.
Proof. split; [apply quiet_step_refl|done]. Qed.

Lemma frame_trans s1 s2 s3 p len :
  frame s1 s2 p len → frame s2 s3 p len → frame s1 s3 p len.
Proof.
  intros [H1 G1] [H2 G2]. split; [by eapply quiet_step_trans|].
  intros q Hq. by rewrite G2, G1.
Qed.

Lemma frame_wr s p len i v : 0 ≤ i < len → frame s (wr s (p +ₚ i) v) p len.
Proof.
  intros Hi. split; [apply quiet_step_wr|].
  intros q Hq. apply rd_wr_ne. by apply Hq.
Qed.

Lemma frame_valid_buf s s' p len q n :
  frame s s' p len → valid_buf s q n → valid_buf s' q n.
Proof. intros [H _]. by apply valid_buf_quiet_step. Qed.

Lemma frame_holds s s' p len q n f :
  frame s s' p len → disjoint q n p len → holds s q n f → holds s' q n f.
Proof.
  intros [_ Hf] Hd H i Hi. rewrite Hf; [by apply H|].
  intros j Hj. by eapply disjoint_ne.
Qed.

(** A frame inside one block is a frame of any larger range of the block. *)
Lemma frame_weaken s s' p len off len' :
  frame s s' (p +ₚ off) len' → 0 ≤ off → off + len' ≤ len → frame s s' p len.
Proof.
  intros [H G] ??. split; [done|]. intros q Hq. apply G.
  intros i Hi. rewrite padd_padd. apply Hq. lia.
Qed.

(** ** [getCounts], [getBuckets], and the clearing of [SA] *)

Lemma getCounts_ok s T C n k cs Tl :
  holds s T n (at_ Tl) → n = Z.of_nat (length Tl) →
  Forall (λ c, 0 ≤ c < k) Tl →
  valid_buf s C k → disjoint T n C k →
  sat (getCounts T C n k cs) s
      (ok (λ _ s', holds s' C k (λ c, count_if (Z.eqb c) Tl) ∧ frame s s' C k)).
Proof.
  intros HT Hn HF HC Hd. unfold getCounts.
  eapply sat_ok_bind.
  { apply (for_up_ok (λ j _ s', (j ≤ Z.to_nat k)%nat ∧
                                holds s' C (Z.of_nat j) (λ _, 0) ∧ frame s s' C k)).
    - split; [lia|]. split; [intros i Hi; lia|apply frame_refl].
    - intros j [] s1 Hj (_ & H1 & F1). rewrite Z.add_0_l.
      apply sat_ok_store.
      { eapply valid_buf_cell; [by eapply frame_valid_buf|lia]. }
      split; [lia|]. split.
      + intros i Hi. destruct (Z.eqb_spec i (Z.of_nat j)) as [->|Hne].
        * apply rd_wr_eq. eapply valid_buf_cell; [by eapply frame_valid_buf|lia].
        * rewrite rd_wr_ne by (intros E%padd_inj; lia). apply H1. lia.
      + eapply frame_trans; [done|]. apply frame_wr. lia. }
  intros [] s1 (_ & H1 & F1). cbv beta in *.
  assert (Hk : Z.of_nat (Z.to_nat k) = k ∨ k < 0) by lia.
  eapply sat_ok_mono.
  { apply (for_up_ok (λ j _ s', holds s' C k (λ c, count_if (Z.eqb c) (take j Tl)) ∧
                                frame s s' C k)).
    - split; [|done]. intros i Hi. rewrite take_0. simpl. apply H1. lia.
    - intros j [] s2 Hj (H2 & F2). rewrite Z.add_0_l.
      assert (Hjn : 0 ≤ Z.of_nat j < n) by lia.
      pose proof (at_range Tl k (Z.of_nat j) HF ltac:(lia)) as Hc.
      eapply sat_chr_bind.
      { eapply frame_holds; [done|done|done|done]. }
      eapply sat_load_bind; [by apply H2|].
      apply sat_ok_store.
      { eapply valid_buf_cell; [by eapply frame_valid_buf|lia]. }
      split.
      + eapply holds_ext.
        * apply holds_wr_same; [done|by eapply frame_valid_buf|done].
        * intros i Hi. cbv beta. rewrite count_if_take_S by lia.
          destruct (Z.eqb_spec i (at_ Tl (Z.of_nat j))) as [->|Hne]; lia.
      + eapply frame_trans; [done|]. by apply frame_wr. }
  intros [] s2 [H2 F2]. split; [|done].
  eapply holds_ext; [done|]. intros i Hi. cbv beta.
  by rewrite take_ge by lia.
Qed.

(** ** Types of positions *)

Lemma stypes_length last l : length (stypes last l) = length l.
Proof.
  induction l as [|x [|y r] IH]; [done..|].
  change (stypes last (x :: y :: r)) with
    (((x <? y) || ((x =? y) && default false (head (stypes last (y :: r)))))
       :: stypes last (y :: r)).
  simpl length in *. by rewrite IH.
Qed.

Lemma stypes_tail last x l : l ≠ [] → tail (stypes last (x :: l)) = stypes last l.
Proof. by destruct l. Qed.

Lemma stypes_drop last l i : drop i (stypes last l) = stypes last (drop i l).
Proof.
  revert l. induction i as [|i IH]; intros l; [by rewrite !drop_0|].
  destruct l as [|x [|y r]]; [done| |].
  - simpl. by rewrite !drop_nil.
  - change (stypes last (x :: y :: r)) with
      (((x <? y) || ((x =? y) && default false (head (stypes last (y :: r)))))
         :: stypes last (y :: r)).
    rewrite !skipn_cons. apply IH.
Qed.

Lemma is_S_head last Tl i :
  0 ≤ i → is_S last Tl i = default false (head (stypes last (drop (Z.to_nat i) Tl))).
Proof.
  intros Hi. unfold is_S. destruct (Z.ltb_spec i 0); [lia|].
  rewrite <- stypes_drop, head_lookup, lookup_drop. by rewrite Nat.add_0_r.
Qed.

Lemma drop_at Tl i :
  0 ≤ i < Z.of_nat (length Tl) →
  drop (Z.to_nat i) Tl = at_ Tl i :: drop (Z.to_nat (i + 1)) Tl.
Proof.
  intros Hi. replace (Z.to_nat (i + 1)) with (S (Z.to_nat i)) by lia.
  by apply drop_S, at_lookup_Z.
Qed.

Lemma is_S_last last Tl :
  Tl ≠ [] → is_S last Tl (Z.of_nat (length Tl) - 1) = last.
Proof.
  intros Hne. assert (0 < length Tl)%nat by (destruct Tl; simpl; [done|lia]).
  rewrite is_S_head by lia. rewrite drop_at by lia.
  replace (Z.to_nat (Z.of_nat (length Tl) - 1 + 1)) with (length Tl) by lia.
  by rewrite drop_all.
Qed.

Lemma is_S_step last Tl i :
  0 ≤ i → i + 1 < Z.of_nat (length Tl) →
  is_S last Tl i =
  (at_ Tl i <? at_ Tl (i + 1)) ||
  ((at_ Tl i =? at_ Tl (i + 1)) && is_S last Tl (i + 1)).
Proof.
  intros H0 H1. rewrite !is_S_head by lia.
  rewrite (drop_at Tl i) by lia. rewrite (drop_at Tl (i + 1)) by lia. done.
Qed.

(** ** Runs *)

Lemma run_end_spec ge Tl (i : nat) :
  -1 ≤ run_end ge Tl i < Z.of_nat i ∧
  (∀ j, run_end ge Tl i < j < Z.of_nat i →
        run_cmp ge (at_ Tl j) (at_ Tl (j + 1)) = true) ∧
  (0 ≤ run_end ge Tl i →
   run_cmp ge (at_ Tl (run_end ge Tl i)) (at_ Tl (run_end ge Tl i + 1)) = false).
Proof.
  induction i as [|i (IH1 & IH2 & IH3)]; simpl; [split_and!; lia|].
  replace (Z.of_nat (S i)) with (Z.of_nat i + 1) by lia.
  destruct (run_cmp ge (at_ Tl (Z.of_nat i)) (at_ Tl (Z.of_nat i + 1))) eqn:E.
  - split_and!; [lia..| |done].
    intros j Hj. destruct (decide (j = Z.of_nat i)) as [->|]; [done|].
    apply IH2. lia.
  - split_and!; [lia..| |done]. intros j Hj. lia.
Qed.

(** A run of [>=] that starts at an L-type position stays L-type, and ends
    below an S-type position. *)
Lemma L_run last Tl (i : nat) j :
  (i < length Tl)%nat → is_S last Tl (Z.of_nat i) = false →
  run_end true Tl i < j ≤ Z.of_nat i → is_S last Tl j = false.
Proof.
  intros Hi HL. destruct (run_end_spec true Tl i) as (H1 & H2 & _).
  intros Hj. assert (∃ d : nat, j = Z.of_nat i - Z.of_nat d) as [d ->]
    by (exists (Z.to_nat (Z.of_nat i - j)); lia).
  induction d as [|d IH]; [by rewrite Z.sub_0_r|].
  rewrite is_S_step by lia.
  replace (Z.of_nat i - Z.of_nat (S d) + 1) with (Z.of_nat i - Z.of_nat d) by lia.
  rewrite IH by lia. specialize (H2 (Z.of_nat i - Z.of_nat (S d)) ltac:(lia)).
  replace (Z.of_nat i - Z.of_nat (S d) + 1) with (Z.of_nat i - Z.of_nat d) in H2 by lia.
  unfold run_cmp in H2. rewrite andb_false_r, orb_false_r. lia.
Qed.

Lemma L_run_end last Tl (i : nat) :
  (i < length Tl)%nat → is_S last Tl (Z.of_nat i) = false →
  0 ≤ run_end true Tl i → is_S last Tl (run_end true Tl i) = true.
Proof.
  intros Hi HL H0. destruct (run_end_spec true Tl i) as (H1 & _ & H3).
  rewrite is_S_step by lia. specialize (H3 H0). unfold run_cmp in H3.
  apply orb_true_iff. left. lia.
Qed.

(** A run of [<=] that starts at an S-type position stays S-type, and ends
    below an L-type position. *)
Lemma S_run last Tl (i : nat) j :
  (i < length Tl)%nat → is_S last Tl (Z.of_nat i) = true →
  run_end false Tl i < j ≤ Z.of_nat i → is_S last Tl j = true.
Proof.
  intros Hi HS. destruct (run_end_spec false Tl i) as (H1 & H2 & _).
  intros Hj. assert (∃ d : nat, j = Z.of_nat i - Z.of_nat d) as [d ->]
    by (exists (Z.to_nat (Z.of_nat i - j)); lia).
  induction d as [|d IH]; [by rewrite Z.sub_0_r|].
  rewrite is_S_step by lia.
  replace (Z.of_nat i - Z.of_nat (S d) + 1) with (Z.of_nat i - Z.of_nat d) by lia.
  rewrite IH by lia. specialize (H2 (Z.of_nat i - Z.of_nat (S d)) ltac:(lia)).
  replace (Z.of_nat i - Z.of_nat (S d) + 1) with (Z.of_nat i - Z.of_nat d) in H2 by lia.
  unfold run_cmp in H2. rewrite andb_true_r.
  apply orb_true_iff. lia.
Qed.

Lemma S_run_end last Tl (i : nat) :
  (i < length Tl)%nat → is_S last Tl (Z.of_nat i) = true →
  0 ≤ run_end false Tl i → is_S last Tl (run_end false Tl i) = false.
Proof.
  intros Hi HS H0. destruct (run_end_spec false Tl i) as (H1 & _ & H3).
  rewrite is_S_step by lia. specialize (H3 H0). unfold run_cmp in H3.
  apply orb_false_iff. split; [lia|]. apply andb_false_iff. left. lia.
Qed.

(** ** LMS positions *)

Lemma lms_upto_skip last Tl (i i' : nat) :
  (i' ≤ i)%nat →
  (∀ j, Z.of_nat i' < j ≤ Z.of_nat i → is_LMS last Tl j = false) →
  lms_upto last Tl i = lms_upto last Tl i'.
Proof.
  intros Hle. induction Hle as [|i Hle IH]; intros H; [done|].
  cbn [lms_upto]. rewrite H by lia. apply IH. intros j Hj. apply H. lia.
Qed.

Lemma lms_upto_S last Tl (i : nat) :
  is_LMS last Tl (Z.of_nat (S i)) = true →
  lms_upto last Tl (S i) = Z.of_nat (S i) :: lms_upto last Tl i.
Proof. intros H. cbn [lms_upto]. by rewrite H. Qed.

(** From an S-type position [i] whose successor is not S-type: the [<=] run
    ends at [i1]; if [i1 >= 0] then [i1 + 1] is the next LMS position. *)
Lemma lms_upto_S_run Tl (i : nat) :
  (i < length Tl)%nat → is_S false Tl (Z.of_nat i) = true →
  let i1 := run_end false Tl i in
  if 0 <=? i1
  then lms_upto false Tl i = (i1 + 1) :: lms_upto false Tl (Z.to_nat i1)
  else lms_upto false Tl i = [].
Proof.
  intros Hi HS i1. destruct (run_end_spec false Tl i) as (H1 & H2 & H3).
  pose proof (S_run_end false Tl i Hi HS) as HSe.
  fold i1 in H1, H2, H3, HSe.
  assert (HSr : ∀ j, i1 < j ≤ Z.of_nat i → is_S false Tl j = true)
    by (intros j Hj; by eapply S_run).
  destruct (Z.leb_spec 0 i1) as [H0|H0].
  - rewrite (lms_upto_skip _ _ i (S (Z.to_nat i1))); [|lia|].
    + replace (i1 + 1) with (Z.of_nat (S (Z.to_nat i1))) by lia.
      apply lms_upto_S. unfold is_LMS.
      replace (Z.of_nat (S (Z.to_nat i1)) - 1) with i1 by lia.
      rewrite HSr by lia. rewrite HSe by done.
      by rewrite (proj2 (Z.ltb_lt 0 _)) by lia.
    + intros j Hj. unfold is_LMS. rewrite (HSr (j - 1)) by lia.
      by rewrite andb_false_r.
  - rewrite (lms_upto_skip _ _ i 0); [done|lia|].
    intros j Hj. unfold is_LMS. rewrite (HSr (j - 1)) by lia.
    by rewrite andb_false_r.
Qed.

(** From an L-type position [i]: no position of the [>=] run is LMS. *)
Lemma lms_upto_L_run Tl (i : nat) :
  (i < length Tl)%nat → is_S false Tl (Z.of_nat i) = false →
  lms_upto false Tl i = lms_upto false Tl (Z.to_nat (run_end true Tl i)).
Proof.
  intros Hi HL. destruct (run_end_spec true Tl i) as (H1 & H2 & H3).
  apply lms_upto_skip; [lia|]. intros j Hj. unfold is_LMS.
  rewrite (L_run false Tl i j) by (done || lia).
  by rewrite andb_false_r.
Qed.

(** ** Lists as arrays *)

Lemma at_insert l b v i :
  0 ≤ b < Z.of_nat (length l) → 0 ≤ i →
  at_ (<[Z.to_nat b := v]> l) i = if i =? b then v else at_ l i.
Proof.
  intros Hb Hi. unfold at_. destruct (Z.ltb_spec i 0); [lia|].
  destruct (Z.eqb_spec i b) as [->|Hne].
  - by rewrite list_lookup_insert_eq by lia.
  - by rewrite list_lookup_insert_ne by lia.
Qed.

Lemma at_fmap_seqZ (f : Z → Z) k c :
  0 ≤ c < k → at_ (f <$> seqZ 0 k) c = f c.
Proof.
  intros Hc. unfold at_. destruct (Z.ltb_spec c 0); [lia|].
  rewrite list_lookup_fmap, lookup_seqZ_lt by lia. simpl. f_equal. lia.
Qed.

Lemma at_replicate n x i : 0 ≤ i < Z.of_nat n → at_ (replicate n x) i = x.
Proof.
  intros Hi. unfold at_. destruct (Z.ltb_spec i 0); [lia|].
  by rewrite lookup_replicate_2 by lia.
Qed.

Lemma length_bucket_ends Tl k : 0 ≤ k → Z.of_nat (length (bucket_ends Tl k)) = k.
Proof. intros. unfold bucket_ends. rewrite length_fmap, length_seqZ. lia. Qed.

(** ** [getBuckets] *)

Lemma getBuckets_end_ok s C B k cnt sums :
  holds s C k cnt → valid_buf s B k → C = B ∨ disjoint C k B k →
  sums (-1) = 0 → (∀ c, 0 ≤ c < k → sums c = sums (c - 1) + cnt c) →
  sat (getBuckets C B k true) s
      (ok (λ _ s', holds s' B k sums ∧ frame s s' B k)).
Proof.
  intros HC HB Hal H0 Hstep. unfold getBuckets.
  eapply sat_ok_bind; [|intros sum s' H; apply sat_ok_ret; exact H].
  eapply sat_ok_mono.
  { apply (for_up_ok
             (λ j sum s', sum = sums (Z.of_nat j - 1) ∧
                          holds s' B (Z.of_nat j) sums ∧
                          (∀ c, Z.of_nat j ≤ c < k → rd s' (C +ₚ c) = Some (cnt c)) ∧
                          frame s s' B k)).
    - split_and!; [done|intros i Hi; lia| |apply frame_refl].
      intros c Hc. apply HC. lia.
    - intros j sum s1 Hj (-> & H1 & H2 & F1). rewrite Z.add_0_l.
      eapply sat_load_bind; [apply H2; lia|]. cbv zeta.
      eapply sat_store_bind.
      { eapply valid_buf_cell; [by eapply frame_valid_buf|lia]. }
      apply sat_ok_ret. split_and!.
      + rewrite (Hstep (Z.of_nat (S j) - 1)) by lia. f_equal; [f_equal|f_equal]; lia.
      + intros i Hi. destruct (Z.eqb_spec i (Z.of_nat j)) as [->|Hne].
        * rewrite rd_wr_eq
            by (eapply valid_buf_cell; [by eapply frame_valid_buf|lia]).
          f_equal. rewrite (Hstep (Z.of_nat j)) by lia. done.
        * rewrite rd_wr_ne by (intros E%padd_inj; lia). apply H1. lia.
      + intros c Hc. rewrite rd_wr_ne; [apply H2; lia|].
        destruct Hal as [->|Hd]; [intros E%padd_inj; lia|].
        eapply disjoint_ne; [done|lia..].
      + eapply frame_trans; [done|]. apply frame_wr. lia. }
  intros sum s1 (_ & H1 & _ & F1). split; [|done].
  intros i Hi. apply H1. lia.
Qed.

Lemma zero_ok s SA n :
  valid_buf s SA n →
  sat (for_up (Z.to_nat n) 0 (λ i _, store (SA +ₚ i) 0) tt) s
      (ok (λ _ s', holds s' SA n (λ _, 0) ∧ frame s s' SA n)).
Proof.
  intros HSA. eapply sat_ok_mono.
  { apply (for_up_ok (λ j _ s', holds s' SA (Z.of_nat j) (λ _, 0) ∧ frame s s' SA n)).
    - split; [intros i Hi; lia|apply frame_refl].
    - intros j [] s1 Hj (H1 & F1). rewrite Z.add_0_l.
      apply sat_ok_store.
      { eapply valid_buf_cell; [by eapply frame_valid_buf|lia]. }
      split.
      + intros i Hi. destruct (Z.eqb_spec i (Z.of_nat j)) as [->|Hne].
        * apply rd_wr_eq. eapply valid_buf_cell; [by eapply frame_valid_buf|lia].
        * rewrite rd_wr_ne by (intros E%padd_inj; lia). apply H1. lia.
      + eapply frame_trans; [done|]. apply frame_wr. lia. }
  intros [] s1 (H1 & F1). split; [|done]. intros i Hi. apply H1. lia.
Qed.

(** ** [scan_run] *)

Lemma scan_run_ok ge T cs n Tl s (i : nat) :
  holds s T n (at_ Tl) → Z.of_nat i < n →
  sat (scan_run ge T cs n (Z.of_nat i) (at_ Tl (Z.of_nat i))) s
      (ok (λ '(i', c0', c1') s',
         s' = s ∧ i' = run_end ge Tl i ∧
         (0 ≤ i' → c0' = at_ Tl i' ∧ c1' = at_ Tl (i' + 1)))).
Proof.
  intros HT Hi. unfold scan_run.
  assert (i < S (Z.to_nat n))%nat as Hf by lia.
  revert Hf. generalize (S (Z.to_nat n)). intros fuel.
  revert fuel. induction i as [|i IH]; intros fuel Hf.
  - destruct fuel as [|fuel]; [lia|]. simpl. split_and!; [done..|lia].
  - destruct fuel as [|fuel]; [lia|]. cbn [loop].
    eapply (sat_ok_bind _ _ _
              (λ x s', s' = s ∧
                 x = if run_cmp ge (at_ Tl (Z.of_nat i)) (at_ Tl (Z.of_nat (S i)))
                     then inl (Z.of_nat i, at_ Tl (Z.of_nat i))
                     else inr (Z.of_nat i, at_ Tl (Z.of_nat i),
                               at_ Tl (Z.of_nat (S i))))).
    + cbv zeta. replace (Z.of_nat (S i) - 1) with (Z.of_nat i) by lia.
      rewrite (proj2 (Z.leb_le 0 (Z.of_nat i))) by lia.
      eapply sat_chr_bind; [apply HT; lia|].
      fold (run_cmp ge (at_ Tl (Z.of_nat i)) (at_ Tl (Z.of_nat (S i)))).
      by destruct (run_cmp ge _ _).
    + intros x s' [-> ->]. cbn [run_end].
      destruct (run_cmp ge (at_ Tl (Z.of_nat i)) (at_ Tl (Z.of_nat (S i)))).
      * apply IH; lia.
      * simpl. split_and!; [done..|]. intros _. split; [done|]. f_equal. lia.
Qed.

Lemma sat_scan_run_bind {A} ge T cs n Tl s (i : Z) c0 (f : Z * Z * Z → M A) Q :
  holds s T n (at_ Tl) → 0 ≤ i < n → c0 = at_ Tl i →
  (∀ c0' c1',
     let i' := run_end ge Tl (Z.to_nat i) in
     (0 ≤ i' → c0' = at_ Tl i' ∧ c1' = at_ Tl (i' + 1)) →
     sat (f (i', c0', c1')) s Q) →
  sat (scan_run ge T cs n i c0 ≫= f) s Q.
Proof.
  intros HT Hi -> Hf. apply sat_bind.
  pose proof (scan_run_ok ge T cs n Tl s (Z.to_nat i) HT ltac:(lia)) as H.
  rewrite Z2Nat.id in H by lia. unfold sat in *.
  destruct (scan_run _ _ _ _ _ _ s) as [[[[i' c0'] c1']|z|e] s']; simpl in *;
    [|done..].
  destruct H as (-> & -> & H). by apply Hf.
Qed.

(** ** The discovery scan *)

Lemma sat_store_b_bind {A} SA b v s (f : unit → M A) Q :
  match b with Some b0 => valid_buf s (SA +ₚ b0) 1 | None => True end →
  sat (f tt) (match b with Some b0 => wr s (SA +ₚ b0) v | None => s end) Q →
  sat (store_b SA b v ≫= f) s Q.
Proof.
  destruct b as [b0|]; simpl; intros Hv Hf; [by apply sat_store_bind|done].
Qed.

Lemma quiet_step_sym s s' : quiet_step s s' → quiet_step s' s.
Proof. intros (H1 & H2 & H3). by split_and!. Qed.

Lemma scan_buffers_quiet s s' T SA B n k :
  quiet_step s s' → scan_buffers s T SA B n k → scan_buffers s' T SA B n k.
Proof.
  intros Hq [H1 H2 H3 H4 H5].
  split; eauto using valid_buf_quiet_step.
Qed.

(** One discovery, on the memory: the pending write, then [--B[c]]. *)
Lemma placed_step Tl k T SA B s0 s SAl Bl b j p :
  let n := Z.of_nat (length Tl) in
  let c := at_ Tl p in
  scan_buffers s T SA B n k →
  placed Tl k T SA B s0 s (SAl, Bl, b, j) →
  0 ≤ c < k → 1 ≤ at_ Bl c ≤ n →
  let s2 := match b with Some b0 => wr s (SA +ₚ b0) j | None => s end in
  let s3 := wr s2 (B +ₚ c) (at_ Bl c - 1) in
  placed Tl k T SA B s0 s3 (place Tl (SAl, Bl, b, j) p).
Proof.
  intros n c [VSA VB DTS DTB DSB] (LSA & LB & HSA & HB & HT & Hq & Hfr & Hb) Hc Hv s2 s3.
  assert (Hq2 : quiet_step s s2).
  { unfold s2. destruct b; [apply quiet_step_wr|apply quiet_step_refl]. }
  assert (HSA2 : holds s2 SA n
                   (at_ (match b with
                         | Some b0 => <[Z.to_nat b0 := j]> SAl
                         | None => SAl
                         end))).
  { unfold s2. destruct b as [b0|]; [|done].
    eapply holds_ext; [by apply holds_wr_same|].
    intros i Hi. cbv beta. by rewrite at_insert by lia. }
  assert (HB2 : holds s2 B k (at_ Bl)).
  { unfold s2. destruct b as [b0|]; [|done].
    apply holds_wr_other; [done|]. intros i Hi.
    apply not_eq_sym. by eapply disjoint_ne. }
  assert (HT2 : holds s2 T n (at_ Tl)).
  { unfold s2. destruct b as [b0|]; [|done].
    apply holds_wr_other; [done|]. intros i Hi. by eapply disjoint_ne. }
  assert (Hfr2 : ∀ q, (∀ i, 0 ≤ i < n → q ≠ SA +ₚ i) → rd s2 q = rd s q).
  { intros q Hq'. unfold s2. destruct b as [b0|]; [|done].
    apply rd_wr_ne. by apply Hq'. }
  unfold place. fold c. cbv zeta.
  split_and!.
  - destruct b; by rewrite ?length_insert.
  - by rewrite length_insert.
  - unfold s3. apply holds_wr_other; [done|]. intros i Hi. by eapply disjoint_ne.
  - unfold s3. eapply holds_ext.
    + apply holds_wr_same; [done|by eapply valid_buf_quiet_step|done].
    + intros i Hi. cbv beta. by rewrite at_insert by lia.
  - unfold s3. apply holds_wr_other; [done|]. intros i Hi. by eapply disjoint_ne.
  - eapply quiet_step_trans; [done|]. eapply quiet_step_trans; [done|].
    apply quiet_step_wr.
  - intros q HqSA HqB. unfold s3. rewrite rd_wr_ne by (by apply HqB).
    rewrite Hfr2 by done. by apply Hfr.
  - lia.
  - fold n. lia.
Qed.

Lemma count_take_le f (l : list Z) a : count_if f (take a l) ≤ count_if f l.
Proof.
  rewrite <- (take_drop a l) at 2. rewrite count_if_app.
  pose proof (count_if_nonneg f (drop a l)). lia.
Qed.

Lemma count_take_mono f (l : list Z) a b :
  (a ≤ b)%nat → count_if f (take a l) ≤ count_if f (take b l).
Proof.
  intros Hab. replace a with (a `min` b)%nat by lia.
  rewrite <- take_take. apply count_take_le.
Qed.

Lemma count_take_pos f (l : list Z) (p b : nat) :
  (p < b)%nat → (p < length l)%nat → f (at_ l (Z.of_nat p)) = true →
  count_if f (take p l) + 1 ≤ count_if f (take b l).
Proof.
  intros Hpb Hp Hf. pose proof (count_take_mono f l (S p) b ltac:(lia)).
  rewrite count_if_take_S, Hf in H by done. lia.
Qed.

Lemma foldl_snoc {A B} (f : A → B → A) a l x :
  foldl f a (l ++ [x]) = f (foldl f a l) x.
Proof. by rewrite foldl_app. Qed.

Lemma discoverLMS_ok Tl k T SA B cs s0 s :
  let n := Z.of_nat (length Tl) in
  0 < n → Forall (λ c, 0 ≤ c < k) Tl →
  scan_buffers s T SA B n k →
  placed Tl k T SA B s0 s (replicate (length Tl) 0, bucket_ends Tl k, None, n) →
  sat (discoverLMS T SA B n cs) s
      (ok (λ '(m, j, b) s',
         m = count_lms false Tl ∧
         ∃ SAl Bl, placement Tl k = (SAl, Bl, b, j) ∧
                   placed Tl k T SA B s0 s' (SAl, Bl, b, j))).
Proof.
  intros n Hn HF Hbuf Hpl.
  assert (Hk : 0 ≤ k).
  { destruct Hpl as (_ & HlB & _). lia. }
  pose proof Hpl as (_ & _ & _ & _ & HT & _).
  set (init := (replicate (length Tl) 0, bucket_ends Tl k, @None Z, n)).
  unfold discoverLMS.
  eapply sat_chr_bind; [apply HT; lia|].
  eapply sat_scan_run_bind; [exact HT|lia|done|].
  intros c0 c1 i0 Hc0.
  destruct (run_end_spec true Tl (Z.to_nat (n - 1))) as (Hi0 & _ & _).
  fold i0 in Hi0.
  assert (HLlast : is_S false Tl (Z.of_nat (Z.to_nat (n - 1))) = false).
  { replace (Z.of_nat (Z.to_nat (n - 1))) with (Z.of_nat (length Tl) - 1) by lia.
    apply is_S_last. intros ->. simpl in *. lia. }
  set (I := λ (l : Z * Z * Z * Z * option Z) (s' : state),
         let '(i, c0, j, m, b) := l in
         ∃ found SAl Bl,
           -1 ≤ i ∧ i + 1 < n ∧
           (0 ≤ i → c0 = at_ Tl i ∧ is_S false Tl i = true) ∧
           lms_positions false Tl = found ++ lms_upto false Tl (Z.to_nat i) ∧
           foldl (place Tl) init found = (SAl, Bl, b, j) ∧
           m = Z.of_nat (length found) ∧
           placed Tl k T SA B s0 s' (SAl, Bl, b, j) ∧
           (∀ c, 0 ≤ c < k →
                 count_if (Z.eqb c) (take (Z.to_nat (i + 1)) Tl) ≤ at_ Bl c ≤ n)).
  eapply (loop_ok I (λ '(i, _, _, _, _), Z.to_nat (i + 1))).
  - (* the invariant holds at the start *)
    exists [], (replicate (length Tl) 0), (bucket_ends Tl k).
    split_and!; try done; try lia.
    + intros H0. split; [by apply Hc0|].
      replace i0 with (run_end true Tl (Z.to_nat (n - 1))) by done.
      apply L_run_end; [lia|done|done].
    + unfold lms_positions. simpl.
      replace (length Tl - 1)%nat with (Z.to_nat (n - 1)) by lia.
      apply lms_upto_L_run; [lia|done].
    + intros c Hc. unfold bucket_ends. rewrite at_fmap_seqZ by done. split.
      * etrans; [apply count_take_le|]. apply count_if_mono. intros x. lia.
      * apply count_if_le_length.
  - lia.
  - (* one round of the loop *)
    intros [[[[i c0'] j] m] b] s1
      (found & SAl & Bl & Hi1 & Hi2 & Hci & Hlms & Hfold & Hm & Hpl1 & Hbnd).
    pose proof Hpl1 as (_ & LB1 & _ & HB1 & HT1 & Hq1 & _ & Hb1).
    assert (Hbuf1 : scan_buffers s1 T SA B n k).
    { eapply scan_buffers_quiet; [|exact Hbuf].
      eapply quiet_step_trans; [|exact Hq1]. apply quiet_step_sym.
      by destruct Hpl as (_ & _ & _ & _ & _ & Hq0 & _). }
    destruct (Z.leb_spec 0 i) as [Hi0'|Hi0'].
    2:{ (* the scan is over *)
        apply sat_ok_ret. assert (i = -1) as -> by lia. simpl in Hlms.
        rewrite app_nil_r in Hlms. subst found.
        split; [done|]. exists SAl, Bl. split; [|done]. done. }
    destruct (Hci Hi0') as [-> HSi].
    eapply sat_scan_run_bind; [exact HT1|lia|done|].
    intros c0'' c1'' i1 Hc1.
    destruct (run_end_spec false Tl (Z.to_nat i)) as (Hi1' & _ & _).
    fold i1 in Hi1'.
    pose proof (lms_upto_S_run Tl (Z.to_nat i) ltac:(lia)
                  ltac:(by rewrite Z2Nat.id by lia)) as Hnext.
    cbv zeta in Hnext. fold i1 in Hnext.
    destruct (Z.leb_spec 0 i1) as [H01|H01].
    2:{ (* no LMS position is left *)
        apply sat_ok_ret. split; [|lia].
        exists found, SAl, Bl. split_and!; try done; try lia.
        - rewrite Hlms, Hnext. assert (i1 = -1) as -> by lia. done.
        - intros c Hc. specialize (Hbnd c Hc). split; [|lia].
          etrans; [|apply Hbnd]. apply count_take_mono. lia. }
    (* the LMS position [i1 + 1] *)
    destruct (Hc1 H01) as [-> ->].
    set (p := i1 + 1). set (c := at_ Tl p).
    assert (Hcr : 0 ≤ c < k) by (apply at_range; [done|lia]).
    assert (Hv : 1 ≤ at_ Bl c ≤ n).
    { destruct (Hbnd c Hcr) as [Hlo Hhi]. split; [|done].
      pose proof (count_take_pos (Z.eqb c) Tl (Z.to_nat p) (Z.to_nat (i + 1))
                    ltac:(lia) ltac:(lia)
                    ltac:(rewrite Z2Nat.id by lia; apply Z.eqb_refl)).
      pose proof (count_if_nonneg (Z.eqb c) (take (Z.to_nat p) Tl)). lia. }
    eapply sat_store_b_bind.
    { destruct b as [b0|]; [|done].
      eapply valid_buf_cell; [apply Hbuf1|lia]. }
    pose proof (placed_step Tl k T SA B s0 s1 SAl Bl b j p
                  Hbuf1 Hpl1 Hcr Hv) as Hpl3.
    cbv zeta in Hpl3. fold c in Hpl3.
    set (s2 := match b with Some b0 => wr s1 (SA +ₚ b0) j | None => s1 end) in *.
    assert (Hq2 : quiet_step s1 s2).
    { unfold s2. destruct b; [apply quiet_step_wr|apply quiet_step_refl]. }
    assert (HB2 : holds s2 B k (at_ Bl)).
    { unfold s2. destruct b as [b0|]; [|done].
      apply holds_wr_other; [done|]. intros x Hx.
      apply not_eq_sym. eapply disjoint_ne; [apply Hbuf|lia|lia]. }
    eapply sat_load_bind; [by apply HB2|].
    eapply sat_store_bind.
    { eapply valid_buf_cell; [|done].
      eapply valid_buf_quiet_step; [done|]. apply Hbuf1. }
    cbv zeta.
    set (s3 := wr s2 (B +ₚ c) (at_ Bl c - 1)) in *.
    pose proof Hpl3 as Hpl3'. unfold place in Hpl3'. fold c in Hpl3'.
    destruct Hpl3' as (_ & _ & _ & _ & HT3 & _).
    eapply sat_scan_run_bind; [exact HT3|lia|done|].
    intros c0''' c1''' i2 Hc2.
    destruct (run_end_spec true Tl (Z.to_nat i1)) as (Hi2' & _ & _).
    fold i2 in Hi2'.
    assert (HLi1 : is_S false Tl (Z.of_nat (Z.to_nat i1)) = false).
    { rewrite Z2Nat.id by lia.
      replace i1 with (run_end false Tl (Z.to_nat i)) by done.
      apply S_run_end; [lia|by rewrite Z2Nat.id by lia|done]. }
    apply sat_ok_ret. split; [|lia].
    eexists (found ++ [p]), _, _. split_and!; try lia.
    + intros H02. split; [by apply Hc2|].
      replace i2 with (run_end true Tl (Z.to_nat i1)) by done.
      apply L_run_end; [lia|done|done].
    + rewrite Hlms, Hnext, <- app_assoc. simpl. do 2 f_equal.
      apply lms_upto_L_run; [lia|done].
    + rewrite foldl_snoc, Hfold. unfold place. fold c. cbv zeta.
      do 2 f_equal. unfold p. lia.
    + rewrite length_app. simpl. lia.
    + unfold place in Hpl3. fold c in Hpl3. cbv zeta in Hpl3.
      replace i1 with (p - 1) by (unfold p; lia). exact Hpl3.
    + intros x Hx. rewrite at_insert by lia. specialize (Hbnd x Hx).
      pose proof (count_take_mono (Z.eqb x) Tl (Z.to_nat (i2 + 1)) (Z.to_nat p)
                    ltac:(lia)).
      destruct (Z.eqb_spec x c) as [->|Hne].
      * pose proof (count_take_pos (Z.eqb c) Tl (Z.to_nat p) (Z.to_nat (i + 1))
                      ltac:(lia) ltac:(lia)
                      ltac:(rewrite Z2Nat.id by lia; apply Z.eqb_refl)).
        lia.
      * pose proof (count_take_mono (Z.eqb x) Tl (Z.to_nat p) (Z.to_nat (i + 1))
                      ltac:(lia)).
        lia.
Qed.

(** ** Stage 1 up to the end of the scan *)

Lemma holds_view s p l :
  holds s p (Z.of_nat (length l)) (at_ l) → view s p (length l) = Some l.
Proof.
  intros H. unfold view. apply mapM_Some. apply Forall2_same_length_lookup.
  split; [by rewrite length_seq|].
  intros i x y Hx Hy. apply lookup_seq in Hx as [-> Hi]. simpl.
  rewrite H by lia. f_equal. by apply at_lookup.
Qed.

Lemma arr_holds s p l : arr s p l → holds s p (Z.of_nat (length l)) (at_ l).
Proof.
  intros H i Hi. pose proof (at_lookup_Z l i Hi) as Hl.
  apply H in Hl. by rewrite Z2Nat.id in Hl by lia.
Qed.

Lemma holds_arr s p l : holds s p (Z.of_nat (length l)) (at_ l) → arr s p l.
Proof.
  intros H i v Hl. pose proof (lookup_lt_Some _ _ _ Hl).
  rewrite H by lia. f_equal. by apply at_lookup.
Qed.

Lemma stage1_discover_ok s T SA C B Tl n k cs :
  stage1_pre s T SA C B Tl n k →
  sat (stage1_discover T SA C B n k cs) s
      (ok (λ '(m, j, b) s',
         m = count_lms false Tl ∧
         ∃ SAl Bl, placement Tl k = (SAl, Bl, b, j) ∧
                   view s' SA (length Tl) = Some SAl ∧
                   view s' B (Z.to_nat k) = Some Bl ∧
                   arr s' T Tl ∧ quiet_step s s')).
Proof.
  intros [-> Hn HF HT VSA VC VB DTS DTC DTB DSB DCB]. unfold stage1_discover.
  assert (Hk : 0 ≤ k).
  { destruct VB as (cs' & _ & ? & ?).
    destruct Tl as [|x Tl]; [simpl in Hn; lia|].
    apply Forall_cons in HF as [? _]. lia. }
  eapply sat_ok_bind; [by eapply getCounts_ok|].
  intros [] s1 [HC1 F1]. cbv beta in HC1.
  eapply sat_ok_bind.
  { eapply (getBuckets_end_ok _ _ _ _ _ (λ c, count_if (λ x, x <=? c) Tl));
      [done|by eapply frame_valid_buf|done| |].
    - by eapply count_le_neg.
    - intros c Hc. apply count_le_step. }
  intros [] s2 [HB2 F2].
  eapply sat_ok_bind.
  { apply zero_ok. eapply frame_valid_buf; [done|]. by eapply frame_valid_buf. }
  intros [] s3 [HSA3 F3].
  assert (HT3 : holds s3 T (Z.of_nat (length Tl)) (at_ Tl)).
  { eapply frame_holds; [done|done|]. eapply frame_holds; [done|done|].
    by eapply frame_holds. }
  assert (Hq3 : quiet_step s s3).
  { destruct F1, F2, F3. eauto using quiet_step_trans. }
  eapply sat_ok_mono.
  { eapply (discoverLMS_ok Tl k T SA B cs s3 s3); [done|done| |].
    - split; eauto using valid_buf_quiet_step.
    - split_and!; try done; try apply quiet_step_refl.
      + by rewrite length_replicate.
      + by apply length_bucket_ends.
      + eapply holds_ext; [done|]. intros i Hi. cbv beta.
        by rewrite at_replicate by lia.
      + eapply holds_ext.
        * eapply frame_holds; [done|by apply disjoint_sym|done].
        * intros i Hi. cbv beta. unfold bucket_ends. by rewrite at_fmap_seqZ. }
  intros [[m j] b] s4 (Hm & SAl & Bl & Hpl & HlSA & HlB & HSA4 & HB4 & HT4 & Hq4 & _).
  split; [done|]. exists SAl, Bl. split_and!; [done| | | |].
  - rewrite <- HlSA. apply holds_view. by rewrite HlSA.
  - replace (Z.to_nat k) with (length Bl) by lia. apply holds_view. by rewrite HlB.
  - by apply holds_arr.
  - by eapply quiet_step_trans.
Qed.

(** ** From a valid input to the start of stage 1 *)

Lemma rd_Some_lt s q v : rd s q = Some v → (pblock q < length (mem s))%nat.
Proof.
  unfold rd. destruct (cells_at (mem s) (pblock q)) as [cs|] eqn:E; [|done].
  intros _. apply cells_at_Some in E. by apply lookup_lt_Some in E.
Qed.

Lemma rd_malloc num s p s' q v :
  malloc num s = (Ret (Some p), s') → rd s q = Some v → rd s' q = Some v.
Proof.
  intros [_ Hm]%malloc_ok Hr. pose proof (rd_Some_lt _ _ _ Hr) as Hlt.
  unfold rd, cells_at in *. rewrite Hm. by rewrite lookup_app_l.
Qed.

Lemma holds_malloc num s p s' q n f :
  malloc num s = (Ret (Some p), s') → holds s q n f → holds s' q n f.
Proof. intros Hm H i Hi. eapply rd_malloc; [done|]. by apply H. Qed.

Lemma holds_lt s q n f : 0 < n → holds s q n f → (pblock q < length (mem s))%nat.
Proof.
  intros Hn H. specialize (H 0 ltac:(lia)). by apply rd_Some_lt in H.
Qed.

Lemma disjoint_sub_r p lp q lq off lq' :
  disjoint p lp q lq → 0 ≤ off → off + lq' ≤ lq →
  disjoint p lp (q +ₚ off) lq'.
Proof. unfold disjoint; simpl. lia. Qed.

Lemma disjoint_fresh_r p lp (b : nat) lq :
  pblock p ≠ b → disjoint p lp (Ptr b 0) lq.
Proof. unfold disjoint; simpl. auto. Qed.

Lemma alloc_workspace_pre s T SA Tl fs n k C B flags0 s1 :
  valid_input s T SA Tl fs n k →
  alloc_workspace SA fs n k s = (Ret (C, B, flags0), s1) →
  stage1_pre s1 T SA C B Tl n k.
Proof.
  intros [Hn Hpos Hk Hfs HF HT%arr_holds VSA Hd Hint] Hws.
  rewrite <- Hn in HT.
  pose proof (holds_lt _ _ _ _ Hpos HT) as HTlt.
  pose proof (valid_buf_lt _ _ _ VSA) as HSAlt.
  assert (VSAn : valid_buf s SA n).
  { replace SA with (SA +ₚ 0) by apply padd_0.
    eapply valid_buf_sub; [done|lia..]. }
  assert (DTS : disjoint T n SA n).
  { replace SA with (SA +ₚ 0) by apply padd_0.
    eapply disjoint_sub_r; [done|lia..]. }
  assert (Hk0 : 0 ≤ k) by lia.
  apply (alloc_workspace_ret _ _ _ _ _ _ _ _ _ Hfs Hpos Hk Hint) in Hws as
    [(? & ? & -> & EC & ->)|[(? & ? & -> & sC & EC & EB)|
    [(? & ? & -> & -> & -> & ->)|[(? & ? & ? & ? & -> & -> & EB)|
    [(? & ? & ? & ? & -> & -> & -> & ->)|(? & ? & -> & -> & EC)]]]]].
  - (* C on the heap, B in the tail *)
    pose proof (valid_buf_fresh k _ _ _ Hk0 EC) as VC.
    destruct (malloc_ok _ _ _ _ EC) as [-> HmC].
    split; try done.
    + by eapply holds_malloc.
    + by eapply valid_buf_malloc.
    + eapply valid_buf_malloc; [done|]. eapply valid_buf_sub; [exact VSA|lia..].
    + apply disjoint_fresh_r. lia.
    + eapply disjoint_sub_r; [exact Hd|lia..].
    + unfold disjoint; simpl; lia.
    + right. apply disjoint_sym, disjoint_fresh_r. simpl. lia.
  - (* C and B on the heap *)
    pose proof (valid_buf_fresh k _ _ _ Hk0 EC) as VC.
    pose proof (valid_buf_fresh k _ _ _ Hk0 EB) as VB.
    destruct (malloc_ok _ _ _ _ EC) as [-> HmC].
    destruct (malloc_ok _ _ _ _ EB) as [-> HmB].
    assert (length (mem sC) = S (length (mem s))) as HlC
      by (rewrite HmC, length_app; simpl; lia).
    split; try done.
    + eapply holds_malloc; [done|]. by eapply holds_malloc.
    + eapply valid_buf_malloc; [done|]. by eapply valid_buf_malloc.
    + by eapply valid_buf_malloc.
    + apply disjoint_fresh_r. lia.
    + apply disjoint_fresh_r. lia.
    + apply disjoint_fresh_r. lia.
    + right. apply disjoint_fresh_r. simpl. lia.
  - (* C and B in the tail *)
    split; try done.
    + eapply valid_buf_sub; [exact VSA|lia..].
    + rewrite padd_padd. eapply valid_buf_sub; [exact VSA|lia..].
    + eapply disjoint_sub_r; [exact Hd|lia..].
    + rewrite padd_padd. eapply disjoint_sub_r; [exact Hd|lia..].
    + unfold disjoint; simpl; lia.
    + right. unfold disjoint; simpl; lia.
  - (* C in the tail, B on the heap *)
    pose proof (valid_buf_fresh k _ _ _ Hk0 EB) as VB.
    destruct (malloc_ok _ _ _ _ EB) as [-> HmB].
    split; try done.
    + by eapply holds_malloc.
    + by eapply valid_buf_malloc.
    + eapply valid_buf_malloc; [done|]. eapply valid_buf_sub; [exact VSA|lia..].
    + eapply disjoint_sub_r; [exact Hd|lia..].
    + apply disjoint_fresh_r. lia.
    + apply disjoint_fresh_r. lia.
    + right. apply disjoint_fresh_r. simpl. lia.
  - (* B is C, in the tail *)
    split; try done.
    + eapply valid_buf_sub; [exact VSA|lia..].
    + eapply valid_buf_sub; [exact VSA|lia..].
    + eapply disjoint_sub_r; [exact Hd|lia..].
    + eapply disjoint_sub_r; [exact Hd|lia..].
    + unfold disjoint; simpl; lia.
    + by left.
  - (* B is C, on the heap *)
    pose proof (valid_buf_fresh k _ _ _ Hk0 EC) as VC.
    destruct (malloc_ok _ _ _ _ EC) as [-> HmC].
    split; try done.
    + by eapply holds_malloc.
    + by eapply valid_buf_malloc.
    + apply disjoint_fresh_r. lia.
    + apply disjoint_fresh_r. lia.
    + apply disjoint_fresh_r. lia.
    + by left.
Qed.

(** Stage 1, from a valid input, up to the end of the scan. *)
Lemma stage1_scan s T SA Tl fs n k cs C B flags0 s1 :
  valid_input s T SA Tl fs n k →
  alloc_workspace SA fs n k s = (Ret (C, B, flags0), s1) →
  ∃ m j b s2 SAl Bl,
    stage1_discover T SA C B n k cs s1 = (Ret (m, j, b), s2) ∧
    m = count_lms false Tl ∧
    placement Tl k = (SAl, Bl, b, j) ∧
    view s2 SA (length Tl) = Some SAl ∧
    view s2 B (Z.to_nat k) = Some Bl.
Proof.
  intros Hv Hws. pose proof (alloc_workspace_pre _ _ _ _ _ _ _ _ _ _ _ Hv Hws) as Hpre.
  destruct (sat_ok_run _ _ _ (stage1_discover_ok _ _ _ _ _ _ _ _ cs Hpre))
    as ([[m j] b] & s2 & Hrun & Hm & SAl & Bl & Hpl & HSA & HB & _).
  exists m, j, b, s2, SAl, Bl. done.
Qed.

(** The initial state of [run] is a valid input. *)
Lemma initial_valid Tl fs k oracle :
  Tl ≠ [] → Forall (λ c, 0 ≤ c < k) Tl → 0 ≤ fs → 1 ≤ k →
  Z.of_nat (length Tl) + fs ≤ INT_MAX →
  valid_input (initial Tl fs oracle) T0 SA0 Tl fs (Z.of_nat (length Tl)) k.
Proof.
  intros HTl HF Hfs Hk Hint. split; try done.
  - destruct Tl; [done|simpl; lia].
  - intros i v Hi. unfold rd; simpl.
    replace (Z.to_nat (0 + Z.of_nat i)) with i by lia.
    rewrite list_lookup_fmap, Hi. simpl.
    by destruct (Z.ltb_spec (0 + Z.of_nat i) 0); [lia|].
  - eexists. split; [reflexivity|]. simpl. rewrite length_replicate. lia.
  - left. simpl. lia.
Qed.

(** C5, as amended.  From a valid input (the size [n + fs] of the workspace
    being an [int]) and with the workspace that [alloc_workspace] chose,
    stage 1's scan ends normally and its counter
    [m] is the number of LMS positions of the text when position [n - 1] is
    taken as L-type (the text is followed by a virtual sentinel below every
    symbol): the positions [i > 0] that are S-type with [i - 1] L-type, where
    [i < n - 1] is S-type iff [T[i] < T[i+1]], or [T[i] = T[i+1]] and
    [i + 1] is S-type. *)
Theorem scan_counts_LMS s T SA Tl fs n k cs C B flags0 s1 :
  valid_input s T SA Tl fs n k →
  alloc_workspace SA fs n k s = (Ret (C, B, flags0), s1) →
  ∃ m j b s2,
    stage1_discover T SA C B n k cs s1 = (Ret (m, j, b), s2) ∧
    m = count_lms false Tl.
Proof.
  intros Hv Hws.
  destruct (stage1_scan _ _ _ _ _ _ _ cs _ _ _ _ Hv Hws)
    as (m & j & b & s2 & SAl & Bl & Hrun & Hm & _).
  by exists m, j, b, s2.
Qed.

Lemma scan_counts_LMS_witness :
  let s := initial [1; 0; 2; 0; 2; 0] 0 [] in
  ∃ m j b s2,
    stage1_discover T0 SA0 (Ptr 2 0) (Ptr 3 0) 6 3 1
                    (alloc_workspace SA0 0 6 3 s).2 = (Ret (m, j, b), s2) ∧
    m = count_lms false [1; 0; 2; 0; 2; 0].
Proof.
  intros s.
  apply (scan_counts_LMS s T0 SA0 [1; 0; 2; 0; 2; 0] 0 6 3 1
                         (Ptr 2 0) (Ptr 3 0) 3).
  - split; [reflexivity | lia | lia | lia | repeat constructor; lia | |
            eexists; split; [reflexivity | simpl; lia] | left; simpl; lia |
            unfold INT_MAX; lia].
    intros [|[|[|[|[|[|i]]]]]] v Hi; simplify_eq/=; reflexivity.
  - reflexivity.
Defined.

(** C5, as stated, fails: with position [n - 1] taken as S-type the text
    [1 0] has the LMS position 1, and the scan counts none. *)
Lemma scan_count_claim_fails :
  ¬ (∀ s T SA Tl fs n k cs C B flags0 s1 m j b s2,
       valid_input s T SA Tl fs n k →
       alloc_workspace SA fs n k s = (Ret (C, B, flags0), s1) →
       stage1_discover T SA C B n k cs s1 = (Ret (m, j, b), s2) →
       m = count_lms true Tl).
Proof.
  intros H.
  pose (s := initial [1; 0] 0 []).
  pose (r := stage1_discover T0 SA0 (Ptr 2 0) (Ptr 3 0) 2 2 1
                             (alloc_workspace SA0 0 2 2 s).2).
  specialize (H s T0 SA0 [1; 0] 0 2 2 1 (Ptr 2 0) (Ptr 3 0) 3
                (alloc_workspace SA0 0 2 2 s).2 0 2 None r.2
                (initial_valid [1; 0] 0 2 [] ltac:(done)
                   ltac:(repeat constructor; lia) ltac:(lia) ltac:(lia)
                   ltac:(by vm_compute))
                ltac:(reflexivity) ltac:(reflexivity)).
  vm_compute in H. discriminate.
Qed.

(** ** The LMS positions, as a list *)

Lemma lms_upto_bound last Tl i q :
  q ∈ lms_upto last Tl i → 0 < q ≤ Z.of_nat i ∧ is_LMS last Tl q = true.
Proof.
  induction i as [|i IH]; simpl; [by intros ?%elem_of_nil|].
  destruct (is_LMS last Tl (Z.of_nat (S i))) eqn:E.
  - intros [->|Hq]%elem_of_cons; [split; [lia|done]|].
    destruct (IH Hq). split; [lia|done].
  - intros Hq. destruct (IH Hq). split; [lia|done].
Qed.

Lemma lms_upto_split last Tl i L1 p L2 :
  lms_upto last Tl i = L1 ++ p :: L2 →
  (∀ q, q ∈ L1 → p < q) ∧ (∀ q, q ∈ L2 → q < p).
Proof.
  revert L1. induction i as [|i IH]; intros L1; simpl.
  { by destruct L1. }
  destruct (is_LMS last Tl (Z.of_nat (S i))) eqn:E; [|apply IH].
  destruct L1 as [|x L1]; simpl; intros Heq; injection Heq as Hx Hr.
  - split; [by intros q ?%elem_of_nil|].
    intros q Hq. rewrite <- Hr in Hq. apply lms_upto_bound in Hq. lia.
  - destruct (IH _ Hr) as [IH1 IH2]. split; [|done].
    intros q [->|Hq]%elem_of_cons; [|by apply IH1].
    assert (p ∈ lms_upto last Tl i) as Hp by (rewrite Hr; set_solver).
    apply lms_upto_bound in Hp. lia.
Qed.

Lemma lms_positions_bound Tl q :
  q ∈ lms_positions false Tl → 0 < q < Z.of_nat (length Tl).
Proof.
  unfold lms_positions. intros Hq%lms_upto_bound.
  destruct Tl; simpl in *; lia.
Qed.

Lemma count_if_false f (l : list Z) :
  (∀ x, x ∈ l → f x = false) → count_if f l = 0.
Proof.
  induction l as [|x l IH]; simpl; [done|]. intros H.
  rewrite (H x) by set_solver. rewrite IH; [done|]. intros; apply H; set_solver.
Qed.

Lemma count_if_ext_in f g (l : list Z) :
  (∀ x, x ∈ l → f x = g x) → count_if f l = count_if g l.
Proof.
  intros H. apply count_if_ext. by apply Forall_forall.
Qed.

(** The LMS positions that carry [c] are positions that carry [c]. *)
Lemma count_lms_upto_char last Tl (i : nat) c :
  (i < length Tl)%nat →
  count_if (λ q, at_ Tl q =? c) (lms_upto last Tl i) ≤
  count_if (Z.eqb c) (take (S i) Tl).
Proof.
  intros Hi. induction i as [|i IH]; simpl lms_upto.
  { simpl. apply count_if_nonneg. }
  rewrite count_if_take_S by done.
  specialize (IH ltac:(lia)).
  destruct (is_LMS last Tl (Z.of_nat (S i))); simpl count_if.
  - rewrite (Z.eqb_sym c). lia.
  - destruct (c =? _); lia.
Qed.

Lemma count_lms_char Tl c :
  count_if (λ q, at_ Tl q =? c) (lms_positions false Tl) ≤
  count_if (Z.eqb c) Tl.
Proof.
  unfold lms_positions. destruct (decide (Tl = [])) as [->|Hne]; [done|].
  assert (0 < length Tl)%nat by (destruct Tl; simpl; [done|lia]).
  etrans; [apply count_lms_upto_char; lia|].
  replace (S (length Tl - 1)) with (length Tl) by lia.
  by rewrite firstn_all.
Qed.

Lemma lms_rank_split Tl L1 p L2 :
  lms_positions false Tl = L1 ++ p :: L2 →
  lms_rank Tl p = count_if (λ q, at_ Tl q =? at_ Tl p) L1 + 1.
Proof.
  intros Hs. destruct (lms_upto_split _ _ _ _ _ _ Hs) as [H1 H2].
  unfold lms_rank. rewrite Hs, count_if_app. simpl.
  rewrite Z.leb_refl, Z.eqb_refl. simpl.
  rewrite (count_if_false _ L2).
  2:{ intros x Hx%H2. destruct (Z.leb_spec p x); [lia|done]. }
  rewrite (count_if_ext_in _ (λ q, at_ Tl q =? at_ Tl p) L1); [lia|].
  intros x Hx%H1. destruct (Z.leb_spec p x); [done|lia].
Qed.

Lemma count_lt_le Tl c :
  count_if (λ x, x <=? c) Tl =
  count_if (λ x, x <? c) Tl + count_if (Z.eqb c) Tl.
Proof.
  rewrite count_le_step. f_equal. apply count_if_ext, Forall_forall.
  intros x _. destruct (Z.leb_spec x (c - 1)), (Z.ltb_spec x c); lia.
Qed.

(** The slot of an LMS position lies in the bucket of its symbol. *)
Lemma slot_range Tl p :
  p ∈ lms_positions false Tl →
  count_if (λ x, x <? at_ Tl p) Tl ≤ slot Tl p < count_if (λ x, x <=? at_ Tl p) Tl.
Proof.
  intros Hp. unfold slot.
  destruct (list_elem_of_split _ _ Hp) as (L1 & L2 & Hs).
  pose proof (lms_rank_split _ _ _ _ Hs) as Hr.
  pose proof (count_if_nonneg (λ q, at_ Tl q =? at_ Tl p) L1).
  assert (lms_rank Tl p ≤ count_if (Z.eqb (at_ Tl p)) Tl).
  { etrans; [|apply count_lms_char]. unfold lms_rank.
    apply count_if_mono. intros x. destruct (p <=? x); [done|]. done. }
  rewrite (count_lt_le Tl (at_ Tl p)). lia.
Qed.

Lemma slot_bounds Tl p :
  p ∈ lms_positions false Tl → 0 ≤ slot Tl p < Z.of_nat (length Tl).
Proof.
  intros [H1 H2]%slot_range.
  pose proof (count_if_nonneg (λ x, x <? at_ Tl p) Tl).
  pose proof (count_if_le_length (λ x, x <=? at_ Tl p) Tl). lia.
Qed.

Lemma slot_lt Tl p q :
  p ∈ lms_positions false Tl → q ∈ lms_positions false Tl →
  p < q → at_ Tl p = at_ Tl q → slot Tl p < slot Tl q.
Proof.
  intros Hp Hq Hlt Heq. unfold slot. rewrite Heq.
  destruct (list_elem_of_split _ _ Hp) as (L1 & L2 & Hs).
  destruct (lms_upto_split _ _ _ _ _ _ Hs) as [H1 H2].
  rewrite (lms_rank_split _ _ _ _ Hs).
  assert (lms_rank Tl q ≤ count_if (λ x, at_ Tl x =? at_ Tl p) L1); [|lia].
  unfold lms_rank. rewrite Hs, count_if_app. simpl.
  destruct (Z.leb_spec q p); [lia|]. simpl.
  rewrite (count_if_false _ L2).
  2:{ intros x Hx%H2. destruct (Z.leb_spec q x); [lia|done]. }
  rewrite Heq, Z.add_0_r. apply count_if_mono.
  intros x. by destruct (q <=? x).
Qed.

(** Two LMS positions have different slots. *)
Lemma slot_inj Tl p q :
  p ∈ lms_positions false Tl → q ∈ lms_positions false Tl →
  p ≠ q → slot Tl p ≠ slot Tl q.
Proof.
  intros Hp Hq Hne.
  pose proof (slot_range _ _ Hp) as Rp. pose proof (slot_range _ _ Hq) as Rq.
  destruct (Z.lt_total (at_ Tl p) (at_ Tl q)) as [Hc|[Hc|Hc]].
  - assert (count_if (λ x, x <=? at_ Tl p) Tl ≤ count_if (λ x, x <? at_ Tl q) Tl); [|lia].
    apply count_if_mono. intros x. lia.
  - destruct (Z.lt_total p q) as [?|[?|?]]; [|done|].
    + pose proof (slot_lt Tl p q Hp Hq ltac:(done) Hc). lia.
    + pose proof (slot_lt Tl q p Hq Hp ltac:(done) (eq_sym Hc)). lia.
  - assert (count_if (λ x, x <=? at_ Tl q) Tl ≤ count_if (λ x, x <? at_ Tl p) Tl); [|lia].
    apply count_if_mono. intros x. lia.
Qed.

(** ** The placement, slot by slot *)

(** What the scan's bookkeeping is after the LMS positions [L1], the
    rightmost ones, have been found. *)
Lemma placement_prefix Tl k L1 L2 :
  Forall (λ c, 0 ≤ c < k) Tl → 0 ≤ k →
  lms_positions false Tl = L1 ++ L2 →
  ∃ SAl Bl b j,
    foldl (place Tl)
          (replicate (length Tl) 0, bucket_ends Tl k, None, Z.of_nat (length Tl))
          L1 = (SAl, Bl, b, j) ∧
    length SAl = length Tl ∧ Z.of_nat (length Bl) = k ∧
    (∀ c, 0 ≤ c < k →
          at_ Bl c = count_if (λ x, x <=? c) Tl - count_if (λ q, at_ Tl q =? c) L1) ∧
    match last L1 with
    | Some p => b = Some (slot Tl p) ∧ j = p - 1
    | None => b = None ∧ j = Z.of_nat (length Tl)
    end ∧
    (∀ q, q ∈ L1 → last L1 ≠ Some q → at_ SAl (slot Tl q) = q - 1) ∧
    (∀ i, (∀ q, q ∈ L1 → last L1 ≠ Some q → slot Tl q ≠ i) → at_ SAl i = 0).
Proof.
  intros HF Hk. revert L2. induction L1 as [|p L1 IH] using rev_ind; intros L2 Hs.
  { eexists _, _, _, _. split; [reflexivity|]. split_and!; try done.
    - by rewrite length_replicate.
    - by apply length_bucket_ends.
    - intros c Hc. unfold bucket_ends. rewrite at_fmap_seqZ by done. simpl. lia.
    - by intros q ?%elem_of_nil.
    - intros i _. unfold at_. destruct (i <? 0); [done|].
      destruct (replicate (length Tl) 0 !! Z.to_nat i) eqn:E; [|done].
      by apply lookup_replicate in E as [-> _]. }
  rewrite <- app_assoc in Hs. simpl in Hs.
  destruct (IH _ Hs) as (SAl & Bl & b & j & Hfold & HlS & HlB & HB & Hpend & Hin & Hout).
  destruct (lms_upto_split _ _ _ _ _ _ Hs) as [Hgt _].
  assert (HL : ∀ q, q ∈ L1 ++ [p] → q ∈ lms_positions false Tl).
  { intros q Hq. rewrite Hs. set_solver. }
  assert (Hp : p ∈ lms_positions false Tl) by (apply HL; set_solver).
  pose proof (lms_positions_bound _ _ Hp) as Hpb.
  pose proof (at_range Tl k p HF ltac:(lia)) as Hc.
  rewrite foldl_snoc, Hfold. unfold place.
  eexists _, _, _, _. split; [reflexivity|].
  assert (Hslot : at_ Bl (at_ Tl p) - 1 = slot Tl p).
  { rewrite HB by done. unfold slot. rewrite (lms_rank_split _ _ _ _ Hs). lia. }
  rewrite last_snoc. split_and!.
  - destruct b; [by rewrite length_insert|done].
  - by rewrite length_insert.
  - intros c Hc'. rewrite count_if_app. simpl.
    rewrite at_insert by lia. destruct (Z.eqb_spec c (at_ Tl p)) as [->|Hne].
    + rewrite Z.eqb_refl, HB by done. lia.
    + destruct (Z.eqb_spec (at_ Tl p) c); [done|]. rewrite HB by done. lia.
  - by rewrite Hslot.
  - done.
  - intros q Hq Hne.
    assert (q ∈ L1) as HqL.
    { apply elem_of_app in Hq as [?|Hq1]; [done|].
      apply list_elem_of_singleton in Hq1. by subst. }
    destruct (last L1) as [p0|] eqn:El.
    2:{ apply last_None in El. subst. by apply elem_of_nil in HqL. }
    destruct Hpend as [-> ->].
    assert (p0 ∈ L1) as Hp0.
    { apply last_Some in El as [l' ->]. set_solver. }
    pose proof (slot_bounds Tl p0 (HL p0 ltac:(set_solver))) as Hb0.
    pose proof (slot_bounds Tl q (HL q Hq)) as Hbq.
    rewrite at_insert by lia.
    destruct (Z.eqb_spec (slot Tl q) (slot Tl p0)) as [He|Hd].
    + destruct (decide (q = p0)) as [->|Hqp]; [done|].
      exfalso. revert He. apply slot_inj; [apply HL; set_solver..|done].
    + apply Hin; [done|]. intros [= ->]. done.
  - intros i Hi.
    destruct (last L1) as [p0|] eqn:El.
    2:{ destruct Hpend as [-> ->]. apply Hout.
        apply last_None in El. subst. by intros q ?%elem_of_nil. }
    destruct Hpend as [-> ->].
    assert (p0 ∈ L1) as Hp0.
    { apply last_Some in El as [l' ->]. set_solver. }
    pose proof (slot_bounds Tl p0 (HL p0 ltac:(set_solver))) as Hb0.
    assert (slot Tl p0 ≠ i) as Hne0.
    { apply Hi; [set_solver|]. intros [= ->]. specialize (Hgt _ Hp0). lia. }
    destruct (Z.ltb_spec i 0) as [Hneg|Hpos].
    { unfold at_. by destruct (Z.ltb_spec i 0); [|lia]. }
    rewrite at_insert by lia.
    destruct (Z.eqb_spec i (slot Tl p0)); [done|].
    apply Hout. intros q Hq _. apply Hi; [set_solver|].
    intros [= ->]. specialize (Hgt _ Hq). lia.
Qed.

(** The placement of a text: [B[c]] has come down from the end of the bucket
    of [c] by the number of LMS positions that carry [c]; the slot of every
    LMS position [q] but the leftmost holds [q - 1]; the slot of the leftmost
    is pending with its value; every other cell is zero. *)
Lemma placement_slots Tl k SAl Bl b j :
  Forall (λ c, 0 ≤ c < k) Tl → 0 ≤ k →
  placement Tl k = (SAl, Bl, b, j) →
  let lms := lms_positions false Tl in
  (∀ c, 0 ≤ c < k →
        at_ Bl c = count_if (λ x, x <=? c) Tl - count_if (λ q, at_ Tl q =? c) lms) ∧
  match last lms with
  | Some p => b = Some (slot Tl p) ∧ j = p - 1
  | None => b = None ∧ j = Z.of_nat (length Tl)
  end ∧
  (∀ q, q ∈ lms → last lms ≠ Some q → at_ SAl (slot Tl q) = q - 1) ∧
  (∀ i, (∀ q, q ∈ lms → last lms ≠ Some q → slot Tl q ≠ i) → at_ SAl i = 0).
Proof.
  intros HF Hk Hpl lms.
  destruct (placement_prefix Tl k lms [] HF Hk) as
    (SAl' & Bl' & b' & j' & Hfold & _ & _ & HB & Hpend & Hin & Hout).
  { by rewrite app_nil_r. }
  unfold placement in Hpl. fold lms in Hpl. rewrite Hfold in Hpl.
  by simplify_eq.
Qed.

(** Stage 1 finds at most [n / 2] LMS positions: they are at least 1 and no
    two of them are adjacent. *)
Lemma lms_upto_half last Tl (i : nat) :
  2 * Z.of_nat (length (lms_upto last Tl i)) ≤
  Z.of_nat i + (if is_LMS last Tl (Z.of_nat i) then 1 else 0).
Proof.
  induction i as [|i IH]; [simpl; done|].
  simpl lms_upto. destruct (is_LMS last Tl (Z.of_nat (S i))) eqn:E.
  - assert (is_LMS last Tl (Z.of_nat i) = false) as Hi.
    { unfold is_LMS in *.
      replace (Z.of_nat (S i) - 1) with (Z.of_nat i) in E by lia.
      destruct (is_S last Tl (Z.of_nat i)); [|by rewrite andb_false_r].
      by rewrite andb_false_r in E. }
    rewrite Hi in IH. simpl length. lia.
  - destruct (is_LMS last Tl (Z.of_nat i)); lia.
Qed.

Lemma count_lms_half Tl : 2 * count_lms false Tl ≤ Z.of_nat (length Tl).
Proof.
  unfold count_lms, lms_positions.
  pose proof (lms_upto_half false Tl (length Tl - 1)) as H.
  destruct (is_LMS false Tl (Z.of_nat (length Tl - 1))); destruct Tl; simpl in *; lia.
Qed.

(** C6, as amended.  From a valid input (the size [n + fs] of the workspace
    being an [int]) and with the workspace that [alloc_workspace] chose,
    stage 1's scan ends normally, and then
    [SA[0..n)] and [B] hold the [placement] of the text: starting from
    [SA] all zero and [B] the bucket ends, the scan visits the LMS positions
    [p] (position [n - 1] taken as L-type) from right to left; at each it
    writes the pending [j] into the pending slot, reserves the slot
    [--B[T[p]]], in the bucket of the symbol at [p] itself, and keeps
    [j = p - 1] pending.  So the slot of every LMS position [q] but the
    leftmost holds [q - 1]; the slot [b] of the leftmost is reserved and the
    value [j] for it is left in the scan's variables; every other cell of
    [SA[0..n)] is zero; the slots lie in the buckets of the symbols at the
    LMS positions, and [B[c]] is the end of the bucket of [c] less the number
    of LMS positions that carry [c]. *)
Theorem scan_placement s T SA Tl fs n k cs C B flags0 s1 :
  valid_input s T SA Tl fs n k →
  alloc_workspace SA fs n k s = (Ret (C, B, flags0), s1) →
  ∃ m j b s2 SAl Bl,
    stage1_discover T SA C B n k cs s1 = (Ret (m, j, b), s2) ∧
    view s2 SA (length Tl) = Some SAl ∧
    view s2 B (Z.to_nat k) = Some Bl ∧
    placement Tl k = (SAl, Bl, b, j) ∧
    let lms := lms_positions false Tl in
    (∀ q, q ∈ lms → last lms ≠ Some q → at_ SAl (slot Tl q) = q - 1) ∧
    (∀ i, (∀ q, q ∈ lms → last lms ≠ Some q → slot Tl q ≠ i) → at_ SAl i = 0) ∧
    match last lms with
    | Some p => b = Some (slot Tl p) ∧ j = p - 1
    | None => b = None ∧ j = n
    end ∧
    (∀ q, q ∈ lms →
          count_if (λ x, x <? at_ Tl q) Tl ≤ slot Tl q
          < count_if (λ x, x <=? at_ Tl q) Tl) ∧
    (∀ c, 0 ≤ c < k →
          at_ Bl c = count_if (λ x, x <=? c) Tl
                     - count_if (λ q, at_ Tl q =? c) lms).
Proof.
  intros Hv Hws.
  destruct (stage1_scan _ _ _ _ _ _ _ cs _ _ _ _ Hv Hws)
    as (m & j & b & s2 & SAl & Bl & Hrun & _ & Hpl & HSA & HB).
  exists m, j, b, s2, SAl, Bl. split_and!; try done.
  destruct Hv as [-> _ Hk _ HF _ _ _ _].
  destruct (placement_slots Tl k SAl Bl b j HF ltac:(lia) Hpl)
    as (HBl & Hpend & Hin & Hout).
  intros lms. split_and!; try done.
  intros q Hq. by apply slot_range.
Qed.

Lemma scan_placement_witness :
  let s := initial [1; 0; 2; 0; 2; 0] 0 [] in
  let Tl := [1; 0; 2; 0; 2; 0] in
  ∃ m j b s2 SAl Bl,
    stage1_discover T0 SA0 (Ptr 2 0) (Ptr 3 0) 6 3 1
                    (alloc_workspace SA0 0 6 3 s).2 = (Ret (m, j, b), s2) ∧
    view s2 SA0 (length Tl) = Some SAl ∧
    view s2 (Ptr 3 0) (Z.to_nat 3) = Some Bl ∧
    placement Tl 3 = (SAl, Bl, b, j) ∧
    let lms := lms_positions false Tl in
    (∀ q, q ∈ lms → last lms ≠ Some q → at_ SAl (slot Tl q) = q - 1) ∧
    (∀ i, (∀ q, q ∈ lms → last lms ≠ Some q → slot Tl q ≠ i) → at_ SAl i = 0) ∧
    match last lms with
    | Some p => b = Some (slot Tl p) ∧ j = p - 1
    | None => b = None ∧ j = 6
    end ∧
    (∀ q, q ∈ lms →
          count_if (λ x, x <? at_ Tl q) Tl ≤ slot Tl q
          < count_if (λ x, x <=? at_ Tl q) Tl) ∧
    (∀ c, 0 ≤ c < 3 →
          at_ Bl c = count_if (λ x, x <=? c) Tl
                     - count_if (λ q, at_ Tl q =? c) lms).
Proof.
  intros s Tl.
  apply (scan_placement s T0 SA0 Tl 0 6 3 1 (Ptr 2 0) (Ptr 3 0) 3).
  - split; [reflexivity | lia | lia | lia | repeat constructor; lia | |
            eexists; split; [reflexivity | simpl; lia] | left; simpl; lia |
            unfold INT_MAX; lia].
    intros [|[|[|[|[|[|i]]]]]] v Hi; simplify_eq/=; reflexivity.
  - reflexivity.
Defined.

(** C6, as stated, fails: on the text [2 1 0 1 0] the scan finds the LMS
    position 2 and leaves [SA[0..5)] all zero, which is not the claimed
    placement under either classification of position [n - 1]. *)
Lemma placement_claim_fails :
  ¬ (∀ s T SA Tl fs n k cs C B flags0 s1 m j b s2,
       valid_input s T SA Tl fs n k →
       alloc_workspace SA fs n k s = (Ret (C, B, flags0), s1) →
       stage1_discover T SA C B n k cs s1 = (Ret (m, j, b), s2) →
       ∃ last, view s2 SA (length Tl) = Some (placement_claimed last Tl k)).
Proof.
  intros H.
  pose (s := initial [2; 1; 0; 1; 0] 0 []).
  pose (r := stage1_discover T0 SA0 (Ptr 2 0) (Ptr 3 0) 5 3 1
                             (alloc_workspace SA0 0 5 3 s).2).
  destruct (H s T0 SA0 [2; 1; 0; 1; 0] 0 5 3 1 (Ptr 2 0) (Ptr 3 0) 3
              (alloc_workspace SA0 0 5 3 s).2 1 1 (Some 1) r.2
              (initial_valid [2; 1; 0; 1; 0] 0 3 [] ltac:(done)
                 ltac:(repeat constructor; lia) ltac:(lia) ltac:(lia)
                 ltac:(by vm_compute))
              ltac:(reflexivity) ltac:(reflexivity)) as [[|] Hl];
    vm_compute in Hl; discriminate.
Qed.

(** ** Further properties *)

(** The reduced problem of stage 1 is at most half as long as the text: from
    a valid input (the size [n + fs] of the workspace being an [int]) the
    scan ends normally with [2 m <= n]. *)
Theorem scan_halves s T SA Tl fs n k cs C B flags0 s1 :
  valid_input s T SA Tl fs n k →
  alloc_workspace SA fs n k s = (Ret (C, B, flags0), s1) →
  ∃ m j b s2,
    stage1_discover T SA C B n k cs s1 = (Ret (m, j, b), s2) ∧
    0 ≤ m ∧ 2 * m ≤ n.
Proof.
  intros Hv Hws.
  destruct (stage1_scan _ _ _ _ _ _ _ cs _ _ _ _ Hv Hws)
    as (m & j & b & s2 & SAl & Bl & Hrun & -> & _).
  exists (count_lms false Tl), j, b, s2. split; [done|].
  destruct Hv as [-> _ _ _ _ _ _ _ _].
  pose proof (count_lms_half Tl). unfold count_lms in *. lia.
Qed.

Lemma scan_halves_witness :
  let s := initial [1; 0; 2; 0; 2; 0] 0 [] in
  ∃ m j b s2,
    stage1_discover T0 SA0 (Ptr 2 0) (Ptr 3 0) 6 3 1
                    (alloc_workspace SA0 0 6 3 s).2 = (Ret (m, j, b), s2) ∧
    0 ≤ m ∧ 2 * m ≤ 6.
Proof.
  intros s.
  apply (scan_halves s T0 SA0 [1; 0; 2; 0; 2; 0] 0 6 3 1
                     (Ptr 2 0) (Ptr 3 0) 3).
  - split; [reflexivity | lia | lia | lia | repeat constructor; lia | |
            eexists; split; [reflexivity | simpl; lia] | left; simpl; lia |
            unfold INT_MAX; lia].
    intros [|[|[|[|[|[|i]]]]]] v Hi; simplify_eq/=; reflexivity.
  - reflexivity.
Defined.

(** On every text of length 1 to 8 over two symbols and of length 1 to 5
    over three symbols, with the slacks 0, [n] and [2n], and on three texts
    in each workspace layout of the large alphabets, [computeSA] returns 0
    and leaves the suffix array of the text in [SA[0..n)]. *)
Theorem sorts_small_texts :
  forallb (sorts_all 2) (seq 1 8) = true ∧
  forallb (sorts_all 3) (seq 1 5) = true ∧
  sorts_large = true.
Proof. split_and!; vm_compute; reflexivity. Qed.

(** [getCounts] leaves in [C[c]] the number of occurrences of the symbol [c]
    in the text, for every [c < k]. *)
Theorem getCounts_counts s T C n k cs Tl :
  holds s T n (at_ Tl) → n = Z.of_nat (length Tl) →
  Forall (λ c, 0 ≤ c < k) Tl →
  valid_buf s C k → disjoint T n C k →
  ∃ s', getCounts T C n k cs s = (Ret tt, s') ∧
        holds s' C k (λ c, count_if (Z.eqb c) Tl).
Proof.
  intros HT Hn HF VC Hd.
  destruct (sat_ok_run _ _ _ (getCounts_ok s T C n k cs Tl HT Hn HF VC Hd))
    as ([] & s' & Hrun & HC & _).
  by exists s'.
Qed.

Lemma getCounts_counts_witness :
  let s := (malloc 3 (initial [1; 0; 2; 0; 2; 0] 0 [])).2 in
  ∃ s', getCounts T0 (Ptr 2 0) 6 3 1 s = (Ret tt, s') ∧
        holds s' (Ptr 2 0) 3 (λ c, count_if (Z.eqb c) [1; 0; 2; 0; 2; 0]).
Proof.
  intros s.
  apply (getCounts_counts s T0 (Ptr 2 0) 6 3 1 [1; 0; 2; 0; 2; 0]).
  - intros i Hi.
    assert (i = 0 ∨ i = 1 ∨ i = 2 ∨ i = 3 ∨ i = 4 ∨ i = 5) as Hcase by lia.
    destruct Hcase as [->|[->|[->|[->|[->| ->]]]]]; reflexivity.
  - reflexivity.
  - repeat constructor; lia.
  - eexists. split; [reflexivity|]. simpl. lia.
  - left. simpl. lia.
Defined.

(** ** The loops and the recursion are bounded *)

Lemma bounded_ret {A} (a : A) (Q : A → Prop) : Q a → bounded (mret a) Q.
Proof. by intros H s. Qed.

Lemma bounded_exit {A} z (Q : A → Prop) : bounded (exit_ z) Q.
Proof. by intros s. Qed.

Lemma bounded_abort {A} e (Q : A → Prop) : ¬ excluded e → bounded (abort e) Q.
Proof. by intros H s. Qed.

Lemma bounded_bind {A B} (c : M A) (f : A → M B) Q1 Q2 :
  bounded c Q1 → (∀ a, Q1 a → bounded (f a) Q2) → bounded (c ≫= f) Q2.
Proof.
  intros Hc Hf s. specialize (Hc s). unfold mbind, M_bind.
  destruct (c s) as [[a|z|e] s']; simpl in *; [|done..].
  apply (Hf a Hc s').
Qed.

Lemma bounded_mono {A} (c : M A) (Q Q' : A → Prop) :
  bounded c Q → (∀ a, Q a → Q' a) → bounded c Q'.
Proof.
  intros Hc HQ s. specialize (Hc s). destruct (c s).1; auto.
Qed.

Lemma bounded_load p : bounded (load p) (λ _, True).
Proof.
  intros s. unfold load. destruct (cells_at _ _); [|by intros []].
  destruct (_ <? _); [by intros []|].
  destruct (_ !! _) as [[?|]|]; [done|by intros []..].
Qed.

Lemma bounded_chr T cs a : bounded (chr T cs a) (λ _, True).
Proof. apply bounded_load. Qed.

Lemma bounded_store p v : bounded (store p v) (λ _, True).
Proof.
  intros s. unfold store. destruct (cells_at _ _); [|by intros []].
  destruct (_ || _); [by intros []|done].
Qed.

Lemma bounded_malloc num : bounded (malloc num) (λ _, True).
Proof. intros s. unfold malloc. by destruct (match oracle s with [] => _ | _ => _ end). Qed.

Lemma bounded_free p : bounded (free p) (λ _, True).
Proof.
  intros s. unfold free. destruct (cells_at _ _); [|by intros []].
  destruct (_ =? _); [done|by intros []].
Qed.

Lemma bounded_trace ev : bounded (trace ev) (λ _, True).
Proof. by intros s. Qed.

Lemma bounded_assert line b :
  checked line = false → bounded (assert_ line b) (λ _, b = true).
Proof. intros H s. destruct b; [done|]. simpl. by rewrite H. Qed.

Lemma bounded_assert_true line b :
  b = true → bounded (assert_ line b) (λ _, True).
Proof. by intros -> s. Qed.

Lemma bounded_when b c : bounded c (λ _, True) → bounded (when_ b c) (λ _, True).
Proof. intros H. destruct b; [done|by apply bounded_ret]. Qed.

Lemma bounded_function body :
  bounded body (λ _, True) → bounded (function body) (λ _, True).
Proof.
  intros H s. specialize (H s). unfold function.
  by destruct (body s) as [[z|z|e] s'].
Qed.

Lemma bounded_for_up {A} (I : A → Prop) cnt i (body : Z → A → M A) a :
  (∀ i a, I a → bounded (body i a) I) → I a → bounded (for_up cnt i body a) I.
Proof.
  intros Hb. revert i a. induction cnt as [|cnt IH]; intros i a Ha; simpl.
  - by apply bounded_ret.
  - eapply bounded_bind; [by apply Hb|]. intros a' Ha'. by apply IH.
Qed.

Lemma bounded_for_down {A} (I : A → Prop) cnt i (body : Z → A → M A) a :
  (∀ i a, I a → bounded (body i a) I) → I a → bounded (for_down cnt i body a) I.
Proof.
  intros Hb. revert i a. induction cnt as [|cnt IH]; intros i a Ha; simpl.
  - by apply bounded_ret.
  - eapply bounded_bind; [by apply Hb|]. intros a' Ha'. by apply IH.
Qed.

Lemma bounded_for_up_ix {A} (I : nat → A → Prop) cnt i (body : Z → A → M A) a :
  (∀ j a, (j < cnt)%nat → I j a → bounded (body (i + Z.of_nat j) a) (I (S j))) →
  I 0%nat a → bounded (for_up cnt i body a) (I cnt).
Proof.
  revert i I a. induction cnt as [|cnt IH]; intros i I a Hb Ha; simpl.
  - by apply bounded_ret.
  - eapply bounded_bind.
    + specialize (Hb 0%nat a ltac:(lia) Ha). by rewrite Z.add_0_r in Hb.
    + intros a' Ha'. apply (IH (i + 1) (λ j, I (S j))); [|done].
      intros j a'' Hj Ha''. specialize (Hb (S j) a'' ltac:(lia) Ha'').
      by replace (i + 1 + Z.of_nat j) with (i + Z.of_nat (S j)) by lia.
Qed.

(** A loop with a measure [μ] that every round decreases, below the fuel at
    the start. *)
Lemma bounded_loop {L R} (μ : L → nat) (I : L → Prop) (Q : R → Prop)
    fuel (body : L → M (L + R)) l :
  (∀ l, I l →
        bounded (body l) (λ x, match x with
                               | inl l' => I l' ∧ (μ l' < μ l)%nat
                               | inr r => Q r
                               end)) →
  I l → (μ l < fuel)%nat → bounded (loop fuel body l) Q.
Proof.
  intros Hb. revert l. induction fuel as [|fuel IH]; intros l Hl Hμ; [lia|].
  simpl. eapply bounded_bind; [by apply Hb|].
  intros [l'|r] Hx; [|by apply bounded_ret].
  destruct Hx as [Hl' Hlt]. apply IH; [done|lia].
Qed.

(** Code without loops of its own, or with counted loops only: nothing to
    show but the structure. *)
Ltac bounded_known := fail.

Ltac bounded_step :=
  first
    [ bounded_known
    | apply bounded_ret; exact I
    | apply bounded_exit
    | apply bounded_load
    | apply bounded_chr
    | apply bounded_store
    | apply bounded_malloc
    | apply bounded_free
    | apply bounded_trace
    | eapply bounded_mono; [apply bounded_assert; reflexivity|done]
    | apply bounded_when
    | apply (bounded_for_up (λ _, True)); [intros|exact I]
    | apply (bounded_for_down (λ _, True)); [intros|exact I]
    | eapply (bounded_bind _ _ (λ _, True)); [|intros ? _]
    | progress cbv zeta
    | match goal with
      | |- bounded (match ?x with _ => _ end) _ => destruct x
      | |- bounded (let (_, _) := ?x in _) _ => destruct x
      end ].

Ltac bounded_tac := repeat bounded_step.

Lemma bounded_getCounts T C n k cs : bounded (getCounts T C n k cs) (λ _, True).
Proof. unfold getCounts. bounded_tac. Qed.

Lemma bounded_getBuckets C B k e : bounded (getBuckets C B k e) (λ _, True).
Proof. unfold getBuckets. bounded_tac. Qed.

Lemma bounded_switch_bucket B c0 c1 b :
  bounded (switch_bucket B c0 c1 b) (λ _, True).
Proof. unfold switch_bucket. bounded_tac. Qed.

Lemma bounded_store_b SA b v : bounded (store_b SA b v) (λ _, True).
Proof. unfold store_b. bounded_tac. Qed.

Lemma bounded_zero_down SA q j : bounded (zero_down SA q j) (λ _, True).
Proof. unfold zero_down. bounded_tac. Qed.

(** A run of the scan goes left: it ends at an index below the one it
    started from, and not below -1. *)
Lemma bounded_scan_run ge T cs n i c0 :
  0 ≤ i ≤ n →
  bounded (scan_run ge T cs n i c0) (λ '(i', _, _), -1 ≤ i' < i).
Proof.
  intros Hi. unfold scan_run.
  apply (bounded_loop (λ '(j, _), Z.to_nat j) (λ '(j, _), 0 ≤ j ≤ i));
    [|lia|lia].
  intros [j c] Hj. cbv zeta.
  destruct (Z.leb_spec 0 (j - 1)).
  - eapply (bounded_bind _ _ (λ _, True)); [apply bounded_chr|]. intros c' _.
    destruct (if ge then _ else _); apply bounded_ret; lia.
  - apply bounded_ret. lia.
Qed.

Ltac bounded_known ::=
  first [ apply bounded_getCounts | apply bounded_getBuckets
        | apply bounded_switch_bucket | apply bounded_store_b
        | apply bounded_zero_down ].

(** One step with a postcondition: [bounded_bind] with the given [Q]. *)
Tactic Notation "bounded_seq" constr(Q) :=
  eapply (bounded_bind _ _ Q).

Lemma bounded_sortLMS1 T SA C B n k cs :
  bounded (sortLMS1 T SA C B n k cs) (λ _, True).
Proof. unfold sortLMS1. bounded_tac. Qed.

Lemma bounded_induceSA T SA C B n k cs :
  bounded (induceSA T SA C B n k cs) (λ _, True).
Proof. unfold induceSA. bounded_tac. Qed.

Lemma bounded_prepare_sort2 T SA C B D n k cs j :
  j + 1 < n → bounded (prepare_sort2 T SA C B D n k cs j) (λ _, True).
Proof.
  intros Hj. unfold prepare_sort2.
  bounded_seq (λ _ : unit, True); [apply bounded_assert_true; lia|]. intros _ _.
  bounded_tac.
Qed.

(** The walk over the runs of the text, as [postProcLMS1] and [unrank_LMS]
    do it: every round moves [i] left.  The names that [postProcLMS1] gives
    are counted from 1, one new name at most for each of the [m] substrings,
    and the first substring always takes a new name. *)
Lemma bounded_postProcLMS1 T SA n m cs :
  0 < n →
  bounded (postProcLMS1 T SA n m cs)
          (λ name, 0 ≤ name ∧ name ≤ Z.max m 0 ∧ (1 ≤ m → 1 ≤ name)).
Proof.
  intros Hn. unfold postProcLMS1.
  bounded_seq (λ _ : unit, True); [apply bounded_assert_true; lia|].
  intros _ _.
  bounded_seq (λ i : Z, 0 ≤ i).
  { apply (bounded_loop (λ i, Z.to_nat (n - i)) (λ i, 0 ≤ i < n)); [|lia|lia].
    intros i Hi. bounded_seq (λ _ : Z, True); [apply bounded_load|].
    intros p _. destruct (p <? 0); [|apply bounded_ret; lia].
    bounded_seq (λ _ : unit, True); [apply bounded_store|]. intros _ _.
    bounded_seq (λ _ : unit, i + 1 < n).
    { eapply bounded_mono; [apply bounded_assert; reflexivity|]. intros ? H. simpl in H. lia. }
    intros _ Hi'. apply bounded_ret. lia. }
  intros i Hi.
  bounded_seq (λ _ : unit, True).
  { apply bounded_when.
    apply (bounded_loop (λ '(i, _), Z.to_nat (n + 1 - i)) (λ _, True)); [|done|lia].
    intros [i' j] _.
    bounded_seq (λ _ : unit, i' < n).
    { eapply bounded_mono; [apply bounded_assert; reflexivity|]. intros ? H. simpl in H. lia. }
    intros _ Hi'. bounded_seq (λ _ : Z, True); [apply bounded_load|].
    intros p _. destruct (p <? 0).
    - bounded_seq (λ _ : unit, True); [apply bounded_store|]. intros _ _.
      cbv zeta.
      bounded_seq (λ _ : unit, True); [apply bounded_store|]. intros _ _.
      destruct (_ =? _); apply bounded_ret; [done|]. split; [done|lia].
    - apply bounded_ret. split; [done|lia]. }
  intros _ _.
  bounded_seq (λ _ : Z, True); [apply bounded_chr|]. intros c0 _.
  bounded_seq (λ r : Z * Z * Z, let '(i', _, _) := r in -1 ≤ i' < n - 1).
  { eapply bounded_mono; [apply bounded_scan_run; lia|]. intros [[? ?] ?]; lia. }
  intros [[i1 c0'] c1] Hi1.
  bounded_seq (λ _ : unit, True).
  { apply (bounded_loop (λ '(i, _, _), Z.to_nat (i + 1))
                        (λ '(i, _, _), -1 ≤ i < n)); [|lia|lia].
    intros [[i' j] c] Hi'. destruct (Z.leb_spec 0 i'); [|by apply bounded_ret].
    bounded_seq (λ r : Z * Z * Z, let '(i2, _, _) := r in -1 ≤ i2 < i'); [apply bounded_scan_run; lia|].
    intros [[i2 c2] c2'] Hi2. destruct (Z.leb_spec 0 i2).
    - bounded_seq (λ _ : unit, True); [apply bounded_store|]. intros _ _.
      cbv zeta.
      bounded_seq (λ r : Z * Z * Z, let '(i3, _, _) := r in -1 ≤ i3 < i2); [apply bounded_scan_run; lia|].
      intros [[i3 c3] c3'] Hi3. apply bounded_ret. lia.
    - apply bounded_ret. lia. }
  intros _ _.
  set (I := λ (j : nat) (a : Z * Z * Z),
         let '(name, q, qlen) := a in
         (j = 0%nat → name = 0 ∧ q = n ∧ qlen = 0) ∧
         ((1 ≤ j)%nat → 1 ≤ name) ∧ 0 ≤ name ≤ Z.of_nat j).
  bounded_seq (I (Z.to_nat m)).
  2:{ intros [[name q] qlen] (H0 & H1 & H2). apply bounded_ret. lia. }
  apply (bounded_for_up_ix I); [|unfold I; lia].
  intros j' [[name q] qlen] Hj' (H0 & H1 & H2).
  bounded_seq (λ _ : Z, True); [apply bounded_load|]. intros p _.
  bounded_seq (λ _ : Z, True); [apply bounded_load|]. intros plen _.
  bounded_seq (λ diff : bool, q = n ∧ qlen = 0 → diff = true).
  { destruct (Z.eqb_spec plen qlen) as [He|]; cbn [andb]; [|by apply bounded_ret].
    destruct (Z.ltb_spec (q + plen) n); [|by apply bounded_ret].
    bounded_seq (λ _ : Z, True); [|intros; apply bounded_ret; lia].
    apply (bounded_loop (λ j, Z.to_nat (plen - j)) (λ j, 0 ≤ j)); [|lia|lia].
    intros j Hj. destruct (Z.ltb_spec j plen); [|by apply bounded_ret].
    bounded_seq (λ _ : Z, True); [apply bounded_chr|]. intros x _.
    bounded_seq (λ _ : Z, True); [apply bounded_chr|]. intros y _.
    destruct (x =? y); apply bounded_ret; [lia|done]. }
  intros diff Hdiff.
  assert (j' = 0%nat → diff = true) as Hfirst.
  { intros Hj0. apply Hdiff. destruct (H0 Hj0) as (_ & -> & ->). done. }
  destruct diff.
  - bounded_seq (λ _ : unit, True); [apply bounded_store|]. intros _ _.
    apply bounded_ret. unfold I. split_and!; [lia|lia|lia|lia].
  - bounded_seq (λ _ : unit, True); [apply bounded_store|]. intros _ _.
    apply bounded_ret. unfold I.
    assert (j' ≠ 0%nat) by (intros ?; by specialize (Hfirst ltac:(done))).
    split_and!; [lia|intros _; apply H1; lia|lia|lia].
Qed.

(** A read below the start of the array stops the run. *)
Lemma bounded_load_off p : bounded (load p) (λ _, 0 ≤ poff p).
Proof.
  intros s. unfold load. destruct (cells_at _ _); [|by intros []].
  destruct (Z.ltb_spec (poff p) 0); [by intros []|].
  destruct (_ !! _) as [[?|]|]; [done|by intros []..].
Qed.

Lemma bounded_LMSsort2 T SA C B D n k cs :
  poff SA = 0 → bounded (LMSsort2 T SA C B D n k cs) (λ _, True).
Proof.
  intros HSA. unfold LMSsort2.
  do 6 (eapply (bounded_bind _ _ (λ _, True)); [bounded_tac|intros ? _]; cbv zeta).
  bounded_seq (λ _ : Z * Z * Z, True); [bounded_tac|]. intros [[b c1] d] _.
  bounded_seq (λ _ : unit, True); [|intros; bounded_tac].
  apply (bounded_loop (λ i, Z.to_nat (i + 1)) (λ i, i ≤ n - 1)); [|lia|lia].
  intros i Hi. destruct (Z.leb_spec 0 i); [|by apply bounded_ret].
  bounded_seq (λ _ : Z, True); [apply bounded_load|]. intros x _.
  destruct (0 <? x); [|apply bounded_ret; lia].
  bounded_seq (λ _ : Z, True); [apply bounded_load|]. intros x' _.
  destruct (x' <? n); [|apply bounded_ret; lia].
  bounded_seq (λ _ : Z, True); [apply bounded_load|]. intros x'' _.
  bounded_seq (λ _ : unit, True); [apply bounded_store|]. intros _ _.
  bounded_seq (λ j : Z, j ≤ i - 1).
  { apply (bounded_loop (λ j, Z.to_nat (j + 1)) (λ j, j ≤ i - 1)); [|lia|lia].
    intros j Hj. bounded_seq (λ _ : Z, 0 ≤ j).
    { eapply bounded_mono; [apply bounded_load_off|]. simpl. intros; lia. }
    intros y Hj0. destruct (y <? n); apply bounded_ret; lia. }
  intros j Hj.
  bounded_seq (λ _ : Z, 0 ≤ j).
  { eapply bounded_mono; [apply bounded_load_off|]. simpl. intros; lia. }
  intros y Hj0.
  bounded_seq (λ _ : unit, True); [apply bounded_store|]. intros _ _.
  apply bounded_ret. lia.
Qed.

Lemma bounded_postProcLMS2 SA n m :
  0 < n → bounded (postProcLMS2 SA n m) (λ _, True).
Proof.
  intros Hn. unfold postProcLMS2.
  bounded_seq (λ _ : unit, True); [apply bounded_assert_true; lia|].
  intros _ _.
  bounded_seq (λ r : Z * Z, 0 ≤ r.1).
  { apply (bounded_loop (λ '(i, _), Z.to_nat (n - i)) (λ '(i, _), 0 ≤ i < n));
      [|lia|lia].
    intros [i name] Hi. bounded_seq (λ _ : Z, True); [apply bounded_load|].
    intros j _. destruct (j <? 0); [|apply bounded_ret; simpl; lia].
    cbv zeta.
    bounded_seq (λ _ : unit, True); [apply bounded_store|]. intros _ _.
    bounded_seq (λ _ : unit, i + 1 < n).
    { eapply bounded_mono; [apply bounded_assert; reflexivity|]. intros ? H. simpl in H. lia. }
    intros _ Hi'. apply bounded_ret. lia. }
  intros [i name] Hi. simpl in Hi.
  bounded_seq (λ _ : Z, True); [|intros; bounded_tac].
  destruct (i <? m); [|by apply bounded_ret].
  apply (bounded_loop (λ '(i, _, _), Z.to_nat (n + 1 - i)) (λ _, True)); [|done|lia].
  intros [[i' d] name'] _.
  bounded_seq (λ _ : unit, i' < n).
  { eapply bounded_mono; [apply bounded_assert; reflexivity|]. intros ? H. simpl in H. lia. }
  intros _ Hi'. bounded_seq (λ _ : Z, True); [apply bounded_load|].
  intros j _. destruct (j <? 0).
  - cbv zeta.
    bounded_seq (λ _ : unit, True); [apply bounded_store|]. intros _ _.
    bounded_seq (λ _ : unit, True); [apply bounded_store|]. intros _ _.
    destruct (_ =? _); apply bounded_ret; [done|]. split; [done|lia].
  - apply bounded_ret. split; [done|lia].
Qed.

(** The scan of stage 1 finds at most [n / 2] positions, whatever the text
    holds: between two of them [i] has moved left twice. *)
Lemma bounded_discoverLMS T SA B n cs :
  0 < n →
  bounded (discoverLMS T SA B n cs)
          (λ '(m, j, _), 0 ≤ m ∧ 2 * m ≤ n ∧ (1 ≤ m → 0 ≤ j ∧ j + 1 < n)).
Proof.
  intros Hn. unfold discoverLMS.
  bounded_seq (λ _ : Z, True); [apply bounded_chr|]. intros c0 _.
  bounded_seq (λ r : Z * Z * Z, let '(i', _, _) := r in -1 ≤ i' < n - 1).
  { eapply bounded_mono; [apply bounded_scan_run; lia|]. intros [[? ?] ?]; lia. }
  intros [[i1 c0'] c1] Hi1.
  apply (bounded_loop (λ '(i, _, _, _, _), Z.to_nat (i + 1))
           (λ '(i, _, j, m, _), -1 ≤ i ∧ 0 ≤ m ∧ 2 * m + i + 2 ≤ n ∧
                                (1 ≤ m → 0 ≤ j ∧ j + 1 < n))); [|lia|lia].
  intros [[[[i c] j] m] b] Hi. destruct (Z.leb_spec 0 i); [|apply bounded_ret; lia].
  bounded_seq (λ r : Z * Z * Z, let '(i2, _, _) := r in -1 ≤ i2 < i).
  { eapply bounded_mono; [apply bounded_scan_run; lia|]. intros [[? ?] ?]; lia. }
  intros [[i2 c2] c2'] Hi2. destruct (Z.leb_spec 0 i2).
  - bounded_seq (λ _ : unit, True); [apply bounded_store_b|]. intros _ _.
    bounded_seq (λ _ : Z, True); [apply bounded_load|]. intros v _.
    bounded_seq (λ _ : unit, True); [apply bounded_store|]. intros _ _.
    cbv zeta.
    bounded_seq (λ r : Z * Z * Z, let '(i3, _, _) := r in -1 ≤ i3 < i2).
    { eapply bounded_mono; [apply bounded_scan_run; lia|]. intros [[? ?] ?]; lia. }
    intros [[i3 c3] c3'] Hi3. apply bounded_ret. lia.
  - apply bounded_ret. lia.
Qed.

Lemma bounded_unrank_LMS T SA RA n m cs :
  0 < n → bounded (unrank_LMS T SA RA n m cs) (λ _, True).
Proof.
  intros Hn. unfold unrank_LMS.
  bounded_seq (λ _ : Z, True); [apply bounded_chr|]. intros c0 _.
  bounded_seq (λ r : Z * Z * Z, let '(i', _, _) := r in -1 ≤ i' < n - 1).
  { eapply bounded_mono; [apply bounded_scan_run; lia|]. intros [[? ?] ?]; lia. }
  intros [[i1 c0'] c1] Hi1.
  bounded_seq (λ _ : unit, True); [|intros; bounded_tac].
  apply (bounded_loop (λ '(i, _, _), Z.to_nat (i + 1))
                      (λ '(i, _, _), -1 ≤ i < n)); [|lia|lia].
  intros [[i c] j] Hi. destruct (Z.leb_spec 0 i); [|by apply bounded_ret].
  bounded_seq (λ r : Z * Z * Z, let '(i2, _, _) := r in -1 ≤ i2 < i).
  { eapply bounded_mono; [apply bounded_scan_run; lia|]. intros [[? ?] ?]; lia. }
  intros [[i2 c2] c2'] Hi2. destruct (Z.leb_spec 0 i2).
  - bounded_seq (λ _ : unit, True); [apply bounded_store|]. intros _ _.
    cbv zeta.
    bounded_seq (λ r : Z * Z * Z, let '(i3, _, _) := r in -1 ≤ i3 < i2).
    { eapply bounded_mono; [apply bounded_scan_run; lia|]. intros [[? ?] ?]; lia. }
    intros [[i3 c3] c3'] Hi3. apply bounded_ret. lia.
  - apply bounded_ret. lia.
Qed.

Lemma bounded_place_LMS T SA C B n k m cs :
  bounded (place_LMS T SA C B n k m cs) (λ _, True).
Proof.
  unfold place_LMS.
  do 3 (eapply (bounded_bind _ _ (λ _, True)); [bounded_tac|intros ? _]).
  bounded_seq (λ _ : Z, True); [|intros; bounded_tac].
  apply (bounded_loop (λ '(i, _, _, _), Z.to_nat (i + 1))
                      (λ '(i, _, _, _), i ≤ m - 1)); [|lia|lia].
  intros [[[i j] p] c1] Hi. cbv zeta.
  bounded_seq (λ _ : Z, True); [apply bounded_load|]. intros q _.
  bounded_seq (λ _ : Z, True); [apply bounded_zero_down|]. intros j' _.
  bounded_seq (λ r : Z * Z * Z * Z, let '(i', _, _, _) := r in i' < i ∧ -1 ≤ i' ∨ i' < 0).
  { apply (bounded_loop (λ '(i', _, _), Z.to_nat (i' + 1))
                        (λ '(i', _, _), i' ≤ i)); [|lia|lia].
    intros [[i' j''] p'] Hi'. cbv zeta.
    bounded_seq (λ _ : unit, True); [apply bounded_store|]. intros _ _.
    destruct (Z.ltb_spec (i' - 1) 0); [apply bounded_ret; lia|].
    bounded_seq (λ _ : Z, True); [apply bounded_load|]. intros p'' _.
    bounded_seq (λ _ : Z, True); [apply bounded_chr|]. intros c' _.
    destruct (_ =? _); apply bounded_ret; lia. }
  intros [[[i' j''] p'] c'] Hi'.
  destruct (Z.leb_spec 0 i'); apply bounded_ret; [lia|done].
Qed.

Ltac bounded_known ::=
  first [ apply bounded_getCounts | apply bounded_getBuckets
        | apply bounded_switch_bucket | apply bounded_store_b
        | apply bounded_zero_down | apply bounded_sortLMS1
        | apply bounded_induceSA
        | apply bounded_postProcLMS2; assumption
        | apply bounded_place_LMS ].

(** With the flags 1, 4 and 8 clear, [C] lies in the tail of [SA] and [B]
    apart from it: the slack is at least [k]. *)
Lemma bounded_alloc_workspace SA fs n k :
  0 ≤ k →
  bounded (alloc_workspace SA fs n k)
          (λ '(_, _, flags), has flags (Z.lor 1 (Z.lor 4 8)) = false → k ≤ fs).
Proof.
  intros Hk. unfold alloc_workspace.
  repeat match goal with
  | |- bounded (if ?a <=? ?b then _ else _) _ => destruct (Z.leb_spec a b)
  | |- bounded (malloc _ ≫= _) _ =>
      eapply (bounded_bind _ _ (λ _, True)); [apply bounded_malloc|];
      intros [?|] _
  | |- bounded (free _ ≫= _) _ =>
      eapply (bounded_bind _ _ (λ _, True)); [apply bounded_free|]; intros ? _
  | |- bounded (exit_ _) _ => apply bounded_exit
  | |- bounded (mret _) _ => apply bounded_ret; first [done | lia | intros; lia]
  end.
Qed.

Lemma has_sort2_flags flags fs n k :
  has (sort2_flags flags fs n k) (Z.lor 1 (Z.lor 4 8)) =
  has flags (Z.lor 1 (Z.lor 4 8)).
Proof.
  unfold sort2_flags. repeat case_match; try done;
    rewrite has_lor_l; by rewrite orb_false_r.
Qed.

Lemma bounded_alloc_D C B flags k : bounded (alloc_D C B flags k) (λ _, True).
Proof. unfold alloc_D. bounded_tac. Qed.

Lemma bounded_stage1_discover T SA C B n k cs :
  0 < n →
  bounded (stage1_discover T SA C B n k cs)
          (λ '(m, j, _), 0 ≤ m ∧ 2 * m ≤ n ∧ (1 ≤ m → 0 ≤ j ∧ j + 1 < n)).
Proof.
  intros Hn. unfold stage1_discover.
  do 3 (eapply (bounded_bind _ _ (λ _, True)); [bounded_tac|intros ? _]).
  by apply bounded_discoverLMS.
Qed.

Lemma bounded_sort_LMS T SA C B flags n k cs m j b :
  poff SA = 0 → 0 < n → (1 ≤ m → j + 1 < n) →
  bounded (sort_LMS T SA C B flags n k cs m j b) (λ _, True).
Proof.
  intros HSA Hn Hj. unfold sort_LMS.
  destruct (Z.ltb_spec 1 m); [|bounded_tac].
  destruct (has flags _).
  - bounded_seq (λ _ : ptr, True); [apply bounded_alloc_D|]. intros D _.
    bounded_seq (λ _ : unit, True); [apply bounded_prepare_sort2; lia|].
    intros _ _.
    bounded_seq (λ _ : unit, True); [by apply bounded_LMSsort2|]. intros _ _.
    bounded_tac.
  - bounded_seq (λ _ : unit, True); [apply bounded_sortLMS1|]. intros _ _.
    eapply bounded_mono; [by apply bounded_postProcLMS1|done].
Qed.

Lemma bounded_stage2 rec T SA C B flags fs n k cs m name :
  0 < n → 2 * m ≤ n →
  (∀ RA fs', bounded (rec RA SA fs' m name sizeof_int) (λ _, True)) →
  bounded (stage2 rec T SA C B flags fs n k cs m name) (λ _, True).
Proof.
  intros Hn Hm Hrec. unfold stage2.
  destruct (name <? m); [|bounded_tac].
  do 2 (eapply (bounded_bind _ _ (λ _, True)); [bounded_tac|intros ? _]).
  destruct (reduced_workspace flags fs n k m name) as [[newfs flags'] ra] eqn:Hrw.
  bounded_seq (λ _ : unit, True).
  { eapply bounded_mono; [apply bounded_assert; reflexivity|done]. }
  intros _ _. cbv zeta.
  eapply (bounded_bind _ _ (λ _, True)); [bounded_tac|intros ? _].
  bounded_seq (λ _ : Z, True); [apply Hrec|]. intros r _.
  bounded_seq (λ _ : unit, True); [bounded_tac|]. intros _ _.
  bounded_seq (λ _ : unit, True); [by apply bounded_unrank_LMS|]. intros _ _.
  bounded_tac.
Qed.

Lemma bounded_stage3 T SA C B flags n k cs m :
  bounded (stage3 T SA C B flags n k cs m) (λ _, True).
Proof. unfold stage3. bounded_tac. Qed.

(** [computeSA] with room for [d + 1] nested calls, on a text shorter than
    [2 ^ d]: every recursive call is on a text at most half as long. *)
Lemma bounded_computeSA (d : nat) T SA fs n k cs :
  poff SA = 0 → n < 2 ^ Z.of_nat d →
  bounded (computeSA (S d) T SA fs n k cs) (λ _, True).
Proof.
  revert T fs n k cs. induction d as [|d IH]; intros T fs n k cs HSA Hd.
  - cbn [computeSA]. apply bounded_function.
    bounded_seq (λ _ : unit, True); [apply bounded_trace|]. intros _ _.
    bounded_seq (λ _ : unit, 0 < n).
    { eapply bounded_mono; [apply bounded_assert; reflexivity|]. intros ? H. simpl in H. lia. }
    intros _ Hn. simpl in Hd. lia.
  - cbn [computeSA]. apply bounded_function.
    bounded_seq (λ _ : unit, True); [apply bounded_trace|]. intros _ _.
    bounded_seq (λ _ : unit, 0 ≤ fs ∧ 0 < n ∧ 1 ≤ k).
    { eapply bounded_mono; [apply bounded_assert; reflexivity|]. intros ? H. simpl in H. lia. }
    intros _ (Hfs & Hn & Hk).
    bounded_seq (λ _ : ptr * ptr * Z, True).
    { eapply bounded_mono; [apply bounded_alloc_workspace; lia|done]. }
    intros [[C B] flags] _. cbv zeta.
    bounded_seq (λ r : Z * Z * option Z,
                   let '(m, j, _) := r in
                   0 ≤ m ∧ 2 * m ≤ n ∧ (1 ≤ m → 0 ≤ j ∧ j + 1 < n)).
    { eapply bounded_mono; [by apply bounded_stage1_discover|]. by intros [[? ?] ?]. }
    intros [[m j] b] (Hm0 & Hm & Hj).
    bounded_seq (λ _ : Z, True).
    { apply bounded_sort_LMS; [done|done|]. intros ?. by apply Hj. }
    intros name _.
    bounded_seq (λ _ : ptr * ptr * Z, True).
    { apply bounded_stage2; [done|done|].
      intros RA fs'. apply IH; [done|].
      rewrite Nat2Z.inj_succ, Z.pow_succ_r in Hd by lia. lia. }
    intros [[C' B'] flags'] _. apply bounded_stage3.
Qed.

(** Every run of [computeSA] ends.  The loops are bounded by their counters,
    whatever the memory holds, and every recursive call is on a text at most
    half as long, so that a text shorter than [2 ^ d] needs at most [d + 1]
    nested calls: the run returns or stops in an error, and the error is not
    a lack of fuel.  In particular [run], which allows [n + 1] nested calls,
    never runs out of fuel. *)
Theorem computeSA_ends :
  (∀ (d : nat) T SA fs n k cs s,
     poff SA = 0 → n < 2 ^ Z.of_nat d →
     (computeSA (S d) T SA fs n k cs s).1 ≠ Abort OutOfFuel) ∧
  (∀ Tl fs k cs oracle, (run Tl fs k cs oracle).1 ≠ Abort OutOfFuel).
Proof.
  assert (H : ∀ (d : nat) T SA fs n k cs s,
     poff SA = 0 → n < 2 ^ Z.of_nat d →
     (computeSA (S d) T SA fs n k cs s).1 ≠ Abort OutOfFuel).
  { intros d T SA fs n k cs s HSA Hd.
    pose proof (bounded_computeSA d T SA fs n k cs HSA Hd s) as H.
    destruct (computeSA (S d) T SA fs n k cs s).1; [done|done|].
    intros [= ->]. by apply H. }
  split; [exact H|].
  intros Tl fs k cs oracle. unfold run. apply H; [done|].
  generalize (length Tl). intros a. induction a as [|a IHa]; [simpl; lia|].
  rewrite Nat2Z.inj_succ, Z.pow_succ_r by lia. lia.
Qed.

Lemma computeSA_ends_witness :
  (computeSA 4 T0 SA0 0 6 3 1 (initial [1; 0; 2; 0; 2; 0] 0 [])).1
  ≠ Abort OutOfFuel.
Proof.
  apply (proj1 computeSA_ends 3%nat T0 SA0 0 6 3 1
               (initial [1; 0; 2; 0; 2; 0] 0 [])); [reflexivity|simpl; lia].
Defined.

(** The names that [postProcLMS1] gives: whenever it returns, with [0 < n],
    the number [name] of names is at least 0 and at most [m] (at most 0 for
    a negative [m]), and at least 1 when there is a substring to name. *)
Theorem postProcLMS1_names T SA n m cs s name s' :
  0 < n →
  postProcLMS1 T SA n m cs s = (Ret name, s') →
  0 ≤ name ∧ name ≤ Z.max m 0 ∧ (1 ≤ m → 1 ≤ name).
Proof.
  intros Hn Hrun. pose proof (bounded_postProcLMS1 T SA n m cs Hn s) as H.
  by rewrite Hrun in H.
Qed.

Lemma postProcLMS1_names_witness :
  let s1 := (alloc_workspace SA0 0 5 3 (initial [1; 0; 1; 0; 1] 0 [])).2 in
  let s2 := (stage1_discover T0 SA0 (Ptr 2 0) (Ptr 3 0) 5 3 1 s1).2 in
  let s3 := (sortLMS1 T0 SA0 (Ptr 2 0) (Ptr 3 0) 5 3 1 s2).2 in
  0 ≤ 2 ∧ 2 ≤ Z.max 2 0 ∧ (1 ≤ 2 → 1 ≤ 2).
Proof.
  intros s1 s2 s3.
  apply (postProcLMS1_names T0 SA0 5 2 1 s3 2 (postProcLMS1 T0 SA0 5 2 1 s3).2);
    [lia|vm_compute; reflexivity].
Defined.

(** ** The arguments of the recursive call *)

Lemma bind_ext {A B} (c : M A) (f1 f2 : A → M B) s :
  (∀ a s', c s = (Ret a, s') → f1 a s' = f2 a s') →
  (c ≫= f1) s = (c ≫= f2) s.
Proof.
  intros H. unfold mbind, M_bind. destruct (c s) as [[a|z|e] s']; auto.
Qed.

Lemma bind_cong_l {A B} (c1 c2 : M A) (f : A → M B) s :
  c1 s = c2 s → (c1 ≫= f) s = (c2 ≫= f) s.
Proof. intros H. unfold mbind, M_bind. by rewrite H. Qed.

Lemma stage2_ext rec1 rec2 T SA C B flags fs n k cs m name s :
  (name < m → ∀ RA fs',
     rec1 RA SA fs' m name sizeof_int = rec2 RA SA fs' m name sizeof_int) →
  stage2 rec1 T SA C B flags fs n k cs m name s =
  stage2 rec2 T SA C B flags fs n k cs m name s.
Proof.
  intros H. unfold stage2. destruct (Z.ltb_spec name m); [|done].
  destruct (reduced_workspace flags fs n k m name) as [[newfs flags'] ra].
  by rewrite (H ltac:(done) (SA +ₚ ra) newfs).
Qed.

(** One call of [computeSA] calls itself, if at all, on a text of length
    [m] with [0 <= m] and [2 m <= n], over an alphabet of size [name < m],
    with the same [SA] and with elements of the width of [int]: the call
    depends on nothing else of its recursive call.  [computeSA] is [level]
    applied to itself. *)
Theorem recursion_halves :
  (∀ d T SA fs n k cs,
     computeSA (S d) T SA fs n k cs = level (computeSA d) T SA fs n k cs) ∧
  (∀ rec1 rec2 T SA fs n k cs s,
     (∀ T' fs' n' k',
        0 ≤ n' → 2 * n' ≤ n → k' < n' →
        rec1 T' SA fs' n' k' sizeof_int = rec2 T' SA fs' n' k' sizeof_int) →
     level rec1 T SA fs n k cs s = level rec2 T SA fs n k cs s).
Proof.
  split; [done|].
  intros rec1 rec2 T SA fs n k cs s Hrec. unfold level, function.
  match goal with |- match ?a with _ => _ end = match ?b with _ => _ end =>
    assert (a = b) as ->; [|done] end.
  apply bind_ext. intros [] s1 _.
  apply bind_ext. intros [] s2 Has.
  assert (0 < n) as Hn.
  { unfold assert_ in Has. destruct (_ && _) eqn:E; [lia|done]. }
  apply bind_ext. intros [[C B] flags] s3 _. cbv zeta.
  apply bind_ext. intros [[m j] b] s4 Hst.
  pose proof (bounded_stage1_discover T SA C B n k cs Hn s3) as Hm.
  rewrite Hst in Hm. simpl in Hm. destruct Hm as (Hm0 & Hm & _).
  apply bind_ext. intros name s5 _.
  apply bind_cong_l, stage2_ext.
  intros Hname RA fs'. by apply Hrec.
Qed.

Lemma recursion_halves_witness :
  let rec2 := λ T' SA' fs' n' k' cs',
    if 2 * n' <=? 6 then computeSA 3 T' SA' fs' n' k' cs' else abort OutOfFuel in
  level (computeSA 3) T0 SA0 0 6 3 1 (initial [1; 0; 2; 0; 2; 0] 0 []) =
  level rec2 T0 SA0 0 6 3 1 (initial [1; 0; 2; 0; 2; 0] 0 []).
Proof.
  intros rec2. apply (proj2 recursion_halves).
  intros T' fs' n' k' H0 Hn' Hk'. unfold rec2.
  destruct (Z.leb_spec (2 * n') 6); [reflexivity|lia].
Defined.

(** ** The memory that [computeSA] leaves alone *)

Lemma allowed_padd lim bSA p d : allowed lim bSA p → allowed lim bSA (p +ₚ d).
Proof. done. Qed.

Lemma keeps_ret {A} lim bSA (a : A) (Q : A → Prop) : Q a → keeps lim bSA (mret a) Q.
Proof. intros H s Hs. split_and!; [done|done|]. by intros ? [= <-]. Qed.

Lemma keeps_exit {A} lim bSA z (Q : A → Prop) : keeps lim bSA (exit_ z) Q.
Proof. intros s Hs. by split_and!. Qed.

Lemma keeps_abort {A} lim bSA e (Q : A → Prop) : keeps lim bSA (abort e) Q.
Proof. intros s Hs. by split_and!. Qed.

Lemma keeps_bind {A B} lim bSA (c : M A) (f : A → M B) Q1 Q2 :
  keeps lim bSA c Q1 → (∀ a, Q1 a → keeps lim bSA (f a) Q2) →
  keeps lim bSA (c ≫= f) Q2.
Proof.
  intros Hc Hf s Hs. destruct (Hc s Hs) as (H1 & H2 & H3).
  unfold mbind, M_bind. destruct (c s) as [[a|z|e] s']; simpl in *; [|done..].
  destruct (Hf a (H3 a eq_refl) s' H1) as (G1 & G2 & G3).
  split_and!; [done| |done]. intros b Hb Hne. rewrite G2, H2; done.
Qed.

Lemma keeps_mono {A} lim bSA (c : M A) (Q Q' : A → Prop) :
  keeps lim bSA c Q → (∀ a, Q a → Q' a) → keeps lim bSA c Q'.
Proof.
  intros Hc HQ s Hs. destruct (Hc s Hs) as (H1 & H2 & H3). split_and!; auto.
Qed.

Lemma keeps_load lim bSA p : keeps lim bSA (load p) (λ _, True).
Proof.
  intros s Hs. unfold load. destruct (cells_at _ _); [|done].
  destruct (_ <? _); [done|]. by destruct (_ !! _) as [[?|]|].
Qed.

Lemma keeps_chr lim bSA T cs a : keeps lim bSA (chr T cs a) (λ _, True).
Proof. apply keeps_load. Qed.

Lemma keeps_store lim bSA p v :
  allowed lim bSA p → keeps lim bSA (store p v) (λ _, True).
Proof.
  intros Hp s Hs. unfold store. destruct (cells_at _ _); [|done].
  destruct (_ || _); [done|]. simpl. split_and!; [|intros b Hb Hne|done].
  - by rewrite length_insert.
  - apply list_lookup_insert_ne. destruct Hp; lia.
Qed.

Lemma keeps_malloc lim bSA num :
  keeps lim bSA (malloc num)
        (λ p, match p with Some p => allowed lim bSA p | None => True end).
Proof.
  intros s Hs. unfold malloc.
  destruct (match oracle s with [] => _ | _ => _ end); simpl.
  - split_and!.
    + rewrite length_app. lia.
    + intros b Hb Hne. apply lookup_app_l. lia.
    + intros a [= <-]. right. simpl. lia.
  - split_and!; [done|done|]. by intros a [= <-].
Qed.

Lemma keeps_free lim bSA p :
  allowed lim bSA p → keeps lim bSA (free p) (λ _, True).
Proof.
  intros Hp s Hs. unfold free. destruct (cells_at _ _); [|done].
  destruct (_ =? _); [|done]. simpl. split_and!; [|intros b Hb Hne|done].
  - by rewrite length_insert.
  - apply list_lookup_insert_ne. destruct Hp; lia.
Qed.

Lemma keeps_trace lim bSA ev : keeps lim bSA (trace ev) (λ _, True).
Proof. intros s Hs. by split_and!. Qed.

Lemma keeps_assert lim bSA line b : keeps lim bSA (assert_ line b) (λ _, True).
Proof. intros s Hs. by destruct b. Qed.

Lemma keeps_when lim bSA b c :
  keeps lim bSA c (λ _, True) → keeps lim bSA (when_ b c) (λ _, True).
Proof. intros H. destruct b; [done|by apply keeps_ret]. Qed.

Lemma keeps_function lim bSA body :
  keeps lim bSA body (λ _, True) → keeps lim bSA (function body) (λ _, True).
Proof.
  intros H s Hs. destruct (H s Hs) as (H1 & H2 & _). unfold function.
  by destruct (body s) as [[z|z|e] s'].
Qed.

Lemma keeps_for_up {A} lim bSA cnt i (body : Z → A → M A) a :
  (∀ i a, keeps lim bSA (body i a) (λ _, True)) →
  keeps lim bSA (for_up cnt i body a) (λ _, True).
Proof.
  intros Hb. revert i a. induction cnt as [|cnt IH]; intros i a; simpl.
  - by apply keeps_ret.
  - eapply keeps_bind; [apply Hb|]. intros a' _. apply IH.
Qed.

Lemma keeps_for_down {A} lim bSA cnt i (body : Z → A → M A) a :
  (∀ i a, keeps lim bSA (body i a) (λ _, True)) →
  keeps lim bSA (for_down cnt i body a) (λ _, True).
Proof.
  intros Hb. revert i a. induction cnt as [|cnt IH]; intros i a; simpl.
  - by apply keeps_ret.
  - eapply keeps_bind; [apply Hb|]. intros a' _. apply IH.
Qed.

Lemma keeps_loop {L R} lim bSA fuel (body : L → M (L + R)) l :
  (∀ l, keeps lim bSA (body l) (λ _, True)) →
  keeps lim bSA (loop fuel body l) (λ _, True).
Proof.
  intros Hb. revert l. induction fuel as [|fuel IH]; intros l; simpl.
  - apply keeps_abort.
  - eapply keeps_bind; [apply Hb|]. intros [l'|r] _; [apply IH|by apply keeps_ret].
Qed.

Ltac keeps_known := fail.

Ltac keeps_step :=
  first
    [ keeps_known
    | apply keeps_ret; exact I
    | apply keeps_exit
    | apply keeps_abort
    | apply keeps_load
    | apply keeps_chr
    | apply keeps_store; repeat apply allowed_padd; assumption
    | apply keeps_free; assumption
    | apply keeps_trace
    | apply keeps_assert
    | apply keeps_when
    | apply keeps_for_up; intros
    | apply keeps_for_down; intros
    | apply keeps_loop; intros
    | eapply (keeps_bind _ _ _ _ (λ _, True)); [|intros ? _]
    | progress cbv zeta
    | match goal with
      | |- keeps _ _ (match ?x with _ => _ end) _ => destruct x
      | |- keeps _ _ (let (_, _) := ?x in _) _ => destruct x
      end ].

Ltac keeps_tac := repeat keeps_step.

Section keeps_functions.
Context (lim bSA : nat).
Context (T SA C B D : ptr).
Context (HSA : allowed lim bSA SA) (HC : allowed lim bSA C)
        (HB : allowed lim bSA B) (HD : allowed lim bSA D).

Lemma keeps_getCounts n k cs : keeps lim bSA (getCounts T C n k cs) (λ _, True).
Proof using HC. unfold getCounts. keeps_tac. Qed.

Lemma keeps_getBuckets k e : keeps lim bSA (getBuckets C B k e) (λ _, True).
Proof using HB. unfold getBuckets. keeps_tac. Qed.

Lemma keeps_scan_run ge cs n i c0 :
  keeps lim bSA (scan_run ge T cs n i c0) (λ _, True).
Proof. unfold scan_run. keeps_tac. Qed.

Lemma keeps_switch_bucket c0 c1 b :
  keeps lim bSA (switch_bucket B c0 c1 b) (λ _, True).
Proof using HB. unfold switch_bucket. keeps_tac. Qed.

Lemma keeps_store_b b v : keeps lim bSA (store_b SA b v) (λ _, True).
Proof using HSA. unfold store_b. keeps_tac. Qed.

Lemma keeps_zero_down q j : keeps lim bSA (zero_down SA q j) (λ _, True).
Proof using HSA. unfold zero_down. keeps_tac. Qed.

End keeps_functions.

Ltac keeps_known ::=
  first [ apply keeps_getCounts; assumption
        | apply keeps_getBuckets; assumption
        | apply keeps_scan_run
        | apply keeps_switch_bucket; assumption
        | apply keeps_store_b; assumption
        | apply keeps_zero_down; assumption ].

Section keeps_stages.
Context (lim bSA : nat).
Context (T SA C B D : ptr).
Context (HSA : allowed lim bSA SA) (HC : allowed lim bSA C)
        (HB : allowed lim bSA B) (HD : allowed lim bSA D).

Lemma keeps_sortLMS1 n k cs : keeps lim bSA (sortLMS1 T SA C B n k cs) (λ _, True).
Proof using HSA HC HB. unfold sortLMS1. keeps_tac. Qed.

Lemma keeps_postProcLMS1 n m cs : keeps lim bSA (postProcLMS1 T SA n m cs) (λ _, True).
Proof using HSA. unfold postProcLMS1. keeps_tac. Qed.

Lemma keeps_LMSsort2 n k cs : keeps lim bSA (LMSsort2 T SA C B D n k cs) (λ _, True).
Proof using HSA HC HB HD. unfold LMSsort2. keeps_tac. Qed.

Lemma keeps_postProcLMS2 n m : keeps lim bSA (postProcLMS2 SA n m) (λ _, True).
Proof using HSA. unfold postProcLMS2. keeps_tac. Qed.

Lemma keeps_induceSA n k cs : keeps lim bSA (induceSA T SA C B n k cs) (λ _, True).
Proof using HSA HC HB. unfold induceSA. keeps_tac. Qed.

Lemma keeps_discoverLMS n cs : keeps lim bSA (discoverLMS T SA B n cs) (λ _, True).
Proof using HSA HB. unfold discoverLMS. keeps_tac. Qed.

Lemma keeps_stage1_discover n k cs :
  keeps lim bSA (stage1_discover T SA C B n k cs) (λ _, True).
Proof using HSA HC HB.
  unfold stage1_discover. pose proof keeps_discoverLMS. keeps_tac.
Qed.

Lemma keeps_prepare_sort2 n k cs j :
  keeps lim bSA (prepare_sort2 T SA C B D n k cs j) (λ _, True).
Proof using HSA HB HD. unfold prepare_sort2. keeps_tac. Qed.

Lemma keeps_place_LMS n k m cs : keeps lim bSA (place_LMS T SA C B n k m cs) (λ _, True).
Proof using HSA HB. unfold place_LMS. keeps_tac. Qed.

Lemma keeps_unrank_LMS RA n m cs :
  allowed lim bSA RA → keeps lim bSA (unrank_LMS T SA RA n m cs) (λ _, True).
Proof using HSA. intros HRA. unfold unrank_LMS. keeps_tac. Qed.

End keeps_stages.

Lemma keeps_alloc_workspace lim bSA SA fs n k :
  allowed lim bSA SA →
  keeps lim bSA (alloc_workspace SA fs n k)
        (λ '(C, B, _), allowed lim bSA C ∧ allowed lim bSA B).
Proof.
  intros HSA. unfold alloc_workspace.
  repeat match goal with
  | |- keeps _ _ (if ?c then _ else _) _ => destruct c
  | |- keeps _ _ (malloc _ ≫= _) _ =>
      eapply keeps_bind; [apply keeps_malloc|]; intros [?|] ?
  | |- keeps _ _ (free _ ≫= _) _ =>
      eapply (keeps_bind _ _ _ _ (λ _, True)); [by apply keeps_free|]; intros ? _
  | |- keeps _ _ (exit_ _) _ => apply keeps_exit
  | |- keeps _ _ (mret _) _ => apply keeps_ret; split; repeat apply allowed_padd; done
  end.
Qed.

Lemma keeps_alloc_D lim bSA C B flags k :
  allowed lim bSA C → allowed lim bSA B →
  keeps lim bSA (alloc_D C B flags k) (allowed lim bSA).
Proof.
  intros HC HB. unfold alloc_D. destruct (has flags 16).
  - eapply keeps_bind; [apply keeps_malloc|]. intros [D|] HD.
    + by apply keeps_ret.
    + eapply keeps_mono; [keeps_tac|done].
  - apply keeps_ret. by apply allowed_padd.
Qed.

Lemma keeps_sort_LMS lim bSA T SA C B flags n k cs m j b :
  allowed lim bSA SA → allowed lim bSA C → allowed lim bSA B →
  keeps lim bSA (sort_LMS T SA C B flags n k cs m j b) (λ _, True).
Proof.
  intros HSA HC HB. unfold sort_LMS.
  destruct (1 <? m); [|keeps_tac].
  destruct (has flags _).
  - eapply keeps_bind; [by apply keeps_alloc_D|]. intros D HD.
    eapply (keeps_bind _ _ _ _ (λ _, True)); [by apply keeps_prepare_sort2|].
    intros _ _.
    eapply (keeps_bind _ _ _ _ (λ _, True)); [by apply keeps_LMSsort2|].
    intros _ _.
    eapply (keeps_bind _ _ _ _ (λ _, True)); [by apply keeps_postProcLMS2|].
    intros name _. keeps_tac.
  - eapply (keeps_bind _ _ _ _ (λ _, True)); [by apply keeps_sortLMS1|].
    intros _ _. by apply keeps_postProcLMS1.
Qed.

Lemma keeps_stage2 lim bSA rec T SA C B flags fs n k cs m name :
  allowed lim bSA SA → allowed lim bSA C → allowed lim bSA B →
  (∀ T' fs' n' k' cs', keeps lim bSA (rec T' SA fs' n' k' cs') (λ _, True)) →
  keeps lim bSA (stage2 rec T SA C B flags fs n k cs m name)
        (λ '(C, B, _), allowed lim bSA C ∧ allowed lim bSA B).
Proof.
  intros HSA HC HB Hrec. unfold stage2.
  destruct (name <? m); [|by apply keeps_ret].
  do 2 (eapply (keeps_bind _ _ _ _ (λ _, True)); [keeps_tac|intros ? _]).
  destruct (reduced_workspace flags fs n k m name) as [[newfs flags'] ra].
  do 2 (eapply (keeps_bind _ _ _ _ (λ _, True)); [keeps_tac|intros ? _]; cbv zeta).
  eapply (keeps_bind _ _ _ _ (λ _, True)); [apply Hrec|]. intros r _.
  eapply (keeps_bind _ _ _ _ (λ _, True)); [keeps_tac|]. intros _ _.
  eapply (keeps_bind _ _ _ _ (λ _, True)).
  { apply keeps_unrank_LMS; [done|by apply allowed_padd]. }
  intros _ _.
  eapply (keeps_bind _ _ _ _ (λ '(C', B'), allowed lim bSA C' ∧ allowed lim bSA B')).
  { destruct (has flags' 4); [|by apply keeps_ret].
    eapply keeps_bind; [apply keeps_malloc|]. intros [p|] Hp;
      [by apply keeps_ret|apply keeps_exit]. }
  intros [C' B'] [HC' HB'].
  eapply (keeps_bind _ _ _ _ (allowed lim bSA)).
  { destruct (has flags' 2); [|by apply keeps_ret].
    eapply keeps_bind; [apply keeps_malloc|]. intros [p|] Hp;
      [by apply keeps_ret|]. eapply keeps_mono; [keeps_tac|done]. }
  intros B'' HB''. by apply keeps_ret.
Qed.

Lemma keeps_stage3 lim bSA T SA C B flags n k cs m :
  allowed lim bSA SA → allowed lim bSA C → allowed lim bSA B →
  keeps lim bSA (stage3 T SA C B flags n k cs m) (λ _, True).
Proof.
  intros HSA HC HB. unfold stage3.
  eapply (keeps_bind _ _ _ _ (λ _, True)); [keeps_tac|intros ? _].
  eapply (keeps_bind _ _ _ _ (λ _, True));
    [by apply keeps_when, keeps_place_LMS|intros ? _].
  eapply (keeps_bind _ _ _ _ (λ _, True)); [by apply keeps_induceSA|intros ? _].
  keeps_tac.
Qed.

Lemma keeps_computeSA lim depth T SA fs n k cs :
  keeps lim (pblock SA) (computeSA depth T SA fs n k cs) (λ _, True).
Proof.
  revert T fs n k cs. induction depth as [|depth IH]; intros T fs n k cs.
  { apply keeps_abort. }
  assert (HSA : allowed lim (pblock SA) SA) by (by left).
  cbn [computeSA]. apply keeps_function.
  do 2 (eapply (keeps_bind _ _ _ _ (λ _, True)); [keeps_tac|intros ? _]).
  eapply keeps_bind; [by apply keeps_alloc_workspace|].
  intros [[C B] flags] [HC HB]. cbv zeta.
  eapply (keeps_bind _ _ _ _ (λ _, True)); [by apply keeps_stage1_discover|].
  intros [[m j] b] _.
  eapply (keeps_bind _ _ _ _ (λ _, True)); [by apply keeps_sort_LMS|].
  intros name _.
  eapply keeps_bind; [by apply keeps_stage2|].
  intros [[C' B'] flags'] [HC' HB']. by apply keeps_stage3.
Qed.

(** A call of [computeSA] that returns has written to no memory but the
    block of [SA] and the buffers it allocated itself.  From a valid input
    (the size [n + fs] of the workspace being an [int]), whenever the call
    returns, with either status, every other block that existed when the call
    began is as it was: as live and with the same contents.  So a text that
    lies outside the block of [SA] has not been modified. *)
Theorem computeSA_frame depth T SA Tl fs n k cs s z s' :
  valid_input s T SA Tl fs n k →
  computeSA depth T SA fs n k cs s = (Ret z, s') →
  (∀ b, (b < length (mem s))%nat → b ≠ pblock SA → mem s' !! b = mem s !! b) ∧
  (pblock T ≠ pblock SA → arr s' T Tl).
Proof.
  intros Hv Hrun.
  destruct (keeps_computeSA (length (mem s)) depth T SA fs n k cs s ltac:(lia))
    as (_ & H & _). rewrite Hrun in H. simpl in H.
  split; [exact H|].
  intros Hne i v Hi. pose proof (vi_T _ _ _ _ _ _ _ Hv i v Hi) as Harr.
  pose proof (rd_Some_lt _ _ _ Harr) as Hlt. simpl in Hlt.
  unfold rd, cells_at in *. simpl in *. by rewrite H.
Qed.

Lemma computeSA_frame_witness :
  let s := initial [1; 0; 2; 0; 2; 0] 0 [] in
  let s' := (computeSA 7 T0 SA0 0 6 3 1 s).2 in
  (∀ b, (b < length (mem s))%nat → b ≠ pblock SA0 → mem s' !! b = mem s !! b) ∧
  (pblock T0 ≠ pblock SA0 → arr s' T0 [1; 0; 2; 0; 2; 0]).
Proof.
  intros s s'.
  apply (computeSA_frame 7 T0 SA0 [1; 0; 2; 0; 2; 0] 0 6 3 1 s 0 s').
  - clear s'. split; [reflexivity | lia | lia | lia | repeat constructor; lia | |
            eexists; split; [reflexivity | simpl; lia] | left; simpl; lia |
            unfold INT_MAX; lia].
    intros [|[|[|[|[|[|i]]]]]] v Hi; simplify_eq/=; reflexivity.
  - vm_compute. reflexivity.
Defined.

(** ** [getBuckets] *)

Lemma psum_0 cnt : psum cnt 0 = 0.
Proof. done. Qed.

Lemma psum_S cnt c : 0 ≤ c → psum cnt (c + 1) = psum cnt c + cnt c.
Proof.
  intros Hc. unfold psum. replace (Z.to_nat (c + 1)) with (S (Z.to_nat c)) by lia.
  simpl. by rewrite Z2Nat.id.
Qed.

Lemma getBuckets_start_ok s C B k cnt :
  holds s C k cnt → valid_buf s B k → C = B ∨ disjoint C k B k →
  sat (getBuckets C B k false) s
      (ok (λ _ s', holds s' B k (psum cnt) ∧ frame s s' B k)).
Proof.
  intros HC HB Hal. unfold getBuckets.
  eapply sat_ok_bind; [|intros sum s' H; apply sat_ok_ret; exact H].
  eapply sat_ok_mono.
  { apply (for_up_ok
             (λ j sum s', sum = psum cnt (Z.of_nat j) ∧
                          holds s' B (Z.of_nat j) (psum cnt) ∧
                          (∀ c, Z.of_nat j ≤ c < k → rd s' (C +ₚ c) = Some (cnt c)) ∧
                          frame s s' B k)).
    - split_and!; [done|intros i Hi; lia| |apply frame_refl].
      intros c Hc. apply HC. lia.
    - intros j sum s1 Hj (-> & H1 & H2 & F1). rewrite Z.add_0_l.
      eapply sat_load_bind; [apply H2; lia|]. cbv zeta.
      eapply sat_load_bind; [apply H2; lia|].
      eapply sat_store_bind.
      { eapply valid_buf_cell; [by eapply frame_valid_buf|lia]. }
      apply sat_ok_ret. split_and!.
      + rewrite Nat2Z.inj_succ, <- Z.add_1_r. by rewrite psum_S by lia.
      + intros i Hi. destruct (Z.eqb_spec i (Z.of_nat j)) as [->|Hne].
        * rewrite rd_wr_eq
            by (eapply valid_buf_cell; [by eapply frame_valid_buf|lia]).
          f_equal. lia.
        * rewrite rd_wr_ne by (intros E%padd_inj; lia). apply H1. lia.
      + intros c Hc. rewrite rd_wr_ne; [apply H2; lia|].
        destruct Hal as [->|Hd]; [intros E%padd_inj; lia|].
        eapply disjoint_ne; [done|lia..].
      + eapply frame_trans; [done|]. apply frame_wr. lia. }
  intros sum s1 (_ & H1 & _ & F1). split; [|done].
  intros i Hi. apply H1. lia.
Qed.

(** [getBuckets] turns the counts in [C] into bucket bounds in [B]: with
    [end] set, [B[c]] becomes [C[0] + ... + C[c]], the end of the bucket of
    [c]; otherwise [C[0] + ... + C[c-1]], its start.  It returns normally,
    changes nothing but [B[0..k)], and works in place, when [B] is [C]. *)
Theorem getBuckets_sums s C B k (e : bool) cnt :
  holds s C k cnt → valid_buf s B k → C = B ∨ disjoint C k B k →
  ∃ s', getBuckets C B k e s = (Ret tt, s') ∧
        holds s' B k (λ c, psum cnt (if e then c + 1 else c)) ∧
        frame s s' B k.
Proof.
  intros HC HB Hal. destruct e.
  - destruct (sat_ok_run _ _ _
      (getBuckets_end_ok s C B k cnt (λ c, psum cnt (c + 1)) HC HB Hal
         ltac:(done)
         ltac:(intros c Hc; cbv beta; replace (c - 1 + 1) with c by lia; apply psum_S; lia)))
      as ([] & s' & Hrun & H1 & H2).
    by exists s'.
  - destruct (sat_ok_run _ _ _ (getBuckets_start_ok s C B k cnt HC HB Hal))
      as ([] & s' & Hrun & H1 & H2).
    by exists s'.
Qed.

Lemma getBuckets_sums_witness :
  let s := State [Some [Some 2; Some 0; Some 3]] [] [] in
  ∃ s', getBuckets (Ptr 0 0) (Ptr 0 0) 3 true s = (Ret tt, s') ∧
        holds s' (Ptr 0 0) 3 (λ c, psum (λ i, at_ [2; 0; 3] i) (c + 1)) ∧
        frame s s' (Ptr 0 0) 3.
Proof.
  intros s.
  apply (getBuckets_sums s (Ptr 0 0) (Ptr 0 0) 3 true (λ i, at_ [2; 0; 3] i)).
  - intros i Hi. assert (i = 0 ∨ i = 1 ∨ i = 2) as [->|[->| ->]] by lia; reflexivity.
  - eexists. split; [reflexivity|]. simpl. lia.
  - by left.
Defined.

(** ** The workspace of the recursive call *)

(** Lines 489-496 when the size [n + fs] of the workspace is an [int]:
    the slack is [n + fs - 2m], less [k] when [C] stays in the tail of [SA]
    and the test of line 491 succeeds; flag 8 is set when it fails. *)
Lemma reduced_workspace_cases flags fs n k m name newfs flags' ra :
  0 ≤ fs → 0 < n → n + fs ≤ INT_MAX → 0 ≤ m → 2 * m ≤ n →
  (has flags (Z.lor 1 (Z.lor 4 8)) = false → 0 ≤ k ≤ fs) →
  reduced_workspace flags fs n k m name = (newfs, flags', ra) →
  ra = m + newfs ∧
  (has flags (Z.lor 1 (Z.lor 4 8)) = true ∧
     newfs = n + fs - m * 2 ∧ flags' = flags ∨
   has flags (Z.lor 1 (Z.lor 4 8)) = false ∧
     newfs = n + fs - m * 2 - k ∧ flags' = flags ∨
   has flags (Z.lor 1 (Z.lor 4 8)) = false ∧
     newfs = n + fs - m * 2 ∧ flags' = Z.lor flags 8).
Proof.
  intros Hfs Hn Hint Hm0 Hm Hk Hrw.
  unfold reduced_workspace in Hrw. rewrite has_land_eqb in Hrw.
  rewrite (wrap_id (n + fs)), (wrap_id (m * 2)), (wrap_id (n + fs - m * 2))
    in Hrw by (unfold INT_MIN, INT_MAX in *; lia).
  destruct (has flags _); simpl in Hrw; [simplify_eq; by auto|].
  specialize (Hk eq_refl).
  destruct (_ <=? _); simplify_eq; [|by auto 10].
  split; [done|]. right; left. split_and!; try done.
  apply wrap_id. unfold INT_MIN, INT_MAX in *. lia.
Qed.

(** The recursive call gets a slack that is not negative.  Take a call with
    [0 <= fs], [0 < n], [1 <= k] and [n + fs] an [int], whose scan found [m]
    LMS positions ([0 <= m], [2m <= n]).  Whatever the number of names, the
    callee's array [SA[0..m)] with its slack, and behind them the reduced
    string [RA[0..m)], fit into the [n + fs] cells of [SA]; the sum
    [newfs + m] of line 497 does not overflow and the assertion holds; and
    when the call keeps the counts [C] in the tail of [SA] for stage 3 (the
    flags 1, 4 and 8 clear), all of them end below [C]. *)
Theorem reduced_workspace_layout SA fs n k s C B flags0 s1 m name newfs flags' ra :
  0 ≤ fs → 0 < n → 1 ≤ k → n + fs ≤ INT_MAX → 0 ≤ m → 2 * m ≤ n →
  alloc_workspace SA fs n k s = (Ret (C, B, flags0), s1) →
  reduced_workspace (sort2_flags flags0 fs n k) fs n k m name = (newfs, flags', ra) →
  0 ≤ newfs ∧ ra = m + newfs ∧ ra + m ≤ n + fs ∧
  wrap (newfs + m) = newfs + m ∧ Z.shiftr n 1 ≤ newfs + m ∧
  (has flags' (Z.lor 1 (Z.lor 4 8)) = false →
   C = SA +ₚ (n + fs - k) ∧ ra + m ≤ n + fs - k).
Proof.
  intros Hfs Hn Hk Hint Hm0 Hm Hws Hrw.
  assert (Hslack : has (sort2_flags flags0 fs n k) (Z.lor 1 (Z.lor 4 8)) = false →
                   k ≤ fs ∧ C = SA +ₚ (n + fs - k)).
  { rewrite has_sort2_flags.
    apply (alloc_workspace_ret _ _ _ _ _ _ _ _ _ Hfs Hn Hk Hint) in Hws as
      [(? & ? & -> & EC & ->)|[(? & ? & -> & sC & EC & EB)|
      [(? & ? & -> & -> & -> & ->)|[(? & ? & ? & ? & -> & -> & EB)|
      [(? & ? & ? & ? & -> & -> & -> & ->)|(? & ? & -> & -> & EC)]]]]];
      vm_compute (has _ _); intros ?; try done; split; [lia|done]. }
  apply reduced_workspace_cases in Hrw as [-> Hcases];
    [|done..|intros H; destruct (Hslack H); lia].
  pose proof (Z.mul_div_le n 2 ltac:(lia)) as Hhalf.
  assert (Hsh : Z.shiftr n 1 = n `div` 2).
  { rewrite Z.shiftr_div_pow2 by lia. done. }
  rewrite Hsh.
  destruct Hcases as [(E & -> & ->)|[(E & -> & ->)|(E & -> & ->)]].
  - split_and!; try lia.
    + apply wrap_id. unfold INT_MIN, INT_MAX in *. lia.
    + intros Hf. congruence.
  - destruct (Hslack E) as [Hkfs ->]. split_and!; try lia.
    + apply wrap_id. unfold INT_MIN, INT_MAX in *. lia.
    + intros _. split; [done|lia].
  - destruct (Hslack E) as [Hkfs ->]. split_and!; try lia.
    + apply wrap_id. unfold INT_MIN, INT_MAX in *. lia.
    + intros Hf. rewrite !has_lor_r, !has_lor_l in Hf.
      change (has 8 8) with true in Hf. by rewrite !orb_true_r in Hf.
Qed.

Lemma reduced_workspace_layout_witness :
  let s := initial [2; 1; 2; 1; 2; 1; 2] 600 [] in
  0 ≤ 344 ∧ 347 = 3 + 344 ∧ 347 + 3 ≤ 7 + 600 ∧
  wrap (344 + 3) = 344 + 3 ∧ Z.shiftr 7 1 ≤ 344 + 3 ∧
  (has 0 (Z.lor 1 (Z.lor 4 8)) = false →
   SA0 +ₚ 350 = SA0 +ₚ (7 + 600 - 257) ∧ 347 + 3 ≤ 7 + 600 - 257).
Proof.
  intros s.
  apply (reduced_workspace_layout SA0 600 7 257 s (SA0 +ₚ 350)
           (SA0 +ₚ 350 +ₚ (- 257)) 0 s 3 2 344 0 347);
    first [lia | unfold INT_MAX; lia | vm_compute; reflexivity].
Defined.

(** ** The bucket arrays *)

(** From a valid input (the size [n + fs] of the workspace being an [int]),
    the bucket arrays that [alloc_workspace] hands out
    are buffers of [k] cells each that overlap neither [SA[0..n)] nor the
    text, and [B] is [C] itself or does not overlap [C]. *)
Theorem workspace_buffers s T SA Tl fs n k C B flags0 s1 :
  valid_input s T SA Tl fs n k →
  alloc_workspace SA fs n k s = (Ret (C, B, flags0), s1) →
  valid_buf s1 C k ∧ valid_buf s1 B k ∧
  disjoint SA n C k ∧ disjoint SA n B k ∧
  disjoint T n C k ∧ disjoint T n B k ∧
  (C = B ∨ disjoint C k B k).
Proof.
  intros Hv Hws.
  destruct (alloc_workspace_pre _ _ _ _ _ _ _ _ _ _ _ Hv Hws)
    as [_ _ _ _ _ VC VB _ DTC DTB DSB DCB].
  split_and!; try done.
  destruct Hv as [_ Hn Hk Hfs _ _ VSA _ Hint].
  pose proof (valid_buf_lt _ _ _ VSA) as HSAlt.
  apply (alloc_workspace_ret _ _ _ _ _ _ _ _ _ Hfs Hn Hk Hint) in Hws as
    [(? & ? & -> & EC & ->)|[(? & ? & -> & sC & EC & EB)|
    [(? & ? & -> & -> & -> & ->)|[(? & ? & ? & ? & -> & -> & EB)|
    [(? & ? & ? & ? & -> & -> & -> & ->)|(? & ? & -> & -> & EC)]]]]];
    try (destruct (malloc_ok _ _ _ _ EC) as [-> _]);
    unfold disjoint; simpl; lia.
Qed.

Lemma workspace_buffers_witness :
  let s := initial [1; 0; 2; 0; 2; 0] 12 [] in
  let s1 := (alloc_workspace SA0 12 6 3 s).2 in
  let C := Ptr 2 0 in
  let B := SA0 +ₚ 15 in
  valid_buf s1 C 3 ∧ valid_buf s1 B 3 ∧
  disjoint SA0 6 C 3 ∧ disjoint SA0 6 B 3 ∧
  disjoint T0 6 C 3 ∧ disjoint T0 6 B 3 ∧
  (C = B ∨ disjoint C 3 B 3).
Proof.
  intros s s1 C B.
  apply (workspace_buffers s T0 SA0 [1; 0; 2; 0; 2; 0] 12 6 3 C B 1 s1).
  - split; [reflexivity | lia | lia | lia | repeat constructor; lia | |
            eexists; split; [reflexivity | simpl; lia] | left; simpl; lia |
            unfold INT_MAX; lia].
    intros [|[|[|[|[|[|i]]]]]] v Hi; simplify_eq/=; reflexivity.
  - reflexivity.
Defined.

(** ** From the ranks of the reduced problem back to positions *)

Lemma at_reverse (l : list Z) t :
  0 ≤ t < Z.of_nat (length l) →
  at_ (reverse l) t = at_ l (Z.of_nat (length l) - 1 - t).
Proof.
  intros Ht. unfold at_.
  destruct (Z.ltb_spec t 0); [lia|].
  destruct (Z.ltb_spec (Z.of_nat (length l) - 1 - t) 0); [lia|].
  rewrite reverse_lookup by lia. do 2 f_equal. lia.
Qed.

Lemma at_app_l (l1 l2 : list Z) t :
  0 ≤ t < Z.of_nat (length l1) → at_ (l1 ++ l2) t = at_ l1 t.
Proof.
  intros Ht. unfold at_. destruct (t <? 0); [done|].
  by rewrite lookup_app_l by lia.
Qed.

Lemma at_app_r (l1 l2 : list Z) t :
  Z.of_nat (length l1) ≤ t → at_ (l1 ++ l2) t = at_ l2 (t - Z.of_nat (length l1)).
Proof.
  intros Ht. unfold at_.
  destruct (Z.ltb_spec t 0); [lia|].
  destruct (Z.ltb_spec (t - Z.of_nat (length l1)) 0); [lia|].
  rewrite lookup_app_r by lia. do 2 f_equal. lia.
Qed.

(** The first loop of [unrank_LMS]: the LMS positions, found from right to
    left, are written into [RA] from its last cell down. *)
Lemma collect_LMS_ok {A} s T RA Tl n m cs (k : unit → M A) (Q : A → state → Prop) :
  holds s T n (at_ Tl) → n = Z.of_nat (length Tl) → 0 < n →
  m = count_lms false Tl →
  valid_buf s RA m → disjoint T n RA m →
  (∀ s', holds s' RA m (at_ (reverse (lms_positions false Tl))) →
         frame s s' RA m → sat (k tt) s' (ok Q)) →
  sat (c0 ← chr T cs (n - 1);
       '(i, c0, c1) ← scan_run true T cs n (n - 1) c0;
       loop (S (Z.to_nat n))
         (λ '(i, c0, j),
            if 0 <=? i then
              '(i, c0, c1) ← scan_run false T cs n i c0;
              if 0 <=? i then
                store (RA +ₚ j) (i + 1);;
                let j := j - 1 in
                '(i, c0, c1) ← scan_run true T cs n i c0;
                mret (inl (i, c0, j))
              else mret (inl (i, c0, j))
            else mret (inr tt))
         (i, c0, m - 1) ≫= k) s
      (ok Q).
Proof.
  intros HT -> Hn -> VRA Hd Hk.
  set (n := Z.of_nat (length Tl)) in *. set (m := count_lms false Tl) in *.
  set (lms := lms_positions false Tl) in *.
  assert (Hm : m = Z.of_nat (length lms)) by done.
  eapply sat_chr_bind; [apply HT; lia|].
  eapply sat_scan_run_bind; [exact HT|lia|done|].
  intros c0 c1 i0 Hc0.
  destruct (run_end_spec true Tl (Z.to_nat (n - 1))) as (Hi0 & _ & _).
  fold i0 in Hi0.
  assert (HLlast : is_S false Tl (Z.of_nat (Z.to_nat (n - 1))) = false).
  { replace (Z.of_nat (Z.to_nat (n - 1))) with (Z.of_nat (length Tl) - 1) by lia.
    apply is_S_last. intros ->. simpl in *. lia. }
  set (I := λ (l : Z * Z * Z) (s' : state),
         let '(i, c0, j) := l in
         ∃ found,
           -1 ≤ i ∧ i + 1 < n ∧
           (0 ≤ i → c0 = at_ Tl i ∧ is_S false Tl i = true) ∧
           lms = found ++ lms_upto false Tl (Z.to_nat i) ∧
           j = m - 1 - Z.of_nat (length found) ∧
           (∀ u, 0 ≤ u < Z.of_nat (length found) →
                 rd s' (RA +ₚ (m - 1 - u)) = Some (at_ found u)) ∧
           frame s s' RA m).
  eapply (sat_ok_bind _ _ _ (λ _ s', holds s' RA m (at_ (reverse lms)) ∧
                                     frame s s' RA m));
    [|intros [] s' [H1 H2]; by apply Hk].
  eapply (loop_ok I (λ '(i, _, _), Z.to_nat (i + 1))).
  - exists []. split_and!; try done; try lia.
    + intros H0. split; [by apply Hc0|].
      replace i0 with (run_end true Tl (Z.to_nat (n - 1))) by done.
      apply L_run_end; [lia|done|done].
    + unfold lms, lms_positions. simpl.
      replace (length Tl - 1)%nat with (Z.to_nat (n - 1)) by lia.
      apply lms_upto_L_run; [lia|done].
    + simpl. lia.
    + simpl. intros u Hu. lia.
  - lia.
  - intros [[i c0'] j] s1 (found & Hi1 & Hi2 & Hci & Hlms & Hj & HRA & F1).
    assert (HT1 : holds s1 T n (at_ Tl)) by (by eapply frame_holds).
    destruct (Z.leb_spec 0 i) as [Hi0'|Hi0'].
    2:{ apply sat_ok_ret. assert (i = -1) as -> by lia. simpl in Hlms.
        rewrite app_nil_r in Hlms. subst found. split; [|done].
        intros t Ht. rewrite at_reverse by lia.
        replace t with (m - 1 - (m - 1 - t)) at 1 by lia.
        rewrite HRA by lia. done. }
    destruct (Hci Hi0') as [-> HSi].
    eapply sat_scan_run_bind; [exact HT1|lia|done|].
    intros c0'' c1'' i1 Hc1.
    destruct (run_end_spec false Tl (Z.to_nat i)) as (Hi1' & _ & _).
    fold i1 in Hi1'.
    pose proof (lms_upto_S_run Tl (Z.to_nat i) ltac:(lia)
                  ltac:(by rewrite Z2Nat.id by lia)) as Hnext.
    cbv zeta in Hnext. fold i1 in Hnext.
    destruct (Z.leb_spec 0 i1) as [H01|H01].
    2:{ apply sat_ok_ret. split; [|lia].
        exists found. split_and!; try done; try lia.
        rewrite Hlms, Hnext. assert (i1 = -1) as -> by lia. done. }
    destruct (Hc1 H01) as [-> ->].
    set (p := i1 + 1).
    assert (Hlen : Z.of_nat (length found) < m).
    { rewrite Hm, Hlms, Hnext, length_app. simpl. lia. }
    eapply sat_store_bind.
    { eapply valid_buf_cell; [by eapply frame_valid_buf|lia]. }
    cbv zeta.
    set (s2 := wr s1 (RA +ₚ j) (i1 + 1)).
    assert (F2 : frame s s2 RA m).
    { eapply frame_trans; [done|]. apply frame_wr. lia. }
    assert (HT2 : holds s2 T n (at_ Tl)) by (by eapply frame_holds).
    eapply sat_scan_run_bind; [exact HT2|lia|done|].
    intros c0''' c1''' i2 Hc2.
    destruct (run_end_spec true Tl (Z.to_nat i1)) as (Hi2' & _ & _).
    fold i2 in Hi2'.
    assert (HLi1 : is_S false Tl (Z.of_nat (Z.to_nat i1)) = false).
    { rewrite Z2Nat.id by lia.
      replace i1 with (run_end false Tl (Z.to_nat i)) by done.
      apply S_run_end; [lia|by rewrite Z2Nat.id by lia|done]. }
    apply sat_ok_ret. split; [|lia].
    exists (found ++ [p]). split_and!; try lia.
    + intros H02. split; [by apply Hc2|].
      replace i2 with (run_end true Tl (Z.to_nat i1)) by done.
      apply L_run_end; [lia|done|done].
    + rewrite Hlms, Hnext, <- app_assoc. simpl. do 2 f_equal.
      apply lms_upto_L_run; [lia|done].
    + rewrite length_app. simpl. lia.
    + intros u Hu. rewrite length_app in Hu. simpl in Hu.
      destruct (Z.eqb_spec u (Z.of_nat (length found))) as [->|Hne].
      * replace (m - 1 - Z.of_nat (length found)) with j by lia.
        unfold s2. rewrite rd_wr_eq
          by (eapply valid_buf_cell; [by eapply frame_valid_buf|lia]).
        rewrite at_app_r, Z.sub_diag by lia. done.
      * unfold s2. rewrite rd_wr_ne by (intros E%padd_inj; lia).
        rewrite at_app_l by lia. apply HRA. lia.
    + done.
Qed.

(** [unrank_LMS] (lines 511 to 533).  With the text at [T], the ranks
    [r 0 .. r (m-1)], each below [m], in [SA[0..m)], and a buffer [RA] of
    [m] cells that overlaps neither, where [m] is the number of LMS
    positions: the call returns normally, [RA] holds the LMS positions in
    ascending order, and every rank in [SA[0..m)] has been replaced by the
    position of that rank. *)
Theorem unrank_LMS_positions s T SA RA Tl n m cs (r : Z → Z) :
  holds s T n (at_ Tl) → n = Z.of_nat (length Tl) → 0 < n →
  m = count_lms false Tl →
  valid_buf s RA m → valid_buf s SA m →
  disjoint T n RA m → disjoint SA m RA m →
  holds s SA m r → (∀ i, 0 ≤ i < m → 0 ≤ r i < m) →
  ∃ s', unrank_LMS T SA RA n m cs s = (Ret tt, s') ∧
        holds s' RA m (at_ (reverse (lms_positions false Tl))) ∧
        holds s' SA m (λ i, at_ (reverse (lms_positions false Tl)) (r i)).
Proof.
  intros HT Hn Hpos Hm VRA VSA DT DS HSA Hr.
  set (asc := reverse (lms_positions false Tl)).
  cut (sat (unrank_LMS T SA RA n m cs) s
           (ok (λ _ s', holds s' RA m (at_ asc) ∧
                        holds s' SA m (λ i, at_ asc (r i))))).
  { intros ([] & s' & Hrun & H)%sat_ok_run. by exists s'. }
  unfold unrank_LMS.
  apply (collect_LMS_ok s T RA Tl n m cs); try done.
  intros s1 HRA1 F1.
  assert (HSA1 : holds s1 SA m r) by (by eapply frame_holds).
  eapply sat_ok_mono.
  { apply (for_up_ok
             (λ j (_ : unit) s', holds s' RA m (at_ asc) ∧
                      (∀ i, 0 ≤ i < Z.of_nat j → rd s' (SA +ₚ i) = Some (at_ asc (r i))) ∧
                      (∀ i, Z.of_nat j ≤ i < m → rd s' (SA +ₚ i) = Some (r i)) ∧
                      frame s1 s' SA m)).
    - split_and!; [done|intros; lia|intros i Hi; apply HSA1; lia|apply frame_refl].
    - intros j [] s2 Hj (HRA2 & Hlo & Hhi & F2). rewrite Z.add_0_l.
      eapply sat_load_bind; [apply Hhi; lia|].
      eapply sat_load_bind; [apply (HRA2 (r (Z.of_nat j))), Hr; lia|].
      apply sat_ok_store.
      { eapply (valid_buf_cell _ _ m); [|lia].
        eapply frame_valid_buf; [exact F2|]. by eapply frame_valid_buf. }
      split_and!.
      + apply holds_wr_other; [done|]. intros x Hx.
        apply not_eq_sym. eapply disjoint_ne; [exact DS|lia|lia].
      + intros i Hi. destruct (Z.eqb_spec i (Z.of_nat j)) as [->|Hne].
        * apply rd_wr_eq. eapply (valid_buf_cell _ _ m); [|lia].
          eapply frame_valid_buf; [exact F2|]. by eapply frame_valid_buf.
        * rewrite rd_wr_ne by (intros E%padd_inj; lia). apply Hlo. lia.
      + intros i Hi. rewrite rd_wr_ne by (intros E%padd_inj; lia). apply Hhi. lia.
      + eapply frame_trans; [done|]. apply frame_wr. lia. }
  intros [] s2 (HRA2 & Hlo & _ & _). split; [done|].
  intros i Hi. apply Hlo. lia.
Qed.

Lemma unrank_LMS_positions_witness :
  let Tl := [1; 0; 1; 0; 1] in
  let s := State [Some [Some 1; Some 0; None; None]; Some (Some <$> Tl)] [] [] in
  ∃ s', unrank_LMS T0 SA0 (Ptr 0 2) 5 2 1 s = (Ret tt, s') ∧
        holds s' (Ptr 0 2) 2 (at_ (reverse (lms_positions false Tl))) ∧
        holds s' SA0 2 (λ i, at_ (reverse (lms_positions false Tl)) (at_ [1; 0] i)).
Proof.
  intros Tl s.
  apply (unrank_LMS_positions s T0 SA0 (Ptr 0 2) Tl 5 2 1 (at_ [1; 0])).
  - intros i Hi.
    assert (i = 0 ∨ i = 1 ∨ i = 2 ∨ i = 3 ∨ i = 4) as [->|[->|[->|[->| ->]]]] by lia;
      reflexivity.
  - reflexivity.
  - lia.
  - reflexivity.
  - eexists. split; [reflexivity|]. simpl. lia.
  - eexists. split; [reflexivity|]. simpl. lia.
  - left. simpl. lia.
  - right. left. simpl. lia.
  - intros i Hi. assert (i = 0 ∨ i = 1) as [->| ->] by lia; reflexivity.
  - intros i Hi. assert (i = 0 ∨ i = 1) as [->| ->] by lia;
      vm_compute; (split; [discriminate|reflexivity]).
Defined.

(** ** Building the reduced string in place *)

(** [stage2] builds the reduced string with [build_RA]. *)
Lemma stage2_build_RA rec T SA C B flags fs n k cs m name :
  stage2 rec T SA C B flags fs n k cs m name =
  if name <? m then
    when_ (has flags 4) (free C);;
    when_ (has flags 2) (free B);;
    let '(newfs, flags, ra) := reduced_workspace flags fs n k m name in
    assert_ 497 (Z.shiftr n 1 <=? wrap (newfs + m));;
    let RA := SA +ₚ ra in
    build_RA SA RA (Z.shiftr n 1) m;;
    r ← rec RA SA newfs m name sizeof_int;
    (if negb (r =? 0) then
       when_ (has flags 1) (free C);;
       exit_ (-2)
     else mret tt);;
    unrank_LMS T SA RA n m cs;;
    '(C, B) ←
      (if has flags 4 then
         p ← malloc k;
         match p with
         | None => exit_ (-2)
         | Some p => mret (p, p)
         end
       else mret (C, B));
    B ←
      (if has flags 2 then
         p ← malloc k;
         match p with
         | None => when_ (has flags 1) (free C);; exit_ (-2)
         | Some p => mret p
         end
       else mret B);
    mret (C, B, flags)
  else mret (C, B, flags).
Proof. reflexivity. Qed.

Lemma length_filter_nz (l : list Z) :
  Z.of_nat (length (filter (λ x, x ≠ 0) l)) = count_if nz l.
Proof.
  induction l as [|x l IH]; [done|].
  rewrite filter_cons. cbn [count_if]. unfold nz at 1.
  destruct (Z.eqb_spec x 0) as [->|Hx]; cbn [negb].
  - rewrite decide_False by (intros H; done). lia.
  - rewrite decide_True by done. cbn [length]. lia.
Qed.

Lemma count_nz_take_S (l : list Z) (i : nat) :
  (i < length l)%nat →
  count_if nz (take (S i) l) =
  count_if nz (take i l) + (if nz (at_ l (Z.of_nat i)) then 1 else 0).
Proof. apply count_if_take_S. Qed.

Lemma names_of_at (vs : list Z) (i : nat) :
  (i < length vs)%nat → at_ vs (Z.of_nat i) ≠ 0 →
  at_ (names_of vs) (count_if nz (take i vs)) = at_ vs (Z.of_nat i) - 1.
Proof.
  intros Hi Hx.
  destruct (lookup_lt_is_Some_2 vs i Hi) as [x Hl].
  rewrite (at_lookup _ _ _ Hl) in *.
  rewrite <- (take_drop_middle vs i x Hl) at 1.
  unfold names_of. rewrite filter_app, filter_cons_True by done.
  rewrite fmap_app, fmap_cons.
  rewrite <- length_filter_nz.
  rewrite at_app_r by (rewrite length_fmap; lia).
  rewrite length_fmap, Z.sub_diag. done.
Qed.

(** The loop that builds the reduced string.  The names region
    [SA[m..m+h)] holds [vs], of which exactly [m] entries are not zero, and
    [RA = SA + ra] with [h <= ra], which is what the assertion of line 497
    says: [RA] may then overlap the names region, and still the loop returns
    normally with [RA[0..m)] holding the non-zero entries in order, each
    less one; no cell outside [RA[0..m)] changes. *)
Theorem build_RA_names s SA (ra h m : Z) (vs : list Z) :
  0 ≤ m → h = Z.of_nat (length vs) → h ≤ ra →
  valid_buf s SA (ra + m) →
  holds s (SA +ₚ m) h (at_ vs) →
  count_if nz vs = m →
  ∃ s', build_RA SA (SA +ₚ ra) h m s = (Ret (-1), s') ∧
        holds s' (SA +ₚ ra) m (at_ (names_of vs)) ∧
        frame s s' (SA +ₚ ra) m.
Proof.
  intros Hm Hh Hra VSA Hvs Hcnt.
  cut (sat (build_RA SA (SA +ₚ ra) h m) s
           (ok (λ j s', j = -1 ∧ holds s' (SA +ₚ ra) m (at_ (names_of vs)) ∧
                        frame s s' (SA +ₚ ra) m))).
  { intros (j & s' & Hrun & -> & H)%sat_ok_run. by exists s'. }
  unfold build_RA. eapply sat_ok_mono.
  { apply (for_down_ok
      (λ (t : nat) (j : Z) s',
         let r := (length vs - t)%nat in
         j = count_if nz (take r vs) - 1 ∧
         (∀ u, j < u < m → rd s' (SA +ₚ ra +ₚ u) = Some (at_ (names_of vs) u)) ∧
         (∀ i, 0 ≤ i < Z.of_nat r → rd s' (SA +ₚ m +ₚ i) = Some (at_ vs i)) ∧
         frame s s' (SA +ₚ ra) m)).
    - cbv zeta. rewrite Nat.sub_0_r, firstn_all. split_and!.
      + lia.
      + intros u Hu. lia.
      + intros i Hi. apply Hvs. lia.
      + apply frame_refl.
    - intros t j s1 Ht (Hj & HRA & Hsrc & F1). cbv zeta in *.
      set (r := (length vs - t)%nat) in *.
      assert (Hr : (0 < r ≤ length vs)%nat) by (unfold r; lia).
      destruct r as [|r'] eqn:Er; [lia|].
      assert (Hr' : (r' < length vs)%nat) by lia.
      replace (m + h - 1 - Z.of_nat t) with (m + Z.of_nat r') by lia.
      set (x := at_ vs (Z.of_nat r')).
      eapply sat_load_bind.
      { rewrite <- padd_padd. apply Hsrc. lia. }
      fold x.
      pose proof (count_nz_take_S vs r' Hr') as Hstep. fold x in Hstep.
      pose proof (count_take_le nz vs (S r')) as Hle1.
      pose proof (count_if_nonneg nz (take r' vs)) as Hge0.
      pose proof (count_if_le_length nz (take r' vs)) as Hlen.
      rewrite length_take in Hlen.
      assert (Hzeros : Z.of_nat r' - count_if nz (take r' vs) ≤ h - m).
      { rewrite <- Hcnt, Hh.
        rewrite <- (take_drop r' vs) at 2 3.
        rewrite count_if_app, length_app, length_take.
        pose proof (count_if_le_length nz (drop r' vs)). lia. }
      replace (length vs - S t)%nat with r' by lia.
      change (negb (x =? 0)) with (nz x).
      destruct (nz x) eqn:Hnz.
      2:{ apply sat_ok_ret.
        split_and!; [lia| |intros i Hi; apply Hsrc; lia|done].
        intros u Hu. apply HRA. lia. }
      assert (Hx0 : x ≠ 0).
      { unfold nz in Hnz. by destruct (Z.eqb_spec x 0). }
      { assert (Hj0 : 0 ≤ j < m) by lia.
        assert (VRA : valid_buf s1 (SA +ₚ ra +ₚ j) 1).
        { rewrite padd_padd. eapply valid_buf_sub.
          - eapply frame_valid_buf; [exact F1|exact VSA].
          - lia.
          - lia. }
        eapply sat_store_bind; [exact VRA|].
        apply sat_ok_ret. split_and!.
        * lia.
        * intros u Hu. destruct (Z.eqb_spec u j) as [->|Hne].
          -- rewrite rd_wr_eq by done. f_equal.
             replace j with (count_if nz (take r' vs)) by lia.
             symmetry. by apply names_of_at.
          -- rewrite rd_wr_ne by (intros E%padd_inj; lia). apply HRA. lia.
        * intros i Hi. rewrite rd_wr_ne; [apply Hsrc; lia|].
          rewrite !padd_padd. intros E%padd_inj. lia.
        * eapply frame_trans; [done|]. apply frame_wr. lia. } }
  cbv zeta. rewrite Hh, Nat2Z.id, Nat.sub_diag. simpl.
  intros j s' (-> & HRA & _ & F). split_and!; [done| |done].
  intros u Hu. apply HRA. lia.
Qed.

Lemma build_RA_names_witness :
  let s := State [Some [Some 9; Some 9; Some 2; Some 0; Some 1]] [] [] in
  ∃ s', build_RA SA0 (SA0 +ₚ 3) 3 2 s = (Ret (-1), s') ∧
        holds s' (SA0 +ₚ 3) 2 (at_ (names_of [2; 0; 1])) ∧
        frame s s' (SA0 +ₚ 3) 2.
Proof.
  intros s.
  apply (build_RA_names s SA0 3 3 2 [2; 0; 1]).
  - lia.
  - reflexivity.
  - lia.
  - eexists. split; [reflexivity|]. simpl. lia.
  - intros i Hi. assert (i = 0 ∨ i = 1 ∨ i = 2) as [->|[->| ->]] by lia; reflexivity.
  - reflexivity.
Defined.

(** ** Texts with at most one LMS position *)

Lemma view_holds s p l n : view s p n = Some l → holds s p (Z.of_nat n) (at_ l).
Proof.
  unfold view. intros H i Hi. apply mapM_Some in H.
  pose proof (Forall2_length _ _ _ H) as Hlen. rewrite length_seq in Hlen.
  destruct (lookup_lt_is_Some_2 l (Z.to_nat i)) as [v Hv]; [lia|].
  eapply Forall2_lookup_lr in H; [| apply (lookup_seq 0 n (Z.to_nat i)); split; [reflexivity|lia] |done].
  simpl in H. rewrite Z2Nat.id in H by lia. rewrite H. f_equal.
  rewrite <- (Z2Nat.id i) by lia. symmetry. by apply at_lookup.
Qed.

Lemma rd_valid s p v : rd s p = Some v → valid_buf s p 1.
Proof.
  unfold rd, valid_buf. destruct (cells_at _ _) as [cs|]; [|done].
  destruct (Z.ltb_spec (poff p) 0); [done|]. intros Hr.
  exists cs. split; [done|]. split; [done|].
  destruct (cs !! Z.to_nat (poff p)) eqn:E; [|done].
  apply lookup_lt_Some in E. lia.
Qed.

(** From a valid input (the size [n + fs] of the workspace being an
    [int]): with no LMS position the sorting step of stage 1 does nothing
    and gives the name count 0; with exactly one, at [p], it stores [p]
    itself at the
    pending slot of the scan, the last cell of the bucket of [T[p]] that no
    other LMS suffix claims, and gives 1.  In both cases neither sorting
    function runs, and every other cell of [SA[0..n)] is 0. *)
Theorem sort_LMS_few s T SA Tl fs n k cs C B flags0 s1 flags :
  valid_input s T SA Tl fs n k →
  alloc_workspace SA fs n k s = (Ret (C, B, flags0), s1) →
  count_lms false Tl ≤ 1 →
  ∃ m j b s2 s3,
    stage1_discover T SA C B n k cs s1 = (Ret (m, j, b), s2) ∧
    sort_LMS T SA C B flags n k cs m j b s2 = (Ret m, s3) ∧
    m = count_lms false Tl ∧
    frame s2 s3 SA n ∧
    holds s3 SA n
      (λ i, match lms_positions false Tl with
            | [p] => if i =? slot Tl p then p else 0
            | _ => 0
            end).
Proof.
  intros Hv Hws Hm.
  destruct (stage1_scan _ _ _ _ _ _ _ cs _ _ _ _ Hv Hws)
    as (m & j & b & s2 & SAl & Bl & Hrun & Hmeq & Hpl & HSA & _).
  destruct Hv as [Hn Hpos Hk Hfs HF _ _ _ _].
  destruct (placement_slots Tl k SAl Bl b j HF ltac:(lia) Hpl) as (_ & Hlast & Hin & Hout).
  apply view_holds in HSA. rewrite <- Hn in HSA.
  exists m, j, b, s2. unfold count_lms in *.
  destruct (lms_positions false Tl) as [|p [|q l]] eqn:El; simpl in *; [| |lia].
  - exists s2. subst m. destruct Hlast as [-> ->].
    split; [done|]. split; [done|]. split; [done|]. split; [apply frame_refl|].
    intros i Hi. rewrite HSA by done. f_equal. apply Hout.
      intros q Hq. by apply elem_of_nil in Hq.
  - destruct Hlast as [-> ->].
    assert (Hs : 0 ≤ slot Tl p < n).
    { rewrite Hn. apply slot_bounds. rewrite El. set_solver. }
    assert (Hz : ∀ i, 0 ≤ i < n → rd s2 (SA +ₚ i) = Some 0).
    { intros i Hi. rewrite HSA by done. f_equal. apply Hout.
      intros q Hq Hne. apply list_elem_of_singleton in Hq. by subst q. }
    assert (Hvb : valid_buf s2 (SA +ₚ slot Tl p) 1) by by eapply rd_valid, Hz.
    exists (wr s2 (SA +ₚ slot Tl p) (p - 1 + 1)). subst m.
    split; [done|]. split; [|split; [done|split]].
    + unfold sort_LMS, store_b. simpl. unfold mbind, mret.
      cbv [M_bind M_ret]. by rewrite store_wr.
    + by apply frame_wr.
    + intros i Hi. replace (p - 1 + 1) with p by lia.
      destruct (Z.eqb_spec i (slot Tl p)) as [->|Hne].
      * by apply rd_wr_eq.
      * rewrite rd_wr_ne; [by apply Hz|]. intros ?%padd_inj. done.
Qed.


Lemma sort_LMS_few_witness :
  let s := initial [1; 0; 1] 0 [] in
  let Tl := [1; 0; 1] in
  ∃ m j b s2 s3,
    stage1_discover T0 SA0 (Ptr 2 0) (Ptr 3 0) 3 2 1
                    (alloc_workspace SA0 0 3 2 s).2 = (Ret (m, j, b), s2) ∧
    sort_LMS T0 SA0 (Ptr 2 0) (Ptr 3 0) 3 3 2 1 m j b s2 = (Ret m, s3) ∧
    m = count_lms false Tl ∧
    frame s2 s3 SA0 3 ∧
    holds s3 SA0 3
      (λ i, match lms_positions false Tl with
            | [p] => if i =? slot Tl p then p else 0
            | _ => 0
            end).
Proof.
  intros s Tl.
  apply (sort_LMS_few s T0 SA0 Tl 0 3 2 1 (Ptr 2 0) (Ptr 3 0) 3
                      (alloc_workspace SA0 0 3 2 s).2 3).
  - split; [reflexivity | lia | lia | lia | repeat constructor; lia | |
            eexists; split; [reflexivity | simpl; lia] | left; simpl; lia |
            unfold INT_MAX; lia].
    intros [|[|[|i]]] v Hi; simplify_eq/=; reflexivity.
  - reflexivity.
  - vm_compute. discriminate.
Defined.

(** ** Stage 3: the sorted LMS suffixes go to the ends of their buckets *)

Lemma count_if_submseteq f (l k : list Z) : l ⊆+ k → count_if f l ≤ count_if f k.
Proof. induction 1; simpl; repeat case_match; lia. Qed.

Lemma count_if_positions f Tl :
  count_if (λ p, f (at_ Tl p)) (seqZ 0 (Z.of_nat (length Tl))) = count_if f Tl.
Proof.
  induction Tl as [|x Tl IH] using rev_ind; [done|].
  rewrite length_app, Nat2Z.inj_add, seqZ_app, !count_if_app by lia.
  f_equal.
  - rewrite <- IH. apply count_if_ext_in. intros p Hp%elem_of_seqZ.
    by rewrite at_app_l by lia.
  - simpl. rewrite at_app_r by lia. by rewrite Z.sub_diag.
Qed.

Lemma count_if_true f (l : list Z) :
  (∀ x, x ∈ l → f x = true) → count_if f l = Z.of_nat (length l).
Proof.
  induction l as [|x l IH]; simpl; [done|]. intros H.
  rewrite (H x) by set_solver. rewrite IH; [lia|]. intros; apply H; set_solver.
Qed.

Section place.
Variables (Tl L : list Z).
Hypothesis HND : NoDup L.
Hypothesis HR : Forall (λ p, 0 ≤ p < Z.of_nat (length Tl)) L.
Hypothesis HS : ∀ i i', 0 ≤ i → i ≤ i' → i' < Z.of_nat (length L) →
                         at_ Tl (at_ L i) ≤ at_ Tl (at_ L i').

Lemma count_sublist f (l : list Z) :
  l ⊆+ L → count_if (λ p, f (at_ Tl p)) l ≤ count_if f Tl.
Proof using HND HR.
  intros Hl. rewrite <- (count_if_positions f Tl).
  apply count_if_submseteq. etrans; [done|].
  apply NoDup_submseteq; [done|]. intros p Hp.
  apply elem_of_seqZ. rewrite Forall_forall in HR. specialize (HR p Hp). lia.
Qed.

Lemma end_slot_lt i :
  0 ≤ i < Z.of_nat (length L) →
  end_slot Tl L i < count_if (λ x, x <=? at_ Tl (at_ L i)) Tl.
Proof using.
  intros Hi. unfold end_slot. cbv zeta. rewrite drop_at by done. simpl.
  rewrite Z.eqb_refl.
  pose proof (count_if_nonneg (λ p, at_ Tl p =? at_ Tl (at_ L i))
                (drop (Z.to_nat (i + 1)) L)). lia.
Qed.

Lemma end_slot_lower i :
  0 ≤ i < Z.of_nat (length L) →
  count_if (λ x, x <? at_ Tl (at_ L i)) Tl ≤ end_slot Tl L i.
Proof using HND HR.
  intros Hi. unfold end_slot. cbv zeta. rewrite count_lt_le.
  set (c := at_ Tl (at_ L i)).
  assert (count_if (λ p, at_ Tl p =? c) (drop (Z.to_nat i) L)
          ≤ count_if (Z.eqb c) Tl) as H; [|lia].
  etrans; [|apply (count_sublist (Z.eqb c) (drop (Z.to_nat i) L)),
             sublist_submseteq, sublist_drop].
  apply Z.eq_le_incl, count_if_ext_in. intros p _. apply Z.eqb_sym.
Qed.

Lemma end_slot_ge i : 0 ≤ i < Z.of_nat (length L) → i ≤ end_slot Tl L i.
Proof using HND HR HS.
  intros Hi. unfold end_slot. cbv zeta.
  set (c := at_ Tl (at_ L i)).
  pose proof (count_sublist (λ x, x <=? c) L ltac:(done)) as H.
  rewrite <- (take_drop (Z.to_nat i) L) in H at 1.
  rewrite count_if_app in H.
  assert (count_if (λ p, at_ Tl p <=? c) (take (Z.to_nat i) L) = i) as Ht.
  { rewrite count_if_true; [rewrite length_take; lia|].
    intros p (t & Hp)%list_elem_of_lookup. apply lookup_take_Some in Hp as [Hp Ht].
    apply at_lookup in Hp. subst p. apply Z.leb_le. apply HS; lia. }
  pose proof (count_if_mono (λ p, at_ Tl p =? c) (λ p, at_ Tl p <=? c)
                (drop (Z.to_nat i) L)) as Hm.
  lapply Hm; [lia|]. intros p Hp. apply Z.eqb_eq in Hp. apply Z.leb_le. lia.
Qed.

Lemma end_slot_run_start i :
  0 ≤ i < Z.of_nat (length L) →
  i = Z.of_nat (length L) - 1 ∨ at_ Tl (at_ L i) ≠ at_ Tl (at_ L (i + 1)) →
  end_slot Tl L i = count_if (λ x, x <=? at_ Tl (at_ L i)) Tl - 1.
Proof using HS.
  intros Hi Hrun. unfold end_slot. cbv zeta. rewrite drop_at by done. simpl.
  rewrite Z.eqb_refl.
  rewrite (count_if_false _ (drop _ L)); [lia|].
  intros p (t & Hp)%list_elem_of_lookup. rewrite lookup_drop in Hp.
  pose proof (lookup_lt_Some _ _ _ Hp) as Hlt.
  apply at_lookup in Hp. subst p. apply Z.eqb_neq.
  destruct Hrun as [->|Hne]; [lia|].
  pose proof (HS i (i + 1) ltac:(lia) ltac:(lia) ltac:(lia)).
  pose proof (HS (i + 1) (Z.of_nat (Z.to_nat (i + 1) + t)) ltac:(lia) ltac:(lia) ltac:(lia)).
  lia.
Qed.

Lemma end_slot_pred i :
  0 < i < Z.of_nat (length L) →
  at_ Tl (at_ L (i - 1)) = at_ Tl (at_ L i) →
  end_slot Tl L (i - 1) = end_slot Tl L i - 1.
Proof using.
  intros Hi Heq. unfold end_slot. cbv zeta. rewrite Heq.
  rewrite (drop_at L (i - 1)) by lia. replace (i - 1 + 1) with i by lia.
  simpl. rewrite Heq, Z.eqb_refl. lia.
Qed.

Lemma end_slot_next i :
  0 ≤ i → i + 1 < Z.of_nat (length L) →
  at_ Tl (at_ L i) ≠ at_ Tl (at_ L (i + 1)) →
  count_if (λ x, x <=? at_ Tl (at_ L i)) Tl ≤ end_slot Tl L (i + 1).
Proof using HND HR HS.
  intros Hi Hm Hne. etrans; [|apply end_slot_lower; lia].
  pose proof (HS i (i + 1) ltac:(lia) ltac:(lia) ltac:(lia)).
  apply count_if_mono. intros x Hx. apply Z.leb_le in Hx. apply Z.ltb_lt. lia.
Qed.

End place.

Section place_code.
Variables (T SA B : ptr) (Tl L : list Z) (k cs : Z).
Hypothesis HND : NoDup L.
Hypothesis HR : Forall (λ p, 0 ≤ p < Z.of_nat (length Tl)) L.
Hypothesis HS : ∀ i i', 0 ≤ i → i ≤ i' → i' < Z.of_nat (length L) →
                         at_ Tl (at_ L i) ≤ at_ Tl (at_ L i').
Hypothesis HF : Forall (λ c, 0 ≤ c < k) Tl.
Hypothesis HdT : disjoint T (Z.of_nat (length Tl)) SA (Z.of_nat (length Tl)).
Hypothesis HdB : disjoint B k SA (Z.of_nat (length Tl)).

Lemma place_inv_wr s i j x v i' j' :
  place_inv s T SA B Tl L k i j →
  0 ≤ x < Z.of_nat (length Tl) →
  -1 ≤ i' → i' < j' → j' ≤ Z.of_nat (length Tl) →
  placed_from (wr s (SA +ₚ x) v) SA Tl L i' j' →
  place_inv (wr s (SA +ₚ x) v) T SA B Tl L k i' j'.
Proof using HdT HdB.
  intros (_ & _ & _ & HvSA & HT & HB & _) Hx ??? HP.
  split_and!; try done.
  - by apply valid_buf_wr.
  - apply holds_wr_other; [done|]. intros t Ht. by eapply disjoint_ne.
  - apply holds_wr_other; [done|]. intros t Ht. by eapply disjoint_ne.
Qed.

Lemma place_inv_zero s i j :
  place_inv s T SA B Tl L k i j → i < j - 1 →
  place_inv (wr s (SA +ₚ (j - 1)) 0) T SA B Tl L k i (j - 1).
Proof using HdT HdB.
  intros Hinv Hij. pose proof Hinv as (Hi & _ & Hjn & HvSA & _ & _ & P1 & P2 & P3 & P4).
  assert (valid_buf s (SA +ₚ (j - 1)) 1) by (eapply valid_buf_cell; [done|lia]).
  eapply place_inv_wr; [done|lia..|].
  split_and!.
  - intros i' Hi'. rewrite rd_wr_ne; [by apply P1|].
    intros E%padd_inj. specialize (P3 i' Hi'). lia.
  - intros x Hx Hn. destruct (Z.eq_dec x (j - 1)) as [->|Hne].
    + by apply rd_wr_eq.
    + rewrite rd_wr_ne by (intros E%padd_inj; lia). apply P2; [lia|done].
  - intros i' Hi'. specialize (P3 i' Hi'). lia.
  - intros x Hx. rewrite rd_wr_ne by (intros E%padd_inj; lia). by apply P4.
Qed.

Lemma place_inv_put s i j :
  place_inv s T SA B Tl L k i j → 0 ≤ i < Z.of_nat (length L) →
  j = end_slot Tl L i + 1 →
  place_inv (wr s (SA +ₚ (j - 1)) (at_ L i)) T SA B Tl L k (i - 1) (j - 1).
Proof using HND HR HS HdT HdB.
  intros Hinv Hi Hj. pose proof Hinv as (_ & _ & Hjn & HvSA & _ & _ & P1 & P2 & P3 & P4).
  pose proof (end_slot_ge Tl L HND HR HS i Hi) as Hge.
  assert (valid_buf s (SA +ₚ (j - 1)) 1) by (eapply valid_buf_cell; [done|lia]).
  eapply place_inv_wr; [done|lia..|].
  split_and!.
  - intros i' Hi'. destruct (Z.eq_dec i' i) as [->|Hne].
    + replace (end_slot Tl L i) with (j - 1) by lia. by apply rd_wr_eq.
    + rewrite rd_wr_ne; [apply P1; lia|].
      intros E%padd_inj. specialize (P3 i' ltac:(lia)). lia.
  - intros x Hx Hn. specialize (Hn i ltac:(lia)) as Hxi.
    rewrite rd_wr_ne by (intros E%padd_inj; lia).
    apply P2; [lia|]. intros i' Hi'. apply Hn. lia.
  - intros i' Hi'. destruct (Z.eq_dec i' i) as [->|Hne]; [lia|].
    specialize (P3 i' ltac:(lia)). lia.
  - intros x Hx. rewrite rd_wr_ne by (intros E%padd_inj; lia). apply P4. lia.
Qed.

Lemma zero_down_ok s0 s i j q :
  frame s0 s SA (Z.of_nat (length Tl)) →
  place_inv s T SA B Tl L k i j → i < q → q ≤ j →
  sat (zero_down SA q j) s
      (ok (λ r s', r = q ∧ place_inv s' T SA B Tl L k i q ∧
                   frame s0 s' SA (Z.of_nat (length Tl)))).
Proof using HdT HdB.
  intros Hfr Hinv Hiq Hqj. unfold zero_down. eapply sat_ok_mono.
  { apply (for_down_ok
             (λ t a s', a = j - Z.of_nat t ∧
                        place_inv s' T SA B Tl L k i (j - Z.of_nat t) ∧
                        frame s0 s' SA (Z.of_nat (length Tl)))).
    - rewrite Z.sub_0_r. done.
    - intros t a s1 Ht (-> & H1 & F1).
      assert (0 ≤ j - 1 - Z.of_nat t < Z.of_nat (length Tl))
        by (destruct H1 as (? & _ & ? & _); lia).
      eapply sat_store_bind.
      { destruct H1 as (? & _ & ? & ? & _). eapply valid_buf_cell; [done|lia]. }
      apply sat_ok_ret. split; [lia|]. split.
      + replace (j - Z.of_nat (S t)) with (j - Z.of_nat t - 1) by lia.
        replace (j - 1 - Z.of_nat t) with (j - Z.of_nat t - 1) by lia.
        apply place_inv_zero; [done|lia].
      + eapply frame_trans; [done|]. by apply frame_wr. }
  intros a s1 (-> & H1 & F1).
  replace (j - Z.of_nat (Z.to_nat (j - q))) with q in * by lia.
  done.
Qed.

Lemma at_positions i :
  0 ≤ i < Z.of_nat (length L) → 0 ≤ at_ L i < Z.of_nat (length Tl).
Proof using HR.
  intros Hi. pose proof (at_lookup_Z L i Hi) as H.
  by apply (Forall_lookup_1 _ _ _ _ HR) in H.
Qed.

Lemma place_run_ok s0 s i0 j0 c0 :
  frame s0 s SA (Z.of_nat (length Tl)) →
  0 ≤ i0 < Z.of_nat (length L) → at_ Tl (at_ L i0) = c0 →
  j0 = end_slot Tl L i0 + 1 →
  place_inv s T SA B Tl L k i0 j0 →
  sat (loop (S (Z.to_nat (Z.of_nat (length L))))
         (λ '(i, j, p),
            let j := j - 1 in
            store (SA +ₚ j) p;;
            let i := i - 1 in
            if i <? 0 then mret (inr (i, j, p, c0))
            else
              p ← load (SA +ₚ i);
              c1 ← chr T cs p;
              if c1 =? c0 then mret (inl (i, j, p))
              else mret (inr (i, j, p, c1)))
         (i0, j0, at_ L i0)) s
      (ok (λ '(i, j, p, c1) s',
             -1 ≤ i < i0 ∧ place_inv s' T SA B Tl L k i j ∧
             (0 ≤ i → p = at_ L i ∧ c1 = at_ Tl p ∧
                      at_ Tl (at_ L i) ≠ at_ Tl (at_ L (i + 1)) ∧
                      j = end_slot Tl L (i + 1)) ∧
             frame s0 s' SA (Z.of_nat (length Tl)))).
Proof using HND HR HS HdT HdB.
  intros Hfr Hi0 Hc0 Hj0 Hinv.
  apply (loop_ok
           (λ '(i, j, p) s', 0 ≤ i ≤ i0 ∧ p = at_ L i ∧ at_ Tl (at_ L i) = c0 ∧
                             j = end_slot Tl L i + 1 ∧
                             place_inv s' T SA B Tl L k i j ∧
                             frame s0 s' SA (Z.of_nat (length Tl)))
           (λ '(i, _, _), Z.to_nat i)).
  - split_and!; [lia|lia|done..].
  - lia.
  - intros [[i j] p] s1 (Hi & -> & Hc & Hj & H1 & F1). cbv zeta.
    pose proof (end_slot_ge Tl L HND HR HS i ltac:(lia)) as Hge.
    pose proof (place_inv_put s1 i j H1 ltac:(lia) Hj) as H2.
    assert (Hjn : 0 ≤ j - 1 < Z.of_nat (length Tl))
      by (destruct H1 as (_ & _ & ? & _); lia).
    assert (F2 : frame s0 (wr s1 (SA +ₚ (j - 1)) (at_ L i)) SA (Z.of_nat (length Tl))).
    { eapply frame_trans; [done|]. by apply frame_wr. }
    eapply sat_store_bind.
    { destruct H1 as (_ & _ & ? & ? & _). eapply valid_buf_cell; [done|lia]. }
    destruct (Z.ltb_spec (i - 1) 0) as [Hneg|Hpos].
    { apply sat_ok_ret. split_and!; [lia|lia|done|lia|done]. }
    pose proof H2 as (_ & _ & _ & _ & HT & _ & _ & _ & _ & P4).
    eapply sat_load_bind; [apply P4; lia|].
    pose proof (at_positions (i - 1) ltac:(lia)) as Hp.
    eapply sat_chr_bind; [by apply HT|].
    destruct (Z.eqb_spec (at_ Tl (at_ L (i - 1))) c0) as [Heq|Hne].
    + apply sat_ok_ret. split; [|lia]. split_and!; [lia|lia|done|done| |done|done].
      rewrite end_slot_pred; [lia|lia|congruence].
    + apply sat_ok_ret. split_and!; [lia|lia|done| |done].
      intros _. replace (i - 1 + 1) with i by lia.
      split_and!; [done|done|congruence|lia].
Qed.

Lemma place_runs_ok s0 s i0 j0 :
  frame s0 s SA (Z.of_nat (length Tl)) →
  0 ≤ i0 < Z.of_nat (length L) →
  i0 = Z.of_nat (length L) - 1 ∨ at_ Tl (at_ L i0) ≠ at_ Tl (at_ L (i0 + 1)) →
  count_if (λ x, x <=? at_ Tl (at_ L i0)) Tl ≤ j0 →
  place_inv s T SA B Tl L k i0 j0 →
  sat (loop (S (Z.to_nat (Z.of_nat (length L))))
        (λ '(i, j, p, c1),
           let c0 := c1 in
           q ← load (B +ₚ c0);
           j ← zero_down SA q j;
           '(i, j, p, c1) ←
             loop (S (Z.to_nat (Z.of_nat (length L))))
               (λ '(i, j, p),
                  let j := j - 1 in
                  store (SA +ₚ j) p;;
                  let i := i - 1 in
                  if i <? 0 then mret (inr (i, j, p, c0))
                  else
                    p ← load (SA +ₚ i);
                    c1 ← chr T cs p;
                    if c1 =? c0 then mret (inl (i, j, p))
                    else mret (inr (i, j, p, c1)))
               (i, j, p);
           if 0 <=? i then mret (inl (i, j, p, c1)) else mret (inr j))
        (i0, j0, at_ L i0, at_ Tl (at_ L i0))) s
      (ok (λ j s', place_inv s' T SA B Tl L k (-1) j ∧
                   frame s0 s' SA (Z.of_nat (length Tl)))).
Proof using HND HR HS HF HdT HdB.
  intros Hfr Hi0 Hrun0 Hj0 Hinv.
  apply (loop_ok
           (λ '(i, j, p, c1) s',
              0 ≤ i < Z.of_nat (length L) ∧ p = at_ L i ∧ c1 = at_ Tl p ∧
              (i = Z.of_nat (length L) - 1 ∨
               at_ Tl (at_ L i) ≠ at_ Tl (at_ L (i + 1))) ∧
              count_if (λ x, x <=? at_ Tl (at_ L i)) Tl ≤ j ∧
              place_inv s' T SA B Tl L k i j ∧
              frame s0 s' SA (Z.of_nat (length Tl)))
           (λ '(i, _, _, _), Z.to_nat i)).
  - done.
  - lia.
  - intros [[[i j] p] c1] s1 (Hi & -> & -> & Hrun & Hj & H1 & F1). cbv zeta.
    pose proof (at_positions i Hi) as Hp.
    pose proof (at_range Tl k _ HF Hp) as Hc.
    pose proof H1 as (_ & _ & _ & _ & _ & HB & _).
    eapply sat_load_bind; [by apply HB|]. cbv beta.
    pose proof (end_slot_ge Tl L HND HR HS i Hi) as Hge.
    pose proof (end_slot_lt Tl L i Hi) as Hlt.
    eapply sat_ok_bind; [apply (zero_down_ok s0 s1 i j); [done|done|lia|lia]|].
    intros q s2 (-> & H2 & F2). cbv beta.
    eapply sat_ok_bind.
    { apply (place_run_ok s0 s2 i); [done|done|done| |done].
      rewrite end_slot_run_start by done. lia. }
    intros [[[i' j'] p'] c1'] s3 (Hi' & H3 & Hnext & F3).
    destruct (Z.leb_spec 0 i') as [Hpos|Hneg].
    + destruct (Hnext Hpos) as (-> & -> & Hne & ->).
      apply sat_ok_ret. split; [|lia].
      split_and!; [lia|lia|done|done|by right| |done|done].
      apply end_slot_next; [done..|lia|done].
    + apply sat_ok_ret. split; [|done]. by replace i' with (-1) in H3 by lia.
Qed.

Lemma place_LMS_sat s C :
  1 ≤ Z.of_nat (length L) →
  holds s T (Z.of_nat (length Tl)) (at_ Tl) →
  holds s SA (Z.of_nat (length L)) (at_ L) →
  valid_buf s SA (Z.of_nat (length Tl)) →
  holds s C k (λ c, count_if (Z.eqb c) Tl) → valid_buf s B k →
  C = B ∨ disjoint C k B k → disjoint T (Z.of_nat (length Tl)) B k →
  sat (place_LMS T SA C B (Z.of_nat (length Tl)) k (Z.of_nat (length L)) cs) s
      (ok (λ _ s', place_inv s' T SA B Tl L k (-1) 0 ∧
                   ∃ s1, frame s s1 B k ∧
                         frame s1 s' SA (Z.of_nat (length Tl)))).
Proof using HND HR HS HF HdT HdB.
  intros Hm HT HSA HvSA HC HvB Hal HdTB.
  pose proof (end_slot_ge Tl L HND HR HS (Z.of_nat (length L) - 1) ltac:(lia)) as Hge.
  pose proof (end_slot_lt Tl L (Z.of_nat (length L) - 1) ltac:(lia)) as Hlt.
  pose proof (count_if_le_length
                (λ x, x <=? at_ Tl (at_ L (Z.of_nat (length L) - 1))) Tl) as Hle.
  unfold place_LMS.
  eapply sat_ok_bind.
  { eapply (getBuckets_end_ok _ _ _ _ _ (λ c, count_if (λ x, x <=? c) Tl));
      [done|done|done| |].
    - by eapply count_le_neg.
    - intros c Hc. apply count_le_step. }
  intros [] s1 [HB1 F1].
  assert (HT1 : holds s1 T (Z.of_nat (length Tl)) (at_ Tl)) by by eapply frame_holds.
  assert (HSA1 : holds s1 SA (Z.of_nat (length L)) (at_ L)).
  { intros i Hi. destruct F1 as [_ F1]. rewrite F1; [by apply HSA|].
    intros t Ht. apply not_eq_sym. eapply disjoint_ne; [done|lia..]. }
  assert (Hinv : place_inv s1 T SA B Tl L k (Z.of_nat (length L) - 1)
                           (Z.of_nat (length Tl))).
  { split_and!; try done; try lia.
    - by eapply frame_valid_buf.
    - split_and!.
      + intros i Hi; lia.
      + intros x Hx; lia.
      + intros i Hi; lia.
      + intros x Hx. apply HSA1. lia. }
  eapply sat_load_bind; [apply HSA1; lia|].
  pose proof (at_positions (Z.of_nat (length L) - 1) ltac:(lia)) as Hp.
  eapply sat_chr_bind; [by apply HT1|].
  eapply sat_ok_bind.
  { apply (place_runs_ok s1 s1 (Z.of_nat (length L) - 1) (Z.of_nat (length Tl)));
      [apply frame_refl|lia|by left|done|done]. }
  intros j s2 [H2 F2]. cbv beta.
  eapply sat_ok_bind.
  { apply (zero_down_ok s1 s2 (-1) j 0); [done|done|lia|].
    destruct H2 as (_ & ? & _). lia. }
  intros q s3 (-> & H3 & F3). apply sat_ok_ret. split; [done|]. by exists s1.
Qed.

(** Lines 555-573 of [computeSA].  [SA[0..m)] holds a list [L] of distinct
    text positions whose first symbols do not decrease, [C] the symbol
    counts.  The loops return normally, and afterwards [L[i]] sits at
    [end_slot Tl L i]: inside the bucket of its symbol, the suffixes of one
    symbol packed against the end of the bucket in the order of [L]; every
    other cell of [SA[0..n)] is 0.  The move is done in place: no entry of
    [L] is overwritten before it is read. *)
Theorem place_LMS_buckets s C n m :
  n = Z.of_nat (length Tl) → m = Z.of_nat (length L) → 1 ≤ m →
  holds s T n (at_ Tl) → holds s SA m (at_ L) → valid_buf s SA n →
  holds s C k (λ c, count_if (Z.eqb c) Tl) → valid_buf s B k →
  C = B ∨ disjoint C k B k → disjoint T n B k →
  ∃ s', place_LMS T SA C B n k m cs s = (Ret tt, s') ∧
        (∀ i, 0 ≤ i < m → rd s' (SA +ₚ end_slot Tl L i) = Some (at_ L i)) ∧
        (∀ x, 0 ≤ x < n → (∀ i, 0 ≤ i < m → end_slot Tl L i ≠ x) →
              rd s' (SA +ₚ x) = Some 0) ∧
        (∀ i, 0 ≤ i < m →
              count_if (λ x, x <? at_ Tl (at_ L i)) Tl ≤ end_slot Tl L i
              < count_if (λ x, x <=? at_ Tl (at_ L i)) Tl).
Proof using HND HR HS HF HdT HdB.
  intros -> -> Hm HT HSA HvSA HC HvB Hal HdTB.
  destruct (sat_ok_run _ _ _ (place_LMS_sat s C Hm HT HSA HvSA HC HvB Hal HdTB))
    as ([] & s' & Hrun & Hinv & _).
  exists s'. split; [done|].
  destruct Hinv as (_ & _ & _ & _ & _ & _ & P1 & P2 & _ & _).
  split_and!.
  - intros i Hi. apply P1. lia.
  - intros x Hx Hn. apply P2; [lia|]. intros i Hi. apply Hn. lia.
  - intros i Hi. split; [by apply end_slot_lower|by apply end_slot_lt].
Qed.


End place_code.

Lemma place_LMS_buckets_witness :
  let Tl := [1; 0; 2; 0; 2; 0] in
  let L := [3; 1] in
  let s := State [Some [Some 3; Some 1; None; None; None; None];
                  Some (Some <$> Tl);
                  Some [Some 3; Some 1; Some 2];
                  Some [None; None; None]] [] [] in
  ∃ s', place_LMS T0 SA0 (Ptr 2 0) (Ptr 3 0) 6 3 2 1 s = (Ret tt, s') ∧
        (∀ i, 0 ≤ i < 2 → rd s' (SA0 +ₚ end_slot Tl L i) = Some (at_ L i)) ∧
        (∀ x, 0 ≤ x < 6 → (∀ i, 0 ≤ i < 2 → end_slot Tl L i ≠ x) →
              rd s' (SA0 +ₚ x) = Some 0) ∧
        (∀ i, 0 ≤ i < 2 →
              count_if (λ x, x <? at_ Tl (at_ L i)) Tl ≤ end_slot Tl L i
              < count_if (λ x, x <=? at_ Tl (at_ L i)) Tl).
Proof.
  intros Tl L s.
  apply (place_LMS_buckets T0 SA0 (Ptr 3 0) Tl L 3 1).
  - repeat (constructor; [set_solver|]). constructor.
  - repeat constructor; lia.
  - intros i i' ???. simpl in *.
    assert (i = 0 ∨ i = 1) as [-> | ->] by lia;
      assert (i' = 0 ∨ i' = 1) as [-> | ->] by lia; by vm_compute.
  - repeat constructor; lia.
  - left. simpl. lia.
  - left. simpl. lia.
  - reflexivity.
  - reflexivity.
  - lia.
  - intros i Hi.
    assert (i = 0 ∨ i = 1 ∨ i = 2 ∨ i = 3 ∨ i = 4 ∨ i = 5)
      as [-> | [-> | [-> | [-> | [-> | ->]]]]] by lia; reflexivity.
  - intros i Hi. assert (i = 0 ∨ i = 1) as [-> | ->] by lia; reflexivity.
  - eexists. split; [reflexivity|]. simpl. lia.
  - intros i Hi. assert (i = 0 ∨ i = 1 ∨ i = 2) as [-> | [-> | ->]] by lia; reflexivity.
  - eexists. split; [reflexivity|]. simpl. lia.
  - right. left. simpl. lia.
  - left. simpl. lia.
Defined.

(** ** The order of the suffixes *)

Lemma lex_lt_irrefl a : lex_lt a a = false.
Proof.
  induction a as [|x a IH]; simpl; [done|].
  rewrite IH, Z.ltb_irrefl. by rewrite andb_false_r.
Qed.

Lemma lex_lt_trans a b c :
  lex_lt a b = true → lex_lt b c = true → lex_lt a c = true.
Proof.
  revert b c. induction a as [|x a IH]; intros [|y b] [|z c]; simpl; try done.
  intros H1 H2.
  apply orb_true_iff in H1 as [H1|[H1 H1']%andb_true_iff];
    apply orb_true_iff in H2 as [H2|[H2 H2']%andb_true_iff];
    apply orb_true_iff.
  - left. apply Z.ltb_lt. apply Z.ltb_lt in H1, H2. lia.
  - left. apply Z.ltb_lt. apply Z.ltb_lt in H1. apply Z.eqb_eq in H2. lia.
  - left. apply Z.ltb_lt. apply Z.ltb_lt in H2. apply Z.eqb_eq in H1. lia.
  - right. apply andb_true_iff. split.
    + apply Z.eqb_eq. apply Z.eqb_eq in H1, H2. lia.
    + by eapply IH.
Qed.

Lemma lex_lt_total a b : a ≠ b → lex_lt a b = true ∨ lex_lt b a = true.
Proof.
  revert b. induction a as [|x a IH]; intros [|y b] Hne; simpl;
    [done|by left|by right|].
  destruct (Z.ltb_spec x y); [by left|].
  destruct (Z.ltb_spec y x); [by right|].
  assert (x = y) as -> by lia. rewrite Z.eqb_refl. simpl.
  apply IH. congruence.
Qed.

Lemma lex_lt_asym a b : lex_lt a b = true → lex_lt b a = false.
Proof.
  intros H. destruct (lex_lt b a) eqn:E; [|done].
  pose proof (lex_lt_trans _ _ _ H E) as H'. by rewrite lex_lt_irrefl in H'.
Qed.

Section suffixes.
Variable Tl : list Z.
Notation n := (Z.of_nat (length Tl)).

Lemma suffix_cons p :
  0 ≤ p < n → suffix Tl p = at_ Tl p :: suffix Tl (p + 1).
Proof. apply drop_at. Qed.

Lemma suffix_end : suffix Tl n = [].
Proof. unfold suffix. rewrite Nat2Z.id. apply drop_all. Qed.

Lemma suffix_length p : 0 ≤ p ≤ n → Z.of_nat (length (suffix Tl p)) = n - p.
Proof. intros Hp. unfold suffix. rewrite length_drop. lia. Qed.

Lemma sfx_lt_irrefl p : sfx_lt Tl p p = false.
Proof. apply lex_lt_irrefl. Qed.

Lemma sfx_lt_trans p q r :
  sfx_lt Tl p q = true → sfx_lt Tl q r = true → sfx_lt Tl p r = true.
Proof. apply lex_lt_trans. Qed.

Lemma sfx_lt_asym p q : sfx_lt Tl p q = true → sfx_lt Tl q p = false.
Proof. apply lex_lt_asym. Qed.

Lemma sfx_lt_total p q :
  0 ≤ p ≤ n → 0 ≤ q ≤ n → p ≠ q → sfx_lt Tl p q = true ∨ sfx_lt Tl q p = true.
Proof.
  intros Hp Hq Hne. apply lex_lt_total. intros E.
  pose proof (suffix_length p Hp). pose proof (suffix_length q Hq).
  rewrite E in *. lia.
Qed.

Lemma sfx_lt_cons p q :
  0 ≤ p < n → 0 ≤ q < n →
  sfx_lt Tl p q =
  (at_ Tl p <? at_ Tl q) || ((at_ Tl p =? at_ Tl q) && sfx_lt Tl (p + 1) (q + 1)).
Proof. intros Hp Hq. unfold sfx_lt. by rewrite (suffix_cons p), (suffix_cons q). Qed.

Lemma sfx_lt_char p q :
  0 ≤ p < n → 0 ≤ q < n → sfx_lt Tl p q = true → at_ Tl p ≤ at_ Tl q.
Proof.
  intros Hp Hq. rewrite sfx_lt_cons by done.
  intros [H|[H _]%andb_true_iff]%orb_true_iff.
  - apply Z.ltb_lt in H. lia.
  - apply Z.eqb_eq in H. lia.
Qed.

Lemma sfx_lt_of_char p q :
  0 ≤ p < n → 0 ≤ q < n → at_ Tl p < at_ Tl q → sfx_lt Tl p q = true.
Proof.
  intros Hp Hq H. rewrite sfx_lt_cons by done.
  apply orb_true_iff. left. by apply Z.ltb_lt.
Qed.

Lemma sfx_lt_same_char p q :
  0 ≤ p < n → 0 ≤ q < n → at_ Tl p = at_ Tl q →
  sfx_lt Tl p q = sfx_lt Tl (p + 1) (q + 1).
Proof.
  intros Hp Hq H. rewrite sfx_lt_cons by done.
  by rewrite H, Z.ltb_irrefl, Z.eqb_refl.
Qed.

(** An empty suffix comes first. *)
Lemma sfx_lt_end p : 0 ≤ p < n → sfx_lt Tl n p = true.
Proof.
  intros Hp. unfold sfx_lt. rewrite suffix_end, (suffix_cons p) by done. done.
Qed.

(** A position is S-type exactly when its suffix comes before the next. *)
Lemma is_S_sfx p : 0 ≤ p < n → is_S false Tl p = sfx_lt Tl p (p + 1).
Proof.
  intros Hp. remember (Z.to_nat (n - 1 - p)) as d eqn:Hd.
  revert p Hp Hd. induction d as [|d IH]; intros p Hp Hd.
  - assert (p = n - 1) as -> by lia.
    rewrite is_S_last by (intros ->; simpl in *; lia).
    replace (n - 1 + 1) with n by lia.
    symmetry. apply sfx_lt_asym, sfx_lt_end. lia.
  - rewrite is_S_step by lia. rewrite sfx_lt_cons by lia.
    rewrite (IH (p + 1)) by lia. done.
Qed.

Lemma L_sfx p : 0 ≤ p < n → is_S false Tl p = false → sfx_lt Tl (p + 1) p = true.
Proof.
  intros Hp H. rewrite is_S_sfx in H by done.
  destruct (sfx_lt_total p (p + 1)) as [E|E]; [lia..|congruence|done].
Qed.

Lemma S_sfx p : 0 ≤ p < n → is_S false Tl p = true → sfx_lt Tl p (p + 1) = true.
Proof. intros Hp H. by rewrite is_S_sfx in H. Qed.

Lemma is_S_range p : is_S false Tl p = true → 0 ≤ p < n - 1.
Proof.
  intros H. pose proof H as H'. unfold is_S in H'.
  destruct (Z.ltb_spec p 0); [done|].
  destruct (stypes false Tl !! Z.to_nat p) eqn:E; [|done].
  apply lookup_lt_Some in E. rewrite stypes_length in E.
  destruct (Z.eq_dec p (n - 1)) as [->|]; [|lia].
  rewrite is_S_last in H; [done|]. intros ->; simpl in *; lia.
Qed.

Lemma is_S_lt p :
  0 ≤ p → p + 1 < n → at_ Tl p < at_ Tl (p + 1) → is_S false Tl p = true.
Proof.
  intros ?? H. rewrite is_S_step by lia. apply orb_true_iff. left. by apply Z.ltb_lt.
Qed.

Lemma is_S_gt p :
  0 ≤ p → p + 1 < n → at_ Tl (p + 1) < at_ Tl p → is_S false Tl p = false.
Proof.
  intros ?? H. rewrite is_S_step by lia.
  destruct (Z.ltb_spec (at_ Tl p) (at_ Tl (p + 1))); [lia|].
  destruct (Z.eqb_spec (at_ Tl p) (at_ Tl (p + 1))); [lia|done].
Qed.

Lemma is_S_eq p :
  0 ≤ p → p + 1 < n → at_ Tl p = at_ Tl (p + 1) →
  is_S false Tl p = is_S false Tl (p + 1).
Proof.
  intros ?? H. rewrite is_S_step by lia.
  by rewrite H, Z.ltb_irrefl, Z.eqb_refl.
Qed.

(** With the same first symbol, an L-type suffix comes before an S-type
    one. *)
Lemma L_before_S p q :
  0 ≤ p < n → 0 ≤ q < n →
  is_S false Tl p = false → is_S false Tl q = true → at_ Tl p = at_ Tl q →
  sfx_lt Tl p q = true.
Proof.
  intros Hp. remember (Z.to_nat (n - 1 - p)) as d eqn:Hd.
  revert p q Hp Hd. induction d as [|d IH]; intros p q Hp Hd Hq HL HS Hc.
  - assert (p = n - 1) as -> by lia.
    apply is_S_range in HS as Hq'.
    rewrite sfx_lt_same_char by done. replace (n - 1 + 1) with n by lia.
    apply sfx_lt_end. lia.
  - apply is_S_range in HS as Hq'.
    rewrite sfx_lt_same_char by done.
    rewrite is_S_step in HL, HS by lia.
    apply orb_false_iff in HL as [HL1 HL2]. apply Z.ltb_ge in HL1.
    destruct (Z.ltb_spec (at_ Tl (p + 1)) (at_ Tl (q + 1))) as [|Hge].
    { apply sfx_lt_of_char; [lia|lia|done]. }
    apply orb_true_iff in HS as [HS1|[HS1 HS2]%andb_true_iff].
    { apply Z.ltb_lt in HS1. lia. }
    apply Z.eqb_eq in HS1.
    assert (at_ Tl p = at_ Tl (p + 1)) as Hpp by lia.
    rewrite Hpp, Z.eqb_refl in HL2. simpl in HL2.
    apply IH; [lia|lia|lia|done|done|lia].
Qed.

(** The position before an LMS position is L-type and carries a larger
    symbol. *)
Lemma LMS_pred p :
  is_LMS false Tl p = true →
  0 < p < n - 1 ∧ is_S false Tl p = true ∧ is_S false Tl (p - 1) = false ∧
  at_ Tl p < at_ Tl (p - 1).
Proof.
  unfold is_LMS. intros [[H0 HS]%andb_true_iff HL%negb_true_iff]%andb_true_iff.
  apply Z.ltb_lt in H0. apply is_S_range in HS as Hr.
  split_and!; [lia|lia|done|done|].
  pose proof HL as HL'. rewrite is_S_step in HL' by lia.
  replace (p - 1 + 1) with p in HL' by lia.
  apply orb_false_iff in HL' as [H1 H2]. apply Z.ltb_ge in H1.
  rewrite HS, andb_true_r in H2. apply Z.eqb_neq in H2. lia.
Qed.

(** The position after an L-type position is L-type or LMS. *)
Lemma L_succ p :
  0 ≤ p → p + 1 < n → is_S false Tl p = false →
  is_S false Tl (p + 1) = false ∨ is_LMS false Tl (p + 1) = true.
Proof.
  intros H0 H1 HL. destruct (is_S false Tl (p + 1)) eqn:E; [right|by left].
  unfold is_LMS. rewrite E. replace (p + 1 - 1) with p by lia. rewrite HL.
  simpl. rewrite !andb_true_r. apply Z.ltb_lt. lia.
Qed.

End suffixes.

(** ** Suffix arrays and their buckets *)

Lemma ascending_cons Tl a l :
  ascending Tl (a :: l) = true →
  ascending Tl l = true ∧ ∀ b, b ∈ l → sfx_lt Tl a b = true.
Proof.
  revert a. induction l as [|b r IH]; intros a H.
  { split; [done|]. intros b Hb. by apply elem_of_nil in Hb. }
  change (lex_lt (suffix Tl a) (suffix Tl b) && ascending Tl (b :: r) = true) in H.
  apply andb_true_iff in H as [Hab Hr]. split; [done|].
  destruct (IH b Hr) as [_ Hb].
  intros c [->|Hc]%elem_of_cons; [done|].
  eapply sfx_lt_trans; [exact Hab|by apply Hb].
Qed.

Lemma ascending_lookup Tl l (i j : nat) a b :
  ascending Tl l = true → (i < j)%nat → l !! i = Some a → l !! j = Some b →
  sfx_lt Tl a b = true.
Proof.
  revert i j. induction l as [|x l IH]; intros i j H Hij Hi Hj; [done|].
  destruct (ascending_cons _ _ _ H) as [Hl Hx].
  destruct i as [|i], j as [|j]; simpl in *; try lia.
  - simplify_eq. apply Hx. by eapply list_elem_of_lookup_2.
  - eapply (IH i j); [done|lia|done..].
Qed.

Lemma count_if_pos_elem f (l : list Z) :
  0 < count_if f l → ∃ x, x ∈ l ∧ f x = true.
Proof.
  induction l as [|x l IH]; simpl; [lia|].
  destruct (f x) eqn:E.
  - intros _. exists x. split; [set_solver|done].
  - intros H. destruct IH as (y & ? & ?); [lia|]. exists y. split; [set_solver|done].
Qed.

Lemma count_if_perm f (l k : list Z) : l ≡ₚ k → count_if f l = count_if f k.
Proof.
  intros H. apply Z.le_antisymm; apply count_if_submseteq; by rewrite H.
Qed.

Lemma psum_count Tl k c :
  Forall (λ x, 0 ≤ x < k) Tl → 0 ≤ c →
  psum (λ c, count_if (Z.eqb c) Tl) c = count_if (λ x, x <? c) Tl.
Proof.
  intros HF Hc. rewrite <- (Z2Nat.id c) by done.
  induction (Z.to_nat c) as [|d IH].
  - rewrite psum_0. symmetry. apply count_if_false.
    intros x Hx. rewrite Forall_forall in HF. specialize (HF x Hx).
    apply Z.ltb_ge. lia.
  - replace (Z.of_nat (S d)) with (Z.of_nat d + 1) by lia.
    rewrite psum_S by lia. rewrite IH.
    rewrite <- count_lt_le. apply count_if_ext, Forall_forall.
    intros x _. destruct (Z.leb_spec x (Z.of_nat d)), (Z.ltb_spec x (Z.of_nat d + 1)); lia.
Qed.

Section suffix_array.
Variables (Tl sa : list Z).
Hypothesis Hsa : is_suffix_array Tl sa = true.
Notation n := (Z.of_nat (length Tl)).

Lemma sa_length : length sa = length Tl.
Proof using Hsa.
  unfold is_suffix_array in Hsa.
  apply andb_true_iff in Hsa as [[H _]%andb_true_iff _]. by apply Nat.eqb_eq.
Qed.

Lemma sa_perm : sa ≡ₚ seqZ 0 n.
Proof using Hsa.
  symmetry. apply submseteq_length_Permutation.
  - apply NoDup_submseteq; [apply NoDup_seqZ|].
    intros p Hp. unfold is_suffix_array in Hsa.
    apply andb_true_iff in Hsa as [[_ H]%andb_true_iff _].
    rewrite forallb_forall in H. apply list_elem_of_In, H in Hp.
    apply Z.eqb_eq in Hp.
    destruct (count_if_pos_elem (Z.eqb p) sa) as (x & Hx & ->%Z.eqb_eq); [lia|done].
  - rewrite length_seqZ, sa_length. lia.
Qed.

Lemma sa_sorted x y :
  0 ≤ x → x < y → y < n → sfx_lt Tl (at_ sa x) (at_ sa y) = true.
Proof using Hsa.
  intros Hx Hxy Hy. pose proof sa_length as Hl.
  unfold is_suffix_array in Hsa. apply andb_true_iff in Hsa as [_ H].
  eapply (ascending_lookup _ _ (Z.to_nat x) (Z.to_nat y)); [done|lia|..];
    apply at_lookup_Z; lia.
Qed.

Lemma sa_range x : 0 ≤ x < n → 0 ≤ at_ sa x < n.
Proof using Hsa.
  intros Hx. pose proof sa_length as Hl.
  assert (at_ sa x ∈ seqZ 0 n) as H%elem_of_seqZ; [|lia].
  rewrite <- sa_perm. eapply list_elem_of_lookup_2, at_lookup_Z. lia.
Qed.

Lemma sa_surj p : 0 ≤ p < n → ∃ x, 0 ≤ x < n ∧ at_ sa x = p.
Proof using Hsa.
  intros Hp. pose proof sa_length as Hl.
  assert (p ∈ sa) as (i & Hi)%list_elem_of_lookup.
  { rewrite sa_perm. apply elem_of_seqZ. lia. }
  exists (Z.of_nat i). pose proof (lookup_lt_Some _ _ _ Hi).
  split; [lia|]. by apply at_lookup.
Qed.

Lemma sa_reflect x y :
  0 ≤ x < n → 0 ≤ y < n → sfx_lt Tl (at_ sa x) (at_ sa y) = true → x < y.
Proof using Hsa.
  intros Hx Hy H. destruct (Z.lt_trichotomy x y) as [|[->|Hlt]]; [done| |].
  - by rewrite sfx_lt_irrefl in H.
  - pose proof (sa_sorted y x ltac:(lia) Hlt ltac:(lia)) as H'.
    apply sfx_lt_asym in H'. congruence.
Qed.

Lemma sa_inj x y : 0 ≤ x < n → 0 ≤ y < n → at_ sa x = at_ sa y → x = y.
Proof using Hsa.
  intros Hx Hy H. destruct (Z.lt_trichotomy x y) as [Hlt|[->|Hlt]]; [|done|].
  - pose proof (sa_sorted x y ltac:(lia) Hlt ltac:(lia)) as H'.
    by rewrite H, sfx_lt_irrefl in H'.
  - pose proof (sa_sorted y x ltac:(lia) Hlt ltac:(lia)) as H'.
    by rewrite H, sfx_lt_irrefl in H'.
Qed.

Lemma sa_count f : count_if (λ p, f (at_ Tl p)) sa = count_if f Tl.
Proof using Hsa.
  rewrite (count_if_perm _ _ _ sa_perm). apply count_if_positions.
Qed.

Lemma sa_char_mono x y :
  0 ≤ x → x ≤ y → y < n → at_ Tl (at_ sa x) ≤ at_ Tl (at_ sa y).
Proof using Hsa.
  intros Hx Hxy Hy. destruct (Z.eq_dec x y) as [->|]; [lia|].
  apply sfx_lt_char; [apply sa_range; lia..|]. apply sa_sorted; lia.
Qed.

Lemma bucket_lower x :
  0 ≤ x < n → count_if (λ c, c <? at_ Tl (at_ sa x)) Tl ≤ x.
Proof using Hsa.
  intros Hx. pose proof sa_length as Hl. rewrite <- sa_count.
  remember (at_ Tl (at_ sa x)) as c eqn:Hc.
  rewrite <- (take_drop (Z.to_nat x) sa), count_if_app.
  rewrite (count_if_false _ (drop _ _)).
  - pose proof (count_if_le_length (λ p, at_ Tl p <? c)
                  (take (Z.to_nat x) sa)) as H.
    rewrite length_take in H. lia.
  - intros p (t & Hp)%list_elem_of_lookup. rewrite lookup_drop in Hp.
    pose proof (lookup_lt_Some _ _ _ Hp). apply at_lookup in Hp. subst p c.
    apply Z.ltb_ge. apply sa_char_mono; lia.
Qed.

Lemma bucket_upper x :
  0 ≤ x < n → x < count_if (λ c, c <=? at_ Tl (at_ sa x)) Tl.
Proof using Hsa.
  intros Hx. pose proof sa_length as Hl. rewrite <- sa_count.
  remember (at_ Tl (at_ sa x)) as c eqn:Hc.
  rewrite <- (take_drop (Z.to_nat (x + 1)) sa), count_if_app.
  rewrite (count_if_true _ (take _ _)).
  - pose proof (count_if_nonneg (λ p, at_ Tl p <=? c)
                  (drop (Z.to_nat (x + 1)) sa)) as H.
    rewrite length_take. lia.
  - intros p (t & Hp)%list_elem_of_lookup. apply lookup_take_Some in Hp as [Hp Ht].
    apply at_lookup in Hp. subst p c.
    apply Z.leb_le. apply sa_char_mono; lia.
Qed.

(** The cells of a bucket hold the suffixes of its symbol. *)
Lemma bucket_char x c :
  0 ≤ x < n →
  count_if (λ a, a <? c) Tl ≤ x → x < count_if (λ a, a <=? c) Tl →
  at_ Tl (at_ sa x) = c.
Proof using Hsa.
  intros Hx Hlo Hhi. pose proof (bucket_lower x Hx). pose proof (bucket_upper x Hx).
  destruct (Z.lt_trichotomy (at_ Tl (at_ sa x)) c) as [Hlt|[->|Hlt]]; [|done|].
  - pose proof (count_if_mono (λ a, a <=? at_ Tl (at_ sa x)) (λ a, a <? c) Tl) as Hm.
    lapply Hm; [lia|]. intros a Ha%Z.leb_le. apply Z.ltb_lt. lia.
  - pose proof (count_if_mono (λ a, a <=? c) (λ a, a <? at_ Tl (at_ sa x)) Tl) as Hm.
    lapply Hm; [lia|]. intros a Ha%Z.leb_le. apply Z.ltb_lt. lia.
Qed.

(** The last suffix is the first of its bucket. *)
Lemma bucket_first :
  0 < n →
  let x0 := count_if (λ a, a <? at_ Tl (n - 1)) Tl in
  0 ≤ x0 < n ∧ at_ sa x0 = n - 1.
Proof using Hsa.
  intros Hn x0.
  destruct (sa_surj (n - 1)) as (x & Hx & Hsx); [lia|].
  pose proof (bucket_lower x Hx) as Hlo. rewrite Hsx in Hlo. fold x0 in Hlo.
  pose proof (count_if_nonneg (λ a, a <? at_ Tl (n - 1)) Tl). fold x0 in H.
  split; [lia|].
  destruct (Z.eq_dec x0 x) as [->|Hne]; [done|]. exfalso.
  pose proof (bucket_upper x Hx) as Hhi. rewrite Hsx in Hhi.
  assert (at_ Tl (at_ sa x0) = at_ Tl (n - 1)) as Hc.
  { apply bucket_char; [lia|done|lia]. }
  pose proof (sa_sorted x0 x ltac:(lia) ltac:(lia) ltac:(lia)) as Hlt.
  pose proof (sa_range x0 ltac:(lia)) as Hr.
  rewrite Hsx in Hlt. rewrite sfx_lt_same_char in Hlt by (done || lia).
  replace (n - 1 + 1) with n in Hlt by lia.
  destruct (Z.eq_dec (at_ sa x0 + 1) n) as [E|E].
  - rewrite E, sfx_lt_irrefl in Hlt. done.
  - pose proof (sfx_lt_end Tl (at_ sa x0 + 1) ltac:(lia)) as H'.
    apply sfx_lt_asym in H'. congruence.
Qed.

End suffix_array.

(** ** The first pass of [induceSA]: what it meets and where it writes *)

Section first_pass.
Variables (Tl sa : list Z) (seed : Z → Z).
Hypothesis Hsa : is_suffix_array Tl sa = true.
Hypothesis Hseed : seeded Tl sa seed.
Notation n := (Z.of_nat (length Tl)).

Lemma scan_val_L x :
  is_S false Tl (at_ sa x) = false → scan_val Tl sa seed x = Some (at_ sa x).
Proof using. intros H. unfold scan_val. by rewrite H. Qed.

Lemma scan_val_cases y v :
  0 ≤ y < n → scan_val Tl sa seed y = Some v →
  0 ≤ v < n ∧ at_ Tl v = at_ Tl (at_ sa y) ∧
  (is_S false Tl (at_ sa y) = false ∧ v = at_ sa y ∨
   is_S false Tl (at_ sa y) = true ∧ is_LMS false Tl v = true ∧ v = seed y).
Proof using Hsa Hseed.
  intros Hy H. unfold scan_val in H.
  destruct (is_S false Tl (at_ sa y)) eqn:E.
  - destruct (Z.eqb_spec (seed y) 0) as [|Hne]; [done|]. simplify_eq.
    destruct Hseed as (H1 & _ & _). destruct (H1 y Hy Hne) as (HL & _ & Hc).
    apply LMS_pred in HL as Hp. split_and!; [lia|lia|done|]. right. done.
  - simplify_eq. split; [by apply sa_range|]. split; [done|]. by left.
Qed.

(** The suffixes that the pass meets ascend with the cells. *)
Lemma scan_mono y y' v v' :
  0 ≤ y → y < y' → y' < n →
  scan_val Tl sa seed y = Some v → scan_val Tl sa seed y' = Some v' →
  sfx_lt Tl v v' = true.
Proof using Hsa Hseed.
  intros H0 Hlt Hn Hv Hv'.
  destruct (scan_val_cases y v ltac:(lia) Hv) as (Hr & Hc & Hk).
  destruct (scan_val_cases y' v' ltac:(lia) Hv') as (Hr' & Hc' & Hk').
  pose proof (sa_sorted Tl sa Hsa y y' H0 Hlt Hn) as Hs.
  pose proof (sa_range Tl sa Hsa y ltac:(lia)) as Hy.
  pose proof (sa_range Tl sa Hsa y' ltac:(lia)) as Hy'.
  pose proof (sfx_lt_char Tl _ _ Hy Hy' Hs) as Hle.
  destruct (Z.eq_dec (at_ Tl v) (at_ Tl v')) as [Heq|Hne];
    [|apply sfx_lt_of_char; [done|done|lia]].
  destruct Hk as [[HL ->]|(HS & HLMS & ->)], Hk' as [[HL' ->]|(HS' & HLMS' & ->)].
  - done.
  - apply L_before_S; [done|done|done| |done].
    by apply LMS_pred in HLMS' as (_ & ? & _).
  - exfalso. pose proof (L_before_S Tl _ _ Hy' Hy HL' HS ltac:(lia)) as Hc2.
    apply sfx_lt_asym in Hc2. congruence.
  - destruct Hseed as (_ & _ & H3). apply H3; [done|done|done| |].
    + intros E. rewrite E in HLMS. apply LMS_pred in HLMS as [? _]; lia.
    + intros E. rewrite E in HLMS'. apply LMS_pred in HLMS' as [? _]; lia.
Qed.

Lemma scan_reflect y y' v v' :
  0 ≤ y < n → 0 ≤ y' < n →
  scan_val Tl sa seed y = Some v → scan_val Tl sa seed y' = Some v' →
  sfx_lt Tl v v' = true → y < y'.
Proof using Hsa Hseed.
  intros Hy Hy' Hv Hv' H. destruct (Z.lt_trichotomy y y') as [|[->|Hlt]]; [done| |].
  - simplify_eq. by rewrite sfx_lt_irrefl in H.
  - pose proof (scan_mono y' y v' v ltac:(lia) Hlt ltac:(lia) Hv' Hv) as H'.
    apply sfx_lt_asym in H'. congruence.
Qed.

Lemma scan_inj y y' v :
  0 ≤ y < n → 0 ≤ y' < n →
  scan_val Tl sa seed y = Some v → scan_val Tl sa seed y' = Some v → y = y'.
Proof using Hsa Hseed.
  intros Hy Hy' Hv Hv'. destruct (Z.lt_trichotomy y y') as [Hlt|[->|Hlt]]; [|done|].
  - pose proof (scan_mono y y' v v ltac:(lia) Hlt ltac:(lia) Hv Hv') as H'.
    by rewrite sfx_lt_irrefl in H'.
  - pose proof (scan_mono y' y v v ltac:(lia) Hlt ltac:(lia) Hv' Hv) as H'.
    by rewrite sfx_lt_irrefl in H'.
Qed.

(** Every L-type suffix and every LMS suffix is met. *)
Lemma scan_total v :
  0 ≤ v < n → is_S false Tl v = false ∨ is_LMS false Tl v = true →
  ∃ y, 0 ≤ y < n ∧ scan_val Tl sa seed y = Some v.
Proof using Hsa Hseed.
  intros Hv [HL|HLMS].
  - destruct (sa_surj Tl sa Hsa v Hv) as (y & Hy & <-).
    exists y. split; [done|]. by apply scan_val_L.
  - destruct Hseed as (H1 & H2 & _). destruct (H2 v HLMS) as (y & Hy & <-).
    exists y. split; [done|].
    assert (seed y ≠ 0) as Hne.
    { intros E. rewrite E in HLMS. apply LMS_pred in HLMS as [? _]; lia. }
    destruct (H1 y Hy Hne) as (_ & HS & _).
    unfold scan_val. rewrite HS. by destruct (Z.eqb_spec (seed y) 0).
Qed.

(** The cell of an L-type suffix is written before the pass comes to it. *)
Lemma WL_self x :
  0 ≤ x < n → is_S false Tl (at_ sa x) = false → WL Tl sa seed x x.
Proof using Hsa Hseed.
  intros Hx HL. pose proof (sa_range Tl sa Hsa x Hx) as Hr.
  destruct (Z.eq_dec (at_ sa x) (n - 1)) as [E|E]; [by left|]. right.
  destruct (scan_total (at_ sa x + 1)) as (y & Hy & Hv);
    [lia|apply L_succ; [lia|lia|done]|].
  exists y. split; [|done]. split; [lia|].
  eapply scan_reflect; [done|done|done|by apply scan_val_L|].
  by apply L_sfx.
Qed.

Lemma WL_step i x :
  0 ≤ i →
  WL Tl sa seed (i + 1) x
  ↔ WL Tl sa seed i x ∨ scan_val Tl sa seed i = Some (at_ sa x + 1).
Proof using.
  intros Hi. unfold WL. split.
  - intros [H|(y & Hy & Hv)]; [by left; left|].
    destruct (Z.eq_dec y i) as [->|]; [by right|].
    left. right. exists y. split; [lia|done].
  - intros [[H|(y & Hy & Hv)]|Hv]; [by left| |].
    + right. exists y. split; [lia|done].
    + right. exists i. split; [lia|done].
Qed.

(** The pass writes the suffix before the one it meets into the cell that
    the suffix array gives it, which lies further on. *)
Lemma L_target i v (bp : Z → Z) :
  0 ≤ i < n → scan_val Tl sa seed i = Some v → 0 < v →
  is_S false Tl (v - 1) = false →
  count_if (λ a, a <? at_ Tl (v - 1)) Tl ≤ bp (at_ Tl (v - 1)) →
  (∀ x, 0 ≤ x < n →
        (is_S false Tl (at_ sa x) = false ∧ WL Tl sa seed i x)
        ↔ x < bp (at_ Tl (at_ sa x))) →
  let xq := bp (at_ Tl (v - 1)) in
  i < xq ∧ xq < n ∧ at_ sa xq = v - 1.
Proof using Hsa Hseed.
  intros Hi Hv Hpos HL Hlow Hbp xq. fold xq in Hlow.
  destruct (scan_val_cases i v Hi Hv) as (Hr & _ & _).
  destruct (sa_surj Tl sa Hsa (v - 1) ltac:(lia)) as (x & Hx & Hsx).
  assert (i < x) as Hix.
  { eapply scan_reflect; [done|done|done|apply scan_val_L; by rewrite Hsx|].
    rewrite Hsx. pose proof (L_sfx Tl (v - 1) ltac:(lia) HL) as H.
    by replace (v - 1 + 1) with v in H by lia. }
  assert (¬ WL Tl sa seed i x) as HnW.
  { intros [E|(y & Hy & Hvy)]; [lia|].
    rewrite Hsx in Hvy. replace (v - 1 + 1) with v in Hvy by lia.
    pose proof (scan_inj y i v ltac:(lia) Hi Hvy Hv). lia. }
  assert (xq ≤ x) as Hle.
  { pose proof (Hbp x Hx) as Hb. rewrite Hsx in Hb. fold xq in Hb.
    destruct (Z.lt_ge_cases x xq) as [Hlt|]; [|lia].
    destruct (proj2 Hb Hlt) as [_ HW]. by apply HnW in HW. }
  destruct (Z.eq_dec xq x) as [E|Hne]; [rewrite E; split_and!; [done|lia|done]|].
  exfalso.
  pose proof (count_if_nonneg (λ a, a <? at_ Tl (v - 1)) Tl) as H0.
  pose proof (bucket_upper Tl sa Hsa x Hx) as Hup. rewrite Hsx in Hup.
  assert (Hxq : 0 ≤ xq < n) by lia.
  pose proof (bucket_char Tl sa Hsa xq _ Hxq Hlow ltac:(lia)) as Hc.
  pose proof (sa_range Tl sa Hsa xq Hxq) as Hrq.
  pose proof (sa_sorted Tl sa Hsa xq x ltac:(lia) ltac:(lia) ltac:(lia)) as Hlt.
  rewrite Hsx in Hlt.
  assert (is_S false Tl (at_ sa xq) = false) as HLq.
  { destruct (is_S false Tl (at_ sa xq)) eqn:ES; [|done].
    pose proof (L_before_S Tl (v - 1) (at_ sa xq) ltac:(lia) Hrq HL ES ltac:(lia)) as H'.
    apply sfx_lt_asym in H'. congruence. }
  assert (¬ WL Tl sa seed i xq) as HnWq.
  { intros HW. pose proof (proj1 (Hbp xq Hxq) (conj HLq HW)) as Hb.
    rewrite Hc in Hb. fold xq in Hb. lia. }
  apply HnWq.
  destruct (Z.eq_dec (at_ sa xq) (n - 1)) as [E|E]; [by left|]. right.
  destruct (scan_total (at_ sa xq + 1)) as (y & Hy & Hvy);
    [lia|apply L_succ; [lia|lia|done]|].
  exists y. split; [|done]. split; [lia|].
  eapply scan_reflect; [done|done|done|done|].
  rewrite sfx_lt_same_char in Hlt by (done || lia).
  by replace (v - 1 + 1) with v in Hlt by lia.
Qed.

(** What the pass reads in the cell it comes to. *)
Lemma L_read i v :
  0 ≤ i < n →
  (is_S false Tl (at_ sa i) = true → v = seed i) →
  (is_S false Tl (at_ sa i) = false → v = markL Tl (at_ sa i)) →
  (0 < v → scan_val Tl sa seed i = Some v ∧ is_S false Tl (v - 1) = false ∧
           at_ Tl v ≤ at_ Tl (v - 1)) ∧
  (v ≤ 0 → ∀ x, 0 ≤ x < n → is_S false Tl (at_ sa x) = false →
           scan_val Tl sa seed i ≠ Some (at_ sa x + 1)).
Proof using Hsa Hseed.
  intros Hi HS HL. pose proof (sa_range Tl sa Hsa i Hi) as Hr.
  unfold scan_val. destruct (is_S false Tl (at_ sa i)) eqn:E.
  - rewrite (HS eq_refl). clear HS HL. destruct Hseed as (H1 & _ & _).
    destruct (Z.eqb_spec (seed i) 0) as [H0|Hne].
    + split; [lia|]. done.
    + destruct (H1 i Hi Hne) as (HLMS & _ & _).
      apply LMS_pred in HLMS as (Hp & _ & HLp & Hc).
      split; [intros _; split_and!; [done|done|lia]|lia].
  - rewrite (HL eq_refl). clear HS HL. unfold markL.
    destruct (Z.ltb_spec 0 (at_ sa i)) as [Hpos|H0]; simpl.
    + destruct (Z.ltb_spec (at_ Tl (at_ sa i - 1)) (at_ Tl (at_ sa i))) as [Hlt|Hge].
      * split; [unfold Z.lnot; lia|]. intros _ x Hx HLx [= Hq].
        replace (at_ sa i - 1) with (at_ sa x) in Hlt by lia.
        rewrite is_S_lt in HLx; [done|lia|lia|].
        by replace (at_ sa x + 1) with (at_ sa i) by lia.
      * split; [|lia]. intros _. split_and!; [done| |done].
        destruct (Z.eq_dec (at_ Tl (at_ sa i - 1)) (at_ Tl (at_ sa i))) as [Heq|Hne].
        -- rewrite is_S_eq by (lia || (by replace (at_ sa i - 1 + 1) with (at_ sa i) by lia)).
           by replace (at_ sa i - 1 + 1) with (at_ sa i) by lia.
        -- apply is_S_gt; [lia|lia|].
           replace (at_ sa i - 1 + 1) with (at_ sa i) by lia. lia.
    + split; [lia|]. intros _ x Hx HLx [= Hq].
      pose proof (sa_range Tl sa Hsa x Hx). lia.
Qed.

End first_pass.

(** ** The first pass of [induceSA], as the code runs it *)

Lemma sat_assert_bind {A} line (b : bool) (f : unit → M A) s Q :
  b = true → sat (f tt) s Q → sat (assert_ line b ≫= f) s Q.
Proof. intros -> H. exact H. Qed.

Lemma switch_bucket_ok s B k b c1 c0 (bp : Z → Z) :
  valid_buf s B k → 0 ≤ c1 < k → 0 ≤ c0 < k → bp c1 = b →
  (∀ c, 0 ≤ c < k → c ≠ c1 → rd s (B +ₚ c) = Some (bp c)) →
  sat (switch_bucket B c0 c1 b) s
    (ok (λ '(b', c1') s',
           b' = bp c0 ∧ c1' = c0 ∧
           (∀ c, 0 ≤ c < k → c ≠ c0 → rd s' (B +ₚ c) = Some (bp c)) ∧
           frame s s' B k)).
Proof.
  intros HvB Hc1 Hc0 Hb HB. unfold switch_bucket.
  destruct (Z.eqb_spec c0 c1) as [->|Hne]; simpl.
  - apply sat_ok_ret. split_and!; [done|done|done|apply frame_refl].
  - eapply sat_store_bind; [eapply valid_buf_cell; [done|lia]|].
    eapply sat_load_bind.
    { rewrite rd_wr_ne; [by apply HB|]. intros E%padd_inj. lia. }
    apply sat_ok_ret. split_and!; [done|done| |by apply frame_wr].
    intros c Hc Hcne. destruct (Z.eq_dec c c1) as [->|].
    + rewrite rd_wr_eq; [by rewrite Hb|]. eapply valid_buf_cell; [done|lia].
    + rewrite rd_wr_ne; [by apply HB|]. intros E%padd_inj. lia.
Qed.

Lemma frame2_refl s p lp q lq : frame2 s s p lp q lq.
Proof. split; [apply quiet_step_refl|done]. Qed.

Lemma frame2_trans s1 s2 s3 p lp q lq :
  frame2 s1 s2 p lp q lq → frame2 s2 s3 p lp q lq → frame2 s1 s3 p lp q lq.
Proof.
  intros [H1 G1] [H2 G2]. split; [by eapply quiet_step_trans|].
  intros r Hp Hq. by rewrite G2, G1.
Qed.

Lemma frame2_l s s' p lp q lq : frame s s' p lp → frame2 s s' p lp q lq.
Proof. intros [H G]. split; [done|]. intros r Hp _. by apply G. Qed.

Lemma frame2_r s s' p lp q lq : frame s s' q lq → frame2 s s' p lp q lq.
Proof. intros [H G]. split; [done|]. intros r _ Hq. by apply G. Qed.

Section first_pass_code.
Variables (T SA B : ptr) (Tl sa : list Z) (seed : Z → Z) (k cs : Z).
Hypothesis Hsa : is_suffix_array Tl sa = true.
Hypothesis Hseed : seeded Tl sa seed.
Hypothesis HF : Forall (λ c, 0 ≤ c < k) Tl.
Hypothesis HdT : disjoint T (Z.of_nat (length Tl)) SA (Z.of_nat (length Tl)).
Hypothesis HdB : disjoint B k SA (Z.of_nat (length Tl)).
Hypothesis HdTB : disjoint T (Z.of_nat (length Tl)) B k.
Notation n := (Z.of_nat (length Tl)).

Lemma Lcells_read s i :
  0 ≤ i < n → Lcells s SA Tl sa seed i →
  ∃ v, rd s (SA +ₚ i) = Some v ∧
       (0 < v → scan_val Tl sa seed i = Some v ∧ is_S false Tl (v - 1) = false ∧
                at_ Tl v ≤ at_ Tl (v - 1)) ∧
       (v ≤ 0 → ∀ x, 0 ≤ x < n → is_S false Tl (at_ sa x) = false →
                scan_val Tl sa seed i ≠ Some (at_ sa x + 1)).
Proof using Hsa Hseed.
  intros Hi HC. destruct (HC i Hi) as (v & Hv & Hspec).
  exists v. split; [done|]. apply L_read; [done..| |].
  - intros E. rewrite E in Hspec. by rewrite Z.ltb_irrefl in Hspec.
  - intros E. rewrite E in Hspec. destruct Hspec as (_ & H2 & _).
    apply H2; [lia|]. by apply WL_self.
Qed.

Lemma Lcells_next s s' i v (w : option Z) :
  0 ≤ i < n → Lcells s SA Tl sa seed i → rd s (SA +ₚ i) = Some v →
  rd s' (SA +ₚ i) = Some (Z.lnot v) →
  match w with
  | None =>
      (∀ x, 0 ≤ x < n → is_S false Tl (at_ sa x) = false →
            scan_val Tl sa seed i ≠ Some (at_ sa x + 1)) ∧
      (∀ x, 0 ≤ x < n → x ≠ i → rd s' (SA +ₚ x) = rd s (SA +ₚ x))
  | Some xq =>
      scan_val Tl sa seed i = Some (at_ sa xq + 1) ∧ i < xq < n ∧
      is_S false Tl (at_ sa xq) = false ∧
      rd s' (SA +ₚ xq) = Some (markL Tl (at_ sa xq)) ∧
      (∀ x, 0 ≤ x < n → x ≠ i → x ≠ xq → rd s' (SA +ₚ x) = rd s (SA +ₚ x))
  end →
  Lcells s' SA Tl sa seed (i + 1).
Proof using Hsa Hseed.
  intros Hi HC Hrd Hrd' Hw x Hx. destruct (HC x Hx) as (vx & Hvx & Hspec).
  destruct (Z.eq_dec x i) as [->|Hxi].
  { exists (Z.lnot v). split; [done|]. assert (vx = v) as -> by congruence.
    destruct (is_S false Tl (at_ sa i)) eqn:ES.
    - rewrite Z.ltb_irrefl in Hspec. subst v.
      by replace (i <? i + 1) with true by (symmetry; apply Z.ltb_lt; lia).
    - destruct Hspec as (_ & H2 & _). split_and!; [|intros; lia..].
      intros _. rewrite H2; [done|lia|]. by apply WL_self. }
  assert (Hcase : ∀ vx', rd s' (SA +ₚ x) = Some vx' →
            (vx' = vx ∧ (is_S false Tl (at_ sa x) = false →
                         scan_val Tl sa seed i ≠ Some (at_ sa x + 1))) ∨
            (is_S false Tl (at_ sa x) = false ∧ i < x ∧
             scan_val Tl sa seed i = Some (at_ sa x + 1) ∧
             vx' = markL Tl (at_ sa x))).
  { intros vx' Hvx'. destruct w as [xq|].
    - destruct Hw as (Hsv & Hxq & HLq & Hrq & Hoth).
      destruct (Z.eq_dec x xq) as [->|Hne].
      + right. split_and!; [done|lia|done|congruence].
      + left. split; [rewrite Hoth in Hvx' by done; congruence|].
        intros _ E. rewrite Hsv in E. injection E as E.
        apply Hne. apply (sa_inj Tl sa Hsa); [done|lia|lia].
    - destruct Hw as (Hno & Hoth). left.
      split; [rewrite Hoth in Hvx' by done; congruence|].
      intros HLx. by apply Hno. }
  assert (∃ vx', rd s' (SA +ₚ x) = Some vx') as [vx' Hvx'].
  { destruct w as [xq|].
    - destruct Hw as (_ & _ & _ & Hrq & Hoth).
      destruct (Z.eq_dec x xq) as [->|Hne]; [eauto|].
      rewrite Hoth by done. eauto.
    - destruct Hw as (_ & Hoth). rewrite Hoth by done. eauto. }
  exists vx'. split; [done|].
  destruct (Hcase vx' Hvx') as [[-> Hno]|(HLx & Hix & Hsv & ->)].
  - destruct (is_S false Tl (at_ sa x)) eqn:ES.
    + rewrite Hspec. destruct (Z.ltb_spec x i), (Z.ltb_spec x (i + 1)); (done || (exfalso; lia)).
    + destruct Hspec as (H1 & H2 & H3). split_and!.
      * intros ?. apply H1. lia.
      * intros ? HW. apply H2; [lia|]. apply WL_step in HW; [|lia].
        destruct HW as [HW|HW]; [done|]. by apply Hno in HW.
      * intros ? HW. apply H3; [lia|]. intros HW'. apply HW.
        apply WL_step; [lia|]. by left.
  - rewrite HLx. split_and!; [intros; lia|done|].
    intros _ HW. exfalso. apply HW. apply WL_step; [lia|]. by right.
Qed.

Lemma first_pass_step s i b c1 :
  0 ≤ i < n →
  valid_buf s SA n → valid_buf s B k → holds s T n (at_ Tl) →
  Lcells s SA Tl sa seed i → Lbuckets s B Tl sa seed k i b c1 →
  sat (j ← load (SA +ₚ i);
       store (SA +ₚ i) (Z.lnot j);;
       if 0 <? j then
         let j := j - 1 in
         x ← chr T cs j; y ← chr T cs (j + 1);
         assert_ 324 (y <=? x);;
         c0 ← chr T cs j;
         '(b, c1) ← switch_bucket B c0 c1 b;
         assert_ 329 (i <? b);;
         f ← (if 0 <? j then cj ← chr T cs (j - 1); mret (cj <? c1)
              else mret false);
         store (SA +ₚ b) (if f : bool then Z.lnot j else j);;
         mret (b + 1, c1)
       else mret (b, c1)) s
      (ok (λ '(b', c1') s',
             valid_buf s' SA n ∧ valid_buf s' B k ∧ holds s' T n (at_ Tl) ∧
             Lcells s' SA Tl sa seed (i + 1) ∧
             Lbuckets s' B Tl sa seed k (i + 1) b' c1' ∧
             frame2 s s' SA n B k)).
Proof using Hsa Hseed HF HdT HdB HdTB.
  intros Hi HvSA HvB HT HC HBk.
  destruct (Lcells_read s i Hi HC) as (v & Hv & Hpos & Hneg).
  eapply sat_load_bind; [done|].
  assert (HvSAi : valid_buf s (SA +ₚ i) 1) by (eapply valid_buf_cell; [done|lia]).
  eapply sat_store_bind; [done|].
  set (s1 := wr s (SA +ₚ i) (Z.lnot v)).
  assert (HT1 : holds s1 T n (at_ Tl)).
  { apply holds_wr_other; [done|]. intros t Ht. by eapply disjoint_ne. }
  assert (HB1 : ∀ c, 0 ≤ c < k → rd s1 (B +ₚ c) = rd s (B +ₚ c)).
  { intros c Hc. apply rd_wr_ne. by eapply disjoint_ne. }
  assert (HSA1 : ∀ x, 0 ≤ x < n → x ≠ i → rd s1 (SA +ₚ x) = rd s (SA +ₚ x)).
  { intros x Hx Hne. apply rd_wr_ne. intros E%padd_inj. lia. }
  assert (HSAi : rd s1 (SA +ₚ i) = Some (Z.lnot v)) by by apply rd_wr_eq.
  destruct HBk as (Hc1 & bp & Hbp1 & HBc & Hlow & Hiff).
  destruct (Z.ltb_spec 0 v) as [Hv0|Hv0].
  - (* a suffix to induce from *)
    destruct (Hpos Hv0) as (Hsv & HLq & Hchar). cbv zeta.
    destruct (scan_val_cases Tl sa seed Hsa Hseed i v Hi Hsv) as (Hvr & _ & _).
    pose proof (at_range Tl k (v - 1) HF ltac:(lia)) as Hc0.
    eapply sat_chr_bind; [apply HT1; lia|].
    eapply sat_chr_bind; [apply HT1; lia|].
    replace (v - 1 + 1) with v by lia.
    apply sat_assert_bind; [apply Z.leb_le; lia|].
    eapply sat_chr_bind; [apply HT1; lia|].
    eapply sat_ok_bind.
    { apply (switch_bucket_ok s1 B k b c1 (at_ Tl (v - 1)) bp);
        [by apply valid_buf_wr|done|done|done|].
      intros c Hc Hne. rewrite HB1 by done. by apply HBc. }
    intros [b' c1'] s2 (-> & -> & HBc2 & F2).
    destruct (L_target Tl sa seed Hsa Hseed i v bp Hi Hsv Hv0 HLq (Hlow _) Hiff)
      as (Hixq & Hxqn & Hsxq).
    set (xq := bp (at_ Tl (v - 1))) in *.
    assert (0 ≤ xq) by lia.
    apply sat_assert_bind; [apply Z.ltb_lt; lia|].
    assert (HT2 : holds s2 T n (at_ Tl)) by by eapply frame_holds.
    assert (HSA2 : ∀ x, 0 ≤ x < n → rd s2 (SA +ₚ x) = rd s1 (SA +ₚ x)).
    { intros x Hx. destruct F2 as [_ F2]. apply F2.
      intros c Hc. apply not_eq_sym. by eapply disjoint_ne. }
    assert (HvSA2 : valid_buf s2 SA n).
    { eapply frame_valid_buf; [done|]. by apply valid_buf_wr. }
    assert (HvB2 : valid_buf s2 B k).
    { eapply frame_valid_buf; [done|]. by apply valid_buf_wr. }
    assert (HvSAq : valid_buf s2 (SA +ₚ xq) 1) by (eapply valid_buf_cell; [done|lia]).
    eapply sat_ok_bind.
    { instantiate (1 := λ f s', s' = s2 ∧
        (if f : bool then Z.lnot (v - 1) else v - 1) = markL Tl (v - 1)).
      unfold markL. destruct (Z.ltb_spec 0 (v - 1)); simpl.
      - eapply sat_chr_bind; [apply HT2; lia|]. by apply sat_ok_ret.
      - by apply sat_ok_ret. }
    intros f s2' [-> Hf]. rewrite Hf.
    eapply sat_store_bind; [done|]. apply sat_ok_ret.
    set (s3 := wr s2 (SA +ₚ xq) (markL Tl (v - 1))).
    split_and!.
    + by apply valid_buf_wr.
    + by apply valid_buf_wr.
    + apply holds_wr_other; [done|]. intros t Ht. by eapply disjoint_ne.
    + apply (Lcells_next s s3 i v (Some xq)); [done|done|done| |].
      * unfold s3. rewrite rd_wr_ne by (intros E%padd_inj; lia).
        rewrite HSA2 by done. done.
      * rewrite Hsxq. replace (v - 1 + 1) with v by lia.
        split_and!; [done|lia|lia|done|by apply rd_wr_eq|].
        intros x Hx Hne1 Hne2. unfold s3.
        rewrite rd_wr_ne by (intros E%padd_inj; lia).
        rewrite HSA2 by done. by apply HSA1.
    + split; [done|].
      exists (λ c, if c =? at_ Tl (v - 1) then xq + 1 else bp c).
      split_and!.
      * by rewrite Z.eqb_refl.
      * intros c Hc Hne. destruct (Z.eqb_spec c (at_ Tl (v - 1))); [done|].
        unfold s3. rewrite rd_wr_ne by (eapply disjoint_ne; [exact HdB|lia|lia]).
        by apply HBc2.
      * intros c. destruct (Z.eqb_spec c (at_ Tl (v - 1))) as [->|]; [|done].
        specialize (Hlow (at_ Tl (v - 1))). lia.
      * intros x Hx. rewrite WL_step by lia.
        assert (scan_val Tl sa seed i = Some (at_ sa x + 1) ↔ x = xq) as Hq.
        { rewrite Hsv. split.
          - intros [= E]. apply (sa_inj Tl sa Hsa); [done|lia|]. lia.
          - intros ->. f_equal. lia. }
        rewrite Hq. specialize (Hiff x Hx).
        destruct (Z.eqb_spec (at_ Tl (at_ sa x)) (at_ Tl (v - 1))) as [Hc|Hc].
        -- rewrite Hc in Hiff. fold xq in Hiff. split.
           ++ intros [HL [HW| ->]]; [|lia]. apply proj1 in Hiff.
              specialize (Hiff (conj HL HW)). lia.
           ++ intros Hlt. destruct (Z.eq_dec x xq) as [->|Hne].
              ** split; [by rewrite Hsxq|by right].
              ** destruct (proj2 Hiff ltac:(lia)) as [HL HW].
                 split; [done|by left].
        -- rewrite <- Hiff. split.
           ++ intros [HL [HW| ->]]; [done|]. by rewrite Hsxq in Hc.
           ++ intros [HL HW]. split; [done|by left].
    + apply (frame2_trans _ s1); [apply frame2_l, frame_wr; lia|].
      apply (frame2_trans _ s2); [by apply frame2_r|].
      apply frame2_l, frame_wr; lia.
  - (* nothing to induce *)
    apply sat_ok_ret. specialize (Hneg Hv0).
    split_and!.
    + by apply valid_buf_wr.
    + by apply valid_buf_wr.
    + done.
    + by apply (Lcells_next s s1 i v None).
    + split; [done|]. exists bp. split_and!; [done| |done|].
      * intros c Hc Hne. rewrite HB1 by done. by apply HBc.
      * intros x Hx. rewrite WL_step by lia. rewrite <- (Hiff x Hx).
        split; [|intros [HL HW]; split; [done|by left]].
        intros [HL [HW|HW]]; [done|]. by apply Hneg in HW.
    + apply frame2_l, frame_wr; lia.
Qed.

Lemma first_pass_loop s b c1 :
  valid_buf s SA n → valid_buf s B k → holds s T n (at_ Tl) →
  Lcells s SA Tl sa seed 0 → Lbuckets s B Tl sa seed k 0 b c1 →
  sat (for_up (Z.to_nat n) 0
         (λ i '(b, c1),
            j ← load (SA +ₚ i);
            store (SA +ₚ i) (Z.lnot j);;
            if 0 <? j then
              let j := j - 1 in
              x ← chr T cs j; y ← chr T cs (j + 1);
              assert_ 324 (y <=? x);;
              c0 ← chr T cs j;
              '(b, c1) ← switch_bucket B c0 c1 b;
              assert_ 329 (i <? b);;
              f ← (if 0 <? j then cj ← chr T cs (j - 1); mret (cj <? c1)
                   else mret false);
              store (SA +ₚ b) (if f : bool then Z.lnot j else j);;
              mret (b + 1, c1)
            else mret (b, c1))
         (b, c1)) s
      (ok (λ _ s',
             valid_buf s' SA n ∧ valid_buf s' B k ∧ holds s' T n (at_ Tl) ∧
             Lcells s' SA Tl sa seed n ∧ frame2 s s' SA n B k)).
Proof using Hsa Hseed HF HdT HdB HdTB.
  intros HvSA HvB HT HC HBk. eapply sat_ok_mono.
  { apply (for_up_ok
             (λ t '(b, c1) s',
                valid_buf s' SA n ∧ valid_buf s' B k ∧ holds s' T n (at_ Tl) ∧
                Lcells s' SA Tl sa seed (Z.of_nat t) ∧
                Lbuckets s' B Tl sa seed k (Z.of_nat t) b c1 ∧
                frame2 s s' SA n B k)).
    - split_and!; [done..|apply frame2_refl].
    - intros t [b' c1'] s1 Ht (H1 & H2 & H3 & H4 & H5 & H6). rewrite Z.add_0_l.
      eapply sat_ok_mono; [apply (first_pass_step s1 (Z.of_nat t) b' c1'); (done || lia)|].
      intros [b2 c2] s2 (G1 & G2 & G3 & G4 & G5 & G6).
      replace (Z.of_nat (S t)) with (Z.of_nat t + 1) by lia.
      split_and!; [done..|by eapply frame2_trans]. }
  intros [b' c1'] s1 (H1 & H2 & H3 & H4 & _ & H6).
  rewrite Z2Nat.id in H4 by lia. done.
Qed.

(** The state after the last suffix has been put at the start of its
    bucket. *)
Lemma first_pass_init s :
  0 < n → valid_buf s SA n → holds s SA n seed →
  holds s B k (λ c, count_if (λ a, a <? c) Tl) →
  let x0 := count_if (λ a, a <? at_ Tl (n - 1)) Tl in
  let s1 := wr s (SA +ₚ x0) (markL Tl (n - 1)) in
  0 ≤ x0 < n ∧
  Lcells s1 SA Tl sa seed 0 ∧
  Lbuckets s1 B Tl sa seed k 0 (x0 + 1) (at_ Tl (n - 1)).
Proof using Hsa Hseed HF HdB HdT HdTB.
  intros Hn HvSA HSA HB x0 s1.
  destruct (bucket_first Tl sa Hsa Hn) as [Hx0 Hs0]. fold x0 in Hx0, Hs0.
  assert (HvSA0 : valid_buf s (SA +ₚ x0) 1) by (eapply valid_buf_cell; [done|lia]).
  assert (HW0 : ∀ x, 0 ≤ x < n → WL Tl sa seed 0 x ↔ x = x0).
  { intros x Hx. split.
    - intros [E|(y & Hy & _)]; [|lia]. apply (sa_inj Tl sa Hsa); [done..|congruence].
    - intros ->. by left. }
  assert (HL0 : is_S false Tl (at_ sa x0) = false).
  { rewrite Hs0. apply is_S_last. intros ->. simpl in *. lia. }
  split; [done|]. split.
  - intros x Hx. destruct (Z.eq_dec x x0) as [->|Hne].
    + exists (markL Tl (n - 1)). split; [by apply rd_wr_eq|].
      rewrite HL0. split_and!; [intros; lia|by rewrite Hs0|].
      intros _ HW. exfalso. apply HW. by apply HW0.
    + exists (seed x). split.
      { unfold s1. rewrite rd_wr_ne by (intros E%padd_inj; lia). by apply HSA. }
      destruct (is_S false Tl (at_ sa x)) eqn:ES.
      * by destruct (Z.ltb_spec x 0); [lia|].
      * assert (seed x = 0) as Hz.
        { destruct (Z.eq_dec (seed x) 0) as [|Hnz]; [done|].
          destruct Hseed as (H1 & _). destruct (H1 x Hx Hnz) as (_ & ? & _).
          congruence. }
        split_and!; [intros; lia| |done].
        intros _ HW. apply HW0 in HW; [|done]. done.
  - split; [apply at_range; [done|lia]|].
    exists (λ c, if c =? at_ Tl (n - 1) then x0 + 1
                 else count_if (λ a, a <? c) Tl).
    split_and!.
    + by rewrite Z.eqb_refl.
    + intros c Hc Hne. destruct (Z.eqb_spec c (at_ Tl (n - 1))); [done|].
      unfold s1. rewrite rd_wr_ne by (eapply disjoint_ne; [exact HdB|lia|lia]).
      by apply HB.
    + intros c. destruct (Z.eqb_spec c (at_ Tl (n - 1))) as [->|]; [|done].
      fold x0. lia.
    + intros x Hx. rewrite HW0 by done.
      pose proof (bucket_lower Tl sa Hsa x Hx) as Hlo.
      destruct (Z.eqb_spec (at_ Tl (at_ sa x)) (at_ Tl (n - 1))) as [Hc|Hc].
      * rewrite Hc in Hlo. fold x0 in Hlo. split.
        -- intros [_ ->]. lia.
        -- intros Hlt. assert (x = x0) as -> by lia. done.
      * split; [|lia]. intros [_ ->]. by rewrite Hs0 in Hc.
Qed.

End first_pass_code.

(** ** The second pass of [induceSA] *)

Section second_pass.
Variables (Tl sa : list Z).
Hypothesis Hsa : is_suffix_array Tl sa = true.
Notation n := (Z.of_nat (length Tl)).

(** The cell of an S-type suffix is written before the pass comes to it. *)
Lemma WS_self x :
  0 ≤ x < n → is_S false Tl (at_ sa x) = true → WS Tl sa x x.
Proof using Hsa.
  intros Hx HS. pose proof (sa_range Tl sa Hsa x Hx) as Hr.
  apply is_S_range in HS as Hq.
  destruct (sa_surj Tl sa Hsa (at_ sa x + 1) ltac:(lia)) as (y & Hy & Hsy).
  exists y. split; [|done]. split; [|lia].
  apply (sa_reflect Tl sa Hsa); [done..|]. rewrite Hsy. by apply S_sfx.
Qed.

Lemma WS_step i x :
  i < n →
  WS Tl sa (i - 1) x ↔ WS Tl sa i x ∨ at_ sa i = at_ sa x + 1.
Proof using.
  intros Hi. unfold WS. split.
  - intros (y & Hy & Hv). destruct (Z.eq_dec y i) as [->|]; [by right|].
    left. exists y. split; [lia|done].
  - intros [(y & Hy & Hv)|Hv].
    + exists y. split; [lia|done].
    + exists i. split; [lia|done].
Qed.

(** The pass writes the suffix before the one it meets into the cell that
    the suffix array gives it, which lies before. *)
Lemma S_target i (bp : Z → Z) :
  0 ≤ i < n → 0 < at_ sa i →
  is_S false Tl (at_ sa i - 1) = true →
  bp (at_ Tl (at_ sa i - 1)) ≤ count_if (λ a, a <=? at_ Tl (at_ sa i - 1)) Tl →
  (∀ x, 0 ≤ x < n →
        (is_S false Tl (at_ sa x) = true ∧ WS Tl sa i x)
        ↔ bp (at_ Tl (at_ sa x)) ≤ x) →
  let xq := bp (at_ Tl (at_ sa i - 1)) - 1 in
  0 ≤ xq ∧ xq < i ∧ at_ sa xq = at_ sa i - 1.
Proof using Hsa.
  intros Hi Hpos HS Hup Hbp xq. set (v := at_ sa i) in *.
  pose proof (sa_range Tl sa Hsa i Hi) as Hr. fold v in Hr.
  destruct (sa_surj Tl sa Hsa (v - 1) ltac:(lia)) as (x & Hx & Hsx).
  assert (x < i) as Hxi.
  { apply (sa_reflect Tl sa Hsa); [done..|]. rewrite Hsx. fold v.
    pose proof (S_sfx Tl (v - 1) ltac:(lia) HS) as H.
    by replace (v - 1 + 1) with v in H by lia. }
  assert (¬ WS Tl sa i x) as HnW.
  { intros (y & Hy & Hvy). rewrite Hsx in Hvy.
    assert (y = i); [|lia]. apply (sa_inj Tl sa Hsa); [lia|done|]. fold v. lia. }
  assert (x ≤ xq) as Hle.
  { pose proof (Hbp x Hx) as Hb. rewrite Hsx in Hb.
    destruct (Z.lt_ge_cases xq x) as [Hlt|]; [|lia].
    destruct (proj2 Hb ltac:(unfold xq in Hlt; lia)) as [_ HW]. by apply HnW in HW. }
  destruct (Z.eq_dec xq x) as [E|Hne]; [rewrite E; split_and!; [lia|done|done]|].
  exfalso.
  pose proof (count_if_le_length (λ a, a <=? at_ Tl (v - 1)) Tl) as Hlen.
  pose proof (bucket_lower Tl sa Hsa x Hx) as Hlo. rewrite Hsx in Hlo.
  assert (Hxq : 0 ≤ xq < n) by (unfold xq in *; lia).
  pose proof (bucket_char Tl sa Hsa xq (at_ Tl (v - 1)) Hxq
                ltac:(lia) ltac:(unfold xq; lia)) as Hc.
  pose proof (sa_range Tl sa Hsa xq Hxq) as Hrq.
  pose proof (sa_sorted Tl sa Hsa x xq ltac:(lia) ltac:(lia) ltac:(lia)) as Hlt.
  rewrite Hsx in Hlt.
  assert (is_S false Tl (at_ sa xq) = true) as HSq.
  { destruct (is_S false Tl (at_ sa xq)) eqn:EL; [done|].
    pose proof (L_before_S Tl (at_ sa xq) (v - 1) Hrq ltac:(lia) EL HS Hc) as H'.
    apply sfx_lt_asym in H'. congruence. }
  assert (¬ WS Tl sa i xq) as HnWq.
  { intros HW. pose proof (proj1 (Hbp xq Hxq) (conj HSq HW)) as Hb.
    rewrite Hc in Hb. unfold xq in Hb. lia. }
  apply HnWq. apply is_S_range in HSq as Hq'.
  destruct (sa_surj Tl sa Hsa (at_ sa xq + 1) ltac:(lia)) as (y & Hy & Hsy).
  exists y. split; [|done]. split; [|lia].
  apply (sa_reflect Tl sa Hsa); [done..|]. rewrite Hsy. fold v.
  rewrite sfx_lt_same_char in Hlt by (lia || done).
  by replace (v - 1 + 1) with v in Hlt by lia.
Qed.

(** What the pass reads in the cell it comes to. *)
Lemma S_read i v :
  0 ≤ i < n →
  (is_S false Tl (at_ sa i) = true → v = markS Tl (at_ sa i)) →
  (is_S false Tl (at_ sa i) = false → v = Z.lnot (markL Tl (at_ sa i))) →
  (0 < v → v = at_ sa i ∧ is_S false Tl (v - 1) = true ∧
           at_ Tl (v - 1) ≤ at_ Tl v) ∧
  (v ≤ 0 → Z.lnot v = at_ sa i ∧
           ∀ x, 0 ≤ x < n → is_S false Tl (at_ sa x) = true →
                at_ sa i ≠ at_ sa x + 1).
Proof using Hsa.
  intros Hi HS HL. pose proof (sa_range Tl sa Hsa i Hi) as Hr.
  set (j := at_ sa i) in *.
  assert (Hstep : 0 < j → at_ Tl j < at_ Tl (j - 1) → is_S false Tl (j - 1) = false).
  { intros ??. apply is_S_gt; [lia|lia|].
    by replace (j - 1 + 1) with j by lia. }
  assert (Hstep' : 0 < j → at_ Tl (j - 1) < at_ Tl j → is_S false Tl (j - 1) = true).
  { intros ??. apply is_S_lt; [lia|lia|].
    by replace (j - 1 + 1) with j by lia. }
  assert (Hsame : 0 < j → at_ Tl (j - 1) = at_ Tl j →
                  is_S false Tl (j - 1) = is_S false Tl j).
  { intros ? E. rewrite is_S_eq; [|lia|lia|].
    - by replace (j - 1 + 1) with j by lia.
    - by replace (j - 1 + 1) with j by lia. }
  assert (Hno : (0 < j → is_S false Tl (j - 1) = false) →
                ∀ x, 0 ≤ x < n → is_S false Tl (at_ sa x) = true → j ≠ at_ sa x + 1).
  { intros H x Hx HSx E. pose proof (sa_range Tl sa Hsa x Hx).
    replace (at_ sa x) with (j - 1) in HSx by lia.
    rewrite H in HSx; [done|lia]. }
  destruct (is_S false Tl j) eqn:E.
  - rewrite (HS eq_refl). clear HS HL. unfold markS.
    destruct (Z.eqb_spec j 0) as [H0|H0]; simpl.
    + split; [unfold Z.lnot; lia|]. intros _.
      split; [unfold Z.lnot; lia|]. apply Hno. lia.
    + destruct (Z.ltb_spec (at_ Tl j) (at_ Tl (j - 1))) as [Hlt|Hge].
      * split; [unfold Z.lnot; lia|]. intros _.
        split; [unfold Z.lnot; lia|]. apply Hno. intros ?. by apply Hstep.
      * split; [|lia]. intros _. split_and!; [done| |done].
        destruct (Z.eq_dec (at_ Tl (j - 1)) (at_ Tl j)) as [Heq|Hne].
        -- rewrite Hsame by (lia || done). done.
        -- apply Hstep'; lia.
  - rewrite (HL eq_refl). clear HS HL. unfold markL.
    destruct (Z.ltb_spec 0 j) as [Hpos|H0]; simpl.
    + destruct (Z.ltb_spec (at_ Tl (j - 1)) (at_ Tl j)) as [Hlt|Hge].
      * replace (Z.lnot (Z.lnot j)) with j by (unfold Z.lnot; lia).
        split; [|lia]. intros _.
        split_and!; [done|by apply Hstep'|lia].
      * split; [unfold Z.lnot; lia|]. intros _. split; [unfold Z.lnot; lia|].
        apply Hno. intros _.
        destruct (Z.eq_dec (at_ Tl (j - 1)) (at_ Tl j)) as [Heq|Hne].
        -- rewrite Hsame by (lia || done). done.
        -- apply Hstep; lia.
    + split; [unfold Z.lnot; lia|]. intros _. split; [unfold Z.lnot; lia|].
      apply Hno. lia.
Qed.

End second_pass.

(** ** The second pass of [induceSA], as the code runs it *)

Section second_pass_code.
Variables (T SA B : ptr) (Tl sa : list Z) (seed : Z → Z) (k cs : Z).
Hypothesis Hsa : is_suffix_array Tl sa = true.
Hypothesis HF : Forall (λ c, 0 ≤ c < k) Tl.
Hypothesis HdT : disjoint T (Z.of_nat (length Tl)) SA (Z.of_nat (length Tl)).
Hypothesis HdB : disjoint B k SA (Z.of_nat (length Tl)).
Hypothesis HdTB : disjoint T (Z.of_nat (length Tl)) B k.
Notation n := (Z.of_nat (length Tl)).

Lemma Scells_read s i :
  0 ≤ i < n → Scells s SA Tl sa seed i →
  ∃ v, rd s (SA +ₚ i) = Some v ∧
       (0 < v → v = at_ sa i ∧ is_S false Tl (v - 1) = true ∧
                at_ Tl (v - 1) ≤ at_ Tl v) ∧
       (v ≤ 0 → Z.lnot v = at_ sa i ∧
                ∀ x, 0 ≤ x < n → is_S false Tl (at_ sa x) = true →
                     at_ sa i ≠ at_ sa x + 1).
Proof using Hsa.
  intros Hi HC. destruct (HC i Hi) as (v & Hv & _ & Hspec).
  specialize (Hspec ltac:(lia)).
  exists v. split; [done|]. apply S_read; [done..| |].
  - intros E. rewrite E in Hspec. destruct Hspec as [H1 _].
    apply H1. by apply WS_self.
  - intros E. by rewrite E in Hspec.
Qed.

Lemma Scells_next s s' i (w : option Z) :
  0 ≤ i < n → Scells s SA Tl sa seed i →
  rd s' (SA +ₚ i) = Some (at_ sa i) →
  match w with
  | None =>
      (∀ x, 0 ≤ x < n → is_S false Tl (at_ sa x) = true →
            at_ sa i ≠ at_ sa x + 1) ∧
      (∀ x, 0 ≤ x < n → x ≠ i → rd s' (SA +ₚ x) = rd s (SA +ₚ x))
  | Some xq =>
      at_ sa i = at_ sa xq + 1 ∧ 0 ≤ xq < i ∧
      is_S false Tl (at_ sa xq) = true ∧
      rd s' (SA +ₚ xq) = Some (markS Tl (at_ sa xq)) ∧
      (∀ x, 0 ≤ x < n → x ≠ i → x ≠ xq → rd s' (SA +ₚ x) = rd s (SA +ₚ x))
  end →
  Scells s' SA Tl sa seed (i - 1).
Proof using Hsa.
  intros Hi HC Hrd' Hw x Hx. destruct (HC x Hx) as (vx & Hvx & Hspec1 & Hspec2).
  destruct (Z.eq_dec x i) as [->|Hxi].
  { exists (at_ sa i). split; [done|]. split; [done|]. intros ?. lia. }
  assert (Hcase : (rd s' (SA +ₚ x) = Some vx ∧
                   (is_S false Tl (at_ sa x) = true → at_ sa i ≠ at_ sa x + 1)) ∨
                  (is_S false Tl (at_ sa x) = true ∧ x < i ∧
                   at_ sa i = at_ sa x + 1 ∧
                   rd s' (SA +ₚ x) = Some (markS Tl (at_ sa x)))).
  { destruct w as [xq|].
    - destruct Hw as (Hsv & Hxq & HSq & Hrq & Hoth).
      destruct (Z.eq_dec x xq) as [->|Hne].
      + right. split_and!; [done|lia|done|done].
      + left. split; [by rewrite Hoth|].
        intros _ E. apply Hne. apply (sa_inj Tl sa Hsa); [done|lia|lia].
    - destruct Hw as (Hno & Hoth). left. split; [by rewrite Hoth|].
      intros HSx. by apply Hno. }
  destruct Hcase as [[Hrd Hno]|(HSx & Hix & Hsv & Hrd)].
  - exists vx. split; [done|]. split.
    + intros ?. apply Hspec1. lia.
    + intros ?. specialize (Hspec2 ltac:(lia)).
      destruct (is_S false Tl (at_ sa x)) eqn:ES; [|done].
      destruct Hspec2 as [H1 H2]. split.
      * intros HW. apply H1. apply WS_step in HW; [|lia].
        destruct HW as [HW|HW]; [done|]. by apply Hno in HW.
      * intros HW. apply H2. intros HW'. apply HW.
        apply WS_step; [lia|]. by left.
  - exists (markS Tl (at_ sa x)). split; [done|]. split; [intros; lia|].
    intros _. rewrite HSx. split; [done|].
    intros HW. exfalso. apply HW. apply WS_step; [lia|]. by right.
Qed.

Lemma second_pass_step s i b c1 :
  0 ≤ i < n →
  valid_buf s SA n → valid_buf s B k → holds s T n (at_ Tl) →
  Scells s SA Tl sa seed i → Sbuckets s B Tl sa k i b c1 →
  sat (j ← load (SA +ₚ i);
       if 0 <? j then
         let j := j - 1 in
         x ← chr T cs j; y ← chr T cs (j + 1);
         assert_ 342 (x <=? y);;
         c0 ← chr T cs j;
         '(b, c1) ← switch_bucket B c0 c1 b;
         assert_ 347 (b <=? i);;
         f ← (if j =? 0 then mret true
              else cj ← chr T cs (j - 1); mret (c1 <? cj));
         let b := b - 1 in
         store (SA +ₚ b) (if f : bool then Z.lnot j else j);;
         mret (b, c1)
       else
         store (SA +ₚ i) (Z.lnot j);; mret (b, c1)) s
      (ok (λ '(b', c1') s',
             valid_buf s' SA n ∧ valid_buf s' B k ∧ holds s' T n (at_ Tl) ∧
             Scells s' SA Tl sa seed (i - 1) ∧
             Sbuckets s' B Tl sa k (i - 1) b' c1' ∧
             frame2 s s' SA n B k)).
Proof using Hsa HF HdT HdB HdTB.
  intros Hi HvSA HvB HT HC HBk.
  destruct (Scells_read s i Hi HC) as (v & Hv & Hpos & Hneg).
  eapply sat_load_bind; [done|].
  destruct HBk as (Hc1 & bp & Hbp1 & HBc & Hup & Hiff).
  destruct (Z.ltb_spec 0 v) as [Hv0|Hv0].
  - (* a suffix to induce from *)
    destruct (Hpos Hv0) as (Hsv & HSq & Hchar). cbv zeta.
    pose proof (sa_range Tl sa Hsa i Hi) as Hvr. rewrite <- Hsv in Hvr.
    pose proof (at_range Tl k (v - 1) HF ltac:(lia)) as Hc0.
    eapply sat_chr_bind; [apply HT; lia|].
    eapply sat_chr_bind; [apply HT; lia|].
    replace (v - 1 + 1) with v by lia.
    apply sat_assert_bind; [apply Z.leb_le; lia|].
    eapply sat_chr_bind; [apply HT; lia|].
    eapply sat_ok_bind.
    { by apply (switch_bucket_ok s B k b c1 (at_ Tl (v - 1)) bp). }
    intros [b' c1'] s2 (-> & -> & HBc2 & F2).
    assert (HS' : is_S false Tl (at_ sa i - 1) = true) by by rewrite <- Hsv.
    destruct (S_target Tl sa Hsa i bp Hi ltac:(lia) HS' (Hup _) Hiff)
      as (Hxq0 & Hxqi & Hsxq).
    rewrite <- Hsv in Hxq0, Hxqi, Hsxq.
    set (xq := bp (at_ Tl (v - 1)) - 1) in *.
    apply sat_assert_bind; [apply Z.leb_le; lia|].
    assert (HT2 : holds s2 T n (at_ Tl)) by by eapply frame_holds.
    assert (HSA2 : ∀ x, 0 ≤ x < n → rd s2 (SA +ₚ x) = rd s (SA +ₚ x)).
    { intros x Hx. destruct F2 as [_ F2]. apply F2.
      intros c Hc. apply not_eq_sym. by eapply disjoint_ne. }
    assert (HvSA2 : valid_buf s2 SA n) by by eapply frame_valid_buf.
    assert (HvB2 : valid_buf s2 B k) by by eapply frame_valid_buf.
    assert (HvSAq : valid_buf s2 (SA +ₚ xq) 1) by (eapply valid_buf_cell; [done|lia]).
    eapply sat_ok_bind.
    { instantiate (1 := λ f s', s' = s2 ∧
        (if f : bool then Z.lnot (v - 1) else v - 1) = markS Tl (v - 1)).
      unfold markS. destruct (Z.eqb_spec (v - 1) 0); simpl.
      - by apply sat_ok_ret.
      - eapply sat_chr_bind; [apply HT2; lia|]. by apply sat_ok_ret. }
    intros f s2' [-> Hf]. rewrite Hf. cbv zeta. fold xq.
    eapply sat_store_bind; [done|]. apply sat_ok_ret.
    set (s3 := wr s2 (SA +ₚ xq) (markS Tl (v - 1))).
    split_and!.
    + by apply valid_buf_wr.
    + by apply valid_buf_wr.
    + apply holds_wr_other; [done|]. intros t Ht.
      eapply disjoint_ne; [exact HdT|lia|lia].
    + apply (Scells_next s s3 i (Some xq)); [done|done| |].
      * unfold s3. rewrite rd_wr_ne by (intros E%padd_inj; lia).
        rewrite HSA2 by done. by rewrite Hv, Hsv.
      * rewrite Hsxq. split_and!; [lia|lia|lia|done|by apply rd_wr_eq|].
        intros x Hx Hne1 Hne2. unfold s3.
        rewrite rd_wr_ne by (intros E%padd_inj; lia).
        by apply HSA2.
    + split; [done|].
      exists (λ c, if c =? at_ Tl (v - 1) then xq else bp c).
      split_and!.
      * by rewrite Z.eqb_refl.
      * intros c Hc Hne. destruct (Z.eqb_spec c (at_ Tl (v - 1))); [done|].
        unfold s3. rewrite rd_wr_ne by (eapply disjoint_ne; [exact HdB|lia|lia]).
        by apply HBc2.
      * intros c. destruct (Z.eqb_spec c (at_ Tl (v - 1))) as [->|]; [|done].
        specialize (Hup (at_ Tl (v - 1))). unfold xq. lia.
      * intros x Hx. rewrite WS_step by lia.
        assert (at_ sa i = at_ sa x + 1 ↔ x = xq) as Hq.
        { rewrite <- Hsv. split.
          - intros E. apply (sa_inj Tl sa Hsa); [done|lia|]. lia.
          - intros ->. lia. }
        rewrite Hq. specialize (Hiff x Hx).
        destruct (Z.eqb_spec (at_ Tl (at_ sa x)) (at_ Tl (v - 1))) as [Hc|Hc].
        -- rewrite Hc in Hiff. split.
           ++ intros [HS [HW| ->]]; [|lia]. apply proj1 in Hiff.
              specialize (Hiff (conj HS HW)). unfold xq. lia.
           ++ intros Hlt. destruct (Z.eq_dec x xq) as [->|Hne].
              ** split; [by rewrite Hsxq|by right].
              ** destruct (proj2 Hiff ltac:(unfold xq in *; lia)) as [HS HW].
                 split; [done|by left].
        -- rewrite <- Hiff. split.
           ++ intros [HS [HW| ->]]; [done|]. by rewrite Hsxq in Hc.
           ++ intros [HS HW]. split; [done|by left].
    + apply (frame2_trans _ s2); [by apply frame2_r|].
      apply frame2_l, frame_wr; lia.
  - (* nothing to induce *)
    destruct (Hneg Hv0) as [Hsv Hno].
    assert (HvSAi : valid_buf s (SA +ₚ i) 1) by (eapply valid_buf_cell; [done|lia]).
    eapply sat_store_bind; [done|]. apply sat_ok_ret.
    set (s1 := wr s (SA +ₚ i) (Z.lnot v)).
    split_and!.
    + by apply valid_buf_wr.
    + by apply valid_buf_wr.
    + apply holds_wr_other; [done|]. intros t Ht.
      eapply disjoint_ne; [exact HdT|lia|lia].
    + apply (Scells_next s s1 i None); [done|done| |].
      * unfold s1. rewrite rd_wr_eq by done. by rewrite Hsv.
      * split; [done|]. intros x Hx Hne. apply rd_wr_ne.
        intros E%padd_inj. lia.
    + split; [done|]. exists bp. split_and!; [done| |done|].
      * intros c Hc Hne. unfold s1.
        rewrite rd_wr_ne by (eapply disjoint_ne; [exact HdB|lia|lia]).
        by apply HBc.
      * intros x Hx. rewrite WS_step by lia. rewrite <- (Hiff x Hx).
        split; [|intros [HS HW]; split; [done|by left]].
        intros [HS [HW|HW]]; [done|]. by apply Hno in HW.
    + apply frame2_l, frame_wr; lia.
Qed.

Lemma second_pass_loop s b c1 :
  valid_buf s SA n → valid_buf s B k → holds s T n (at_ Tl) →
  Scells s SA Tl sa seed (n - 1) → Sbuckets s B Tl sa k (n - 1) b c1 →
  sat (for_down (Z.to_nat n) (n - 1)
         (λ i '(b, c1),
            j ← load (SA +ₚ i);
            if 0 <? j then
              let j := j - 1 in
              x ← chr T cs j; y ← chr T cs (j + 1);
              assert_ 342 (x <=? y);;
              c0 ← chr T cs j;
              '(b, c1) ← switch_bucket B c0 c1 b;
              assert_ 347 (b <=? i);;
              f ← (if j =? 0 then mret true
                   else cj ← chr T cs (j - 1); mret (c1 <? cj));
              let b := b - 1 in
              store (SA +ₚ b) (if f : bool then Z.lnot j else j);;
              mret (b, c1)
            else
              store (SA +ₚ i) (Z.lnot j);; mret (b, c1))
         (b, c1)) s
      (ok (λ _ s', holds s' SA n (at_ sa) ∧ frame2 s s' SA n B k)).
Proof using Hsa HF HdT HdB HdTB.
  intros HvSA HvB HT HC HBk. eapply sat_ok_mono.
  { apply (for_down_ok
             (λ t '(b, c1) s',
                valid_buf s' SA n ∧ valid_buf s' B k ∧ holds s' T n (at_ Tl) ∧
                Scells s' SA Tl sa seed (n - 1 - Z.of_nat t) ∧
                Sbuckets s' B Tl sa k (n - 1 - Z.of_nat t) b c1 ∧
                frame2 s s' SA n B k)).
    - rewrite Z.sub_0_r. split_and!; [done..|apply frame2_refl].
    - intros t [b' c1'] s1 Ht (H1 & H2 & H3 & H4 & H5 & H6).
      eapply sat_ok_mono;
        [apply (second_pass_step s1 (n - 1 - Z.of_nat t) b' c1'); (done || lia)|].
      intros [b2 c2] s2 (G1 & G2 & G3 & G4 & G5 & G6).
      replace (n - 1 - Z.of_nat (S t)) with (n - 1 - Z.of_nat t - 1) by lia.
      split_and!; [done..|by eapply frame2_trans]. }
  intros [b' c1'] s1 (_ & _ & _ & H4 & _ & H6). split; [|done].
  intros x Hx. destruct (H4 x Hx) as (v & Hv & H & _).
  rewrite Hv. f_equal. apply H. lia.
Qed.

Lemma second_pass_init s :
  1 ≤ k → Lcells s SA Tl sa seed n →
  holds s B k (λ c, count_if (λ a, a <=? c) Tl) →
  Scells s SA Tl sa seed (n - 1) ∧
  Sbuckets s B Tl sa k (n - 1) (count_if (λ a, a <=? 0) Tl) 0.
Proof using Hsa.
  intros Hk HC HB. split.
  - intros x Hx. destruct (HC x Hx) as (v & Hv & Hspec).
    exists v. split; [done|]. split; [intros; lia|]. intros _.
    destruct (is_S false Tl (at_ sa x)) eqn:ES.
    + replace (x <? n) with true in Hspec by (symmetry; apply Z.ltb_lt; lia).
      split; [|done]. intros (y & Hy & _). lia.
    + destruct Hspec as (H1 & _). apply H1. lia.
  - split; [lia|]. exists (λ c, count_if (λ a, a <=? c) Tl).
    split_and!; [done| |done|].
    + intros c Hc _. by apply HB.
    + intros x Hx. pose proof (bucket_upper Tl sa Hsa x Hx).
      split; [|lia]. intros [_ (y & Hy & _)]. lia.
Qed.

End second_pass_code.

(** ** [induceSA] sorts the suffixes *)

Lemma frame2_holds s s' p lp q lq r m f :
  frame2 s s' p lp q lq → disjoint r m p lp → disjoint r m q lq →
  holds s r m f → holds s' r m f.
Proof.
  intros [_ Hf] Hp Hq H i Hi. rewrite Hf; [by apply H|..];
    intros j Hj; by eapply disjoint_ne.
Qed.

Lemma frame2_valid_buf s s' p lp q lq r m :
  frame2 s s' p lp q lq → valid_buf s r m → valid_buf s' r m.
Proof. intros [H _]. by apply valid_buf_quiet_step. Qed.

Section induce.
Variables (T SA B C : ptr) (Tl sa : list Z) (seed : Z → Z) (k cs : Z).
Hypothesis Hsa : is_suffix_array Tl sa = true.
Hypothesis Hseed : seeded Tl sa seed.
Hypothesis HF : Forall (λ c, 0 ≤ c < k) Tl.
Hypothesis HdT : disjoint T (Z.of_nat (length Tl)) SA (Z.of_nat (length Tl)).
Hypothesis HdB : disjoint B k SA (Z.of_nat (length Tl)).
Hypothesis HdTB : disjoint T (Z.of_nat (length Tl)) B k.
Notation n := (Z.of_nat (length Tl)).

Lemma counts_ok s :
  valid_buf s B k → holds s T n (at_ Tl) →
  C = B ∨ holds s C k (λ c, count_if (Z.eqb c) Tl) →
  sat (when_ (bool_decide (C = B)) (getCounts T C n k cs)) s
      (ok (λ _ s', holds s' C k (λ c, count_if (Z.eqb c) Tl) ∧ frame s s' B k)).
Proof using HF HdTB.
  intros HvB HT HC. destruct (decide (C = B)) as [E|Hne].
  - rewrite bool_decide_eq_true_2 by done. subst C. simpl.
    by apply getCounts_ok.
  - rewrite bool_decide_eq_false_2 by done. simpl. apply sat_ok_ret.
    destruct HC as [?|HC]; [done|]. split; [done|apply frame_refl].
Qed.

Lemma induceSA_sat s :
  0 < n → 1 ≤ k →
  valid_buf s SA n → valid_buf s B k →
  holds s T n (at_ Tl) → holds s SA n seed →
  (C = B ∨ holds s C k (λ c, count_if (Z.eqb c) Tl) ∧
           disjoint C k B k ∧ disjoint C k SA n) →
  sat (induceSA T SA C B n k cs) s
      (ok (λ _ s', holds s' SA n (at_ sa) ∧ frame2 s s' SA n B k)).
Proof using Hsa Hseed HF HdT HdB HdTB.
  intros Hn Hk HvSA HvB HT HSA HC.
  assert (Hal : C = B ∨ disjoint C k B k) by (destruct HC as [|(_ & ? & _)]; auto).
  assert (HdSB : disjoint SA n B k) by by apply disjoint_sym.
  unfold induceSA.
  (* the starts of the buckets *)
  eapply sat_ok_bind.
  { apply counts_ok; [done|done|]. destruct HC as [|[? _]]; auto. }
  intros [] s1 [HC1 F1].
  eapply sat_ok_bind.
  { apply (getBuckets_start_ok s1 C B k _ HC1); [by eapply frame_valid_buf|done]. }
  intros [] s2 [HB2 F2]. cbv zeta.
  assert (HB2' : holds s2 B k (λ c, count_if (λ a, a <? c) Tl)).
  { eapply holds_ext; [done|]. intros c Hc. cbv beta.
    eapply psum_count; [done|lia]. }
  assert (F02 : frame s s2 B k) by by eapply frame_trans.
  assert (HT2 : holds s2 T n (at_ Tl)) by by eapply frame_holds.
  assert (HSA2 : holds s2 SA n seed) by by eapply frame_holds.
  assert (HvSA2 : valid_buf s2 SA n) by by eapply frame_valid_buf.
  assert (HvB2 : valid_buf s2 B k) by by eapply frame_valid_buf.
  (* the last suffix *)
  pose proof (at_range Tl k (n - 1) HF ltac:(lia)) as Hcl.
  eapply sat_chr_bind; [apply HT2; lia|].
  eapply sat_load_bind; [by apply HB2'|]. cbv beta.
  destruct (first_pass_init T SA B Tl sa seed k Hsa Hseed HF HdT HdB HdTB s2
              Hn HvSA2 HSA2 HB2') as (Hx0 & HLc & HLb).
  set (x0 := count_if (λ a, a <? at_ Tl (n - 1)) Tl) in *.
  eapply sat_ok_bind.
  { instantiate (1 := λ f s', s' = s2 ∧
      (if f : bool then Z.lnot (n - 1) else n - 1) = markL Tl (n - 1)).
    unfold markL. destruct (Z.ltb_spec 0 (n - 1)); simpl.
    - eapply sat_chr_bind; [apply HT2; lia|]. by apply sat_ok_ret.
    - by apply sat_ok_ret. }
  intros f s2' [-> Hf]. rewrite Hf.
  assert (HvSA0 : valid_buf s2 (SA +ₚ x0) 1) by (eapply valid_buf_cell; [done|lia]).
  eapply sat_store_bind; [done|].
  set (s3 := wr s2 (SA +ₚ x0) (markL Tl (n - 1))) in *.
  assert (HT3 : holds s3 T n (at_ Tl)).
  { apply holds_wr_other; [done|]. intros t Ht. eapply disjoint_ne; [exact HdT|lia|lia]. }
  assert (F03 : frame2 s s3 SA n B k).
  { apply (frame2_trans _ s2); [by apply frame2_r|]. apply frame2_l, frame_wr. lia. }
  (* the first pass *)
  eapply sat_ok_bind.
  { apply (first_pass_loop T SA B Tl sa seed k cs Hsa Hseed HF HdT HdB HdTB s3);
      [by apply valid_buf_wr|by apply valid_buf_wr|done|done|done]. }
  intros [b4 c4] s4 (HvSA4 & HvB4 & HT4 & HLc4 & F34).
  assert (F04 : frame2 s s4 SA n B k) by by eapply frame2_trans.
  (* the ends of the buckets *)
  eapply sat_ok_bind.
  { apply counts_ok; [done|done|].
    destruct HC as [|(HCs & HdCB & HdCSA)]; [by left|right].
    by eapply frame2_holds. }
  intros [] s5 [HC5 F5].
  eapply sat_ok_bind.
  { eapply (getBuckets_end_ok s5 C B k _ (λ c, count_if (λ x, x <=? c) Tl) HC5);
      [by eapply frame_valid_buf|done| |].
    - by eapply count_le_neg.
    - intros c Hc. apply count_le_step. }
  intros [] s6 [HB6 F6].
  assert (F46 : frame s4 s6 B k) by by eapply frame_trans.
  assert (HLc6 : Lcells s6 SA Tl sa seed n).
  { intros x Hx. destruct (HLc4 x Hx) as (v & Hv & Hspec). exists v.
    split; [|done]. destruct F46 as [_ F46]. rewrite F46; [done|].
    intros c Hc. apply not_eq_sym. by eapply disjoint_ne. }
  destruct (second_pass_init SA B Tl sa seed k Hsa s6 Hk HLc6 HB6) as [HSc HSb].
  eapply sat_load_bind; [apply HB6; lia|]. cbv beta.
  (* the second pass *)
  eapply sat_ok_bind.
  { apply (second_pass_loop T SA B Tl sa seed k cs Hsa HF HdT HdB HdTB s6);
      [by eapply frame_valid_buf|by eapply frame_valid_buf
      |by eapply frame_holds|done|done]. }
  intros [b7 c7] s7 [H7 F67]. apply sat_ok_ret. split; [done|].
  apply (frame2_trans _ s4); [done|].
  apply (frame2_trans _ s6); [by apply frame2_r|done].
Qed.

Lemma induceSA_ok s :
  0 < n → 1 ≤ k →
  valid_buf s SA n → valid_buf s B k →
  holds s T n (at_ Tl) → holds s SA n seed →
  (C = B ∨ holds s C k (λ c, count_if (Z.eqb c) Tl) ∧
           disjoint C k B k ∧ disjoint C k SA n) →
  ∃ s', induceSA T SA C B n k cs s = (Ret tt, s') ∧
        holds s' SA n (at_ sa) ∧ frame2 s s' SA n B k.
Proof using Hsa Hseed HF HdT HdB HdTB.
  intros Hn Hk HvSA HvB HT HSA HC.
  destruct (sat_ok_run _ _ _ (induceSA_sat s Hn Hk HvSA HvB HT HSA HC))
    as ([] & s' & Hrun & H).
  by exists s'.
Qed.

(** Lines 308-353.  [sa] is the suffix array of the text, and [SA[0..n)]
    holds the LMS suffixes, each in a cell that [sa] gives to an S-type
    suffix of the same first symbol, in ascending order of the suffixes,
    and 0 in every other cell.  Then [induceSA] returns normally, none of
    its four assertions fails, and [SA[0..n)] holds [sa]; nothing outside
    [SA[0..n)] and [B[0..k)] changes. *)
Theorem induceSA_sorts s :
  0 < n → 1 ≤ k →
  valid_buf s SA n → valid_buf s B k →
  holds s T n (at_ Tl) → holds s SA n seed →
  (C = B ∨ holds s C k (λ c, count_if (Z.eqb c) Tl) ∧
           disjoint C k B k ∧ disjoint C k SA n) →
  ∃ s', induceSA T SA C B n k cs s = (Ret tt, s') ∧
        holds s' SA n (at_ sa) ∧ frame2 s s' SA n B k.
Proof using Hsa Hseed HF HdT HdB HdTB.
  intros Hn Hk HvSA HvB HT HSA HC.
  destruct (sat_ok_run _ _ _ (induceSA_sat s Hn Hk HvSA HvB HT HSA HC))
    as ([] & s' & Hrun & H).
  by exists s'.
Qed.

End induce.

Lemma induceSA_sorts_witness :
  let Tl := [1; 0; 1] in
  let s := State [Some [Some 1; Some 0; Some 0];
                  Some (Some <$> Tl);
                  Some [Some 1; Some 2];
                  Some [None; None]] [] [] in
  ∃ s', induceSA T0 SA0 (Ptr 2 0) (Ptr 3 0) 3 2 1 s = (Ret tt, s') ∧
        holds s' SA0 3 (at_ [1; 2; 0]) ∧ frame2 s s' SA0 3 (Ptr 3 0) 2.
Proof.
  intros Tl s.
  apply (induceSA_sorts T0 SA0 (Ptr 3 0) (Ptr 2 0) Tl [1; 2; 0]
           (λ x, if x =? 0 then 1 else 0) 2 1); subst s Tl.
  - reflexivity.
  - split_and!.
    + intros x Hx Hne. simpl in Hx.
      assert (x = 0 ∨ x = 1 ∨ x = 2) as [-> | [-> | ->]] by lia;
        [by vm_compute|done|done].
    + intros p Hp. exists 0. split; [simpl; lia|].
      apply LMS_pred in Hp as [Hp _]. simpl in *. lia.
    + intros x y Hx Hxy Hy Hsx Hsy. simpl in Hy.
      destruct (Z.eqb_spec y 0); [lia|done].
  - repeat constructor; lia.
  - left. simpl. lia.
  - left. simpl. lia.
  - left. simpl. lia.
  - simpl. lia.
  - lia.
  - eexists. split; [reflexivity|]. simpl. lia.
  - eexists. split; [reflexivity|]. simpl. lia.
  - intros i Hi. simpl in Hi.
    assert (i = 0 ∨ i = 1 ∨ i = 2) as [-> | [-> | ->]] by lia; reflexivity.
  - intros i Hi. simpl in Hi.
    assert (i = 0 ∨ i = 1 ∨ i = 2) as [-> | [-> | ->]] by lia; reflexivity.
  - right. split_and!.
    + intros i Hi. assert (i = 0 ∨ i = 1) as [-> | ->] by lia; reflexivity.
    + left. simpl. lia.
    + left. simpl. lia.
Defined.

(** ** The cells that [induceSA] starts from *)

Lemma lms_upto_complete last Tl (i : nat) p :
  0 < p ≤ Z.of_nat i → is_LMS last Tl p = true → p ∈ lms_upto last Tl i.
Proof.
  induction i as [|i IH]; [lia|]. intros Hp HL. simpl.
  destruct (Z.eq_dec p (Z.of_nat (S i))) as [->|Hne].
  - rewrite HL. set_solver.
  - destruct (is_LMS last Tl (Z.of_nat (S i))); [apply elem_of_cons; right|];
      apply IH; (lia || done).
Qed.

Lemma lms_positions_complete Tl p :
  is_LMS false Tl p = true → p ∈ lms_positions false Tl.
Proof.
  intros HL. apply LMS_pred in HL as Hp. unfold lms_positions.
  apply lms_upto_complete; [lia|done].
Qed.

Section seeds.
Variables (Tl sa : list Z).
Hypothesis Hsa : is_suffix_array Tl sa = true.
Notation n := (Z.of_nat (length Tl)).

(** In a bucket, the cells from that of an S-type suffix on hold S-type
    suffixes. *)
Lemma S_cells_up x y :
  0 ≤ x → x ≤ y → y < n →
  is_S false Tl (at_ sa x) = true → at_ Tl (at_ sa y) = at_ Tl (at_ sa x) →
  is_S false Tl (at_ sa y) = true.
Proof using Hsa.
  intros Hx Hxy Hy HS Hc. destruct (Z.eq_dec x y) as [->|Hne]; [done|].
  destruct (is_S false Tl (at_ sa y)) eqn:E; [done|].
  pose proof (L_before_S Tl (at_ sa y) (at_ sa x)
                (sa_range Tl sa Hsa y ltac:(lia)) (sa_range Tl sa Hsa x ltac:(lia))
                E HS Hc) as H.
  apply (sa_reflect Tl sa Hsa) in H; lia.
Qed.

(** No LMS position: nothing is put into [SA]. *)
Lemma seeded_none :
  lms_positions false Tl = [] → seeded Tl sa (λ _, 0).
Proof using.
  intros Hl. split_and!; [done| |done].
  intros p Hp%lms_positions_complete. rewrite Hl in Hp. by apply elem_of_nil in Hp.
Qed.

(** One LMS position, in the last cell of its bucket. *)
Lemma seeded_single p :
  lms_positions false Tl = [p] →
  seeded Tl sa (λ x, if x =? slot Tl p then p else 0).
Proof using Hsa.
  intros Hl.
  assert (Hin : p ∈ lms_positions false Tl) by (rewrite Hl; set_solver).
  pose proof (lms_upto_bound _ _ _ _ Hin) as [_ HLMS].
  apply LMS_pred in HLMS as Hp. destruct Hp as (Hp & HS & _).
  pose proof (slot_bounds Tl p Hin) as Hsb.
  pose proof (slot_range Tl p Hin) as Hsr.
  assert (Hslot : slot Tl p = count_if (λ x, x <=? at_ Tl p) Tl - 1).
  { unfold slot, lms_rank. rewrite Hl. simpl.
    rewrite Z.eqb_refl. replace (p <=? p) with true by (symmetry; apply Z.leb_le; lia).
    simpl. lia. }
  split_and!.
  - intros x Hx Hne. destruct (Z.eqb_spec x (slot Tl p)) as [->|]; [|done].
    split; [done|].
    destruct (sa_surj Tl sa Hsa p ltac:(lia)) as (r & Hr & Hsr').
    pose proof (bucket_upper Tl sa Hsa r Hr) as Hup. rewrite Hsr' in Hup.
    pose proof (bucket_lower Tl sa Hsa r Hr) as Hlo. rewrite Hsr' in Hlo.
    pose proof (bucket_char Tl sa Hsa (slot Tl p) (at_ Tl p) Hx ltac:(lia) ltac:(lia)) as Hc.
    split; [|done].
    apply (S_cells_up r); [lia|lia|lia|by rewrite Hsr'|by rewrite Hsr'].
  - intros q Hq%lms_positions_complete. rewrite Hl in Hq.
    apply list_elem_of_singleton in Hq as ->.
    exists (slot Tl p). split; [done|]. by rewrite Z.eqb_refl.
  - intros x y Hx Hxy Hy Hnx Hny.
    destruct (Z.eqb_spec x (slot Tl p)); [|done].
    destruct (Z.eqb_spec y (slot Tl p)); [lia|done].
Qed.

End seeds.

(** ** Texts with at most one LMS position: the whole call *)

Lemma sat_function_ok body s (Q : Z → state → Prop) :
  sat body s (ok Q) → sat (function body) s (ok Q).
Proof. unfold sat, function. by destruct (body s) as [[?|?|?] ?]. Qed.

Lemma sat_trace_bind {A} e (f : unit → M A) s Q :
  sat (f tt) (State (mem s) (oracle s) (e :: log s)) Q → sat (trace e ≫= f) s Q.
Proof. done. Qed.

Lemma sat_run_bind {A B} (c : M A) (f : A → M B) s a s' Q :
  c s = (Ret a, s') → sat (f a) s' Q → sat (c ≫= f) s Q.
Proof. intros Hc Hf. unfold sat, mbind, M_bind. by rewrite Hc. Qed.

Lemma malloc_total num s :
  (∀ b, b ∈ oracle s → b = true) →
  ∃ p s', malloc num s = (Ret (Some p), s') ∧ (∀ b, b ∈ oracle s' → b = true).
Proof.
  intros Ho. unfold malloc. destruct (oracle s) as [|b o] eqn:E.
  - eexists _, _. split; [done|]. simpl. by intros b ?%elem_of_nil.
  - rewrite (Ho b) by set_solver. eexists _, _. split; [done|]. simpl.
    intros b' Hb'. apply Ho. set_solver.
Qed.

Lemma alloc_workspace_total SA fs n k s :
  (∀ b, b ∈ oracle s → b = true) →
  ∃ C B flags s1, alloc_workspace SA fs n k s = (Ret (C, B, flags), s1).
Proof.
  intros Ho. unfold alloc_workspace.
  destruct (malloc_total k s Ho) as (p & s1 & Hm & Ho1).
  destruct (malloc_total k s1 Ho1) as (p2 & s2 & Hm2 & _).
  unfold mbind, M_bind, mret, M_ret.
  destruct (k <=? MINBUCKETSIZE).
  - rewrite Hm. destruct (k <=? fs); [by eauto|].
    unfold mbind, M_bind. rewrite Hm2. by eauto.
  - destruct (k <=? fs).
    + destruct (k <=? fs - k); [by eauto|].
      destruct (k <=? MINBUCKETSIZE * 4); [|by eauto].
      unfold mbind, M_bind. rewrite Hm. by eauto.
    + unfold mbind, M_bind. rewrite Hm. by eauto.
Qed.

Lemma alloc_workspace_layout s T SA Tl fs n k C B flags0 s1 :
  valid_input s T SA Tl fs n k →
  alloc_workspace SA fs n k s = (Ret (C, B, flags0), s1) →
  (has flags0 8 = true ∧ C = B ∨ has flags0 8 = false ∧ disjoint C k B k) ∧
  (has flags0 (Z.lor 1 4) = true → poff C = 0 ∧ pblock C ≠ pblock SA) ∧
  (has flags0 2 = true →
   poff B = 0 ∧ pblock B ≠ pblock SA ∧
   (has flags0 (Z.lor 1 4) = true → pblock B ≠ pblock C)) ∧
  disjoint C k SA n.
Proof.
  intros Hv Hws. destruct Hv as [_ Hn Hk Hfs _ _ VSA _ Hint].
  pose proof (valid_buf_lt _ _ _ VSA) as HSAlt.
  apply (alloc_workspace_ret _ _ _ _ _ _ _ _ _ Hfs Hn Hk Hint) in Hws as
    [(? & ? & -> & EC & ->)|[(? & ? & -> & sC & EC & EB)|
    [(? & ? & -> & -> & -> & ->)|[(? & ? & ? & ? & -> & -> & EB)|
    [(? & ? & ? & ? & -> & -> & -> & ->)|(? & ? & -> & -> & EC)]]]]].
  - destruct (malloc_ok _ _ _ _ EC) as [-> _].
    split_and!; [right; split; [done|]; left; simpl; lia| |done|left; simpl; lia].
    intros _. simpl. lia.
  - destruct (malloc_ok _ _ _ _ EC) as [-> HmC].
    destruct (malloc_ok _ _ _ _ EB) as [-> _]. rewrite HmC, length_app. simpl.
    split_and!; [right; split; [done|]; left; simpl; lia| | |left; simpl; lia].
    + intros _. simpl. lia.
    + intros _. simpl. split_and!; [done|lia|]. intros _. lia.
  - split_and!; [right; split; [done|]; unfold disjoint; simpl; lia|done|done|].
    unfold disjoint; simpl; lia.
  - destruct (malloc_ok _ _ _ _ EB) as [-> _].
    split_and!; [right; split; [done|]; left; simpl; lia|done| |].
    + intros _. simpl. split_and!; [done|lia|done].
    + unfold disjoint; simpl; lia.
  - split_and!; [by left|done|done|]. unfold disjoint; simpl; lia.
  - destruct (malloc_ok _ _ _ _ EC) as [-> _].
    split_and!; [by left| |done|left; simpl; lia]. intros _. simpl. lia.
Qed.

Lemma free_ok s p len :
  valid_buf s p len → poff p = 0 →
  ∃ s', free p s = (Ret tt, s') ∧
        (∀ q, pblock q ≠ pblock p → rd s' q = rd s q) ∧
        (∀ q l, pblock q ≠ pblock p → valid_buf s q l → valid_buf s' q l).
Proof.
  intros (cs' & Hc & _) H0. unfold free. rewrite Hc, H0. simpl.
  eexists. split; [done|]. split.
  - intros q Hq. unfold rd, cells_at. simpl.
    by rewrite list_lookup_insert_ne by done.
  - intros q l Hq (cq & Hcq & ?). exists cq. split; [|done].
    unfold cells_at in *. simpl. by rewrite list_lookup_insert_ne by done.
Qed.

Lemma has_sort2_flags_8 flags fs n k :
  has (sort2_flags flags fs n k) 8 = has flags 8.
Proof.
  unfold sort2_flags. repeat case_match; try done;
    rewrite has_lor_l; by rewrite orb_false_r.
Qed.

Lemma has_sort2_flags_14 flags fs n k :
  has (sort2_flags flags fs n k) (Z.lor 1 4) = has flags (Z.lor 1 4).
Proof.
  unfold sort2_flags. repeat case_match; try done;
    rewrite has_lor_l; by rewrite orb_false_r.
Qed.

Lemma has_sort2_flags_2 flags fs n k :
  has (sort2_flags flags fs n k) 2 = has flags 2.
Proof.
  unfold sort2_flags. repeat case_match; try done;
    rewrite has_lor_l; by rewrite orb_false_r.
Qed.

(** Stage 1 up to the end of the scan, with what it leaves in [C]. *)
Lemma stage1_discover_counts s T SA C B Tl n k cs :
  stage1_pre s T SA C B Tl n k → disjoint C k SA n →
  sat (stage1_discover T SA C B n k cs) s
      (ok (λ '(m, j, b) s',
         m = count_lms false Tl ∧
         ∃ SAl Bl, placement Tl k = (SAl, Bl, b, j) ∧
                   holds s' SA n (at_ SAl) ∧ holds s' T n (at_ Tl) ∧
                   quiet_step s s' ∧
                   (C = B ∨ holds s' C k (λ c, count_if (Z.eqb c) Tl)))).
Proof.
  intros [-> Hn HF HT VSA VC VB DTS DTC DTB DSB DCB] DCS. unfold stage1_discover.
  assert (Hk : 0 ≤ k).
  { destruct VB as (cs' & _ & ? & ?).
    destruct Tl as [|x Tl]; [simpl in Hn; lia|].
    apply Forall_cons in HF as [? _]. lia. }
  eapply sat_ok_bind; [by eapply getCounts_ok|].
  intros [] s1 [HC1 F1]. cbv beta in HC1.
  eapply sat_ok_bind.
  { eapply (getBuckets_end_ok _ _ _ _ _ (λ c, count_if (λ x, x <=? c) Tl));
      [done|by eapply frame_valid_buf|done| |].
    - by eapply count_le_neg.
    - intros c Hc. apply count_le_step. }
  intros [] s2 [HB2 F2].
  eapply sat_ok_bind.
  { apply zero_ok. eapply frame_valid_buf; [done|]. by eapply frame_valid_buf. }
  intros [] s3 [HSA3 F3].
  assert (HT3 : holds s3 T (Z.of_nat (length Tl)) (at_ Tl)).
  { eapply frame_holds; [done|done|]. eapply frame_holds; [done|done|].
    by eapply frame_holds. }
  assert (Hq3 : quiet_step s s3).
  { destruct F1, F2, F3. eauto using quiet_step_trans. }
  assert (HC3 : C = B ∨ holds s3 C k (λ c, count_if (Z.eqb c) Tl)).
  { destruct DCB as [|DCB]; [by left|right].
    eapply frame_holds; [done|done|]. by eapply frame_holds. }
  eapply sat_ok_mono.
  { eapply (discoverLMS_ok Tl k T SA B cs s3 s3); [done|done| |].
    - split; eauto using valid_buf_quiet_step.
    - split_and!; try done; try apply quiet_step_refl.
      + by rewrite length_replicate.
      + by apply length_bucket_ends.
      + eapply holds_ext; [done|]. intros i Hi. cbv beta.
        by rewrite at_replicate by lia.
      + eapply holds_ext.
        * eapply frame_holds; [done|by apply disjoint_sym|done].
        * intros i Hi. cbv beta. unfold bucket_ends. by rewrite at_fmap_seqZ. }
  intros [[m j] b] s4 (Hm & SAl & Bl & Hpl & HlSA & HlB & HSA4 & HB4 & HT4 & Hq4 & Hfr & _).
  split; [done|]. exists SAl, Bl. split_and!; [done|done|done|by eapply quiet_step_trans|].
  destruct DCB as [->|DCB]; [by left|].
  destruct HC3 as [|HC3]; [by left|right].
  intros c Hc. rewrite Hfr; [by apply HC3|..]; intros i Hi; by eapply disjoint_ne.
Qed.

(** With at most one LMS position, the sorting step leaves [SA[0..n)] as
    [induceSA] needs it. *)
Lemma sort_LMS_seeded s T SA C B Tl sa flags n k cs m j b SAl Bl :
  n = Z.of_nat (length Tl) → 0 ≤ k →
  Forall (λ c, 0 ≤ c < k) Tl →
  is_suffix_array Tl sa = true →
  m = count_lms false Tl → m ≤ 1 →
  placement Tl k = (SAl, Bl, b, j) →
  valid_buf s SA n → holds s SA n (at_ SAl) →
  sat (sort_LMS T SA C B flags n k cs m j b) s
      (ok (λ name s', name = m ∧ frame s s' SA n ∧
                      ∃ seed, seeded Tl sa seed ∧ holds s' SA n seed)).
Proof.
  intros -> Hk HF Hsa -> Hm Hpl HvSA HSA.
  destruct (placement_slots Tl k SAl Bl b j HF Hk Hpl) as (_ & Hlast & Hin & Hout).
  unfold sort_LMS, count_lms in *.
  destruct (lms_positions false Tl) as [|p [|q l]] eqn:El; simpl in *; [| |lia].
  - apply sat_ok_ret. split; [done|]. split; [apply frame_refl|].
    exists (λ _, 0). split; [by apply seeded_none|].
    intros i Hi. rewrite HSA by done. f_equal. apply Hout.
    intros q Hq. by apply elem_of_nil in Hq.
  - destruct Hlast as [-> ->].
    assert (Hs : 0 ≤ slot Tl p < Z.of_nat (length Tl)).
    { apply slot_bounds. rewrite El. set_solver. }
    assert (Hz : ∀ i, 0 ≤ i < Z.of_nat (length Tl) → rd s (SA +ₚ i) = Some 0).
    { intros i Hi. rewrite HSA by done. f_equal. apply Hout.
      intros q Hq Hne. apply list_elem_of_singleton in Hq. by subst q. }
    assert (Hvb : valid_buf s (SA +ₚ slot Tl p) 1) by (eapply valid_buf_cell; [done|lia]).
    unfold store_b. eapply sat_store_bind; [done|]. apply sat_ok_ret.
    split; [done|]. split; [by apply frame_wr|].
    exists (λ x, if x =? slot Tl p then p else 0).
    split; [by apply seeded_single|].
    intros i Hi. replace (p - 1 + 1) with p by lia.
    destruct (Z.eqb_spec i (slot Tl p)) as [->|Hne].
    + by apply rd_wr_eq.
    + rewrite rd_wr_ne; [by apply Hz|]. intros ?%padd_inj. done.
Qed.

Lemma computeSA_few_ok d s T SA Tl sa fs n k cs :
  valid_input s T SA Tl fs n k →
  (∀ b, b ∈ oracle s → b = true) →
  count_lms false Tl ≤ 1 →
  is_suffix_array Tl sa = true →
  sat (computeSA (S d) T SA fs n k cs) s
      (ok (λ r s', r = 0 ∧ holds s' SA n (at_ sa))).
Proof.
  intros Hv Ho Hm Hsa. cbn [computeSA]. apply sat_function_ok.
  apply sat_trace_bind.
  set (s0 := State (mem s) (oracle s) (EvEnter T SA fs n k cs :: log s)).
  assert (Hv0 : valid_input s0 T SA Tl fs n k) by (destruct Hv; by split).
  assert (Ho0 : ∀ b, b ∈ oracle s0 → b = true) by done.
  pose proof Hv0 as [Hn Hpos Hk Hfs HF _ _ _]. subst n.
  apply sat_assert_bind.
  { apply andb_true_iff. split; [apply andb_true_iff; split|]; lia. }
  destruct (alloc_workspace_total SA fs (Z.of_nat (length Tl)) k s0 Ho0) as (C & B & flags0 & s1 & Hws).
  eapply sat_run_bind; [exact Hws|]. cbv zeta.
  pose proof (alloc_workspace_pre _ _ _ _ _ _ _ _ _ _ _ Hv0 Hws) as Hpre.
  destruct (alloc_workspace_layout _ _ _ _ _ _ _ _ _ _ _ Hv0 Hws)
    as (H8 & H14 & H2 & DCS).
  pose proof Hpre as [_ _ _ HT1 VSA1 VC1 VB1 DTS DTC DTB DSB DCB].
  (* stage 1 *)
  eapply sat_ok_bind; [by apply stage1_discover_counts|].
  intros [[m j] b] s2 (Hmeq & SAl & Bl & Hpl & HSA2 & HT2 & Hq2 & HC2).
  eapply sat_ok_bind.
  { eapply (sort_LMS_seeded s2 T SA C B Tl sa); try done; [lia|lia|].
    by eapply valid_buf_quiet_step. }
  intros name s3 (-> & F3 & seed & Hseed & HSA3).
  (* stage 2 *)
  unfold stage2. rewrite Z.ltb_irrefl.
  apply sat_ret_bind.
  (* stage 3 *)
  unfold stage3.
  assert (VSA3 : valid_buf s3 SA (Z.of_nat (length Tl))).
  { eapply frame_valid_buf; [done|]. by eapply valid_buf_quiet_step. }
  assert (VB3 : valid_buf s3 B k).
  { eapply frame_valid_buf; [done|]. by eapply valid_buf_quiet_step. }
  assert (VC3 : valid_buf s3 C k).
  { eapply frame_valid_buf; [done|]. by eapply valid_buf_quiet_step. }
  assert (HT3 : holds s3 T (Z.of_nat (length Tl)) (at_ Tl)) by by eapply frame_holds.
  assert (HdB : disjoint B k SA (Z.of_nat (length Tl))) by by apply disjoint_sym.
  eapply sat_ok_bind.
  { instantiate (1 := λ _ s4,
      frame s3 s4 B k ∧
      (C = B ∨ holds s4 C k (λ c, count_if (Z.eqb c) Tl) ∧
               disjoint C k B k ∧ disjoint C k SA (Z.of_nat (length Tl)))).
    rewrite has_sort2_flags_8.
    destruct H8 as [[-> ->]|[-> HdCB]]; simpl.
    - eapply sat_ok_mono; [by eapply getCounts_ok|].
      intros [] s4 [_ F4]. split; [done|by left].
    - apply sat_ok_ret. split; [apply frame_refl|]. right.
      split; [|done]. destruct HC2 as [->|HC2].
      + exfalso. destruct HdCB as [?|[?|?]]; [done|lia|lia].
      + by eapply frame_holds. }
  intros [] s4 [F4 HC4].
  replace (1 <? m) with false by (symmetry; apply Z.ltb_ge; lia).
  apply (sat_ret_bind tt).
  destruct (induceSA_ok T SA B C Tl sa seed k cs Hsa Hseed HF DTS HdB DTB s4)
    as (s5 & Hrun & HSA5 & F5); [lia|lia|..].
  { by eapply frame_valid_buf. }
  { by eapply frame_valid_buf. }
  { by eapply frame_holds. }
  { eapply frame_holds; [done| |done]. by apply disjoint_sym. }
  { destruct HC4 as [|HC4]; [by left|by right]. }
  eapply sat_run_bind; [exact Hrun|].
  (* the buffers are given back *)
  assert (VC5 : valid_buf s5 C k).
  { eapply frame2_valid_buf; [done|]. by eapply frame_valid_buf. }
  assert (VB5 : valid_buf s5 B k).
  { eapply frame2_valid_buf; [done|]. by eapply frame_valid_buf. }
  rewrite has_sort2_flags_14, has_sort2_flags_2.
  destruct (has flags0 (Z.lor 1 4)) eqn:E14; simpl.
  - destruct (H14 eq_refl) as [HC0 HCSA].
    destruct (free_ok s5 C k VC5 HC0) as (s6 & Hf6 & Hrd6 & Hvb6).
    eapply sat_run_bind; [exact Hf6|].
    assert (HSA6 : holds s6 SA (Z.of_nat (length Tl)) (at_ sa)).
    { intros i Hi. rewrite Hrd6; [by apply HSA5|]. simpl. congruence. }
    destruct (has flags0 2) eqn:E2; simpl.
    + destruct (H2 eq_refl) as (HB0 & HBSA & HBC).
      destruct (free_ok s6 B k (Hvb6 _ _ (HBC eq_refl) VB5) HB0) as (s7 & Hf7 & Hrd7 & _).
      eapply sat_run_bind; [exact Hf7|]. apply sat_ok_ret. split; [done|].
      intros i Hi. rewrite Hrd7; [by apply HSA6|]. simpl. congruence.
    + apply (sat_ret_bind tt). by apply sat_ok_ret.
  - apply (sat_ret_bind tt). destruct (has flags0 2) eqn:E2; simpl.
    + destruct (H2 eq_refl) as (HB0 & HBSA & _).
      destruct (free_ok s5 B k VB5 HB0) as (s7 & Hf7 & Hrd7 & _).
      eapply sat_run_bind; [exact Hf7|]. apply sat_ok_ret. split; [done|].
      intros i Hi. rewrite Hrd7; [by apply HSA5|]. simpl. congruence.
    + apply (sat_ret_bind tt). by apply sat_ok_ret.
Qed.

(** [computeSA] on a text with at most one LMS position (position [n - 1]
    taken as L-type), from a valid input (the size [n + fs] of the workspace
    being an [int]) and with every allocation succeeding: whichever workspace layout is chosen, the call returns 0 and
    [SA[0..n)] holds the suffix array of the text.  No suffix is sorted by
    comparison and there is no recursive call: the scan, the single stored
    LMS position and [induceSA] do all the work. *)
Theorem computeSA_sorts_few d s T SA Tl sa fs n k cs :
  valid_input s T SA Tl fs n k →
  (∀ b, b ∈ oracle s → b = true) →
  count_lms false Tl ≤ 1 →
  is_suffix_array Tl sa = true →
  ∃ s', computeSA (S d) T SA fs n k cs s = (Ret 0, s') ∧
        holds s' SA n (at_ sa).
Proof.
  intros Hv Ho Hm Hsa.
  destruct (sat_ok_run _ _ _ (computeSA_few_ok d s T SA Tl sa fs n k cs Hv Ho Hm Hsa))
    as (r & s' & Hrun & -> & H).
  by exists s'.
Qed.

Lemma computeSA_sorts_few_witness :
  ∃ s', computeSA 1 T0 SA0 0 3 2 1 (initial [1; 0; 1] 0 []) = (Ret 0, s') ∧
        holds s' SA0 3 (at_ [1; 2; 0]).
Proof.
  apply (computeSA_sorts_few 0 (initial [1; 0; 1] 0 []) T0 SA0 [1; 0; 1] [1; 2; 0]).
  - split; [reflexivity | lia | lia | lia | repeat constructor; lia | |
            eexists; split; [reflexivity | simpl; lia] | left; simpl; lia |
            unfold INT_MAX; lia].
    intros [|[|[|i]]] v Hi; simplify_eq/=; reflexivity.
  - intros b Hb. by apply elem_of_nil in Hb.
  - vm_compute. discriminate.
  - reflexivity.
Defined.

(** ** Stage 3: from the sorted LMS suffixes to the suffix array *)

Lemma bounded_search (f : Z → Z) (m x : Z) :
  (∃ t, 0 ≤ t < m ∧ f t = x) ∨ (∀ t, 0 ≤ t < m → f t ≠ x).
Proof.
  destruct (Z.le_gt_cases m 0) as [|Hm]; [right; intros; lia|].
  rewrite <- (Z2Nat.id m) by lia. induction (Z.to_nat m) as [|d IH].
  - right. intros. lia.
  - destruct IH as [(t & Ht & E)|IH].
    + left. exists t. split; [lia|done].
    + destruct (Z.eq_dec (f (Z.of_nat d)) x) as [E|Hne].
      * left. exists (Z.of_nat d). split; [lia|done].
      * right. intros t Ht. destruct (Z.eq_dec t (Z.of_nat d)) as [->|]; [done|].
        apply IH. lia.
Qed.

Section placed_seeds.
Variables (Tl sa L : list Z).
Hypothesis Hsa : is_suffix_array Tl sa = true.
Hypothesis HL1 : ∀ p, p ∈ L ↔ is_LMS false Tl p = true.
Hypothesis HL2 : ∀ t t', 0 ≤ t → t < t' → t' < Z.of_nat (length L) →
                          sfx_lt Tl (at_ L t) (at_ L t') = true.
Notation n := (Z.of_nat (length Tl)).
Notation m := (Z.of_nat (length L)).

Lemma sorted_LMS_elem t : 0 ≤ t < m → is_LMS false Tl (at_ L t) = true.
Proof using HL1.
  intros Ht. apply HL1. eapply list_elem_of_lookup_2, at_lookup_Z. done.
Qed.

Lemma sorted_LMS_range : Forall (λ p, 0 ≤ p < n) L.
Proof using HL1.
  apply Forall_forall. intros p Hp%HL1. apply LMS_pred in Hp. lia.
Qed.

Lemma sorted_LMS_NoDup : NoDup L.
Proof using HL2.
  apply NoDup_alt. intros i j x Hi Hj.
  pose proof (lookup_lt_Some _ _ _ Hi). pose proof (lookup_lt_Some _ _ _ Hj).
  apply at_lookup in Hi, Hj.
  destruct (Nat.lt_trichotomy i j) as [Hlt|[->|Hlt]]; [|done|].
  - pose proof (HL2 (Z.of_nat i) (Z.of_nat j) ltac:(lia) ltac:(lia) ltac:(lia)) as H'.
    by rewrite Hi, Hj, sfx_lt_irrefl in H'.
  - pose proof (HL2 (Z.of_nat j) (Z.of_nat i) ltac:(lia) ltac:(lia) ltac:(lia)) as H'.
    by rewrite Hi, Hj, sfx_lt_irrefl in H'.
Qed.

Lemma sorted_LMS_chars t t' :
  0 ≤ t → t ≤ t' → t' < m → at_ Tl (at_ L t) ≤ at_ Tl (at_ L t').
Proof using HL1 HL2.
  intros H0 Hle Hm. destruct (Z.eq_dec t t') as [->|]; [lia|].
  pose proof (sorted_LMS_elem t ltac:(lia)) as H1%LMS_pred.
  pose proof (sorted_LMS_elem t' ltac:(lia)) as H2%LMS_pred.
  apply sfx_lt_char; [lia|lia|]. apply HL2; lia.
Qed.

Lemma end_slot_succ t :
  0 ≤ t → t + 1 < m → end_slot Tl L t < end_slot Tl L (t + 1).
Proof using HL1 HL2.
  intros H0 Hm.
  destruct (Z.eq_dec (at_ Tl (at_ L t)) (at_ Tl (at_ L (t + 1)))) as [Heq|Hne].
  - pose proof (end_slot_pred Tl L (t + 1) ltac:(lia)) as H.
    replace (t + 1 - 1) with t in H by lia. specialize (H Heq). lia.
  - pose proof (end_slot_lt Tl L t ltac:(lia)).
    pose proof (end_slot_next Tl L sorted_LMS_NoDup sorted_LMS_range
                  sorted_LMS_chars t H0 Hm Hne). lia.
Qed.

Lemma end_slot_mono t t' :
  0 ≤ t → t < t' → t' < m → end_slot Tl L t < end_slot Tl L t'.
Proof using HL1 HL2.
  intros H0 Hlt Hm. remember (Z.to_nat (t' - t - 1)) as d eqn:Hd.
  revert t' Hlt Hm Hd. induction d as [|d IH]; intros t' Hlt Hm Hd.
  - assert (t' = t + 1) as -> by lia. by apply end_slot_succ.
  - pose proof (IH (t' - 1) ltac:(lia) ltac:(lia) ltac:(lia)).
    pose proof (end_slot_succ (t' - 1) ltac:(lia) ltac:(lia)) as H'.
    replace (t' - 1 + 1) with t' in H' by lia. lia.
Qed.

(** The cell of an LMS suffix in the suffix array is not beyond the slot the
    suffix is put at. *)
Lemma rank_le_slot t r :
  0 ≤ t < m → 0 ≤ r < n → at_ sa r = at_ L t → r ≤ end_slot Tl L t.
Proof using Hsa HL1 HL2.
  intros Ht. remember (Z.to_nat (m - 1 - t)) as d eqn:Hd.
  revert t r Ht Hd. induction d as [|d IH]; intros t r Ht Hd Hr Hs.
  - rewrite (end_slot_run_start Tl L sorted_LMS_chars t Ht) by (left; lia).
    pose proof (bucket_upper Tl sa Hsa r Hr) as H. rewrite Hs in H. lia.
  - destruct (Z.eq_dec (at_ Tl (at_ L t)) (at_ Tl (at_ L (t + 1)))) as [Heq|Hne].
    + pose proof (sorted_LMS_elem (t + 1) ltac:(lia)) as Hp%LMS_pred.
      destruct (sa_surj Tl sa Hsa (at_ L (t + 1)) ltac:(lia)) as (r' & Hr' & Hs').
      pose proof (IH (t + 1) r' ltac:(lia) ltac:(lia) Hr' Hs') as Hle.
      pose proof (end_slot_pred Tl L (t + 1) ltac:(lia)) as H.
      replace (t + 1 - 1) with t in H by lia. specialize (H Heq).
      assert (r < r'); [|lia].
      apply (sa_reflect Tl sa Hsa); [done..|]. rewrite Hs, Hs'. apply HL2; lia.
    + rewrite (end_slot_run_start Tl L sorted_LMS_chars t Ht) by (by right).
      pose proof (bucket_upper Tl sa Hsa r Hr) as H. rewrite Hs in H. lia.
Qed.

Lemma slot_S_cell t :
  0 ≤ t < m →
  0 ≤ end_slot Tl L t < n ∧
  is_S false Tl (at_ sa (end_slot Tl L t)) = true ∧
  at_ Tl (at_ sa (end_slot Tl L t)) = at_ Tl (at_ L t).
Proof using Hsa HL1 HL2.
  intros Ht. pose proof (sorted_LMS_elem t Ht) as Hp%LMS_pred.
  destruct Hp as (Hp & HS & _).
  pose proof (end_slot_lower Tl L sorted_LMS_NoDup sorted_LMS_range t Ht) as Hlo.
  pose proof (end_slot_lt Tl L t Ht) as Hhi.
  pose proof (count_if_nonneg (λ x, x <? at_ Tl (at_ L t)) Tl).
  pose proof (count_if_le_length (λ x, x <=? at_ Tl (at_ L t)) Tl).
  assert (Hy : 0 ≤ end_slot Tl L t < n) by lia.
  pose proof (bucket_char Tl sa Hsa _ _ Hy Hlo Hhi) as Hc.
  split; [done|]. split; [|done].
  destruct (sa_surj Tl sa Hsa (at_ L t) ltac:(lia)) as (r & Hr & Hs).
  pose proof (rank_le_slot t r Ht Hr Hs).
  apply (S_cells_up Tl sa Hsa r); [lia|lia|lia|by rewrite Hs|by rewrite Hs].
Qed.

(** What [place_LMS] leaves in [SA[0..n)] is what [induceSA] needs. *)
Lemma seeded_placed s SA :
  (∀ i, 0 ≤ i < m → rd s (SA +ₚ end_slot Tl L i) = Some (at_ L i)) →
  (∀ x, 0 ≤ x < n → (∀ i, 0 ≤ i < m → end_slot Tl L i ≠ x) →
        rd s (SA +ₚ x) = Some 0) →
  ∃ seed, seeded Tl sa seed ∧ holds s SA n seed.
Proof using Hsa HL1 HL2.
  intros H1 H2. exists (λ x, default 0 (rd s (SA +ₚ x))).
  assert (Hcell : ∀ x, 0 ≤ x < n →
            (∃ t, 0 ≤ t < m ∧ end_slot Tl L t = x ∧ rd s (SA +ₚ x) = Some (at_ L t)) ∨
            rd s (SA +ₚ x) = Some 0).
  { intros x Hx. destruct (bounded_search (end_slot Tl L) m x) as [(t & Ht & E)|Hno].
    - left. exists t. split_and!; [lia|lia|done|]. rewrite <- E. by apply H1.
    - right. by apply H2. }
  split; [|intros x Hx; by destruct (Hcell x Hx) as [(t & _ & _ & ->)| ->]].
  split_and!.
  - intros x Hx Hne. destruct (Hcell x Hx) as [(t & Ht & <- & E)|E];
      rewrite E in Hne |- *; simpl in *; [|done].
    destruct (slot_S_cell t Ht) as (_ & HS & Hc).
    split_and!; [by apply sorted_LMS_elem|done|done].
  - intros p Hp. apply HL1 in Hp as (t & Ht)%list_elem_of_lookup.
    pose proof (lookup_lt_Some _ _ _ Ht). apply at_lookup in Ht.
    destruct (slot_S_cell (Z.of_nat t) ltac:(lia)) as (Hy & _).
    exists (end_slot Tl L (Z.of_nat t)). split; [done|].
    rewrite H1 by lia. simpl. done.
  - intros x y Hx Hxy Hy Hnx Hny.
    destruct (Hcell x ltac:(lia)) as [(t & Ht & <- & E)|E];
      rewrite E in Hnx |- *; simpl in *; [|done].
    destruct (Hcell y ltac:(lia)) as [(t' & Ht' & <- & E')|E'];
      rewrite E' in Hny |- *; simpl in *; [|done].
    apply HL2; [lia| |lia].
    destruct (Z.lt_trichotomy t t') as [|[->|Hgt]]; [done|lia|].
    pose proof (end_slot_mono t' t ltac:(lia) Hgt ltac:(lia)). lia.
Qed.

End placed_seeds.

Section stage3_sort.
Variables (T SA B C : ptr) (Tl sa L : list Z) (k cs : Z).
Hypothesis Hsa : is_suffix_array Tl sa = true.
Hypothesis HL1 : ∀ p, p ∈ L ↔ is_LMS false Tl p = true.
Hypothesis HL2 : ∀ t t', 0 ≤ t → t < t' → t' < Z.of_nat (length L) →
                          sfx_lt Tl (at_ L t) (at_ L t') = true.
Hypothesis HF : Forall (λ c, 0 ≤ c < k) Tl.
Hypothesis HdT : disjoint T (Z.of_nat (length Tl)) SA (Z.of_nat (length Tl)).
Hypothesis HdB : disjoint B k SA (Z.of_nat (length Tl)).
Hypothesis HdTB : disjoint T (Z.of_nat (length Tl)) B k.
Notation n := (Z.of_nat (length Tl)).
Notation m := (Z.of_nat (length L)).

(** Lines 553-574 of [computeSA], with more than one LMS position.  [sa] is
    the suffix array of the text, [SA[0..m)] holds the LMS positions in
    ascending order of their suffixes, and [C] the symbol counts.  Then the
    placement loops and [induceSA] return normally and [SA[0..n)] holds
    [sa]; nothing outside [SA[0..n)] and [B[0..k)] changes. *)
Theorem sorted_LMS_to_suffix_array s :
  1 < m → 1 ≤ k →
  valid_buf s SA n → valid_buf s B k →
  holds s T n (at_ Tl) → holds s SA m (at_ L) →
  holds s C k (λ c, count_if (Z.eqb c) Tl) →
  (C = B ∨ disjoint C k B k ∧ disjoint C k SA n) →
  ∃ s', (when_ (1 <? m) (place_LMS T SA C B n k m cs);;
         induceSA T SA C B n k cs) s = (Ret tt, s') ∧
        holds s' SA n (at_ sa) ∧ frame2 s s' SA n B k.
Proof using Hsa HL1 HL2 HF HdT HdB HdTB.
  intros Hm Hk HvSA HvB HT HSA HC HCB.
  assert (Hal : C = B ∨ disjoint C k B k) by (destruct HCB as [|[? _]]; auto).
  destruct (sat_ok_run _ _ _
              (place_LMS_sat T SA B Tl L k cs
                 (sorted_LMS_NoDup Tl L HL2) (sorted_LMS_range Tl L HL1)
                 (sorted_LMS_chars Tl L HL1 HL2) HF HdT HdB s C
                 ltac:(lia) HT HSA HvSA HC HvB Hal HdTB))
    as ([] & s1 & Hrun1 & Hinv & s0 & F0 & F1).
  destruct Hinv as (_ & _ & _ & HvSA1 & HT1 & _ & P1 & P2 & _ & _).
  destruct (seeded_placed Tl sa L Hsa HL1 HL2 s1 SA) as (seed & Hseed & HSA1).
  { intros i Hi. apply P1. lia. }
  { intros x Hx Hno. apply P2; [lia|]. intros i Hi. apply Hno. lia. }
  destruct (slot_S_cell Tl sa L Hsa HL1 HL2 0 ltac:(lia)) as (Hn & _).
  assert (F01 : frame2 s s1 SA n B k).
  { apply (frame2_trans _ s0); [by apply frame2_r|by apply frame2_l]. }
  destruct (induceSA_ok T SA B C Tl sa seed k cs Hsa Hseed HF HdT HdB HdTB s1)
    as (s2 & Hrun2 & HSA2 & F2); [lia|done|done| |done|done| |].
  { by eapply frame2_valid_buf. }
  { destruct HCB as [|(HdCB & HdCS)]; [by left|right].
    split; [|done]. by eapply frame2_holds. }
  exists s2. split; [|split; [done|by eapply frame2_trans]].
  replace (1 <? m) with true by (symmetry; apply Z.ltb_lt; lia).
  unfold when_, mbind, M_bind. by rewrite Hrun1.
Qed.


End stage3_sort.

Lemma sorted_LMS_to_suffix_array_witness :
  let Tl := [1; 0; 2; 0; 2; 0] in
  let s := State [Some [Some 3; Some 1; None; None; None; None];
                  Some (Some <$> Tl);
                  Some [Some 3; Some 1; Some 2];
                  Some [None; None; None]] [] [] in
  ∃ s', (when_ (1 <? 2) (place_LMS T0 SA0 (Ptr 2 0) (Ptr 3 0) 6 3 2 1);;
         induceSA T0 SA0 (Ptr 2 0) (Ptr 3 0) 6 3 1) s = (Ret tt, s') ∧
        holds s' SA0 6 (at_ [5; 3; 1; 0; 4; 2]) ∧
        frame2 s s' SA0 6 (Ptr 3 0) 3.
Proof.
  intros Tl s.
  apply (sorted_LMS_to_suffix_array T0 SA0 (Ptr 3 0) (Ptr 2 0) Tl
           [5; 3; 1; 0; 4; 2] [3; 1] 3 1); subst s Tl.
  - reflexivity.
  - intros p. split.
    + intros [->|[->|[]%elem_of_nil]%elem_of_cons]%elem_of_cons; reflexivity.
    + intros Hp. pose proof (LMS_pred _ _ Hp) as [Hr _]. simpl in Hr.
      assert (p = 1 ∨ p = 2 ∨ p = 3 ∨ p = 4) as [-> | [-> | [-> | ->]]] by lia;
        [set_solver|done|set_solver|done].
  - intros t t' Ht Htt Ht'. simpl in Ht'.
    assert (t = 0) as -> by lia. assert (t' = 1) as -> by lia. reflexivity.
  - repeat constructor; lia.
  - left. simpl. lia.
  - left. simpl. lia.
  - left. simpl. lia.
  - simpl. lia.
  - lia.
  - eexists. split; [reflexivity|]. simpl. lia.
  - eexists. split; [reflexivity|]. simpl. lia.
  - intros i Hi. simpl in Hi.
    assert (i = 0 ∨ i = 1 ∨ i = 2 ∨ i = 3 ∨ i = 4 ∨ i = 5)
      as [-> | [-> | [-> | [-> | [-> | ->]]]]] by lia; reflexivity.
  - intros i Hi. simpl in Hi.
    assert (i = 0 ∨ i = 1) as [-> | ->] by lia; reflexivity.
  - intros i Hi.
    assert (i = 0 ∨ i = 1 ∨ i = 2) as [-> | [-> | ->]] by lia; reflexivity.
  - right. split; left; simpl; lia.
Defined.

(** ** A workspace whose size is not an [int] *)

(** The bound [n + fs <= INT_MAX] of a valid input is needed.  On the text
    [1 0 1] with [k = 2] and the slack [fs = INT_MAX], whatever the array
    [SA] holds and however long it is, the sum [n + fs] of line 369 wraps:
    [alloc_workspace] puts [B] at [SA - 2147483648], and the call stops at
    the first store to [B], in [getBuckets], outside the array. *)
Theorem workspace_offset_wraps (SAcells : list cell) (d : nat) :
  let s := State [Some SAcells; Some (Some <$> [1; 0; 1])] [] [] in
  (∃ s1, alloc_workspace SA0 INT_MAX 3 2 s =
         (Ret (Ptr 2 0, SA0 +ₚ (-2147483648), 1), s1)) ∧
  (computeSA (S d) T0 SA0 INT_MAX 3 2 1 s).1 =
  Abort (OutOfBounds (Ptr 0 (-2147483648))).
Proof.
  intros s. split.
  - eexists. vm_compute. reflexivity.
  - vm_compute. reflexivity.
Qed.

(** ** Assertions that never fail *)

Lemma never_ret {A} line (a : A) : never line (mret a).
Proof. by intros s. Qed.

Lemma never_exit {A} line z : never line (exit_ (A:=A) z).
Proof. by intros s. Qed.

Lemma never_abort {A} line e :
  e ≠ AssertFailed line → never line (abort (A:=A) e).
Proof. intros He s. simpl. congruence. Qed.

Lemma never_bind {A B} line (c : M A) (f : A → M B) :
  never line c → (∀ a, never line (f a)) → never line (c ≫= f).
Proof.
  intros Hc Hf s. specialize (Hc s). unfold mbind, M_bind.
  destruct (c s) as [[a|z|e] s']; simpl in *; [apply Hf|done|].
  intros [= ->]. by apply Hc.
Qed.

(** The same, with what is known of the value of [c]. *)
Lemma never_bind_bounded {A B} line (c : M A) (f : A → M B) Q :
  bounded c Q → never line c → (∀ a, Q a → never line (f a)) →
  never line (c ≫= f).
Proof.
  intros HQ Hc Hf s. specialize (Hc s). specialize (HQ s).
  unfold mbind, M_bind.
  destruct (c s) as [[a|z|e] s']; simpl in *; [by apply Hf|done|].
  intros [= ->]. by apply Hc.
Qed.

Lemma never_load line p : never line (load p).
Proof.
  intros s. unfold load. destruct (cells_at _ _); [|done].
  destruct (_ <? _); [done|]. by destruct (_ !! _) as [[?|]|].
Qed.

Lemma never_chr line T cs a : never line (chr T cs a).
Proof. apply never_load. Qed.

Lemma never_store line p v : never line (store p v).
Proof.
  intros s. unfold store. destruct (cells_at _ _); [|done].
  by destruct (_ || _).
Qed.

Lemma never_malloc line num : never line (malloc num).
Proof.
  intros s. unfold malloc.
  by destruct (match oracle s with [] => _ | _ => _ end).
Qed.

Lemma never_free line p : never line (free p).
Proof.
  intros s. unfold free. destruct (cells_at _ _); [|done].
  by destruct (_ =? _).
Qed.

Lemma never_trace line ev : never line (trace ev).
Proof. by intros s. Qed.

Lemma never_assert_other line l b : l ≠ line → never line (assert_ l b).
Proof.
  intros Hl. unfold assert_. destruct b; [apply never_ret|].
  apply never_abort. congruence.
Qed.

Lemma never_assert_true line l b : b = true → never line (assert_ l b).
Proof. intros ->. apply never_ret. Qed.

Lemma never_when line b c : never line c → never line (when_ b c).
Proof. intros H. destruct b; [done|apply never_ret]. Qed.

Lemma never_function line body : never line body → never line (function body).
Proof.
  intros H s. specialize (H s). unfold function.
  by destruct (body s) as [[z|z|e] s'].
Qed.

Lemma never_for_up {A} line cnt i (body : Z → A → M A) a :
  (∀ i a, never line (body i a)) → never line (for_up cnt i body a).
Proof.
  intros Hb. revert i a. induction cnt as [|cnt IH]; intros i a; simpl.
  - apply never_ret.
  - apply never_bind; auto.
Qed.

Lemma never_for_down {A} line cnt i (body : Z → A → M A) a :
  (∀ i a, never line (body i a)) → never line (for_down cnt i body a).
Proof.
  intros Hb. revert i a. induction cnt as [|cnt IH]; intros i a; simpl.
  - apply never_ret.
  - apply never_bind; auto.
Qed.

Lemma never_loop {L R} line fuel (body : L → M (L + R)) l :
  (∀ l, never line (body l)) → never line (loop fuel body l).
Proof.
  intros Hb. revert l. induction fuel as [|fuel IH]; intros l; simpl.
  - by apply never_abort.
  - apply never_bind; [done|]. intros [l'|r]; [apply IH|apply never_ret].
Qed.

Section guarded.
Variable line : Z.
Hypothesis Hline : line = 122 ∨ line = 261 ∨ line = 454 ∨ line = 497.

Ltac never_known := fail.

Ltac never_tac :=
  repeat first
    [ never_known
    | apply never_ret
    | apply never_exit
    | apply never_load
    | apply never_chr
    | apply never_store
    | apply never_malloc
    | apply never_free
    | apply never_assert_other; lia
    | apply never_bind; [|intros]
    | apply never_when
    | apply never_for_up; intros
    | apply never_for_down; intros
    | apply never_loop; intros
    | progress cbv zeta
    | match goal with
      | |- never _ (match ?x with _ => _ end) => destruct x
      | |- never _ (let (_, _) := ?x in _) => destruct x
      end ].

Lemma never_getCounts T C n k cs : never line (getCounts T C n k cs).
Proof using Hline. unfold getCounts. never_tac. Qed.

Lemma never_getBuckets C B k e : never line (getBuckets C B k e).
Proof using Hline. unfold getBuckets. never_tac. Qed.

Lemma never_scan_run ge T cs n i c0 : never line (scan_run ge T cs n i c0).
Proof using Hline. unfold scan_run. never_tac. Qed.

Lemma never_switch_bucket B c0 c1 b : never line (switch_bucket B c0 c1 b).
Proof using Hline. unfold switch_bucket. never_tac. Qed.

Lemma never_store_b SA b v : never line (store_b SA b v).
Proof using Hline. unfold store_b. never_tac. Qed.

Lemma never_zero_down SA q j : never line (zero_down SA q j).
Proof using Hline. unfold zero_down. never_tac. Qed.

Ltac never_known ::=
  first [ apply never_getCounts | apply never_getBuckets | apply never_scan_run
        | apply never_switch_bucket | apply never_store_b
        | apply never_zero_down ].

Lemma never_sortLMS1 T SA C B n k cs : never line (sortLMS1 T SA C B n k cs).
Proof using Hline. unfold sortLMS1. never_tac. Qed.

Lemma never_postProcLMS1 T SA n m cs :
  0 < n → never line (postProcLMS1 T SA n m cs).
Proof using Hline.
  intros Hn. unfold postProcLMS1.
  apply never_bind; [apply never_assert_true; lia|]. intros _. never_tac.
Qed.

Lemma never_LMSsort2 T SA C B D n k cs :
  never line (LMSsort2 T SA C B D n k cs).
Proof using Hline. unfold LMSsort2. never_tac. Qed.

Lemma never_postProcLMS2 SA n m : 0 < n → never line (postProcLMS2 SA n m).
Proof using Hline.
  intros Hn. unfold postProcLMS2.
  apply never_bind; [apply never_assert_true; lia|]. intros _. never_tac.
Qed.

Lemma never_induceSA T SA C B n k cs : never line (induceSA T SA C B n k cs).
Proof using Hline. unfold induceSA. never_tac. Qed.

Lemma never_alloc_workspace SA fs n k : never line (alloc_workspace SA fs n k).
Proof using Hline. unfold alloc_workspace. never_tac. Qed.

Lemma never_discoverLMS T SA B n cs : never line (discoverLMS T SA B n cs).
Proof using Hline. unfold discoverLMS. never_tac. Qed.

Lemma never_stage1_discover T SA C B n k cs :
  never line (stage1_discover T SA C B n k cs).
Proof using Hline.
  unfold stage1_discover. never_tac.
Qed.

Lemma never_alloc_D C B flags k : never line (alloc_D C B flags k).
Proof using Hline. unfold alloc_D. never_tac. Qed.

Lemma never_prepare_sort2 T SA C B D n k cs j :
  j + 1 < n → never line (prepare_sort2 T SA C B D n k cs j).
Proof using Hline.
  intros Hj. unfold prepare_sort2.
  apply never_bind; [apply never_assert_true; lia|]. intros _. never_tac.
Qed.

Lemma never_place_LMS T SA C B n k m cs :
  never line (place_LMS T SA C B n k m cs).
Proof using Hline. unfold place_LMS. never_tac. Qed.

Lemma never_unrank_LMS T SA RA n m cs :
  never line (unrank_LMS T SA RA n m cs).
Proof using Hline. unfold unrank_LMS. never_tac. Qed.

Lemma never_sort_LMS T SA C B flags n k cs m j b :
  0 < n → (1 ≤ m → j + 1 < n) →
  never line (sort_LMS T SA C B flags n k cs m j b).
Proof using Hline.
  intros Hn Hj. unfold sort_LMS.
  destruct (Z.ltb_spec 1 m); [|never_tac].
  destruct (has flags _).
  - apply never_bind; [apply never_alloc_D|]. intros D.
    apply never_bind; [apply never_prepare_sort2; lia|]. intros _.
    apply never_bind; [apply never_LMSsort2|]. intros _.
    apply never_bind; [by apply never_postProcLMS2|]. intros name. never_tac.
  - apply never_bind; [apply never_sortLMS1|]. intros _.
    by apply never_postProcLMS1.
Qed.

Lemma never_stage3 T SA C B flags n k cs m :
  never line (stage3 T SA C B flags n k cs m).
Proof using Hline.
  unfold stage3. never_tac.
Qed.

(** Line 497, when the size [n + fs] of the workspace is an [int]: the
    slack left to the callee is not negative, the callee's workspace is not
    larger than the caller's, and the assertion holds, with its sum
    exact. *)
Lemma slack_suffices flags fs n k m name newfs flags' ra :
  0 ≤ fs → 0 < n → n + fs ≤ INT_MAX → 0 ≤ m → 2 * m ≤ n →
  (has flags (Z.lor 1 (Z.lor 4 8)) = false → 0 ≤ k ≤ fs) →
  reduced_workspace flags fs n k m name = (newfs, flags', ra) →
  0 ≤ newfs ∧ m + newfs ≤ n + fs - m ∧
  wrap (newfs + m) = newfs + m ∧ Z.shiftr n 1 ≤ newfs + m.
Proof.
  intros Hfs Hn Hint Hm0 Hm Hk Hrw.
  pose proof (Z.mul_div_le n 2 ltac:(lia)) as Hhalf.
  assert (Hsh : Z.shiftr n 1 = n `div` 2).
  { rewrite Z.shiftr_div_pow2 by lia. done. }
  rewrite Hsh.
  apply reduced_workspace_cases in Hrw as [_ Hcases]; [|done..].
  assert (0 ≤ newfs ∧ m + newfs ≤ n + fs - m ∧ n `div` 2 ≤ newfs + m)
    as (? & ? & ?).
  { destruct Hcases as [(E & -> & _)|[(E & -> & _)|(E & -> & _)]];
      try specialize (Hk E); lia. }
  split_and!; try done. apply wrap_id. unfold INT_MIN, INT_MAX in *. lia.
Qed.

Lemma never_stage2 rec T SA C B flags fs n k cs m name :
  (line = 497 →
   0 ≤ fs ∧ 0 < n ∧ n + fs ≤ INT_MAX ∧ 0 ≤ m ∧ 2 * m ≤ n ∧
   (has flags (Z.lor 1 (Z.lor 4 8)) = false → 0 ≤ k ≤ fs)) →
  (∀ RA fs', (line = 497 → m + fs' ≤ INT_MAX) →
             never line (rec RA SA fs' m name sizeof_int)) →
  never line (stage2 rec T SA C B flags fs n k cs m name).
Proof using Hline.
  intros H497 Hrec. unfold stage2.
  destruct (name <? m); [|never_tac].
  apply never_bind; [never_tac|]. intros _.
  apply never_bind; [never_tac|]. intros _.
  destruct (reduced_workspace flags fs n k m name) as [[newfs flags'] ra] eqn:Hrw.
  assert (Hfit : line = 497 →
                 m + newfs ≤ INT_MAX ∧ Z.shiftr n 1 ≤ wrap (newfs + m)).
  { intros Hl. destruct (H497 Hl) as (Hfs & Hn & Hint & Hm0 & Hm & Hk).
    destruct (slack_suffices _ _ _ _ _ _ _ _ _ Hfs Hn Hint Hm0 Hm Hk Hrw)
      as (? & ? & -> & ?). split; [lia|done]. }
  apply never_bind.
  { destruct (decide (line = 497)) as [Hl|Hl].
    - apply never_assert_true, Z.leb_le. by apply Hfit.
    - apply never_assert_other. congruence. }
  intros _. cbv zeta.
  apply never_bind; [never_tac|]. intros _.
  apply never_bind; [apply Hrec; intros Hl; by apply Hfit|]. intros r.
  apply never_bind; [never_tac|]. intros _.
  apply never_bind; [apply never_unrank_LMS|]. intros _.
  never_tac.
Qed.

Lemma never_computeSA depth T SA fs n k cs :
  (line = 497 → n + fs ≤ INT_MAX) →
  never line (computeSA depth T SA fs n k cs).
Proof using Hline.
  revert T fs n k cs. induction depth as [|depth IH]; intros T fs n k cs Hint.
  { by apply never_abort. }
  cbn [computeSA]. apply never_function.
  apply never_bind; [apply never_trace|]. intros _.
  eapply (never_bind_bounded _ _ _ (λ _, 0 ≤ fs ∧ 0 < n ∧ 1 ≤ k)).
  { eapply bounded_mono; [apply bounded_assert; reflexivity|].
    intros ? H. simpl in H. lia. }
  { apply never_assert_other. lia. }
  intros _ (Hfs & Hn & Hk).
  eapply (never_bind_bounded _ _ _
            (λ r : ptr * ptr * Z,
               has r.2 (Z.lor 1 (Z.lor 4 8)) = false → k ≤ fs)).
  { eapply bounded_mono; [apply bounded_alloc_workspace; lia|].
    by intros [[? ?] ?]. }
  { apply never_alloc_workspace. }
  intros [[C B] flags] Hflags. simpl in Hflags. cbv zeta.
  eapply (never_bind_bounded _ _ _
            (λ r : Z * Z * option Z,
               let '(m, j, _) := r in
               0 ≤ m ∧ 2 * m ≤ n ∧ (1 ≤ m → 0 ≤ j ∧ j + 1 < n))).
  { eapply bounded_mono; [by apply bounded_stage1_discover|].
    by intros [[? ?] ?]. }
  { apply never_stage1_discover. }
  intros [[m j] b] (Hm0 & Hm & Hj).
  apply never_bind.
  { apply never_sort_LMS; [done|]. intros ?. by apply Hj. }
  intros name.
  apply never_bind.
  { apply never_stage2.
    - intros Hl. split_and!; try done; [by apply Hint|].
      rewrite has_sort2_flags. intros Hf. split; [lia|by apply Hflags].
    - intros RA fs' Hfs'. by apply IH. }
  intros [[C' B'] flags']. apply never_stage3.
Qed.

End guarded.

(** Three of the assertions of the program never fail, in any run of
    [computeSA] and whatever the memory contains (an access outside a live
    block stops the run): [0 < n] at the entry of [postProcLMS1] and of
    [postProcLMS2] (lines 122 and 261), and [(j + 1) < n] before the
    two-pass sort (line 454).  They follow from the argument check of line
    362 and from the way the scan of stage 1 moves. *)
Theorem checked_assertions_hold depth T SA fs n k cs s line :
  checked line = true →
  (computeSA depth T SA fs n k cs s).1 ≠ Abort (AssertFailed line).
Proof.
  intros Hline.
  assert (line = 122 ∨ line = 261 ∨ line = 454) as Hcases.
  { unfold checked in Hline.
    destruct (Z.eqb_spec line 122); [by left|].
    destruct (Z.eqb_spec line 261); [by right; left|].
    destruct (Z.eqb_spec line 454); [by right; right|done]. }
  apply never_computeSA; lia.
Qed.

Lemma checked_assertions_hold_witness :
  (computeSA 7 T0 SA0 12 6 3 1 (initial [1; 0; 2; 0; 2; 0] 12 [])).1
  ≠ Abort (AssertFailed 454).
Proof.
  apply (checked_assertions_hold 7 T0 SA0 12 6 3 1
           (initial [1; 0; 2; 0; 2; 0] 12 []) 454).
  reflexivity.
Defined.

(** The assertion [(n >> 1) <= (newfs + m)] of line 497 never fails in a
    run of [computeSA] whose workspace size [n + fs] is an [int], whatever
    the memory contains (an access outside a live block stops the run): the
    argument check of line 362, the bound [2 m <= n] of the scan and the
    slack [k <= fs] of the layouts that keep [C] in the tail leave the callee
    a slack that is not negative, and the workspace of every recursive call
    is smaller than that of its caller. *)
Theorem slack_assertion_holds depth T SA fs n k cs s :
  n + fs ≤ INT_MAX →
  (computeSA depth T SA fs n k cs s).1 ≠ Abort (AssertFailed 497).
Proof.
  intros Hint. apply never_computeSA; [lia|done].
Qed.

Lemma slack_assertion_holds_witness :
  (computeSA 8 T0 SA0 0 7 3 1 (initial [2; 1; 2; 1; 2; 1; 2] 0 [])).1
  ≠ Abort (AssertFailed 497).
Proof.
  apply (slack_assertion_holds 8 T0 SA0 0 7 3 1
           (initial [2; 1; 2; 1; 2; 1; 2] 0 [])).
  unfold INT_MAX. lia.
Defined.
